(** * CYaRon graph generators: a shallow embedding and its properties

    The development follows [cyaron/graph.py] (classes [Edge],
    [SwitchGraph], [Graph]) and [cyaron/query.py] (class [RangeQuery]).

    - Python integers are [Z]; the [Counter] of a [SwitchGraph] is a
      [gmap (Z * Z) Z] from ordered pairs to their stored count.
    - Exceptions are values of [exn]; a computation ends in [Ok], in
      [Raise] or, for a loop whose fuel ran out, in [Diverge].
    - The module [random] is a stream of raw draws threaded through the
      computations that use it.
    - The fractions of [tree] are [number]s: an int or a Fraction, which
      is exact, or a float, whose sums and products are rounded to the
      nearest double. *)

From stdpp Require Import gmap list sorting strings.
From Stdlib Require Import ZArith QArith Qround Qabs Qpower Lia.

Open Scope Z_scope.

(** ** Exceptions and outcomes *)

(** [Exception(fmt % args)] keeps the format and its arguments apart.
    [TypeError] is the one of a call that gives a parameter twice, by
    position and by keyword. *)
Inductive exn : Type :=
  | ValueError (msg : string)
  | IndexError
  | TypeError
  | Exception (fmt : string) (args : list Z).

Inductive outcome (A : Type) : Type :=
  | Ok (a : A)
  | Raise (e : exn)
  | Diverge.

Arguments Ok {A} a.
Arguments Raise {A} e.
Arguments Diverge {A}.

Definition not_graphical : exn := ValueError "Degree sequence is not graphical.".

(** Unpacking the [zip] of an empty sequence into [x, y]. *)
Definition unpack_error : exn :=
  ValueError "not enough values to unpack (expected 2, got 0)".

Definition obind {A B} (m : outcome A) (k : A → outcome B) : outcome B :=
  match m with
  | Ok a => k a
  | Raise e => Raise e
  | Diverge => Diverge
  end.

(** [try: ... except IndexError as e: raise ValueError(...) from e] *)
Definition except_IndexError {A} (m : outcome A) (e' : exn) : outcome A :=
  match m with
  | Raise IndexError => Raise e'
  | _ => m
  end.

(** ** The pseudo-random source

    A stream of raw draws; every library call consumes a prefix of it
    and hands the rest on. *)

Definition RNG : Type := nat → Z.

Definition M (A : Type) : Type := RNG → outcome (A * RNG).

Definition ret {A} (a : A) : M A := λ s, Ok (a, s).

Definition raise {A} (e : exn) : M A := λ _, Raise e.

Definition bind {A B} (m : M A) (k : A → M B) : M B :=
  λ s, match m s with
       | Ok (a, s') => k a s'
       | Raise e => Raise e
       | Diverge => Diverge
       end.

Definition lift {A} (o : outcome A) : M A :=
  λ s, match o with
       | Ok a => Ok (a, s)
       | Raise e => Raise e
       | Diverge => Diverge
       end.

Notation "'let*' x ':=' m 'in' k" := (bind m (λ x, k))
  (at level 10, x pattern, m at level 100, k at level 200).

(** The value of a computation, the state of the source forgotten. *)
Definition value {A} (o : outcome (A * RNG)) : outcome A :=
  match o with
  | Ok (a, _) => Ok a
  | Raise e => Raise e
  | Diverge => Diverge
  end.

Definition draw : M Z := λ s, Ok (s 0%nat, λ n, s (S n)).

(** [random.randint(a, b)]: an integer of [[a, b]]; [ValueError] on an
    empty range. *)
Definition randint (a b : Z) : M Z :=
  if b <? a then raise (ValueError "empty range for randrange()")
  else let* r := draw in ret (a + r mod (b - a + 1)).

(** [random.randrange(a, b)]: an integer of [[a, b)]. *)
Definition randrange (a b : Z) : M Z :=
  if b <=? a then raise (ValueError "empty range for randrange()")
  else let* r := draw in ret (a + r mod (b - a)).

(** [random.random()]: a multiple of 2^-53 in [[0, 1)]. *)
Definition random : M Q :=
  let* r := draw in ret (inject_Z (r mod 2 ^ 53) / inject_Z (2 ^ 53))%Q.

(** [a < b] on rationals. *)
Definition Qlt_bool (a b : Q) : bool := negb (Qle_bool b a).

(** [random.sample(population, k)]: [k] elements at pairwise distinct
    positions, in selection order.  Each round picks a position of the
    pool, yields its element and moves the last element of the pool into
    the freed position. *)
Fixpoint sample_pool {A} (pool : list A) (k : nat) : M (list A) :=
  match k with
  | O => ret []
  | S k' =>
      let* r := draw in
      let j := Z.to_nat (r mod Z.of_nat (length pool)) in
      match pool !! j, last pool with
      | Some x, Some y =>
          let* rest := sample_pool (<[j := y]> (removelast pool)) k' in
          ret (x :: rest)
      | _, _ => raise IndexError
      end
  end.

Definition sample {A} (population : list A) (k : Z) : M (list A) :=
  if (k <? 0) || (Z.of_nat (length population) <? k)
  then raise (ValueError "Sample larger than population or is negative")
  else sample_pool population (Z.to_nat k).

(** [itertools.accumulate(weights)] *)
Fixpoint accumulate_from (acc : Z) (l : list Z) : list Z :=
  match l with
  | [] => []
  | w :: l' => (acc + w) :: accumulate_from (acc + w) l'
  end.

Definition accumulate (l : list Z) : list Z := accumulate_from 0 l.

(** [bisect.bisect(a, x, 0, hi)] on a non-decreasing [a]: the first
    position below [hi] whose entry exceeds [x], or [hi]. *)
Fixpoint bisect (a : list Z) (x : Z) (hi : nat) : nat :=
  match hi, a with
  | S hi', c :: a' => if x <? c then O else S (bisect a' x hi')
  | _, _ => O
  end.

(** [random.choices(population, weights, k=2)].  The product
    [random() * total] enters [bisect] only through comparisons with
    the integer cumulative weights, so its integer part, a draw of
    [[0, total)], stands for it. *)
Definition choices2 {A} (population : list A) (weights : list Z) : M (A * A) :=
  let cum_weights := accumulate weights in
  match last cum_weights with
  | None => raise IndexError
  | Some total =>
      if total <=? 0
      then raise (ValueError "Total of weights must be greater than zero")
      else
        let hi := (length population - 1)%nat in
        let* r1 := draw in
        let* r2 := draw in
        match population !! bisect cum_weights (r1 mod total) hi,
              population !! bisect cum_weights (r2 mod total) hi with
        | Some a, Some b => ret (a, b)
        | _, _ => raise IndexError
        end
  end.

(** ** Lists of integers *)

Definition sumZ (l : list Z) : Z := foldr Z.add 0 l.

(** Lexicographic order on pairs and triples, as Python compares tuples
    and lists. *)
Definition pair_le (a b : Z * Z) : Prop :=
  a.1 < b.1 ∨ (a.1 = b.1 ∧ a.2 ≤ b.2).

Definition triple_le (a b : Z * Z * Z) : Prop :=
  pair_le a.1 b.1 ∧ (a.1 = b.1 → a.2 ≤ b.2).

#[global] Instance pair_le_dec a b : Decision (pair_le a b).
Proof. unfold pair_le; apply _. Defined.

#[global] Instance triple_le_dec a b : Decision (triple_le a b).
Proof. unfold triple_le; apply _. Defined.

(** [sorted(l)] on pairs, [l.sort(reverse=True)] on pairs and triples. *)
Definition sorted (l : list (Z * Z)) : list (Z * Z) := merge_sort pair_le l.

Definition sort_reverse2 (l : list (Z * Z)) : list (Z * Z) :=
  merge_sort (flip pair_le) l.

Definition sort_reverse3 (l : list (Z * Z * Z)) : list (Z * Z * Z) :=
  merge_sort (flip triple_le) l.

(** [enumerate(l, 1)] *)
Fixpoint enumerate_from {A} (i : Z) (l : list A) : list (Z * A) :=
  match l with
  | [] => []
  | x :: l' => (i, x) :: enumerate_from (i + 1) l'
  end.

(** [l[i]] for a Python list: negative positions count from the end. *)
Definition py_index {A} (l : list A) (i : Z) : option nat :=
  let n := Z.of_nat (length l) in
  if (0 <=? i) && (i <? n) then Some (Z.to_nat i)
  else if (- n <=? i) && (i <? 0) then Some (Z.to_nat (i + n))
  else None.

(** ** [class SwitchGraph] *)

Module SwitchGraph.

(** [directed] and the counter [__edges]. *)
Record t : Type := Build {
  directed : bool;
  edges : gmap (Z * Z) Z;
}.

(** [self.__edges[k]]: a [Counter] reads a missing key as [0]. *)
Definition count (m : gmap (Z * Z) Z) (k : Z * Z) : Z := default 0 (m !! k).

Definition get_edges (g : t) : list (Z * Z) :=
  sorted (foldl (λ ret kc,
                   if directed g || (kc.1.1 <=? kc.1.2)
                   then ret ++ replicate (Z.to_nat kc.2) kc.1 else ret)
                [] (map_to_list (edges g))).

Definition edge_count (g : t) : Z :=
  foldl (λ val kc, if kc.1.1 <=? kc.1.2 then val + kc.2 else val)
        0 (map_to_list (edges g)).

Definition __insert (m : gmap (Z * Z) Z) (u v : Z) : gmap (Z * Z) Z :=
  <[(u, v) := count m (u, v) + 1]> m.

Definition __remove (m : gmap (Z * Z) Z) (u v : Z) : gmap (Z * Z) Z :=
  let m' := <[(u, v) := count m (u, v) - 1]> m in
  if count m' (u, v) =? 0 then delete (u, v) m' else m'.

Definition insert (g : t) (u v : Z) : t :=
  let m := __insert (edges g) u v in
  Build (directed g)
        (if negb (directed g) && negb (u =? v) then __insert m v u else m).

Definition remove (g : t) (u v : Z) : t :=
  let m := __remove (edges g) u v in
  Build (directed g)
        (if negb (directed g) && negb (u =? v) then __remove m v u else m).

(** [__init__(edges, directed)] *)
Definition init (es : list (Z * Z)) (directed : bool) : t :=
  foldl (λ g e, insert g e.1 e.2) (Build directed ∅) es.

(** [sorted(first)] on a pair. *)
Definition sorted_pair (k : Z * Z) : Z * Z :=
  if k.1 <=? k.2 then k else (k.2, k.1).

(** [k in self.__edges] *)
Definition mem (k : Z * Z) (m : gmap (Z * Z) Z) : bool :=
  bool_decide (is_Some (m !! k)).

(** A drawn key as [switch] unpacks it: [first if self.directed else
    sorted(first)]. *)
Definition oriented (g : t) (k : Z * Z) : Z * Z :=
  if directed g then k else sorted_pair k.

(** The part of [switch] that follows the draw of [first] and [second]. *)
Definition switch_on (g : t) (self_loop repeated_edges : bool)
    (first second : Z * Z) : t * bool :=
  let '(x1, y1) := oriented g first in
  let '(x2, y2) := oriented g second in
  if (if self_loop
      then (x1 =? x2) || (y1 =? y2)
      else (x1 =? x2) || (x1 =? y2) || (y1 =? x2) || (y1 =? y2))
  then (g, false)
  else if negb repeated_edges
          && (mem (x1, y2) (edges g) || mem (x2, y1) (edges g))
  then (g, false)
  else (insert (remove (insert (remove g x1 y1) x1 y2) x2 y2) x2 y1, true).

(** [switch]: the two keys are drawn with their counts as weights.  The
    order in which the dict lists its keys only settles which draw
    selects which key; the order of the map takes its place. *)
Definition switch (g : t) (self_loop repeated_edges : bool) : M (t * bool) :=
  let items := map_to_list (edges g) in
  let* fs := choices2 (items.*1) (items.*2) in
  ret (switch_on g self_loop repeated_edges fs.1 fs.2).

(** A run of calls to [switch], each with its own [self_loop] and
    [repeated_edges]; [Graph.from_degree_sequence] runs
    [for _ in range(n_iter): sg.switch(...)]. *)
Fixpoint switches (calls : list (bool * bool)) (g : t) : M t :=
  match calls with
  | [] => ret g
  | c :: calls' => let* gb := switch g c.1 c.2 in switches calls' gb.1
  end.

(** [max(...)] of a generator: [ValueError] when it is empty. *)
Definition py_max (l : list Z) : outcome Z :=
  match l with
  | [] => Raise (ValueError "max() arg is an empty sequence")
  | x :: l' => Ok (foldl Z.max x l')
  end.

(** *** [from_directed_degree_sequence]

    A working entry [[sout, sin, vn]] is the triple [(sout, sin, vn)]. *)

(** [while in_deg and degseq[j][0]: ...] for the entry at [j], whose
    first field is [out].  The loop runs at most [max in_deg out] times
    unless both are negative, when it does not end. *)
Fixpoint directed_consume (fuel : nat) (repeated_edges : bool) (vfrom vto : Z)
    (in_deg out : Z) (ret : t) : outcome (Z * Z * t) :=
  if (in_deg =? 0) || (out =? 0) then Ok (in_deg, out, ret)
  else match fuel with
       | O => Diverge
       | S fuel' =>
           let ret' := insert ret vfrom vto in
           if negb repeated_edges then Ok (in_deg - 1, out - 1, ret')
           else directed_consume fuel' repeated_edges vfrom vto
                                 (in_deg - 1) (out - 1) ret'
       end.

(** [while in_deg: ...], from position [j] on. *)
Fixpoint directed_walk (fuel : nat) (self_loop repeated_edges : bool) (vto : Z)
    (j : nat) (in_deg : Z) (degseq : list (Z * Z * Z)) (ret : t)
    : outcome (list (Z * Z * Z) * t) :=
  if in_deg =? 0 then Ok (degseq, ret)
  else match fuel with
       | O => Diverge
       | S fuel' =>
           match degseq !! j with
           | None => Raise IndexError
           | Some (_, _, vfrom) =>
               let j' := if (vto =? vfrom) && negb self_loop then S j else j in
               match degseq !! j' with
               | None => Raise IndexError
               | Some (out, sin, vfrom') =>
                   obind (directed_consume (Z.to_nat (Z.max in_deg out))
                            repeated_edges vfrom' vto in_deg out ret)
                     (λ '(in_deg', out', ret'),
                        directed_walk fuel' self_loop repeated_edges vto (S j')
                          in_deg' (<[j' := (out', sin, vfrom')]> degseq) ret')
               end
           end
       end.

(** [while max(s[1] for s in degseq) > 0: ...] *)
Fixpoint directed_loop (fuel : nat) (self_loop repeated_edges : bool)
    (degseq : list (Z * Z * Z)) (ret : t) : outcome t :=
  obind (py_max ((λ s, s.1.2) <$> degseq))
    (λ m,
       if m <=? 0 then Ok ret
       else match fuel with
            | O => Diverge
            | S fuel' =>
                match list_find (λ s, 0 < s.1.2) degseq with
                | None => Raise IndexError
                | Some (k0, (out, in_deg, vto)) =>
                    obind (directed_walk (S (length degseq)) self_loop
                             repeated_edges vto 0 in_deg
                             (<[k0 := (out, 0, vto)]> degseq) ret)
                      (λ '(degseq', ret'),
                         directed_loop fuel' self_loop repeated_edges
                           (sort_reverse3 degseq') ret')
                end
            end).

Definition from_directed_degree_sequence (degree_sequence : list (Z * Z))
    (self_loop repeated_edges : bool) : outcome t :=
  if existsb (λ xy, (xy.1 <? 0) || (xy.2 <? 0)) degree_sequence
  then Raise not_graphical
  else match degree_sequence with
       | [] => Raise unpack_error
       | _ =>
           let x := degree_sequence.*1 in
           let y := degree_sequence.*2 in
           if negb (sumZ x =? sumZ y) then Raise not_graphical
           else
             let ret := Build true ∅ in
             if (length degree_sequence =? 0)%nat then Ok ret
             else
               let degseq :=
                 sort_reverse3 ((λ e, (e.2.2, e.2.1, e.1))
                                  <$> enumerate_from 1 degree_sequence) in
               except_IndexError
                 (directed_loop (length degseq) self_loop repeated_edges
                    degseq ret)
                 not_graphical
       end.

(** *** [from_undirected_degree_sequence]

    A working entry [[deg, i]] is the pair [(deg, i)]. *)

(** [while deg > 1: deg -= 2; edges.append((x, x)); ...] *)
Fixpoint undirected_loops (fuel : nat) (repeated_edges : bool) (x : Z)
    (deg : Z) (edges : list (Z * Z)) : outcome (Z * list (Z * Z)) :=
  if deg <=? 1 then Ok (deg, edges)
  else match fuel with
       | O => Diverge
       | S fuel' =>
           if negb repeated_edges then Ok (deg - 2, edges ++ [(x, x)])
           else undirected_loops fuel' repeated_edges x (deg - 2)
                                 (edges ++ [(x, x)])
       end.

(** [while deg and degseq[y][0]: ...] for the entry [[dy, vy]] at [y]. *)
Fixpoint undirected_consume (fuel : nat) (repeated_edges : bool) (x vy : Z)
    (deg dy : Z) (edges : list (Z * Z)) : outcome (Z * Z * list (Z * Z)) :=
  if (deg =? 0) || (dy =? 0) then Ok (deg, dy, edges)
  else match fuel with
       | O => Diverge
       | S fuel' =>
           let edges' := edges ++ [(x, vy)] in
           if negb repeated_edges then Ok (deg - 1, dy - 1, edges')
           else undirected_consume fuel' repeated_edges x vy
                                   (deg - 1) (dy - 1) edges'
       end.

(** [while deg: ...], from position [y] on. *)
Fixpoint undirected_walk (fuel : nat) (repeated_edges : bool) (x : Z)
    (y : nat) (deg : Z) (degseq : list (Z * Z)) (edges : list (Z * Z))
    : outcome (list (Z * Z) * list (Z * Z)) :=
  if deg =? 0 then Ok (degseq, edges)
  else match fuel with
       | O => Diverge
       | S fuel' =>
           match degseq !! y with
           | None => Raise IndexError
           | Some (dy, vy) =>
               obind (undirected_consume (Z.to_nat (Z.max deg dy))
                        repeated_edges x vy deg dy edges)
                 (λ '(deg', dy', edges'),
                    undirected_walk fuel' repeated_edges x (S y) deg'
                      (<[y := (dy', vy)]> degseq) edges')
           end
       end.

(** [while len(edges) * 2 < sum(degree_sequence): ...] *)
Fixpoint undirected_loop (fuel : nat) (self_loop repeated_edges : bool)
    (total : Z) (degseq : list (Z * Z)) (edges : list (Z * Z))
    : outcome (list (Z * Z)) :=
  if total <=? Z.of_nat (length edges) * 2 then Ok edges
  else match fuel with
       | O => Diverge
       | S fuel' =>
           match degseq !! 0%nat with
           | None => Raise IndexError
           | Some (deg, x) =>
               let degseq0 := <[0%nat := (0, x)]> degseq in
               obind (if self_loop
                      then undirected_loops (Z.to_nat deg) repeated_edges x
                                            deg edges
                      else Ok (deg, edges))
                 (λ '(deg1, edges1),
                    obind (undirected_walk (S (length degseq)) repeated_edges
                             x 1 deg1 degseq0 edges1)
                      (λ '(degseq', edges'),
                         undirected_loop fuel' self_loop repeated_edges total
                           (sort_reverse2 degseq') edges'))
           end
       end.

Definition from_undirected_degree_sequence (degree_sequence : list Z)
    (self_loop repeated_edges : bool) : outcome t :=
  if existsb (λ x, x <? 0) degree_sequence then Raise not_graphical
  else if negb (sumZ degree_sequence mod 2 =? 0) then Raise not_graphical
  else if (length degree_sequence =? 0)%nat then Ok (init [] false)
  else
    let degseq :=
      sort_reverse2 ((λ e, (e.2, e.1)) <$> enumerate_from 1 degree_sequence) in
    obind (except_IndexError
             (undirected_loop (Z.to_nat (sumZ degree_sequence)) self_loop
                repeated_edges (sumZ degree_sequence) degseq [])
             not_graphical)
      (λ edges, Ok (init edges false)).

(** *** Degrees of a stored multiset

    The number of arcs leaving and entering a vertex, and for an
    undirected multiset the number of edge ends at it (a self-loop has
    two), read off the counter. *)

Definition msum (f : Z * Z → Z) (m : gmap (Z * Z) Z) : Z :=
  sumZ ((λ kc, f kc.1 * kc.2) <$> map_to_list m).

Definition ind (a b : Z) : Z := if a =? b then 1 else 0.

Definition out_degree (g : t) (v : Z) : Z := msum (λ k, ind k.1 v) (edges g).

Definition in_degree (g : t) (v : Z) : Z := msum (λ k, ind k.2 v) (edges g).

Definition degree (g : t) (v : Z) : Z :=
  msum (λ k, ind k.1 v * (1 + ind k.2 v)) (edges g).

(** The invariant of the counter: every stored count is positive, and an
    undirected multiset stores a pair of distinct vertices in both
    orders with one count. *)
Definition wf (g : t) : Prop :=
  map_Forall (λ k c, 0 < c ∧
                (directed g = false → k.1 ≠ k.2 → edges g !! (k.2, k.1) = Some c))
             (edges g).

#[global] Instance wf_dec g : Decision (wf g).
Proof. unfold wf; apply _. Defined.

(** The same degrees, counted in a sequence of edges such as
    [get_edges] returns. *)
Definition starts_at (es : list (Z * Z)) (v : Z) : Z :=
  Z.of_nat (length (filter (λ e, e.1 = v) es)).

Definition ends_at (es : list (Z * Z)) (v : Z) : Z :=
  Z.of_nat (length (filter (λ e, e.2 = v) es)).

(** *** Quantities of the proofs *)

(** The indicator of a key. *)
Definition kind (k k' : Z * Z) : Z := if decide (k = k') then 1 else 0.

(** A map stores no zero exactly when a key is stored iff its count is
    not zero; the invariant, read on counts. *)
Definition live (m : gmap (Z * Z) Z) : Prop :=
  ∀ k, m !! k = None ∨ ∃ c, m !! k = Some c ∧ c ≠ 0.

(** The test of [switch_on], on the oriented draws. *)
Definition rejected (g : t) (sl re : bool) (first second : Z * Z) : Prop :=
  let '(x1, y1) := oriented g first in
  let '(x2, y2) := oriented g second in
  (if sl then x1 = x2 ∨ y1 = y2
   else x1 = x2 ∨ x1 = y2 ∨ y1 = x2 ∨ y1 = y2)
  ∨ (re = false
     ∧ (is_Some (edges g !! (x1, y2)) ∨ is_Some (edges g !! (x2, y1)))).

(** The demand still written in the working list of the directed
    realization, weighted by [φ] on the vertices. *)
Definition rem_out (φ : Z → Z) (l : list (Z * Z * Z)) : Z :=
  sumZ ((λ s, s.1.1 * φ s.2) <$> l).

Definition rem_in (φ : Z → Z) (l : list (Z * Z * Z)) : Z :=
  sumZ ((λ s, s.1.2 * φ s.2) <$> l).

Definition nonneg3 (l : list (Z * Z * Z)) : Prop :=
  Forall (λ s, 0 ≤ s.1.1 ∧ 0 ≤ s.1.2) l.

(** The number of entries whose in-degree is still to be served. *)
Definition pending (l : list (Z * Z * Z)) : nat :=
  length (filter (λ i, 0 < i) ((λ s, s.1.2) <$> l)).

(** Edge ends weighted by [φ], in the list of edges built so far and in
    the demand still written in the working list. *)
Definition ends (φ : Z → Z) (es : list (Z * Z)) : Z :=
  sumZ ((λ e, φ e.1 + φ e.2) <$> es).

Definition rem_deg (φ : Z → Z) (l : list (Z * Z)) : Z :=
  sumZ ((λ s, s.1 * φ s.2) <$> l).

Definition nonneg2 (l : list (Z * Z)) : Prop := Forall (λ s, 0 ≤ s.1) l.

(** After [degseq.sort(reverse=True)] the first entry has the largest
    remaining degree. *)
Definition top_max (l : list (Z * Z)) : Prop :=
  match l with
  | [] => True
  | s0 :: l' => Forall (λ s, s.1 ≤ s0.1) l'
  end.

(** The key of the mirrored pair. *)
Definition swap (k : Z * Z) : Z * Z := (k.2, k.1).

(** The sequence [get_edges] sorts. *)
Definition raw_edges (g : t) : list (Z * Z) :=
  foldl (λ ret kc,
           if directed g || (kc.1.1 <=? kc.1.2)
           then ret ++ replicate (Z.to_nat kc.2) kc.1 else ret)
        [] (map_to_list (edges g)).

(** *** What the edges and the vertices of a multiset are *)

(** How often a pair stands in a sequence of edges. *)
Definition occurrences (es : list (Z * Z)) (k : Z * Z) : Z :=
  Z.of_nat (length (filter (λ e, e = k) es)).

(** Every stored pair joins vertices of [1 .. n]. *)
Definition vertices_in (n : Z) (g : t) : Prop :=
  map_Forall (λ k _, 1 ≤ k.1 ≤ n ∧ 1 ≤ k.2 ≤ n) (edges g).

(** The weight 1 on the integers that are no vertex of [1 .. n]: a
    multiset whose ends have weight 0 in all stays on the vertices. *)
Definition outside (n : Z) (v : Z) : Z :=
  if (1 <=? v) && (v <=? n) then 0 else 1.

End SwitchGraph.

(** ** [class Edge] and [class Graph] *)

Record Edge : Type := mkEdge {
  start : Z;
  end_ : Z;
  weight : Z;
}.

(** [**kwargs]: an absent key is [None], and [kwargs.get(key, default)]
    is [default default_value (key kw)].  A [weight_limit] is a number
    [inl hi] or a pair [inr (lo, hi)].  The keys [chain] and [flower],
    which [forest] hands on to [tree], hold exact fractions: an int or
    a [fractions.Fraction]. *)
Record kwargs : Type := mkKwargs {
  kw_directed : option bool;
  kw_self_loop : option bool;
  kw_repeated_edges : option bool;
  kw_weight_limit : option (Z + Z * Z);
  kw_weight_gen : option (M Z);
  kw_father_gen : option (Z → M Z);
  kw_extra_edge : option Z;
  kw_chain : option Q;
  kw_flower : option Q;
}.

Definition no_kwargs : kwargs :=
  mkKwargs None None None None None None None None None.

(** [for x in l: body] over a state. *)
Fixpoint for_each {A S} (l : list A) (body : A → S → M S) (st : S) : M S :=
  match l with
  | [] => ret st
  | x :: l' => let* st' := body x st in for_each l' body st'
  end.

(** [range(a, b)] *)
Definition range (a b : Z) : list Z := seqZ a (b - a).

(** [int(q)]: truncation towards zero. *)
Definition int_of_Q (q : Q) : Z :=
  if Qle_bool 0 q then Qfloor q else Qceiling q.

(** ** Numbers

    [tree] documents [chain] and [flower] as floats and gives them the
    int 0 as default.  An int and a [fractions.Fraction] are exact.  A
    float is a double, written here by its exact value; arithmetic with
    a float rounds to the nearest double, of two nearest ones to that
    with the even significand.  A double has 53 bits and an exponent
    from -1074 on.  Overflow is left out: it needs a [point_count] of
    2^1024, more vertices than a list holds.  Neither are [nan] and the
    infinities numbers here; the first test of [tree] refuses them. *)

(** The integer nearest to [q], of two nearest ones the even one. *)
Definition round_half_even (q : Q) : Z :=
  let f := Qfloor q in
  match (q - inject_Z f ?= 1 # 2)%Q with
  | Lt => f
  | Gt => f + 1
  | Eq => if Z.even f then f else f + 1
  end.

(** The [e] with [2^e <= |q| < 2^(e+1)], for [q] other than 0. *)
Definition binade (q : Q) : Z :=
  let e := Z.log2 (Z.abs (Qnum q)) - Z.log2 (Zpos (Qden q)) in
  if Qle_bool (2 ^ e) (Qabs q) then e else e - 1.

(** The double nearest to [q]. *)
Definition round_double (q : Q) : Q :=
  let e := Z.max (binade q - 52) (-1074) in
  (inject_Z (round_half_even (q / 2 ^ e)) * 2 ^ e)%Q.

Inductive number : Type :=
  | Exact (q : Q)   (* an int or a Fraction *)
  | Float (x : Q).  (* a float *)

Definition num_value (a : number) : Q :=
  match a with
  | Exact q => q
  | Float x => x
  end.

(** [float(a)] *)
Definition to_float (a : number) : Q :=
  match a with
  | Exact q => round_double q
  | Float x => x
  end.

(** [a + b] and [a * b]: exact on ints and Fractions; with a float, the
    other operand is made a float and the result is rounded. *)
Definition num_add (a b : number) : number :=
  match a, b with
  | Exact p, Exact q => Exact (p + q)
  | _, _ => Float (round_double (to_float a + to_float b))
  end.

Definition num_mul (a b : number) : number :=
  match a, b with
  | Exact p, Exact q => Exact (p * q)
  | _, _ => Float (round_double (to_float a * to_float b))
  end.

(** [a <= b]: Python compares an int or a Fraction with a float by
    their values. *)
Definition num_le (a b : number) : bool :=
  Qle_bool (num_value a) (num_value b).

(** [int(a)] *)
Definition num_int (a : number) : Z := int_of_Q (num_value a).

Module Graph.

Record t : Type := Build {
  directed : bool;
  edges : list (list Edge);
}.

(** [__init__(point_count, directed)] *)
Definition init (point_count : Z) (directed : bool) : t :=
  Build directed (replicate (Z.to_nat (point_count + 1)) []).

Definition iterate_edges (g : t) : list Edge :=
  concat ((λ node, filter (λ e, end_ e >= start e ∨ directed g = true) node)
            <$> edges g).

Definition edge_count (g : t) : Z := Z.of_nat (length (iterate_edges g)).

Definition __add_edge (g : t) (x y w : Z) : outcome t :=
  match py_index (edges g) x with
  | Some i =>
      Ok (Build (directed g)
            (alter (λ node, node ++ [mkEdge x y w]) i (edges g)))
  | None => Raise IndexError
  end.

Definition add_edge (g : t) (x y : Z) (weight : Z) : outcome t :=
  obind (__add_edge g x y weight)
    (λ g', if negb (directed g') && negb (x =? y)
           then __add_edge g' y x weight else Ok g').

(** Modelled from the spec: [list_like] of [cyaron/utils.py], which is
    not among the sources.  The docstrings of the factories take
    [weight_limit] as a pair of limits or as one number, the upper
    limit; [if not list_like(weight_limit): weight_limit = (1,
    weight_limit)] is the case [inl] below. *)
Definition weight_limit_of (kw : kwargs) : Z * Z :=
  match default (inr (1, 1)) (kw_weight_limit kw) with
  | inl hi => (1, hi)
  | inr lohi => lohi
  end.

(** [kwargs.get("weight_gen", lambda: random.randint(weight_limit[0],
    weight_limit[1]))] and [kwargs.get("father_gen", lambda cur:
    random.randrange(1, cur))]. *)
Definition weight_gen_of (kw : kwargs) : M Z :=
  default (randint (weight_limit_of kw).1 (weight_limit_of kw).2)
          (kw_weight_gen kw).

Definition father_gen_of (kw : kwargs) : Z → M Z :=
  default (λ cur, randrange 1 cur) (kw_father_gen kw).

(** [tree(point_count, chain, flower, **kwargs)] *)
Definition tree (point_count : Z) (chain flower : number) (kw : kwargs)
    : M t :=
  let directed := default false (kw_directed kw) in
  let weight_gen := weight_gen_of kw in
  let father_gen := father_gen_of kw in
  if negb (num_le (Exact 0) chain && num_le chain (Exact 1))
     || negb (num_le (Exact 0) flower && num_le flower (Exact 1))
  then raise (Exception "chain and flower must be between 0 and 1" [])
  else if negb (num_le (num_add chain flower) (Exact 1))
  then raise (Exception "chain plus flower must be smaller than 1" [])
  else
    let graph := init point_count directed in
    let chain_count :=
      num_int (num_mul (Exact (inject_Z (point_count - 1))) chain) in
    let flower_count :=
      num_int (num_mul (Exact (inject_Z (point_count - 1))) flower) in
    let chain_count :=
      if chain_count >? point_count - 1 then point_count - 1 else chain_count in
    let flower_count :=
      if chain_count + flower_count >? point_count - 1
      then point_count - 1 - chain_count else flower_count in
    let random_count := point_count - 1 - chain_count - flower_count in
    let* graph :=
      for_each (range 2 (chain_count + 2))
        (λ i graph, let* w := weight_gen in lift (add_edge graph (i - 1) i w))
        graph in
    let* graph :=
      for_each (range (chain_count + 2) (chain_count + flower_count + 2))
        (λ i graph, let* w := weight_gen in lift (add_edge graph 1 i w))
        graph in
    for_each (range (point_count - random_count + 1) (point_count + 1))
      (λ i graph,
         let* u := father_gen i in
         let* w := weight_gen in
         lift (add_edge graph u i w))
      graph.

Definition _calc_max_edge (point_count : Z) (directed self_loop : bool) : Z :=
  let max_edge := point_count * (point_count - 1) in
  let max_edge := if negb directed then max_edge / 2 else max_edge in
  if self_loop then max_edge + point_count else max_edge.

Definition too_many_edges : string :=
  "the number of edges of this kind of graph which has %d vertexes must be less than or equal to %d.".

(** [while i < edge_count: ...] of [graph]; a rejected draw leaves [i]
    as it is, so the loop need not end: it runs on [fuel]. *)
Fixpoint graph_loop (fuel : nat) (point_count edge_count : Z)
    (directed self_loop repeated_edges : bool) (weight_gen : M Z)
    (i : Z) (used_edges : gset (Z * Z)) (graph : t) : M t :=
  if edge_count <=? i then ret graph
  else match fuel with
       | O => λ _, Diverge
       | S fuel' =>
           let* u := randint 1 point_count in
           let* v := randint 1 point_count in
           if (negb self_loop && (u =? v))
              || (negb repeated_edges && bool_decide ((u, v) ∈ used_edges))
           then graph_loop fuel' point_count edge_count directed self_loop
                           repeated_edges weight_gen i used_edges graph
           else
             let* w := weight_gen in
             let* graph' := lift (add_edge graph u v w) in
             let used_edges' :=
               if negb repeated_edges
               then (if negb directed
                     then {[(v, u)]} ∪ ({[(u, v)]} ∪ used_edges)
                     else {[(u, v)]} ∪ used_edges)
               else used_edges in
             graph_loop fuel' point_count edge_count directed self_loop
                        repeated_edges weight_gen (i + 1) used_edges' graph'
       end.

Definition graph (fuel : nat) (point_count edge_count : Z) (kw : kwargs) : M t :=
  let directed := default false (kw_directed kw) in
  let self_loop := default true (kw_self_loop kw) in
  let repeated_edges := default true (kw_repeated_edges kw) in
  if negb repeated_edges
     && (edge_count >? _calc_max_edge point_count directed self_loop)
  then raise (Exception too_many_edges
                [point_count; _calc_max_edge point_count directed self_loop])
  else
    graph_loop fuel point_count edge_count directed self_loop repeated_edges
               (weight_gen_of kw) 0 ∅ (init point_count directed).

(** [x + (x >= point_to_skip)] *)
Definition skip (point_to_skip : Q) (x : Z) : Z :=
  x + (if Qle_bool point_to_skip (inject_Z x) then 1 else 0).

Definition hack_spfa (point_count : Z) (kw : kwargs) : M t :=
  let directed := default false (kw_directed kw) in
  let extraedg := default 2 (kw_extra_edge kw) in
  let weight_gen := weight_gen_of kw in
  let point_to_skip : Q :=
    if point_count mod 2 =? 1
    then (inject_Z point_count / 2 + 1)%Q
    else inject_Z (point_count + 3) in
  let graph := init point_count directed in
  let half := int_of_Q (inject_Z point_count / 2) in
  let* graph :=
    for_each (range 1 half)
      (λ i graph,
         let* w := weight_gen in
         let* graph :=
           lift (add_edge graph (skip point_to_skip i)
                   (skip point_to_skip (i + 1)) w) in
         let* w := weight_gen in
         lift (add_edge graph (skip point_to_skip (i + half))
                 (skip point_to_skip (i + half + 1)) w))
      graph in
  let* graph :=
    for_each (range 1 (half + 1))
      (λ i graph,
         let* w := weight_gen in
         lift (add_edge graph (skip point_to_skip i)
                 (skip point_to_skip (i + half)) w))
      graph in
  for_each (range 0 extraedg)
    (λ _ graph,
       let* u := randint 1 point_count in
       let* v := randint 1 point_count in
       let* w := weight_gen in
       lift (add_edge graph u v w))
    graph.

Definition forest (point_count tree_count : Z) (kw : kwargs) : M t :=
  if (tree_count <=? 0) || (tree_count >? point_count)
  then raise (ValueError "tree_count must be between 1 and point_count")
  else
    let* tree := tree point_count (Exact (default 0%Q (kw_chain kw)))
                      (Exact (default 0%Q (kw_flower kw))) kw in
    let tree_edges := iterate_edges tree in
    let result := init point_count (directed tree) in
    let* need_add :=
      sample tree_edges (Z.of_nat (length tree_edges) - tree_count + 1) in
    for_each need_add
      (λ edge result,
         lift (add_edge result (start edge) (end_ edge) (weight edge)))
      result.

(** [chain(point_count, **kwargs)] and [flower(point_count, **kwargs)]
    call [Graph.tree(point_count, 1, 0, **kwargs)] and
    [Graph.tree(point_count, 0, 1, **kwargs)]: a key [chain] or [flower]
    among the keyword arguments gives that parameter of [tree] a second
    value, and the call raises [TypeError]. *)
Definition chain (point_count : Z) (kw : kwargs) : M t :=
  match kw_chain kw, kw_flower kw with
  | None, None => tree point_count (Exact 1) (Exact 0) kw
  | _, _ => raise TypeError
  end.

Definition flower (point_count : Z) (kw : kwargs) : M t :=
  match kw_chain kw, kw_flower kw with
  | None, None => tree point_count (Exact 0) (Exact 1) kw
  | _, _ => raise TypeError
  end.

(** The choice of a parent in [binary_tree]: a position of the pool is
    drawn, [can.pop()] takes the last element off, and the last element
    moves into the drawn position unless that was the last one. *)
Definition take_parent (can : list Z) : M (Z * list Z) :=
  let* point_index := randint 0 (Z.of_nat (length can) - 1) in
  match can !! Z.to_nat point_index, last can with
  | Some node, Some del_last_node =>
      let can := removelast can in
      ret (node,
           if point_index <? Z.of_nat (length can)
           then <[Z.to_nat point_index := del_last_node]> can else can)
  | _, _ => raise IndexError
  end.

(** [left] and [right] are given by their values; they only decide
    which of the two pools a parent comes from. *)
Definition binary_tree (point_count : Z) (left right : Q) (kw : kwargs)
    : M t :=
  let directed := default false (kw_directed kw) in
  let weight_gen := weight_gen_of kw in
  if negb (Qle_bool 0 left && Qle_bool left 1)
     || negb (Qle_bool 0 right && Qle_bool right 1)
  then raise (Exception "left and right must be between 0 and 1" [])
  else if negb (Qle_bool (left + right) 1)
  then raise (Exception "left plus right must be smaller than 1" [])
  else
    let* st :=
      for_each (range 2 (point_count + 1))
        (λ i (st : list Z * list Z * t),
           let can_left := st.1.1 in
           let can_right := st.1.2 in
           let graph := st.2 in
           let* edge_pos := random in
           if Qlt_bool edge_pos left
              || (Qlt_bool (left + right) edge_pos
                  && Qle_bool edge_pos ((1 - left - right) / 2))
           then
             let* nc := take_parent can_left in
             let* w := weight_gen in
             let* graph := lift (add_edge graph nc.1 i w) in
             ret (nc.2 ++ [i], can_right ++ [i], graph)
           else
             let* nc := take_parent can_right in
             let* w := weight_gen in
             let* graph := lift (add_edge graph nc.1 i w) in
             ret (can_left ++ [i], nc.2 ++ [i], graph))
        ([1], [1], init point_count directed) in
    ret st.2.

(** [from_degree_sequence] called with [n_iter]; without it the code
    estimates the number of switches with [math.log], in floating
    point.  A sequence of integers is undirected, a sequence of pairs is
    directed; [weight_limit] is an [int] or a pair. *)
Definition from_degree_sequence (degree_sequence : list Z + list (Z * Z))
    (n_iter : Z) (self_loop repeated_edges : bool)
    (weight_limit : Z + Z * Z) (weight_gen : option (M Z)) (iter_limit : Z)
    : M t :=
  let len := match degree_sequence with
             | inl D => length D
             | inr D => length D
             end in
  if (len =? 0)%nat then ret (init 0 false)
  else
    let directed := match degree_sequence with
                    | inl _ => false
                    | inr _ => true
                    end in
    let weight_limit := match weight_limit with
                        | inl hi => (1, hi)
                        | inr lohi => lohi
                        end in
    let weight_gen :=
      default (randint weight_limit.1 weight_limit.2) weight_gen in
    let* sg :=
      lift (match degree_sequence with
            | inl D =>
                SwitchGraph.from_undirected_degree_sequence
                  D self_loop repeated_edges
            | inr D =>
                SwitchGraph.from_directed_degree_sequence
                  D self_loop repeated_edges
            end) in
    let n_iter := Z.min n_iter iter_limit in
    let* sg :=
      SwitchGraph.switches
        (replicate (Z.to_nat n_iter) (self_loop, repeated_edges)) sg in
    for_each (SwitchGraph.get_edges sg)
      (λ edge g, let* w := weight_gen in lift (add_edge g edge.1 edge.2 w))
      (init (Z.of_nat len) directed).

Definition too_few_edges : string :=
  "the number of edges of connected graph must more than the number of nodes - 1".

(** [while i < edge_count: ...] of [DAG]; as in [graph] a rejected draw
    leaves [i] as it is. *)
Fixpoint DAG_loop (fuel : nat) (point_count edge_count : Z)
    (self_loop repeated_edges loop : bool) (weight_gen : M Z)
    (i : Z) (used_edges : gset (Z * Z)) (graph : t) : M t :=
  if edge_count <=? i then ret graph
  else match fuel with
       | O => λ _, Diverge
       | S fuel' =>
           let* u := randint 1 point_count in
           let* v := randint 1 point_count in
           let uv := if negb loop && (u >? v) then (v, u) else (u, v) in
           if (negb self_loop && (uv.1 =? uv.2))
              || (negb repeated_edges && bool_decide (uv ∈ used_edges))
           then DAG_loop fuel' point_count edge_count self_loop
                         repeated_edges loop weight_gen i used_edges graph
           else
             let* w := weight_gen in
             let* graph' := lift (add_edge graph uv.1 uv.2 w) in
             let used_edges' :=
               if negb repeated_edges then {[uv]} ∪ used_edges
               else used_edges in
             DAG_loop fuel' point_count edge_count self_loop repeated_edges
                      loop weight_gen (i + 1) used_edges' graph'
       end.

(** [DAG]; the key [loop] of its keyword arguments is the argument
    [loop].  The tree is built by [Graph.tree(point_count,
    weight_gen=weight_gen)], undirected, and its canonical edges are
    copied, turned round with one chance in two when [loop] is set. *)
Definition DAG (fuel : nat) (point_count edge_count : Z) (loop : option bool)
    (kw : kwargs) : M t :=
  if edge_count <? point_count - 1
  then raise (Exception too_few_edges [])
  else
    let self_loop := default false (kw_self_loop kw) in
    let repeated_edges := default true (kw_repeated_edges kw) in
    let loop := default false loop in
    if negb repeated_edges
       && (edge_count >? _calc_max_edge point_count (negb loop) self_loop)
    then raise (Exception too_many_edges
                  [point_count;
                   _calc_max_edge point_count (negb loop) self_loop])
    else
      let weight_gen := weight_gen_of kw in
      let* tree :=
        tree point_count (Exact 0) (Exact 0)
          (mkKwargs None None None None (Some weight_gen) None None None
             None) in
      let edge_buf := iterate_edges tree in
      let* st :=
        for_each edge_buf
          (λ edge (st : gset (Z * Z) * t),
             let* turn :=
               if loop then let* r := randint 1 2 in ret (r =? 1)
               else ret false in
             let edge :=
               if turn then mkEdge (end_ edge) (start edge) (weight edge)
               else edge in
             let* graph :=
               lift (add_edge st.2 (start edge) (end_ edge) (weight edge)) in
             ret (if negb repeated_edges
                  then {[(start edge, end_ edge)]} ∪ st.1 else st.1,
                  graph))
          (∅, init point_count true) in
      DAG_loop fuel point_count edge_count self_loop repeated_edges loop
               weight_gen (point_count - 1) st.1 st.2.

(** [UDAG]: the tree itself is extended; its loop is the loop of [graph]
    on an undirected graph, started at [point_count - 1] with the edges
    of the tree in [used_edges]. *)
Definition UDAG (fuel : nat) (point_count edge_count : Z) (kw : kwargs)
    : M t :=
  if edge_count <? point_count - 1
  then raise (Exception too_few_edges [])
  else
    let self_loop := default true (kw_self_loop kw) in
    let repeated_edges := default true (kw_repeated_edges kw) in
    if negb repeated_edges
       && (edge_count >? _calc_max_edge point_count false self_loop)
    then raise (Exception too_many_edges
                  [point_count; _calc_max_edge point_count false self_loop])
    else
      let weight_gen := weight_gen_of kw in
      let* graph :=
        tree point_count (Exact 0) (Exact 0)
          (mkKwargs (Some false) None None None (Some weight_gen) None None
             None None) in
      let used_edges :=
        foldl (λ (used_edges : gset (Z * Z)) edge,
                 if negb repeated_edges
                 then {[(end_ edge, start edge)]}
                      ∪ ({[(start edge, end_ edge)]} ∪ used_edges)
                 else used_edges)
              ∅ (iterate_edges graph) in
      graph_loop fuel point_count edge_count false self_loop repeated_edges
                 weight_gen (point_count - 1) used_edges graph.

Definition connected (fuel : nat) (point_count edge_count : Z)
    (directed : bool) (loop : option bool) (kw : kwargs) : M t :=
  if directed then DAG fuel point_count edge_count loop kw
  else UDAG fuel point_count edge_count kw.

End Graph.

(** ** [class GraphMatrix] *)

Module GraphMatrix.

(** [m[i][j]] and [m[i][j] = x] on a list of rows. *)
Definition cell {T} (matrix : list (list T)) (u v : Z) : outcome T :=
  match py_index matrix u with
  | Some i =>
      match matrix !! i with
      | Some row =>
          match py_index row v with
          | Some j =>
              match row !! j with
              | Some x => Ok x
              | None => Raise IndexError
              end
          | None => Raise IndexError
          end
      | None => Raise IndexError
      end
  | None => Raise IndexError
  end.

Definition set_cell {T} (matrix : list (list T)) (u v : Z) (x : T)
    : outcome (list (list T)) :=
  match py_index matrix u with
  | Some i =>
      match matrix !! i with
      | Some row =>
          match py_index row v with
          | Some j => Ok (<[i := <[j := x]> row]> matrix)
          | None => Raise IndexError
          end
      | None => Raise IndexError
      end
  | None => Raise IndexError
  end.

(** [__init__(graph, default, merge)] *)
Definition init {T} (graph : Graph.t) (default : T) (merge : T → Edge → T)
    : outcome (list (list T)) :=
  let n := length (Graph.edges graph) in
  foldl (λ acc edge,
           obind acc (λ matrix,
             obind (cell matrix (start edge) (end_ edge)) (λ old,
               set_cell matrix (start edge) (end_ edge) (merge old edge))))
        (Ok (replicate n (replicate n default)))
        (Graph.iterate_edges graph).

(** [Graph.to_matrix()] with its defaults: [default = -1] and
    [merge = lambda val, edge: edge.weight]. *)
Definition to_matrix (graph : Graph.t) : outcome (list (list Z)) :=
  init graph (-1) (λ _ edge, weight edge).

(** [__call__(u, v)] *)
Definition call {T} (matrix : list (list T)) (u v : Z) : outcome T :=
  cell matrix u v.

End GraphMatrix.

(** ** [class RangeQuery] *)

Module RangeQuery.

Inductive RangeQueryRandomMode : Type :=
  | less          (* disallow l = r *)
  | allow_equal.  (* allow l = r *)

(** An entry of [position_range]: a number or a list or tuple. *)
Inductive dimension : Type :=
  | DInt (x : Z)
  | DSeq (xs : list Z).

(** [cur_range[i]] *)
Definition item (cur_range : list Z) (i : nat) : M Z :=
  match cur_range !! i with
  | Some x => ret x
  | None => raise IndexError
  end.

(** One round of the loop over the dimensions. *)
Definition one_dimension (mode : RangeQueryRandomMode) (d : dimension)
    (acc : list Z * list Z) : M (list Z * list Z) :=
  let '(query_l, query_r) := acc in
  let cur_range :=
    match d with
    | DInt x => [1; x]
    | DSeq [x] => [1; x]
    | DSeq xs => xs
    end in
  let* lo := item cur_range 0 in
  let* hi := item cur_range 1 in
  if lo >? hi
  then raise (ValueError "upper-bound should be larger than lower-bound")
  else if (if mode is less then true else false) && (lo =? hi)
  then raise (ValueError
                "mode is set to less but upper-bound is equal to lower-bound")
  else
    let* lr :=
      match mode with
      | less =>
          let* picked := sample (range lo (hi + 1)) 2 in
          match picked with
          | [l; r] => ret (l, r)
          | _ => raise (ValueError "not enough values to unpack")
          end
      | allow_equal =>
          let* l := randint lo hi in
          let* r := randint lo hi in
          ret (l, r)
      end in
    let '(l, r) := (if lr.1 >? lr.2 then (lr.2, lr.1) else lr) in
    ret (query_l ++ [l], query_r ++ [r]).

Definition get_one_query (position_range : option (list dimension))
    (mode : RangeQueryRandomMode) : M (list Z * list Z) :=
  let position_range := default [DInt 10] position_range in
  for_each position_range (one_dimension mode) ([], []).

(** The range a dimension stands for: [x] and [[x]] are [[1, x]], a
    longer sequence is its first two entries. *)
Definition bounds (d : dimension) : option (Z * Z) :=
  match d with
  | DInt x => Some (1, x)
  | DSeq [x] => Some (1, x)
  | DSeq (lo :: hi :: _) => Some (lo, hi)
  | DSeq [] => None
  end.

Definition strict (mode : RangeQueryRandomMode) : bool :=
  if mode is less then true else false.

Definition valid (mode : RangeQueryRandomMode) (d : dimension) : Prop :=
  ∃ lo hi, bounds d = Some (lo, hi) ∧ lo ≤ hi ∧ (strict mode = true → lo < hi).

(** What a query owes to its dimension. *)
Definition within (mode : RangeQueryRandomMode) (d : dimension) (l r : Z)
    : Prop :=
  ∃ lo hi, bounds d = Some (lo, hi) ∧ lo ≤ l ∧ l ≤ r ∧ r ≤ hi
           ∧ (strict mode = true → l < r).

(** [random(num, position_range, mode)]: the list [result] of the
    returned object.  [position_range] is a list here, so the test
    [list_like(position_range)] holds. *)
Definition random (num : Z) (position_range : option (list dimension))
    (mode : RangeQueryRandomMode) : M (list (list Z * list Z)) :=
  let position_range := default [DInt 10] position_range in
  for_each (range 0 num)
    (λ _ result,
       let* q := get_one_query (Some position_range) mode in
       ret (result ++ [q]))
    [].

(** [__len__] and [__getitem__] on the list [result]. *)
Definition __len__ (result : list (list Z * list Z)) : Z :=
  Z.of_nat (length result).

Definition __getitem__ (result : list (list Z * list Z)) (item : Z)
    : outcome (list Z * list Z) :=
  match py_index result item with
  | Some i =>
      match result !! i with
      | Some q => Ok q
      | None => Raise IndexError
      end
  | None => Raise IndexError
  end.

End RangeQuery.

(** ** Connected components of an edge list

    Vertices are [1 .. n]; an edge joins its ends in both directions. *)

Definition endpoints (e : Edge) : Z * Z := (start e, end_ e).

Inductive connected (E : list (Z * Z)) : Z → Z → Prop :=
  | connected_refl v : connected E v v
  | connected_step u v w :
      (u, v) ∈ E ∨ (v, u) ∈ E → connected E v w → connected E u w.

(** [E] has exactly [k] components on [1 .. n]: [k] vertices, no two of
    them connected, to one of which every vertex is connected. *)
Definition components (n : Z) (E : list (Z * Z)) (k : Z) : Prop :=
  ∃ reps : list Z,
    NoDup reps ∧ Z.of_nat (length reps) = k
    ∧ (∀ r, r ∈ reps → 1 ≤ r ≤ n)
    ∧ (∀ v, 1 ≤ v ≤ n → ∃ r, r ∈ reps ∧ connected E v r)
    ∧ (∀ r r', r ∈ reps → r' ∈ reps → connected E r r' → r = r').

(** An edge that [iterate_edges] yields. *)
Definition canonical (g : Graph.t) (e : Edge) : Prop :=
  end_ e >= start e ∨ Graph.directed g = true.

(** The canonical edges of a tree on [1 .. n]: one edge into each
    vertex from 2 on, from a vertex before it. *)
Definition tree_shape (n : Z) (es : list Edge) : Prop :=
  Forall2 (λ i e, end_ e = i ∧ 1 ≤ start e < i) (seqZ 2 (n - 1)) es.

(** Follow parents for [fuel] steps. *)
Fixpoint root_of (E : list (Z * Z)) (fuel : nat) (v : Z) : Z :=
  match fuel with
  | O => v
  | S fuel' =>
      match list_find (λ e, e.2 = v) E with
      | Some (_, e) => root_of E fuel' e.1
      | None => v
      end
  end.

(** Where the parents of a vertex lead, and the vertices without a
    parent. *)
Definition root (n : Z) (E : list (Z * Z)) (v : Z) : Z :=
  root_of E (Z.to_nat n) v.

Definition roots (n : Z) (E : list (Z * Z)) : list Z :=
  filter (λ v, v ∉ E.*2) (seqZ 1 n).

(** ** Quantities of the proofs about [Graph] *)

(** [x] is an index of [graph.edges], counted from the front or, when
    negative, from the end. *)
Definition in_bounds (g : Graph.t) (x : Z) : Prop :=
  - Z.of_nat (length (Graph.edges g)) ≤ x < Z.of_nat (length (Graph.edges g)).

(** The edge that [iterate_edges] yields for [add_edge(x, y, weight=w)]:
    on an undirected graph the copy whose start is the smaller end. *)
Definition stored (g : Graph.t) (x y w : Z) : Edge :=
  if Graph.directed g || (x <=? y) then mkEdge x y w else mkEdge y x w.

(** A generator that returns on every random state, with a value in
    [P]. *)
Definition total_gen (P : Z → Prop) (m : M Z) : Prop :=
  ∀ s, ∃ w s', m s = Ok (w, s') ∧ P w.

(** The edge into vertex [i] of a tree: from an earlier vertex related
    to [i] by [R], with a weight in [P]. *)
Definition child_edge (P : Z → Prop) (R : Z → Z → Prop) (i : Z) (e : Edge)
    : Prop :=
  end_ e = i ∧ 1 ≤ start e < i ∧ R i (start e) ∧ P (weight e).

(** The number of edges that start at [v], and the number of places
    [v] has in a pool of candidates. *)
Definition children (es : list Edge) (v : Z) : Z :=
  Z.of_nat (length (filter (λ e, start e = v) es)).

Definition occ (l : list Z) (v : Z) : Z :=
  Z.of_nat (length (filter (λ x, x = v) l)).

(** The state of the loop of [binary_tree] before the round of vertex
    [a]: every earlier vertex has two places, taken by a child or still
    offered in a pool. *)
Definition binary_state (n : Z) (d : bool) (P : Z → Prop) (a : Z)
    (st : list Z * list Z * Graph.t) (es : list Edge) : Prop :=
  Graph.directed st.2 = d
  ∧ Z.of_nat (length (Graph.edges st.2)) = n + 1
  ∧ st.1.1 ≠ [] ∧ st.1.2 ≠ []
  ∧ Graph.iterate_edges st.2 ≡ₚ es
  ∧ Forall2 (child_edge P (λ _ _, True)) (seqZ 2 (a - 2)) es
  ∧ ∀ v, children es v + occ st.1.1 v + occ st.1.2 v
         = if (1 <=? v) && (v <? a) then 2 else 0.

(** The state of the loops of [graph], [DAG] and [UDAG] when [i] edges
    are in: the vertices are in range, self-loops and repeated edges are
    absent when they are refused, and [used_edges] holds the pairs of
    the edges, in both orders on an undirected graph. *)
Definition simple_state (n : Z) (d sl re : bool) (i : Z)
    (used_edges : gset (Z * Z)) (g : Graph.t) : Prop :=
  Graph.directed g = d
  ∧ Z.of_nat (length (Graph.edges g)) = n + 1
  ∧ Graph.edge_count g = i
  ∧ Forall (λ e, 1 ≤ start e ≤ n ∧ 1 ≤ end_ e ≤ n) (Graph.iterate_edges g)
  ∧ (sl = false → Forall (λ e, start e ≠ end_ e) (Graph.iterate_edges g))
  ∧ (re = false →
     NoDup (endpoints <$> Graph.iterate_edges g)
     ∧ ∀ u v, (u, v) ∈ used_edges
              ↔ (u, v) ∈ endpoints <$> Graph.iterate_edges g
                ∨ (d = false ∧ (v, u) ∈ endpoints <$> Graph.iterate_edges g)).

(** A generator whose values, when it returns, are in [P]. *)
Definition sound_gen (P : Z → Prop) (m : M Z) : Prop :=
  ∀ s w s', m s = Ok (w, s') → P w.

(** What the default generator of weights promises. *)
Definition weight_ok (kw : kwargs) (w : Z) : Prop :=
  kw_weight_gen kw = None →
  (Graph.weight_limit_of kw).1 ≤ w ≤ (Graph.weight_limit_of kw).2.

(** The pairs [(u, v)] with [1 <= u < v <= k], all that the loop of
    [DAG] can use when neither loops nor self-loops are allowed. *)
Fixpoint ascending_pairs (k : nat) : list (Z * Z) :=
  match k with
  | O => []
  | S k' =>
      ascending_pairs k' ++ ((λ u, (u, Z.of_nat (S k'))) <$> seqZ 1 (Z.of_nat k'))
  end.

(** The entry of a matrix at a row and a column that exist. *)
Definition entry {T} (matrix : list (list T)) (i j : nat) : option T :=
  matrix !! i ≫= λ row, row !! j.

(** * Properties *)

(** ** Sums *)

Lemma sumZ_app (l1 l2 : list Z) : sumZ (l1 ++ l2) = sumZ l1 + sumZ l2.
Proof. induction l1 as [|x l1 IH]; simpl; [done | rewrite IH; lia]. Qed.

Lemma sumZ_fmap_cons {A} (f : A → Z) (x : A) (l : list A) :
  sumZ (f <$> x :: l) = f x + sumZ (f <$> l).
Proof. reflexivity. Qed.

Lemma sumZ_perm (l1 l2 : list Z) : l1 ≡ₚ l2 → sumZ l1 = sumZ l2.
Proof. induction 1; simpl; lia. Qed.

Lemma sumZ_fmap_perm {A} (f : A → Z) (l1 l2 : list A) :
  l1 ≡ₚ l2 → sumZ (f <$> l1) = sumZ (f <$> l2).
Proof. intros H. apply sumZ_perm. by rewrite H. Qed.

Lemma sumZ_fmap_insert {A} (f : A → Z) (l : list A) (i : nat) (x y : A) :
  l !! i = Some x →
  sumZ (f <$> <[i := y]> l) = sumZ (f <$> l) - f x + f y.
Proof.
  revert i; induction l as [|a l IH]; intros [|i] Hi; try done.
  - injection Hi as ->. change (<[0%nat := y]> (x :: l)) with (y :: l).
    rewrite !sumZ_fmap_cons. lia.
  - change (<[S i := y]> (a :: l)) with (a :: <[i := y]> l).
    rewrite !sumZ_fmap_cons, (IH i Hi). lia.
Qed.

Lemma sumZ_nonneg (l : list Z) : Forall (λ x, 0 ≤ x) l → 0 ≤ sumZ l.
Proof. induction 1; simpl; lia. Qed.

Lemma sumZ_zero (l : list Z) :
  Forall (λ x, 0 ≤ x) l → sumZ l ≤ 0 → Forall (λ x, x = 0) l.
Proof.
  induction 1 as [|x l Hx Hl IH]; simpl; intros Hs; [done|].
  pose proof (sumZ_nonneg l Hl).
  constructor; [lia | apply IH; lia].
Qed.

Lemma filter_none {A} (P : A → Prop) `{!∀ x, Decision (P x)} (l : list A) :
  Forall (λ x, ¬ P x) l → filter P l = [].
Proof.
  induction 1 as [|x l Hx Hl IH]; [done|].
  by rewrite filter_cons_False.
Qed.

Lemma filter_all {A} (P : A → Prop) `{!∀ x, Decision (P x)} (l : list A) :
  Forall P l → filter P l = l.
Proof.
  induction 1 as [|x l Hx Hl IH]; [done|].
  rewrite filter_cons_True by done. by rewrite IH.
Qed.

(** ** Outcomes *)

Lemma value_Ok {A} (o : outcome (A * RNG)) (a : A) :
  value o = Ok a → ∃ s', o = Ok (a, s').
Proof. destruct o as [[a' s']| |]; simpl; [|done..]. intros [= ->]; eauto. Qed.

(** ** The counter under [__insert] and [__remove] *)

Module SwitchGraphFacts.
Import SwitchGraph.

#[local] Arguments insert : simpl never.
#[local] Arguments remove : simpl never.

Section Msum.
Variable f : Z * Z → Z.

Lemma msum_empty : msum f ∅ = 0.
Proof. unfold msum. by rewrite map_to_list_empty. Qed.

Lemma msum_delete (m : gmap (Z * Z) Z) (k : Z * Z) :
  msum f (delete k m) = msum f m - f k * count m k.
Proof.
  unfold msum, count. destruct (m !! k) as [c|] eqn:Hk; simpl.
  - rewrite <- (sumZ_fmap_perm _ _ _ (map_to_list_delete m k c Hk)).
    rewrite sumZ_fmap_cons. simpl. lia.
  - rewrite delete_id by done. lia.
Qed.

Lemma msum_insert (m : gmap (Z * Z) Z) (k : Z * Z) (c : Z) :
  msum f (<[k := c]> m) = msum f m - f k * count m k + f k * c.
Proof.
  rewrite <- (insert_delete_eq m k c).
  pose proof (msum_delete m k) as Hd.
  unfold msum in *.
  rewrite (sumZ_fmap_perm _ _ _
             (map_to_list_insert (delete k m) k c (lookup_delete_eq m k))).
  rewrite sumZ_fmap_cons. simpl. lia.
Qed.

Lemma msum___insert (m : gmap (Z * Z) Z) (u v : Z) :
  msum f (__insert m u v) = msum f m + f (u, v).
Proof. unfold __insert. rewrite msum_insert. lia. Qed.

Lemma count_insert_eq (m : gmap (Z * Z) Z) (k : Z * Z) (c : Z) :
  count (<[k := c]> m) k = c.
Proof. unfold count. by rewrite lookup_insert_eq. Qed.

Lemma msum___remove (m : gmap (Z * Z) Z) (u v : Z) :
  msum f (__remove m u v) = msum f m - f (u, v).
Proof.
  unfold __remove. rewrite count_insert_eq.
  destruct (Z.eqb_spec (count m (u, v) - 1) 0) as [H0|H0].
  - rewrite msum_delete, msum_insert, count_insert_eq. lia.
  - rewrite msum_insert. lia.
Qed.

Lemma msum_insert_graph (g : t) (u v : Z) :
  msum f (edges (insert g u v))
  = msum f (edges g) + f (u, v)
    + (if negb (directed g) && negb (u =? v) then f (v, u) else 0).
Proof.
  unfold insert; simpl.
  destruct (negb (directed g) && negb (u =? v));
    rewrite ?msum___insert; lia.
Qed.

Lemma msum_remove_graph (g : t) (u v : Z) :
  msum f (edges (remove g u v))
  = msum f (edges g) - f (u, v)
    - (if negb (directed g) && negb (u =? v) then f (v, u) else 0).
Proof.
  unfold remove; simpl.
  destruct (negb (directed g) && negb (u =? v));
    rewrite ?msum___remove; lia.
Qed.

End Msum.

(** *** Degrees under [insert] and [remove] *)

Ltac ind_cases :=
  unfold ind; simpl;
  repeat match goal with
         | |- context [Z.eqb ?a ?b] => destruct (Z.eqb_spec a b); simpl
         end;
  try lia.

Lemma out_degree_insert (g : t) (u v w : Z) :
  directed g = true → out_degree (insert g u v) w = out_degree g w + ind u w.
Proof.
  intros Hd. unfold out_degree. rewrite msum_insert_graph, Hd. simpl. lia.
Qed.

Lemma in_degree_insert (g : t) (u v w : Z) :
  directed g = true → in_degree (insert g u v) w = in_degree g w + ind v w.
Proof.
  intros Hd. unfold in_degree. rewrite msum_insert_graph, Hd. simpl. lia.
Qed.

Lemma out_degree_remove (g : t) (u v w : Z) :
  directed g = true → out_degree (remove g u v) w = out_degree g w - ind u w.
Proof.
  intros Hd. unfold out_degree. rewrite msum_remove_graph, Hd. simpl. lia.
Qed.

Lemma in_degree_remove (g : t) (u v w : Z) :
  directed g = true → in_degree (remove g u v) w = in_degree g w - ind v w.
Proof.
  intros Hd. unfold in_degree. rewrite msum_remove_graph, Hd. simpl. lia.
Qed.

Lemma degree_insert (g : t) (u v w : Z) :
  directed g = false →
  degree (insert g u v) w = degree g w + ind u w + ind v w.
Proof.
  intros Hd. unfold degree. rewrite msum_insert_graph, Hd. ind_cases.
Qed.

Lemma degree_remove (g : t) (u v w : Z) :
  directed g = false →
  degree (remove g u v) w = degree g w - ind u w - ind v w.
Proof.
  intros Hd. unfold degree. rewrite msum_remove_graph, Hd. ind_cases.
Qed.

Lemma directed_insert (g : t) (u v : Z) : directed (insert g u v) = directed g.
Proof. reflexivity. Qed.

Lemma directed_remove (g : t) (u v : Z) : directed (remove g u v) = directed g.
Proof. reflexivity. Qed.

Lemma directed_foldl_insert (es : list (Z * Z)) (g : t) :
  directed (foldl (λ g e, insert g e.1 e.2) g es) = directed g.
Proof.
  revert g. induction es as [|e es IH]; intros g; simpl; [done|].
  by rewrite IH.
Qed.

Lemma directed_init (es : list (Z * Z)) (d : bool) : directed (init es d) = d.
Proof. unfold init. by rewrite directed_foldl_insert. Qed.

(** The four mutations of an accepted switch cancel at every vertex. *)
Lemma swap_out_degree (g : t) (x1 y1 x2 y2 w : Z) :
  directed g = true →
  out_degree (insert (remove (insert (remove g x1 y1) x1 y2) x2 y2) x2 y1) w
  = out_degree g w.
Proof.
  intros Hd.
  rewrite out_degree_insert, out_degree_remove, out_degree_insert,
    out_degree_remove by done.
  lia.
Qed.

Lemma swap_in_degree (g : t) (x1 y1 x2 y2 w : Z) :
  directed g = true →
  in_degree (insert (remove (insert (remove g x1 y1) x1 y2) x2 y2) x2 y1) w
  = in_degree g w.
Proof.
  intros Hd.
  rewrite in_degree_insert, in_degree_remove, in_degree_insert,
    in_degree_remove by done.
  lia.
Qed.

Lemma swap_degree (g : t) (x1 y1 x2 y2 w : Z) :
  directed g = false →
  degree (insert (remove (insert (remove g x1 y1) x1 y2) x2 y2) x2 y1) w
  = degree g w.
Proof.
  intros Hd.
  rewrite degree_insert, degree_remove, degree_insert, degree_remove by done.
  lia.
Qed.

(** [switch_on] either leaves the multiset alone or performs the four
    mutations on the oriented draws. *)
Lemma switch_on_cases (g : t) (sl re : bool) (first second : Z * Z) :
  switch_on g sl re first second = (g, false)
  ∨ switch_on g sl re first second
    = (insert (remove (insert (remove g (oriented g first).1
                                 (oriented g first).2)
                         (oriented g first).1 (oriented g second).2)
                 (oriented g second).1 (oriented g second).2)
         (oriented g second).1 (oriented g first).2, true).
Proof.
  unfold switch_on.
  destruct (oriented g first) as [x1 y1], (oriented g second) as [x2 y2]; simpl.
  repeat case_match; auto.
Qed.

Lemma switch_on_false (g g' : t) (sl re : bool) (first second : Z * Z) :
  switch_on g sl re first second = (g', false) → g' = g.
Proof.
  destruct (switch_on_cases g sl re first second) as [H|H]; rewrite H;
    congruence.
Qed.

Lemma switch_on_directed (g : t) (sl re : bool) (first second : Z * Z) :
  directed (switch_on g sl re first second).1 = directed g.
Proof.
  destruct (switch_on_cases g sl re first second) as [H|H]; by rewrite H.
Qed.

Lemma switch_on_out_degree (g : t) (sl re : bool) (first second : Z * Z) w :
  directed g = true →
  out_degree (switch_on g sl re first second).1 w = out_degree g w.
Proof.
  intros Hd. destruct (switch_on_cases g sl re first second) as [H|H];
    rewrite H; simpl; [done | by apply swap_out_degree].
Qed.

Lemma switch_on_in_degree (g : t) (sl re : bool) (first second : Z * Z) w :
  directed g = true →
  in_degree (switch_on g sl re first second).1 w = in_degree g w.
Proof.
  intros Hd. destruct (switch_on_cases g sl re first second) as [H|H];
    rewrite H; simpl; [done | by apply swap_in_degree].
Qed.

Lemma switch_on_degree (g : t) (sl re : bool) (first second : Z * Z) w :
  directed g = false →
  degree (switch_on g sl re first second).1 w = degree g w.
Proof.
  intros Hd. destruct (switch_on_cases g sl re first second) as [H|H];
    rewrite H; simpl; [done | by apply swap_degree].
Qed.

(** What [switch] returns is [switch_on] at two stored keys. *)
Lemma choices2_elem {A} (pop : list A) (ws : list Z) (s s' : RNG) (a b : A) :
  choices2 pop ws s = Ok (a, b, s') → a ∈ pop ∧ b ∈ pop.
Proof.
  unfold choices2. destruct (last (accumulate ws)) as [total|]; [|done].
  destruct (total <=? 0); [done|]. unfold bind, draw, ret.
  repeat case_match; try done.
  intros [= <- <- _]. split; eapply list_elem_of_lookup_2; eauto.
Qed.

Lemma switch_inv (g g' : t) (sl re b : bool) (s s' : RNG) :
  switch g sl re s = Ok (g', b, s') →
  ∃ first second,
    is_Some (edges g !! first) ∧ is_Some (edges g !! second)
    ∧ switch_on g sl re first second = (g', b).
Proof.
  unfold switch, bind, ret.
  destruct (choices2 _ _ s) as [[[first second] s1]| |] eqn:Hc; [|done..].
  intros [= Hsw <-]. apply choices2_elem in Hc as [H1 H2].
  exists first, second. simpl in Hsw. split_and!; [| |done].
  - apply list_elem_of_fmap in H1 as [[k c] [-> Hin]].
    apply elem_of_map_to_list in Hin. eauto.
  - apply list_elem_of_fmap in H2 as [[k c] [-> Hin]].
    apply elem_of_map_to_list in Hin. eauto.
Qed.

(** *** The invariant of the counter *)

Lemma lookup___insert (m : gmap (Z * Z) Z) (u v : Z) (k : Z * Z) :
  __insert m u v !! k
  = if decide (k = (u, v)) then Some (count m k + 1) else m !! k.
Proof.
  unfold __insert. case_decide as Hk.
  - subst k. by rewrite lookup_insert_eq.
  - by rewrite lookup_insert_ne.
Qed.

Lemma lookup___remove (m : gmap (Z * Z) Z) (u v : Z) (k : Z * Z) :
  __remove m u v !! k
  = if decide (k = (u, v))
    then (if count m k - 1 =? 0 then None else Some (count m k - 1))
    else m !! k.
Proof.
  unfold __remove. rewrite count_insert_eq. case_decide as Hk.
  - subst k. destruct (count m (u, v) - 1 =? 0).
    + by rewrite lookup_delete_eq.
    + by rewrite lookup_insert_eq.
  - destruct (count m (u, v) - 1 =? 0).
    + by rewrite lookup_delete_ne, lookup_insert_ne.
    + by rewrite lookup_insert_ne.
Qed.

Lemma count___insert (m : gmap (Z * Z) Z) (u v : Z) (k : Z * Z) :
  count (__insert m u v) k = count m k + kind k (u, v).
Proof.
  unfold count at 1, kind. rewrite lookup___insert.
  case_decide; simpl; [lia | unfold count; lia].
Qed.

Lemma count___remove (m : gmap (Z * Z) Z) (u v : Z) (k : Z * Z) :
  count (__remove m u v) k = count m k - kind k (u, v).
Proof.
  unfold count at 1, kind. rewrite lookup___remove.
  case_decide; simpl; [|unfold count; lia].
  destruct (Z.eqb_spec (count m k - 1) 0); simpl; lia.
Qed.

Lemma count_insert (g : t) (u v : Z) (k : Z * Z) :
  count (edges (insert g u v)) k
  = count (edges g) k + kind k (u, v)
    + (if negb (directed g) && negb (u =? v) then kind k (v, u) else 0).
Proof.
  unfold insert; simpl.
  destruct (negb (directed g) && negb (u =? v));
    rewrite ?count___insert; lia.
Qed.

Lemma count_remove (g : t) (u v : Z) (k : Z * Z) :
  count (edges (remove g u v)) k
  = count (edges g) k - kind k (u, v)
    - (if negb (directed g) && negb (u =? v) then kind k (v, u) else 0).
Proof.
  unfold remove; simpl.
  destruct (negb (directed g) && negb (u =? v));
    rewrite ?count___remove; lia.
Qed.

Lemma live___insert (m : gmap (Z * Z) Z) (u v : Z) :
  live m → (∀ k, 0 ≤ count m k) → live (__insert m u v).
Proof.
  intros Hl Hc k. rewrite lookup___insert. case_decide; [|apply Hl].
  right. eexists; split; [done|]. specialize (Hc k). lia.
Qed.

Lemma live___remove (m : gmap (Z * Z) Z) (u v : Z) :
  live m → live (__remove m u v).
Proof.
  intros Hl k. rewrite lookup___remove. case_decide; [|apply Hl].
  destruct (Z.eqb_spec (count m k - 1) 0); [by left|].
  right. eexists; split; [done|]. lia.
Qed.

Lemma wf_spec (g : t) :
  wf g ↔
  (∀ k c, edges g !! k = Some c → 0 < c)
  ∧ (directed g = false → ∀ u v, u ≠ v → edges g !! (u, v) = edges g !! (v, u)).
Proof.
  unfold wf, map_Forall. split.
  - intros H. split; [intros k c Hk; by apply (H k c)|].
    intros Hd u v Huv.
    destruct (edges g !! (u, v)) as [c|] eqn:E1.
    + destruct (H _ _ E1) as [_ H2]. symmetry. by apply H2.
    + destruct (edges g !! (v, u)) as [c|] eqn:E2; [|done].
      destruct (H _ _ E2) as [_ H2]. simpl in H2.
      rewrite H2 in E1 by done. done.
  - intros [H1 H2] [u v] c Hk. split; [by eapply H1|].
    simpl. intros Hd Huv. rewrite <- Hk. symmetry. by apply H2.
Qed.

(** The invariant again, on counts. *)
Lemma wf_count (g : t) :
  wf g ↔
  live (edges g) ∧ (∀ k, 0 ≤ count (edges g) k)
  ∧ (directed g = false → ∀ u v, count (edges g) (u, v) = count (edges g) (v, u)).
Proof.
  rewrite wf_spec. split.
  - intros [H1 H2]. split_and!.
    + intros k. destruct (edges g !! k) as [c|] eqn:E; [|by left].
      right. exists c. split; [done|]. specialize (H1 _ _ E). lia.
    + intros k. unfold count. destruct (edges g !! k) as [c|] eqn:E; simpl.
      * specialize (H1 _ _ E). lia.
      * lia.
    + intros Hd u v. destruct (decide (u = v)) as [->|Hne]; [done|].
      unfold count. by rewrite (H2 Hd u v Hne).
  - intros (Hl & Hc & Hs). split.
    + intros k c Hk. specialize (Hc k). unfold count in Hc.
      destruct (Hl k) as [E|(c' & E & Hne)]; rewrite Hk in *; simplify_eq/=.
      lia.
    + intros Hd u v Hne. specialize (Hs Hd u v). unfold count in Hs.
      destruct (Hl (u, v)) as [E1|(c1 & E1 & Hn1)],
               (Hl (v, u)) as [E2|(c2 & E2 & Hn2)];
        rewrite E1, E2 in *; simpl in *; congruence.
Qed.

Lemma wf_insert (g : t) (u v : Z) : wf g → wf (insert g u v).
Proof.
  rewrite !wf_count. intros (Hl & Hc & Hs). split_and!.
  - unfold insert; simpl.
    destruct (negb (directed g) && negb (u =? v)).
    + apply live___insert; [by apply live___insert|].
      intros k. rewrite count___insert. specialize (Hc k).
      unfold kind; case_decide; lia.
    + by apply live___insert.
  - intros k. rewrite count_insert. specialize (Hc k).
    unfold kind; repeat case_match; lia.
  - rewrite directed_insert. intros Hd a b. rewrite !count_insert, Hd.
    rewrite (Hs Hd a b). simpl.
    destruct (Z.eqb_spec u v) as [->|Hne]; simpl; unfold kind;
      repeat case_decide; simplify_eq; lia.
Qed.

Lemma wf_remove (g : t) (u v : Z) :
  wf g → 0 < count (edges g) (u, v) → wf (remove g u v).
Proof.
  rewrite !wf_count. intros (Hl & Hc & Hs) Hpos. split_and!.
  - unfold remove; simpl.
    destruct (negb (directed g) && negb (u =? v));
      repeat apply live___remove; done.
  - intros k. rewrite count_remove.
    destruct (directed g) eqn:Hd; simpl.
    + specialize (Hc k). unfold kind; case_decide; subst; lia.
    + specialize (Hs eq_refl u v). specialize (Hc k).
      destruct (Z.eqb_spec u v) as [->|Hne]; simpl; unfold kind;
        repeat case_decide; simplify_eq; lia.
  - rewrite directed_remove. intros Hd a b. rewrite !count_remove, Hd.
    rewrite (Hs Hd a b). simpl.
    destruct (Z.eqb_spec u v) as [->|Hne]; simpl; unfold kind;
      repeat case_decide; simplify_eq; lia.
Qed.

Lemma wf_init (es : list (Z * Z)) (d : bool) : wf (init es d).
Proof.
  unfold init.
  assert (wf (Build d ∅)) as H by (unfold wf; simpl; apply map_Forall_empty).
  revert H. generalize (Build d ∅).
  induction es as [|e es IH]; intros g Hg; simpl; [done|].
  apply IH. by apply wf_insert.
Qed.

(** *** Accepted and rejected switches *)

Lemma switch_on_spec (g : t) (sl re : bool) (first second : Z * Z) :
  (rejected g sl re first second
   ∧ switch_on g sl re first second = (g, false))
  ∨ (¬ rejected g sl re first second
     ∧ switch_on g sl re first second
       = (insert (remove (insert (remove g (oriented g first).1
                                    (oriented g first).2)
                            (oriented g first).1 (oriented g second).2)
                    (oriented g second).1 (oriented g second).2)
            (oriented g second).1 (oriented g first).2, true)).
Proof.
  unfold switch_on, rejected, mem.
  destruct (oriented g first) as [x1 y1], (oriented g second) as [x2 y2]; simpl.
  destruct sl, re; simpl;
    repeat match goal with
           | |- context [Z.eqb ?a ?b] => destruct (Z.eqb_spec a b); simpl
           | |- context [bool_decide ?P] => destruct (bool_decide_reflect P); simpl
           end;
    first [ left; split; [|reflexivity]; intuition congruence
          | right; split; [|reflexivity]; intuition congruence ].
Qed.

Lemma oriented_sorted (g : t) (k : Z * Z) :
  directed g = false → (oriented g k).1 ≤ (oriented g k).2.
Proof.
  intros Hd. unfold oriented, sorted_pair. rewrite Hd.
  destruct (Z.leb_spec k.1 k.2); simpl; lia.
Qed.

Lemma oriented_count (g : t) (k : Z * Z) :
  wf g → count (edges g) (oriented g k) = count (edges g) k.
Proof.
  intros (_ & _ & Hs)%wf_count. unfold oriented, sorted_pair.
  destruct (directed g) eqn:Hd; [done|].
  destruct k as [a b]; simpl. destruct (a <=? b); [done|].
  by apply Hs.
Qed.

Lemma stored_count (g : t) (k : Z * Z) :
  wf g → is_Some (edges g !! k) → 0 < count (edges g) k.
Proof.
  intros [H1 _]%wf_spec [c Hk]. unfold count. rewrite Hk. simpl. by eapply H1.
Qed.

Lemma wf_switch_on (g : t) (sl re : bool) (first second : Z * Z) :
  wf g → is_Some (edges g !! first) → is_Some (edges g !! second) →
  wf (switch_on g sl re first second).1.
Proof.
  intros Hwf Hf Hs.
  destruct (switch_on_spec g sl re first second) as [[_ ->]|[Hacc ->]];
    [done|]. simpl.
  pose proof (stored_count g _ Hwf Hf) as Hc1.
  pose proof (stored_count g _ Hwf Hs) as Hc2.
  rewrite <- (oriented_count g first) in Hc1 by done.
  rewrite <- (oriented_count g second) in Hc2 by done.
  assert (directed g = false →
          (oriented g first).1 ≤ (oriented g first).2
          ∧ (oriented g second).1 ≤ (oriented g second).2) as Hsort
    by (intros Hd; split; by apply oriented_sorted).
  unfold rejected in Hacc.
  destruct (oriented g first) as [x1 y1], (oriented g second) as [x2 y2].
  simpl in *.
  assert (x1 ≠ x2) as Hx by (destruct sl; intuition congruence).
  apply wf_insert, wf_remove; [by apply wf_insert, wf_remove|].
  rewrite count_insert, count_remove. simpl.
  assert (kind (x2, y2) (x1, y1) = 0) as ->
    by (unfold kind; case_decide; [congruence|done]).
  assert (0 ≤ kind (x2, y2) (x1, y2)) by (unfold kind; case_decide; lia).
  assert (0 ≤ kind (x2, y2) (y2, x1)) by (unfold kind; case_decide; lia).
  destruct (directed g) eqn:Hd; simpl.
  - lia.
  - destruct (Hsort eq_refl) as [Hs1 Hs2].
    assert (kind (x2, y2) (y1, x1) = 0) as ->
      by (unfold kind; case_decide; [simplify_eq; lia|done]).
    repeat case_match; lia.
Qed.

(** *** The greedy realization of a directed degree sequence

    For a weight [φ] on vertices, the arcs already stored and the demand
    still written in the working list add up to a quantity that no step
    of the algorithm changes.  With [φ] the indicator of a vertex this
    is its degree, with [φ] constant it is the number of arcs. *)

Lemma directed_consume_spec (fuel : nat) (re : bool) (vfrom vto : Z)
    (in_deg out : Z) (g : t) :
  0 ≤ in_deg → 0 ≤ out → Z.max in_deg out ≤ Z.of_nat fuel →
  directed g = true →
  match directed_consume fuel re vfrom vto in_deg out g with
  | Ok (in_deg', out', g') =>
      ∃ c, 0 ≤ c ∧ in_deg' = in_deg - c ∧ out' = out - c
           ∧ 0 ≤ in_deg' ∧ 0 ≤ out' ∧ directed g' = true
           ∧ ∀ f, msum f (edges g') = msum f (edges g) + c * f (vfrom, vto)
  | _ => False
  end.
Proof.
  revert in_deg out g.
  induction fuel as [|fuel IH]; intros in_deg out g Hi Ho Hf Hd; simpl.
  - destruct (Z.eqb_spec in_deg 0), (Z.eqb_spec out 0); simpl; try lia;
      (exists 0; split_and!; try done; try lia; intros f; lia).
  - destruct (Z.eqb_spec in_deg 0), (Z.eqb_spec out 0); simpl;
      try (exists 0; split_and!; try done; try lia; intros f; lia).
    destruct re; cbn [negb].
    + specialize (IH (in_deg - 1) (out - 1) (insert g vfrom vto)).
      destruct (directed_consume fuel true vfrom vto (in_deg - 1) (out - 1)
                  (insert g vfrom vto)) as [[[i' o'] g']| |];
        [|by apply IH; try lia..].
      destruct IH as (c & Hc & -> & -> & Hi' & Ho' & Hd' & Hm);
        try lia; try done.
      exists (c + 1). split_and!; try done; try lia.
      intros f. rewrite Hm, msum_insert_graph, Hd. simpl. lia.
    + exists 1. split_and!; try done; try lia.
      intros f. rewrite msum_insert_graph, Hd. simpl. lia.
Qed.

Lemma nonneg3_insert (l : list (Z * Z * Z)) (j : nat) (s : Z * Z * Z) :
  nonneg3 l → 0 ≤ s.1.1 → 0 ≤ s.1.2 → nonneg3 (<[j := s]> l).
Proof. intros Hl H1 H2. apply Forall_insert; auto. Qed.

Lemma directed_walk_spec (fuel : nat) (sl re : bool) (vto : Z) (j : nat)
    (in_deg : Z) (l : list (Z * Z * Z)) (g : t) :
  0 ≤ in_deg → nonneg3 l → directed g = true →
  (j ≤ length l < fuel + j)%nat →
  match directed_walk fuel sl re vto j in_deg l g with
  | Ok (l', g') =>
      nonneg3 l' ∧ directed g' = true
      ∧ length l' = length l
      ∧ (λ s, s.1.2) <$> l' = (λ s, s.1.2) <$> l
      ∧ (∀ φ, msum (λ k, φ k.1) (edges g') + rem_out φ l'
              = msum (λ k, φ k.1) (edges g) + rem_out φ l)
      ∧ (∀ φ, msum (λ k, φ k.2) (edges g') + rem_in φ l'
              = msum (λ k, φ k.2) (edges g) + rem_in φ l + in_deg * φ vto)
  | Raise e => e = IndexError
  | Diverge => False
  end.
Proof.
  revert j in_deg l g.
  induction fuel as [|fuel IH]; intros j in_deg l g Hi Hl Hd Hf; simpl.
  - destruct (Z.eqb_spec in_deg 0) as [->|Hne].
    + split_and!; try done; intros φ; lia.
    + lia.
  - destruct (Z.eqb_spec in_deg 0) as [->|Hne].
    { split_and!; try done; intros φ; lia. }
    destruct (l !! j) as [[[o0 i0] vfrom]|] eqn:Hj; [|done].
    set (j' := if (vto =? vfrom) && negb sl then S j else j).
    assert (j ≤ j')%nat as Hjj' by (unfold j'; case_match; lia).
    clearbody j'.
    destruct (l !! j') as [[[out sin] vfrom']|] eqn:Hj'; [|done].
    pose proof (lookup_lt_Some _ _ _ Hj') as Hlt.
    assert (0 ≤ out ∧ 0 ≤ sin) as [Hout Hsin].
    { eapply Forall_lookup_1 in Hl; [|exact Hj']. done. }
    pose proof (directed_consume_spec (Z.to_nat (Z.max in_deg out)) re
                  vfrom' vto in_deg out g Hi Hout ltac:(lia) Hd) as Hc.
    destruct (directed_consume _ re vfrom' vto in_deg out g)
      as [[[i' o'] g']| |]; [|done..]. simpl.
    destruct Hc as (c & Hc & -> & -> & Hi' & Ho' & Hd' & Hm).
    specialize (IH (S j') (in_deg - c) (<[j' := (out - c, sin, vfrom')]> l) g').
    rewrite length_insert in IH.
    specialize (IH Hi' ltac:(by apply nonneg3_insert) Hd' ltac:(lia)).
    destruct (directed_walk fuel sl re vto (S j') (in_deg - c) _ g')
      as [[l2 g2]| |]; [|done..].
    destruct IH as (Hn2 & Hd2 & Hlen & Hin & Hpo & Hpi).
    split_and!; try done.
    + rewrite Hin, list_fmap_insert. simpl.
      apply list_insert_id. by rewrite list_lookup_fmap, Hj'.
    + intros φ. rewrite Hpo, Hm. unfold rem_out.
      rewrite (sumZ_fmap_insert _ _ _ _ _ Hj'). simpl. lia.
    + intros φ. rewrite Hpi, Hm. unfold rem_in.
      rewrite (sumZ_fmap_insert _ _ _ _ _ Hj'). simpl. lia.
Qed.

Lemma foldl_max_spec (l : list Z) (x : Z) :
  x ≤ foldl Z.max x l ∧ Forall (λ y, y ≤ foldl Z.max x l) l
  ∧ foldl Z.max x l ∈ x :: l.
Proof.
  revert x. induction l as [|y l IH]; intros x; simpl.
  { split_and!; [lia|done|apply list_elem_of_here]. }
  destruct (IH (Z.max x y)) as (H1 & H2 & H3). split_and!; [lia| |].
  - constructor; [lia|done].
  - apply elem_of_cons in H3 as [H3|H3].
    + rewrite H3.
      destruct (Z.max_spec x y) as [[_ E]|[_ E]]; rewrite E;
        [apply list_elem_of_further|]; apply list_elem_of_here.
    + by do 2 apply list_elem_of_further.
Qed.

Lemma py_max_spec (l : list Z) :
  l ≠ [] → ∃ m, py_max l = Ok m ∧ Forall (λ y, y ≤ m) l ∧ m ∈ l.
Proof.
  destruct l as [|x l]; [done|]. intros _. eexists; split; [done|].
  destruct (foldl_max_spec l x) as (H1 & H2 & H3). split; [by constructor|done].
Qed.

Lemma pending_perm (l1 l2 : list (Z * Z * Z)) :
  l1 ≡ₚ l2 → pending l1 = pending l2.
Proof. intros H. unfold pending. by rewrite H. Qed.

Lemma filter_insert_drop (l : list Z) (k : nat) (x : Z) :
  l !! k = Some x → 0 < x →
  length (filter (λ i, 0 < i) l)
  = S (length (filter (λ i, 0 < i) (<[k := 0]> l))).
Proof.
  revert k. induction l as [|a l IH]; intros [|k] Hk Hx; simplify_eq/=.
  - rewrite filter_cons_True by done. rewrite filter_cons_False by lia. done.
  - rewrite !filter_cons. case_decide; simpl; rewrite (IH k Hk Hx); done.
Qed.

Lemma rem_in_zero (φ : Z → Z) (l : list (Z * Z * Z)) :
  Forall (λ s, s.1.2 = 0) l → rem_in φ l = 0.
Proof.
  unfold rem_in. induction 1 as [|s l Hs Hl IH]; [done|].
  rewrite sumZ_fmap_cons, IH, Hs. lia.
Qed.

Lemma rem_out_zero (φ : Z → Z) (l : list (Z * Z * Z)) :
  Forall (λ s, s.1.1 = 0) l → rem_out φ l = 0.
Proof.
  unfold rem_out. induction 1 as [|s l Hs Hl IH]; [done|].
  rewrite sumZ_fmap_cons, IH, Hs. lia.
Qed.

Lemma rem_in_perm (φ : Z → Z) (l1 l2 : list (Z * Z * Z)) :
  l1 ≡ₚ l2 → rem_in φ l1 = rem_in φ l2.
Proof. apply sumZ_fmap_perm. Qed.

Lemma rem_out_perm (φ : Z → Z) (l1 l2 : list (Z * Z * Z)) :
  l1 ≡ₚ l2 → rem_out φ l1 = rem_out φ l2.
Proof. apply sumZ_fmap_perm. Qed.

Lemma sort_reverse3_perm (l : list (Z * Z * Z)) : sort_reverse3 l ≡ₚ l.
Proof. apply merge_sort_Permutation. Qed.

Lemma nonneg3_in_zero (l : list (Z * Z * Z)) (m : Z) :
  nonneg3 l → Forall (λ y, y ≤ m) ((λ s, s.1.2) <$> l) → m ≤ 0 →
  Forall (λ s, s.1.2 = 0) l.
Proof.
  unfold nonneg3. intros Hl Hm Hm0.
  apply Forall_forall. intros s Hs.
  rewrite Forall_forall in Hl. rewrite Forall_forall in Hm.
  specialize (Hl s Hs).
  assert (s.1.2 ∈ (λ s : Z * Z * Z, s.1.2) <$> l) as Hs'
    by (apply list_elem_of_fmap; eauto).
  specialize (Hm _ Hs'). simpl in *. lia.
Qed.

Lemma directed_loop_spec (fuel : nat) (sl re : bool)
    (l : list (Z * Z * Z)) (g : t) :
  l ≠ [] → nonneg3 l → directed g = true → (pending l ≤ fuel)%nat →
  match directed_loop fuel sl re l g with
  | Ok g' =>
      directed g' = true
      ∧ (∀ φ, msum (λ k, φ k.2) (edges g')
              = msum (λ k, φ k.2) (edges g) + rem_in φ l)
      ∧ ∃ l', nonneg3 l'
              ∧ ∀ φ, msum (λ k, φ k.1) (edges g') + rem_out φ l'
                     = msum (λ k, φ k.1) (edges g) + rem_out φ l
  | Raise e => e = IndexError
  | Diverge => False
  end.
Proof.
  revert l g. induction fuel as [|fuel IH]; intros l g Hne Hl Hd Hf;
    unfold directed_loop; fold directed_loop;
    (destruct (py_max_spec ((λ s, s.1.2) <$> l)) as (m & -> & Hm & Hin);
     [by destruct l|]); cbn [obind];
    destruct (Z.leb_spec m 0) as [Hm0|Hm0].
  1,3: split_and!; [done| |exists l; split; [done|intros; lia]];
       intros φ; rewrite rem_in_zero; [lia|]; by eapply nonneg3_in_zero.
  - (* an entry is positive, so some fuel is left *)
    apply list_elem_of_fmap in Hin as (s & -> & Hs).
    apply list_elem_of_lookup in Hs as [k Hk].
    pose proof (filter_insert_drop ((λ s, s.1.2) <$> l) k s.1.2
                  ltac:(by rewrite list_lookup_fmap, Hk) Hm0) as Hdrop.
    unfold pending in Hf. lia.
  - destruct (list_find (λ s, 0 < s.1.2) l) as [[k0 [[out in_deg] vto]]|]
      eqn:Hfind; [|done].
    apply list_find_Some in Hfind as (Hk0 & Hpos & _). simpl in Hpos.
    set (l1 := <[k0 := (out, 0, vto)]> l).
    assert (nonneg3 l1) as Hl1.
    { apply nonneg3_insert; simpl; try done.
      eapply Forall_lookup_1 in Hl; [|exact Hk0]. simpl in Hl. lia. }
    assert (length l1 = length l) as Hlen1 by apply length_insert.
    pose proof (directed_walk_spec (S (length l)) sl re vto 0 in_deg l1 g
                  ltac:(lia) Hl1 Hd ltac:(lia)) as Hw.
    destruct (directed_walk (S (length l)) sl re vto 0 in_deg l1 g)
      as [[l2 g2]| |]; [|done..]. cbn [obind].
    destruct Hw as (Hl2 & Hd2 & Hlen2 & Hin2 & Hpo & Hpi).
    assert (pending l = S (pending l1)) as Hp1.
    { unfold pending, l1. rewrite list_fmap_insert. simpl.
      eapply filter_insert_drop; [|exact Hpos].
      by rewrite list_lookup_fmap, Hk0. }
    specialize (IH (sort_reverse3 l2) g2).
    pose proof (sort_reverse3_perm l2) as Hperm.
    assert (sort_reverse3 l2 ≠ []) as Hne2.
    { intros E. rewrite E in Hperm. apply Permutation_nil_l in Hperm.
      subst l2. destruct l; simpl in *; [done|lia]. }
    assert (nonneg3 (sort_reverse3 l2)) as Hl3
      by (unfold nonneg3; by rewrite Hperm).
    assert (pending (sort_reverse3 l2) ≤ fuel)%nat as Hf3.
    { rewrite (pending_perm _ _ Hperm). unfold pending at 1.
      rewrite Hin2. fold (pending l1). lia. }
    specialize (IH Hne2 Hl3 Hd2 Hf3).
    destruct (directed_loop fuel sl re (sort_reverse3 l2) g2) as [g3| |];
      [|done..].
    destruct IH as (Hd3 & Hi3 & l4 & Hl4 & Ho3).
    assert (∀ φ, rem_in φ l1 = rem_in φ l - in_deg * φ vto) as Hr1.
    { intros φ. unfold rem_in, l1.
      rewrite (sumZ_fmap_insert _ _ _ _ _ Hk0). simpl. lia. }
    assert (∀ φ, rem_out φ l1 = rem_out φ l) as Hr2.
    { intros φ. unfold rem_out, l1.
      rewrite (sumZ_fmap_insert _ _ _ _ _ Hk0). simpl. lia. }
    split_and!; [done| |].
    + intros φ. rewrite Hi3, (rem_in_perm φ _ _ Hperm).
      specialize (Hpi φ). specialize (Hr1 φ). lia.
    + exists l4. split; [done|]. intros φ.
      rewrite Ho3, (rem_out_perm φ _ _ Hperm).
      specialize (Hpo φ). specialize (Hr2 φ). lia.
Qed.

(** Sums over [enumerate(l, a)]. *)
Lemma enumerate_sum_below {A} (h : A → Z) (l : list A) (a v : Z) :
  v < a → sumZ ((λ e, h e.2 * ind e.1 v) <$> enumerate_from a l) = 0.
Proof.
  revert a. induction l as [|x l IH]; intros a Hv; cbn [enumerate_from];
    [done|].
  rewrite sumZ_fmap_cons, IH by lia. simpl. ind_cases.
Qed.

Lemma enumerate_sum_at {A} (h : A → Z) (l : list A) (a : Z) (i : nat) (x : A) :
  l !! i = Some x →
  sumZ ((λ e, h e.2 * ind e.1 (a + Z.of_nat i)) <$> enumerate_from a l) = h x.
Proof.
  revert a i. induction l as [|y l IH]; intros a [|i] Hi; try done;
    cbn [enumerate_from]; rewrite sumZ_fmap_cons.
  - injection Hi as ->. rewrite enumerate_sum_below by lia. ind_cases.
  - replace (a + Z.of_nat (S i)) with (a + 1 + Z.of_nat i) by lia.
    rewrite (IH (a + 1) i Hi). ind_cases.
Qed.

Lemma enumerate_sum_all {A} (h : A → Z) (l : list A) (a : Z) :
  sumZ ((λ e, h e.2 * 1) <$> enumerate_from a l) = sumZ (h <$> l).
Proof.
  revert a. induction l as [|y l IH]; intros a; cbn [enumerate_from];
    [done|].
  rewrite !sumZ_fmap_cons, IH. simpl. lia.
Qed.

Lemma enumerate_length {A} (l : list A) (a : Z) :
  length (enumerate_from a l) = length l.
Proof. revert a. induction l as [|x l IH]; intros a; simpl; auto. Qed.

Lemma existsb_false_Forall {A} (p : A → bool) (l : list A) :
  existsb p l = false → Forall (λ x, p x = false) l.
Proof.
  induction l as [|x l IH]; simpl; [done|].
  intros [H1 H2]%orb_false_elim. constructor; auto.
Qed.

Lemma pending_le (l : list (Z * Z * Z)) : (pending l ≤ length l)%nat.
Proof.
  unfold pending. etrans; [apply length_filter|]. by rewrite length_fmap.
Qed.

(** The realization of a directed sequence: it reads an entry as
    (in-degree, out-degree).  It never diverges; when it returns, every
    vertex has the degrees of its entry. *)
Lemma from_directed_degree_sequence_spec (D : list (Z * Z)) (sl re : bool) :
  match from_directed_degree_sequence D sl re with
  | Ok g =>
      D ≠ [] ∧ directed g = true
      ∧ ∀ (i : nat) (a b : Z), D !! i = Some (a, b) →
          in_degree g (1 + Z.of_nat i) = a ∧ out_degree g (1 + Z.of_nat i) = b
  | Raise e => e = not_graphical ∨ (D = [] ∧ e = unpack_error)
  | Diverge => False
  end.
Proof.
  unfold from_directed_degree_sequence.
  destruct (existsb _ D) eqn:Hneg; [by left|].
  destruct D as [|d D]; [by right|].
  set (D' := d :: D) in *.
  destruct (Z.eqb_spec (sumZ D'.*1) (sumZ D'.*2)) as [Hsum|Hsum];
    cbn [negb]; [|by left].
  destruct (Nat.eqb_spec (length D') 0) as [Hlen|_]; [done|].
  set (l0 := (λ e : Z * (Z * Z), (e.2.2, e.2.1, e.1)) <$> enumerate_from 1 D').
  pose proof (sort_reverse3_perm l0) as Hperm.
  assert (nonneg3 l0) as Hl0.
  { unfold nonneg3, l0. apply existsb_false_Forall in Hneg.
    apply Forall_fmap. clear -Hneg. generalize 1.
    induction Hneg as [|x l Hx Hl IH]; intros a; simpl; constructor; auto.
    simpl. apply orb_false_elim in Hx as [H1 H2]. lia. }
  assert (sort_reverse3 l0 ≠ []) as Hne.
  { intros E. rewrite E in Hperm. by apply Permutation_nil_l in Hperm. }
  pose proof (directed_loop_spec (length (sort_reverse3 l0)) sl re
                (sort_reverse3 l0) (Build true ∅) Hne
                ltac:(unfold nonneg3; by rewrite Hperm) eq_refl
                (pending_le _)) as Hloop.
  destruct (directed_loop _ sl re (sort_reverse3 l0) (Build true ∅))
    as [g| e|]; cbn [except_IndexError]; [|subst e; by left|done].
  destruct Hloop as (Hd & Hin & l' & Hl' & Hout).
  assert (∀ φ, rem_in φ (sort_reverse3 l0)
               = sumZ ((λ e, e.2.1 * φ e.1) <$> enumerate_from 1 D')) as Hri.
  { intros φ. rewrite (rem_in_perm φ _ _ Hperm). unfold rem_in, l0.
    by rewrite <- list_fmap_compose. }
  assert (∀ φ, rem_out φ (sort_reverse3 l0)
               = sumZ ((λ e, e.2.2 * φ e.1) <$> enumerate_from 1 D')) as Hro.
  { intros φ. rewrite (rem_out_perm φ _ _ Hperm). unfold rem_out, l0.
    by rewrite <- list_fmap_compose. }
  assert (Forall (λ s : Z * Z * Z, s.1.1 = 0) l') as Hzero.
  { pose proof (Hin (λ _, 1)) as H1. pose proof (Hout (λ _, 1)) as H2.
    simpl in H1, H2. rewrite Hri in H1. rewrite Hro in H2.
    rewrite (enumerate_sum_all (λ x : Z * Z, x.1)) in H1.
    rewrite (enumerate_sum_all (λ x : Z * Z, x.2)) in H2.
    rewrite msum_empty in H1, H2.
    pose proof (Hsum : sumZ ((λ x : Z * Z, x.1) <$> D')
                       = sumZ ((λ x : Z * Z, x.2) <$> D')) as Hsum'.
    assert (rem_out (λ _, 1) l' = 0) as H3 by lia.
    clear -H3 Hl'. unfold rem_out in H3.
    assert (Forall (λ x, x = 0) ((λ s : Z * Z * Z, s.1.1 * 1) <$> l')) as H4.
    { apply sumZ_zero; [|lia]. apply Forall_fmap.
      eapply Forall_impl; [exact Hl'|]. simpl. intros; lia. }
    apply Forall_fmap in H4. eapply Forall_impl; [exact H4|].
    simpl. intros; lia. }
  split_and!; [done..|].
  intros i a b Hi. split.
  - unfold in_degree. rewrite (Hin (λ n, ind n (1 + Z.of_nat i))).
    simpl. rewrite msum_empty, Hri.
    by rewrite (enumerate_sum_at (λ x : Z * Z, x.1) _ _ _ _ Hi).
  - unfold out_degree. pose proof (Hout (λ n, ind n (1 + Z.of_nat i))) as H.
    simpl in H. rewrite msum_empty, Hro, rem_out_zero in H by done.
    rewrite (enumerate_sum_at (λ x : Z * Z, x.2) _ _ _ _ Hi) in H.
    simpl in H. lia.
Qed.

(** On the empty sequence the unpacking of [zip] raises, before the
    test [len(degree_sequence) == 0] is reached. *)
Lemma from_directed_degree_sequence_empty (sl re : bool) :
  from_directed_degree_sequence [] sl re = Raise unpack_error.
Proof. reflexivity. Qed.

(** *** With self-loops and repeated edges the greedy choice succeeds

    The walk takes all that a source offers before it moves on, and the
    sources together offer as much as the entries still ask for: it
    never leaves the list. *)







(** Without self-loops the greedy choice can fail where a realization
    exists: allowed to repeat edges it spends both arcs of vertex 1 on
    vertex 3, and vertex 2, which asks for two arcs, is left with the
    one of vertex 3 and its own.  The arcs 1-2, 1-3, 2-3, 3-2, which it
    finds when edges may not be repeated, realize the sequence. *)
Lemma from_directed_degree_sequence_greedy_fails :
  from_directed_degree_sequence [(0, 2); (2, 1); (2, 1)] false true
  = Raise not_graphical
  ∧ from_directed_degree_sequence [(0, 2); (2, 1); (2, 1)] false false
    = Ok (init [(1, 2); (1, 3); (2, 3); (3, 2)] true).
Proof. split; vm_compute; reflexivity. Qed.

(** *** The greedy realization of an undirected degree sequence *)

Lemma ends_snoc (φ : Z → Z) (es : list (Z * Z)) (a b : Z) :
  ends φ (es ++ [(a, b)]) = ends φ es + φ a + φ b.
Proof.
  unfold ends. rewrite fmap_app, sumZ_app, sumZ_fmap_cons. simpl. lia.
Qed.

Lemma undirected_loops_spec (fuel : nat) (re : bool) (x deg : Z)
    (es : list (Z * Z)) :
  deg ≤ Z.of_nat fuel →
  match undirected_loops fuel re x deg es with
  | Ok (deg', es') =>
      ∃ c, 0 ≤ c ∧ deg' = deg - 2 * c ∧ (0 ≤ deg → 0 ≤ deg')
           ∧ Z.of_nat (length es') = Z.of_nat (length es) + c
           ∧ ∀ φ, ends φ es' = ends φ es + 2 * c * φ x
  | _ => False
  end.
Proof.
  revert deg es. induction fuel as [|fuel IH]; intros deg es Hf; simpl.
  - destruct (Z.leb_spec deg 1); [|lia].
    exists 0. split_and!; try done; try lia; try (intros φ; lia).
  - destruct (Z.leb_spec deg 1).
    { exists 0. split_and!; try done; try lia; try (intros φ; lia). }
    destruct re; cbn [negb].
    + specialize (IH (deg - 2) (es ++ [(x, x)]) ltac:(lia)).
      destruct (undirected_loops fuel true x (deg - 2) (es ++ [(x, x)]))
        as [[d' es']| |]; [|done..].
      destruct IH as (c & Hc & -> & Hd & Hlen & He).
      rewrite length_app in Hlen. simpl in Hlen.
      exists (c + 1). split_and!; try lia.
      intros φ. rewrite He, ends_snoc. lia.
    + exists 1. split_and!; try lia.
      * rewrite length_app. simpl. lia.
      * intros φ. rewrite ends_snoc. lia.
Qed.

Lemma undirected_consume_spec (fuel : nat) (re : bool) (x vy deg dy : Z)
    (es : list (Z * Z)) :
  0 ≤ deg → 0 ≤ dy → Z.max deg dy ≤ Z.of_nat fuel →
  match undirected_consume fuel re x vy deg dy es with
  | Ok (deg', dy', es') =>
      ∃ c, 0 ≤ c ∧ deg' = deg - c ∧ dy' = dy - c ∧ 0 ≤ deg' ∧ 0 ≤ dy'
           ∧ Z.of_nat (length es') = Z.of_nat (length es) + c
           ∧ ∀ φ, ends φ es' = ends φ es + c * (φ x + φ vy)
  | _ => False
  end.
Proof.
  revert deg dy es.
  induction fuel as [|fuel IH]; intros deg dy es Hd Hy Hf; simpl.
  - destruct (Z.eqb_spec deg 0), (Z.eqb_spec dy 0); simpl; try lia;
      (exists 0; split_and!; try done; try lia; intros φ; lia).
  - destruct (Z.eqb_spec deg 0), (Z.eqb_spec dy 0); simpl;
      try (exists 0; split_and!; try done; try lia; intros φ; lia).
    destruct re; cbn [negb].
    + specialize (IH (deg - 1) (dy - 1) (es ++ [(x, vy)])
                    ltac:(lia) ltac:(lia) ltac:(lia)).
      destruct (undirected_consume fuel true x vy (deg - 1) (dy - 1)
                  (es ++ [(x, vy)])) as [[[d' y'] es']| |]; [|done..].
      destruct IH as (c & Hc & -> & -> & Hd' & Hy' & Hlen & He).
      rewrite length_app in Hlen. simpl in Hlen.
      exists (c + 1). split_and!; try lia.
      intros φ. rewrite He, ends_snoc. lia.
    + exists 1. split_and!; try lia.
      * rewrite length_app. simpl. lia.
      * intros φ. rewrite ends_snoc. lia.
Qed.

Lemma undirected_walk_spec (fuel : nat) (re : bool) (x : Z) (y : nat)
    (deg : Z) (l es : list (Z * Z)) :
  0 ≤ deg → nonneg2 l → (y ≤ length l < fuel + y)%nat →
  match undirected_walk fuel re x y deg l es with
  | Ok (l', es') =>
      nonneg2 l' ∧ length l' = length l
      ∧ Z.of_nat (length es') = Z.of_nat (length es) + deg
      ∧ ∀ φ, ends φ es' + rem_deg φ l'
             = ends φ es + rem_deg φ l + deg * φ x
  | Raise e => e = IndexError
  | Diverge => False
  end.
Proof.
  revert y deg l es.
  induction fuel as [|fuel IH]; intros y deg l es Hd Hl Hf; simpl.
  - destruct (Z.eqb_spec deg 0) as [->|Hne]; [|lia].
    split_and!; try done; try lia; intros φ; lia.
  - destruct (Z.eqb_spec deg 0) as [->|Hne].
    { split_and!; try done; try lia; intros φ; lia. }
    destruct (l !! y) as [[dy vy]|] eqn:Hy; [|done].
    pose proof (lookup_lt_Some _ _ _ Hy) as Hlt.
    assert (0 ≤ dy) as Hdy.
    { eapply Forall_lookup_1 in Hl; [|exact Hy]. done. }
    pose proof (undirected_consume_spec (Z.to_nat (Z.max deg dy)) re x vy
                  deg dy es Hd Hdy ltac:(lia)) as Hc.
    destruct (undirected_consume _ re x vy deg dy es)
      as [[[d' y'] es']| |]; [|done..]. cbn [obind].
    destruct Hc as (c & Hc & -> & -> & Hd' & Hy' & Hlen & He).
    specialize (IH (S y) (deg - c) (<[y := (dy - c, vy)]> l) es').
    rewrite length_insert in IH.
    specialize (IH Hd' ltac:(by apply Forall_insert) ltac:(lia)).
    destruct (undirected_walk fuel re x (S y) (deg - c) _ es')
      as [[l2 es2]| |]; [|done..].
    destruct IH as (Hl2 & Hlen2 & Hlen3 & He2).
    split_and!; try done; try lia.
    intros φ. rewrite He2, He. unfold rem_deg.
    rewrite (sumZ_fmap_insert _ _ _ _ _ Hy). simpl. lia.
Qed.

#[local] Instance flip_pair_le_total : Total (flip pair_le).
Proof. intros [a b] [c d]. unfold flip, pair_le. simpl. lia. Qed.

#[local] Instance flip_pair_le_trans : Transitive (flip pair_le).
Proof. intros [a b] [c d] [e f]. unfold flip, pair_le. simpl. lia. Qed.

Lemma sort_reverse2_perm (l : list (Z * Z)) : sort_reverse2 l ≡ₚ l.
Proof. apply merge_sort_Permutation. Qed.

Lemma sort_reverse2_top_max (l : list (Z * Z)) : top_max (sort_reverse2 l).
Proof.
  pose proof (Sorted_merge_sort (flip pair_le) l) as Hs.
  apply Sorted_StronglySorted in Hs; [|apply _].
  unfold sort_reverse2, top_max.
  destruct (merge_sort (flip pair_le) l) as [|s0 l']; [done|].
  apply StronglySorted_inv in Hs as [_ Hall].
  eapply Forall_impl; [exact Hall|].
  intros [a b]. destruct s0 as [c d]. unfold flip, pair_le. simpl. lia.
Qed.

Lemma ends_length (es : list (Z * Z)) :
  ends (λ _, 1) es = 2 * Z.of_nat (length es).
Proof.
  unfold ends. induction es as [|e es IH]; [done|].
  rewrite sumZ_fmap_cons, IH. simpl length. lia.
Qed.

Lemma rem_deg_zero (φ : Z → Z) (l : list (Z * Z)) :
  nonneg2 l → rem_deg (λ _, 1) l ≤ 0 → rem_deg φ l = 0.
Proof.
  unfold nonneg2, rem_deg. induction 1 as [|s l Hs Hl IH]; [done|].
  rewrite !sumZ_fmap_cons. intros H.
  assert (0 ≤ sumZ ((λ s : Z * Z, s.1 * 1) <$> l)).
  { apply sumZ_nonneg, Forall_fmap. eapply Forall_impl; [exact Hl|].
    simpl; intros; lia. }
  rewrite IH by lia. assert (s.1 = 0) as -> by lia. lia.
Qed.

Lemma top_max_positive (l : list (Z * Z)) (deg x : Z) :
  nonneg2 l → top_max l → l !! 0%nat = Some (deg, x) →
  0 < rem_deg (λ _, 1) l → 0 < deg.
Proof.
  destruct l as [|s0 l]; [done|]. intros Hl Ht [= ->] Hr.
  destruct (Z.lt_ge_cases 0 deg) as [|Hle]; [done|]. exfalso.
  simpl in Ht. apply Forall_cons in Hl as [H0 Hl]. simpl in H0.
  unfold rem_deg in Hr. rewrite sumZ_fmap_cons in Hr. simpl in Hr.
  assert (sumZ ((λ s : Z * Z, s.1 * 1) <$> l) ≤ 0); [|lia].
  clear Hr. induction l as [|s l IH]; [done|].
  apply Forall_cons in Hl as [H1 Hl]. apply Forall_cons in Ht as [H2 Ht].
  rewrite sumZ_fmap_cons. simpl in *. specialize (IH Ht Hl). lia.
Qed.

Lemma undirected_loop_spec (fuel : nat) (sl re : bool) (total : Z)
    (l es : list (Z * Z)) :
  nonneg2 l → top_max l → l ≠ [] →
  ends (λ _, 1) es + rem_deg (λ _, 1) l = total →
  total - 2 * Z.of_nat (length es) ≤ Z.of_nat fuel →
  match undirected_loop fuel sl re total l es with
  | Ok es' => ∀ φ, ends φ es' = ends φ es + rem_deg φ l
  | Raise e => e = IndexError
  | Diverge => False
  end.
Proof.
  revert l es. induction fuel as [|fuel IH]; intros l es Hl Ht Hne Htot Hf;
    unfold undirected_loop; fold undirected_loop;
    rewrite ends_length in Htot;
    destruct (Z.leb_spec total (Z.of_nat (length es) * 2)) as [Hdone|Hmore];
    try (intros φ; rewrite (rem_deg_zero φ) by (done || lia); lia);
    try lia.
  destruct (l !! 0%nat) as [[deg x]|] eqn:H0; [|done].
  pose proof (top_max_positive l deg x Hl Ht H0 ltac:(lia)) as Hdeg.
  set (l0 := <[0%nat := (0, x)]> l).
  assert (nonneg2 l0) as Hl0 by (by apply Forall_insert).
  assert (∀ φ, rem_deg φ l0 = rem_deg φ l - deg * φ x) as Hr0.
  { intros φ. unfold rem_deg, l0.
    rewrite (sumZ_fmap_insert _ _ _ _ _ H0). simpl. lia. }
  assert (∃ deg1 es1 c,
             (if sl then undirected_loops (Z.to_nat deg) re x deg es
              else Ok (deg, es)) = Ok (deg1, es1)
             ∧ 0 ≤ c ∧ deg1 = deg - 2 * c ∧ 0 ≤ deg1
             ∧ Z.of_nat (length es1) = Z.of_nat (length es) + c
             ∧ ∀ φ, ends φ es1 = ends φ es + 2 * c * φ x)
    as (deg1 & es1 & c & -> & Hc & -> & Hd1 & Hlen1 & He1).
  { destruct sl.
    - pose proof (undirected_loops_spec (Z.to_nat deg) re x deg es
                    ltac:(lia)) as Hs.
      destruct (undirected_loops _ re x deg es) as [[d1 e1]| |]; [|done..].
      destruct Hs as (c & ? & ? & ? & ? & ?).
      exists d1, e1, c. split_and!; try done. lia.
    - exists deg, es, 0. split_and!; try done; try lia; try (intros φ; lia). }
  cbn [obind].
  assert (length l0 = length l) as Hlen0 by apply length_insert.
  assert (0 < length l)%nat as Hpos by (destruct l; simpl; [done|lia]).
  pose proof (undirected_walk_spec (S (length l)) re x 1 (deg - 2 * c) l0 es1
                Hd1 Hl0 ltac:(lia)) as Hw.
  destruct (undirected_walk (S (length l)) re x 1 (deg - 2 * c) l0 es1)
    as [[l2 es2]| |]; [|done..]. cbn [obind].
  destruct Hw as (Hl2 & Hlen2 & Hlen3 & He2).
  pose proof (sort_reverse2_perm l2) as Hperm.
  assert (∀ φ, rem_deg φ (sort_reverse2 l2) = rem_deg φ l2) as Hrp
    by (intros φ; by apply sumZ_fmap_perm).
  assert (∀ φ, ends φ es2 + rem_deg φ (sort_reverse2 l2)
               = ends φ es + rem_deg φ l) as Hstep.
  { intros φ. rewrite Hrp, He2, He1, Hr0. lia. }
  specialize (IH (sort_reverse2 l2) es2).
  assert (sort_reverse2 l2 ≠ []) as Hne2.
  { intros E. rewrite E in Hperm. apply Permutation_nil_l in Hperm.
    subst l2. simpl in Hlen2. lia. }
  specialize (IH ltac:(unfold nonneg2; by rewrite Hperm)
                (sort_reverse2_top_max l2) Hne2).
  specialize (IH ltac:(rewrite Hstep, ends_length; lia) ltac:(lia)).
  destruct (undirected_loop fuel sl re total (sort_reverse2 l2) es2)
    as [es3| |]; [|done..].
  intros φ. rewrite IH, Hrp. specialize (He2 φ). specialize (He1 φ).
  specialize (Hr0 φ). lia.
Qed.

Lemma degree_foldl_insert (es : list (Z * Z)) (g : t) (v : Z) :
  directed g = false →
  degree (foldl (λ g e, insert g e.1 e.2) g es) v
  = degree g v + ends (λ n, ind n v) es.
Proof.
  revert g. induction es as [|e es IH]; intros g Hd; cbn [foldl].
  - unfold ends. simpl. lia.
  - rewrite IH by done. rewrite degree_insert by done.
    unfold ends. rewrite sumZ_fmap_cons. lia.
Qed.

Lemma degree_init (es : list (Z * Z)) (v : Z) :
  degree (init es false) v = ends (λ n, ind n v) es.
Proof.
  unfold init. rewrite degree_foldl_insert by done.
  unfold degree. simpl. rewrite msum_empty. lia.
Qed.

(** The realization of an undirected sequence never diverges; when it
    returns, the multiset is well formed and every vertex has the degree
    of its entry. *)
Lemma from_undirected_degree_sequence_spec (D : list Z) (sl re : bool) :
  match from_undirected_degree_sequence D sl re with
  | Ok g =>
      directed g = false ∧ wf g
      ∧ ∀ (i : nat) (d : Z), D !! i = Some d → degree g (1 + Z.of_nat i) = d
  | Raise e => e = not_graphical
  | Diverge => False
  end.
Proof.
  unfold from_undirected_degree_sequence.
  destruct (existsb _ D) eqn:Hneg; [done|].
  destruct (negb _); [done|].
  destruct (Nat.eqb_spec (length D) 0) as [Hlen|Hlen].
  { destruct D; [|done]. split_and!; [done|apply wf_init|done]. }
  set (l0 := (λ e : Z * Z, (e.2, e.1)) <$> enumerate_from 1 D).
  pose proof (sort_reverse2_perm l0) as Hperm.
  assert (nonneg2 l0) as Hl0.
  { unfold nonneg2, l0. apply existsb_false_Forall in Hneg.
    apply Forall_fmap. clear -Hneg. generalize 1.
    induction Hneg as [|x l Hx Hl IH]; intros a; simpl; constructor; auto.
    simpl. lia. }
  assert (sort_reverse2 l0 ≠ []) as Hne.
  { intros E. rewrite E in Hperm. apply Permutation_nil_l in Hperm.
    unfold l0 in Hperm. destruct D; simpl in *; done. }
  assert (∀ φ, rem_deg φ (sort_reverse2 l0)
               = sumZ ((λ e, e.2 * φ e.1) <$> enumerate_from 1 D)) as Hr.
  { intros φ. unfold rem_deg. rewrite (sumZ_fmap_perm _ _ _ Hperm).
    unfold l0. by rewrite <- list_fmap_compose. }
  assert (rem_deg (λ _, 1) (sort_reverse2 l0) = sumZ D) as Hr1.
  { rewrite Hr, (enumerate_sum_all (λ x : Z, x)). by rewrite list_fmap_id. }
  assert (0 ≤ sumZ D) as Hsum.
  { apply sumZ_nonneg. apply existsb_false_Forall in Hneg.
    eapply Forall_impl; [exact Hneg|]. simpl; intros; lia. }
  pose proof (undirected_loop_spec (Z.to_nat (sumZ D)) sl re (sumZ D)
                (sort_reverse2 l0) []
                ltac:(unfold nonneg2; by rewrite Hperm)
                (sort_reverse2_top_max l0) Hne
                ltac:(rewrite Hr1; unfold ends; simpl; lia)
                ltac:(simpl; lia)) as Hloop.
  destruct (undirected_loop _ sl re (sumZ D) (sort_reverse2 l0) [])
    as [es|e|]; cbn [except_IndexError obind]; [|by subst e|done].
  split_and!; [apply directed_init|apply wf_init|].
  intros i d Hi. rewrite degree_init, Hloop, Hr.
  unfold ends at 1. simpl.
  by rewrite (enumerate_sum_at (λ x : Z, x) _ _ _ _ Hi).
Qed.

(** *** The realization of a directed sequence is well formed *)

Lemma directed_consume_wf (fuel : nat) (re : bool) (vfrom vto : Z)
    (in_deg out : Z) (g : t) (r : Z * Z * t) :
  directed_consume fuel re vfrom vto in_deg out g = Ok r → wf g → wf r.2.
Proof.
  revert in_deg out g. induction fuel as [|fuel IH]; intros in_deg out g;
    simpl; destruct ((in_deg =? 0) || (out =? 0)); try done;
    try (by intros [= <-]).
  destruct re; cbn [negb].
  - intros Hrun Hwf. eapply IH; [exact Hrun|]. by apply wf_insert.
  - intros [= <-] Hwf. by apply wf_insert.
Qed.

Lemma directed_walk_wf (fuel : nat) (sl re : bool) (vto : Z) (j : nat)
    (in_deg : Z) (l : list (Z * Z * Z)) (g : t)
    (r : list (Z * Z * Z) * t) :
  directed_walk fuel sl re vto j in_deg l g = Ok r → wf g → wf r.2.
Proof.
  revert j in_deg l g. induction fuel as [|fuel IH]; intros j in_deg l g;
    simpl; destruct (in_deg =? 0); try done; try (by intros [= <-]).
  destruct (l !! j) as [[[o0 i0] vfrom]|]; [|done].
  destruct (l !! _) as [[[out sin] vfrom']|]; [|done].
  destruct (directed_consume _ re vfrom' vto in_deg out g)
    as [[[i' o'] g']| |] eqn:Hc; [|done..]. cbn [obind].
  intros Hrun Hwf. eapply IH; [exact Hrun|].
  by apply (directed_consume_wf _ _ _ _ _ _ _ _ Hc).
Qed.

Lemma directed_loop_wf (fuel : nat) (sl re : bool) (l : list (Z * Z * Z))
    (g g' : t) :
  directed_loop fuel sl re l g = Ok g' → wf g → wf g'.
Proof.
  revert l g. induction fuel as [|fuel IH]; intros l g;
    unfold directed_loop; fold directed_loop;
    destruct (py_max _) as [m| |]; try done; cbn [obind];
    destruct (m <=? 0); try done; try (by intros [= <-]).
  destruct (list_find _ l) as [[k0 [[out in_deg] vto]]|]; [|done].
  destruct (directed_walk _ sl re vto 0 in_deg _ g) as [[l2 g2]| |] eqn:Hw;
    [|done..]. cbn [obind].
  intros Hrun Hwf. eapply IH; [exact Hrun|].
  by apply (directed_walk_wf _ _ _ _ _ _ _ _ _ Hw).
Qed.

Lemma from_directed_degree_sequence_wf (D : list (Z * Z)) (sl re : bool)
    (g : t) :
  from_directed_degree_sequence D sl re = Ok g → wf g.
Proof.
  unfold from_directed_degree_sequence.
  destruct (existsb _ D); [done|]. destruct D as [|d D]; [done|].
  destruct (negb _); [done|].
  destruct (Nat.eqb_spec (length (d :: D)) 0); [done|].
  destruct (directed_loop _ sl re _ _) as [g'|e|] eqn:Hloop;
    cbn [except_IndexError]; [|by destruct e|done].
  intros [= <-]. eapply directed_loop_wf; [exact Hloop|].
  apply (wf_init [] true).
Qed.

(** *** Degrees read off [get_edges] *)

Lemma msum_ext (f f' : Z * Z → Z) (m : gmap (Z * Z) Z) :
  (∀ k, is_Some (m !! k) → f k = f' k) → msum f m = msum f' m.
Proof.
  intros Hff. unfold msum. f_equal. apply list_fmap_ext.
  intros i [k c] Hi. simpl. rewrite (Hff k); [done|].
  apply list_elem_of_lookup_2, elem_of_map_to_list in Hi. eauto.
Qed.

Lemma msum_add (f f' : Z * Z → Z) (m : gmap (Z * Z) Z) :
  msum (λ k, f k + f' k) m = msum f m + msum f' m.
Proof.
  unfold msum. induction (map_to_list m) as [|kc l IH]; [done|].
  rewrite !sumZ_fmap_cons, IH. lia.
Qed.

#[local] Instance swap_inj : Inj (=) (=) swap.
Proof. intros [a b] [c d]. unfold swap. simpl. congruence. Qed.

Lemma msum_kmap_swap (f : Z * Z → Z) (m : gmap (Z * Z) Z) :
  msum f (kmap swap m) = msum (λ k, f (swap k)) m.
Proof.
  induction m as [|k c m Hk IH] using map_ind.
  - by rewrite kmap_empty, !msum_empty.
  - rewrite kmap_insert, !msum_insert, IH by apply _.
    unfold count. rewrite lookup_kmap by apply _. by rewrite Hk.
Qed.

Lemma msum_swap (f : Z * Z → Z) (g : t) :
  wf g → directed g = false →
  msum f (edges g) = msum (λ k, f (swap k)) (edges g).
Proof.
  intros [_ Hsym]%wf_spec Hd. rewrite <- msum_kmap_swap. f_equal.
  apply map_eq. intros [a b].
  change (a, b) with (swap (b, a)) at 2. rewrite lookup_kmap by apply _.
  destruct (decide (a = b)) as [->|Hne]; [done|]. by apply Hsym.
Qed.

Lemma get_edges_perm (g : t) : get_edges g ≡ₚ raw_edges g.
Proof. apply merge_sort_Permutation. Qed.

Lemma foldl_filter_length (d : bool) (P : Z * Z → Prop)
    `{!∀ k, Decision (P k)} (items : list (Z * Z * Z)) (acc : list (Z * Z)) :
  Forall (λ kc, 0 < kc.2) items →
  Z.of_nat (length (filter P
    (foldl (λ ret kc,
              if d || (kc.1.1 <=? kc.1.2)
              then ret ++ replicate (Z.to_nat kc.2) kc.1 else ret)
           acc items)))
  = Z.of_nat (length (filter P acc))
    + sumZ ((λ kc, (if d || (kc.1.1 <=? kc.1.2) then 1 else 0)
                   * (if decide (P kc.1) then 1 else 0) * kc.2) <$> items).
Proof.
  intros Hpos. revert acc.
  induction Hpos as [|[k c] items Hc Hpos IH]; intros acc; cbn [foldl].
  - simpl. lia.
  - rewrite IH, sumZ_fmap_cons. cbn [fst snd] in *.
    destruct (d || (k.1 <=? k.2)); [|lia].
    rewrite filter_app, length_app.
    destruct (decide (P k)) as [HP|HP].
    + rewrite (filter_all P (replicate _ _))
        by (apply Forall_replicate; done).
      rewrite length_replicate. lia.
    + rewrite (filter_none P (replicate _ _))
        by (apply Forall_replicate; done).
      simpl. lia.
Qed.

Lemma filter_get_edges (g : t) (P : Z * Z → Prop) `{!∀ k, Decision (P k)} :
  wf g →
  Z.of_nat (length (filter P (get_edges g)))
  = msum (λ k, (if directed g || (k.1 <=? k.2) then 1 else 0)
               * (if decide (P k) then 1 else 0)) (edges g).
Proof.
  intros [Hpos _]%wf_spec. rewrite (get_edges_perm g). unfold raw_edges.
  rewrite foldl_filter_length.
  - simpl. unfold msum. f_equal.
  - apply Forall_forall. intros [k c] Hin. simpl.
    apply elem_of_map_to_list in Hin. by eapply Hpos.
Qed.

(** The degrees of a directed multiset are the numbers of arcs of
    [get_edges] that start and end at the vertex. *)
Lemma directed_degrees_get_edges (g : t) (v : Z) :
  wf g → directed g = true →
  out_degree g v = starts_at (get_edges g) v
  ∧ in_degree g v = ends_at (get_edges g) v.
Proof.
  intros Hwf Hd. unfold starts_at, ends_at.
  rewrite !filter_get_edges by done. rewrite Hd.
  split; apply msum_ext; intros k _; unfold ind; simpl.
  - case_decide; destruct (Z.eqb_spec k.1 v); done.
  - case_decide; destruct (Z.eqb_spec k.2 v); done.
Qed.

(** The degree of an undirected multiset is the number of edge ends of
    [get_edges] at the vertex. *)
Lemma undirected_degree_get_edges (g : t) (v : Z) :
  wf g → directed g = false →
  degree g v = starts_at (get_edges g) v + ends_at (get_edges g) v.
Proof.
  intros Hwf Hd. unfold starts_at, ends_at, degree.
  rewrite !filter_get_edges by done. rewrite Hd, <- msum_add.
  set (h := λ k : Z * Z, ind k.1 v * (1 + ind k.2 v)).
  set (o := λ k : Z * Z,
              (if false || (k.1 <=? k.2) then 1 else 0)
              * (if decide (k.1 = v) then 1 else 0)
              + (if false || (k.1 <=? k.2) then 1 else 0)
                * (if decide (k.2 = v) then 1 else 0)).
  assert (msum h (edges g) + msum h (edges g)
          = msum o (edges g) + msum o (edges g)) as H2; [|lia].
  rewrite (msum_swap h g Hwf Hd) at 2. rewrite (msum_swap o g Hwf Hd) at 2.
  rewrite <- !msum_add. apply msum_ext. intros [a b] _.
  unfold h, o, swap, ind. simpl.
  repeat case_decide;
    destruct (Z.eqb_spec a v), (Z.eqb_spec b v), (Z.leb_spec a b),
             (Z.leb_spec b a); lia.
Qed.

(** On an undirected multiset [edge_count] is the length of
    [get_edges]; on a directed one it counts the arcs that do not
    descend. *)
Lemma edge_count_msum (g : t) :
  edge_count g = msum (λ k, if k.1 <=? k.2 then 1 else 0) (edges g).
Proof.
  unfold edge_count, msum. generalize (map_to_list (edges g)).
  assert (∀ (l : list (Z * Z * Z)) acc,
            foldl (λ val kc, if kc.1.1 <=? kc.1.2 then val + kc.2 else val)
                  acc l
            = acc + sumZ ((λ kc, (if kc.1.1 <=? kc.1.2 then 1 else 0) * kc.2)
                            <$> l)) as Hfold.
  { induction l as [|[k c] l IH]; intros acc; cbn [foldl].
    - simpl. lia.
    - rewrite IH, sumZ_fmap_cons. simpl. destruct (k.1 <=? k.2); lia. }
  intros l. by rewrite Hfold.
Qed.


Lemma edge_count_undirected (g : t) :
  wf g → directed g = false →
  edge_count g = Z.of_nat (length (get_edges g)).
Proof.
  intros Hwf Hd.
  rewrite <- (filter_all (λ _, True) (get_edges g)) at 1
    by (apply Forall_forall; done).
  rewrite filter_get_edges, edge_count_msum, Hd by done.
  apply msum_ext. intros k _. simpl. destruct (k.1 <=? k.2); done.
Qed.

(** *** [edge_count] and [get_edges] on any counter

    [itertools.repeat(k, c)] is empty for a count below 0, which
    [edge_count] subtracts. *)







(** *** Runs of [switch] *)

Lemma switch_degrees (g g' : t) (sl re b : bool) (s s' : RNG) :
  switch g sl re s = Ok (g', b, s') →
  directed g' = directed g
  ∧ (directed g = true →
     ∀ w, in_degree g' w = in_degree g w ∧ out_degree g' w = out_degree g w)
  ∧ (directed g = false → ∀ w, degree g' w = degree g w).
Proof.
  intros (first & second & _ & _ & Hsw)%switch_inv.
  assert (g' = (switch_on g sl re first second).1) as -> by by rewrite Hsw.
  split_and!.
  - apply switch_on_directed.
  - intros Hd w. split;
      [by apply switch_on_in_degree | by apply switch_on_out_degree].
  - intros Hd w. by apply switch_on_degree.
Qed.

Lemma switches_degrees (calls : list (bool * bool)) (g g' : t) (s s' : RNG) :
  switches calls g s = Ok (g', s') →
  directed g' = directed g
  ∧ (directed g = true →
     ∀ w, in_degree g' w = in_degree g w ∧ out_degree g' w = out_degree g w)
  ∧ (directed g = false → ∀ w, degree g' w = degree g w).
Proof.
  revert g s. induction calls as [|[sl re] calls IH]; intros g s; simpl.
  - unfold ret. intros [= <- <-]. by split_and!.
  - unfold bind. destruct (switch g sl re s) as [[[g1 b] s1]| |] eqn:Hsw;
      [|done..]. simpl. intros Hrest.
    apply switch_degrees in Hsw as (Hd1 & Ht1 & Hf1).
    apply IH in Hrest as (Hd2 & Ht2 & Hf2).
    rewrite Hd1 in Hd2, Ht2, Hf2. split_and!; [done| |].
    + intros Hd w. destruct (Ht2 Hd w) as [-> ->]. by apply Ht1.
    + intros Hd w. rewrite (Hf2 Hd w). by apply Hf1.
Qed.

Lemma switches_wf (calls : list (bool * bool)) (g g' : t) (s s' : RNG) :
  switches calls g s = Ok (g', s') → wf g → wf g'.
Proof.
  revert g s. induction calls as [|[sl re] calls IH]; intros g s; simpl.
  - unfold ret. by intros [= <- <-].
  - unfold bind. destruct (switch g sl re s) as [[[g1 b] s1]| |] eqn:Hsw;
      [|done..]. simpl. intros Hrest Hwf. eapply IH; [exact Hrest|].
    apply switch_inv in Hsw as (first & second & H1 & H2 & Hsw).
    assert (g1 = (switch_on g sl re first second).1) as -> by by rewrite Hsw.
    by apply wf_switch_on.
Qed.


(** *** [remove] undoes [insert] *)

Lemma live_lookup (m : gmap (Z * Z) Z) (k : Z * Z) :
  live m → m !! k = if count m k =? 0 then None else Some (count m k).
Proof.
  intros Hl. unfold count. destruct (Hl k) as [->|(c & -> & Hc)]; simpl.
  - done.
  - destruct (Z.eqb_spec c 0); [done|done].
Qed.

Lemma t_eq (g g' : t) :
  directed g = directed g' → (∀ k, edges g !! k = edges g' !! k) → g = g'.
Proof.
  destruct g as [d m], g' as [d' m']. simpl. intros -> H. f_equal.
  by apply map_eq.
Qed.

Lemma live_insert_graph (g : t) (u v : Z) : wf g → live (edges (insert g u v)).
Proof. intros Hwf. by apply wf_count, wf_insert. Qed.

Lemma remove_insert (g : t) (u v : Z) : wf g → remove (insert g u v) u v = g.
Proof.
  intros Hwf.
  assert (wf (remove (insert g u v) u v)) as Hwf'.
  { apply wf_remove; [by apply wf_insert|].
    rewrite count_insert. unfold kind. rewrite decide_True by done.
    apply wf_count in Hwf as (_ & Hpos & _). specialize (Hpos (u, v)).
    destruct (negb _ && negb _); [case_decide|]; lia. }
  apply t_eq; [by rewrite directed_remove, directed_insert|].
  intros k. apply wf_count in Hwf as (Hl & _). apply wf_count in Hwf' as (Hl' & _).
  rewrite (live_lookup _ k Hl), (live_lookup _ k Hl').
  rewrite count_remove, count_insert, directed_insert.
  by replace (count (edges g) k + kind k (u, v)
              + (if negb (directed g) && negb (u =? v) then kind k (v, u) else 0)
              - kind k (u, v)
              - (if negb (directed g) && negb (u =? v) then kind k (v, u) else 0))
    with (count (edges g) k) by lia.
Qed.

Lemma insert_remove (g : t) (u v : Z) :
  wf g → 0 < count (edges g) (u, v) → insert (remove g u v) u v = g.
Proof.
  intros Hwf Hc.
  assert (wf (insert (remove g u v) u v)) as Hwf'
    by (by apply wf_insert, wf_remove).
  apply t_eq; [by rewrite directed_insert, directed_remove|].
  intros k. apply wf_count in Hwf as (Hl & _). apply wf_count in Hwf' as (Hl' & _).
  rewrite (live_lookup _ k Hl), (live_lookup _ k Hl').
  rewrite count_insert, count_remove, directed_remove.
  by replace (count (edges g) k - kind k (u, v)
              - (if negb (directed g) && negb (u =? v) then kind k (v, u) else 0)
              + kind k (u, v)
              + (if negb (directed g) && negb (u =? v) then kind k (v, u) else 0))
    with (count (edges g) k) by lia.
Qed.

(** *** What [get_edges] lists *)

#[local] Instance pair_le_total : Total pair_le.
Proof. intros [a b] [c d]. unfold pair_le. simpl. lia. Qed.

#[local] Instance pair_le_trans : Transitive pair_le.
Proof. intros [a b] [c d] [e f]. unfold pair_le. simpl. lia. Qed.

#[local] Instance pair_le_antisymm : AntiSymm (=) pair_le.
Proof.
  intros [a b] [c d]. unfold pair_le. simpl. intros H1 H2.
  f_equal; lia.
Qed.

Lemma msum_kind (c : Z * Z → Z) (m : gmap (Z * Z) Z) (k : Z * Z) :
  msum (λ k', c k' * kind k' k) m = c k * count m k.
Proof.
  induction m as [|i x m Hi IH] using map_ind.
  - rewrite msum_empty. unfold count. rewrite lookup_empty. simpl. lia.
  - rewrite msum_insert, IH.
    assert (count m i = 0) as -> by (unfold count; by rewrite Hi).
    unfold kind. destruct (decide (i = k)) as [->|Hne].
    + rewrite count_insert_eq.
      assert (count m k = 0) as -> by (unfold count; by rewrite Hi). lia.
    + unfold count at 2. rewrite lookup_insert_ne by done.
      fold (count m k). lia.
Qed.

Lemma get_edges_occurrences (g : t) (k : Z * Z) :
  wf g →
  occurrences (get_edges g) k
  = if directed g || (k.1 <=? k.2) then count (edges g) k else 0.
Proof.
  intros Hwf. unfold occurrences.
  rewrite (filter_get_edges g (λ e, e = k)) by done.
  transitivity
    (msum (λ k', (if directed g || (k'.1 <=? k'.2) then 1 else 0) * kind k' k)
          (edges g)); [reflexivity|].
  rewrite (msum_kind (λ k', if directed g || (k'.1 <=? k'.2) then 1 else 0)).
  destruct (directed g || (k.1 <=? k.2)); lia.
Qed.

Lemma occurrences_cons (e k : Z * Z) (es : list (Z * Z)) :
  occurrences (e :: es) k = kind e k + occurrences es k.
Proof.
  unfold occurrences, kind. rewrite filter_cons.
  destruct (decide (e = k)); simpl length; lia.
Qed.

Lemma occurrences_perm (l1 l2 : list (Z * Z)) :
  (∀ k, occurrences l1 k = occurrences l2 k) → l1 ≡ₚ l2.
Proof.
  intros H.
  apply (Permutation_count_occ (λ x y : Z * Z, decide (x = y))). intros k.
  assert (∀ l, Z.of_nat (count_occ (λ x y : Z * Z, decide (x = y)) l k)
               = occurrences l k) as Hc.
  { induction l as [|e l IH]; [done|].
    rewrite occurrences_cons, <- IH. unfold kind. simpl.
    destruct (decide (e = k)); lia. }
  apply Nat2Z.inj. by rewrite !Hc.
Qed.

Lemma count_foldl_insert (es : list (Z * Z)) (g : t) (k : Z * Z) :
  count (edges (foldl (λ g e, insert g e.1 e.2) g es)) k
  = count (edges g) k
    + sumZ ((λ e, kind e k
                  + (if negb (directed g) && negb (e.1 =? e.2)
                     then kind (swap e) k else 0)) <$> es).
Proof.
  revert g. induction es as [|e es IH]; intros g; cbn [foldl].
  - simpl. lia.
  - rewrite IH, sumZ_fmap_cons, count_insert, directed_insert.
    destruct e as [u v]. unfold kind, swap. simpl.
    repeat case_decide; try congruence;
      destruct (negb (directed g) && negb (u =? v)); lia.
Qed.

Lemma kind_pair (u v a b : Z) :
  kind (u, v) (a, b) = if (u =? a) && (v =? b) then 1 else 0.
Proof.
  unfold kind. destruct (Z.eqb_spec u a), (Z.eqb_spec v b); simpl;
    case_decide; congruence.
Qed.

Lemma kind_sorted_pair (e k : Z * Z) :
  kind (sorted_pair e) k
  = if k.1 <=? k.2
    then kind e k + (if negb (e.1 =? e.2) then kind (swap e) k else 0)
    else 0.
Proof.
  destruct e as [u v], k as [a b]. unfold sorted_pair, swap. cbn [fst snd].
  destruct (Z.leb_spec u v); rewrite !kind_pair;
    destruct (Z.leb_spec a b), (Z.eqb_spec u v), (Z.eqb_spec u a),
      (Z.eqb_spec v b), (Z.eqb_spec v a), (Z.eqb_spec u b); simpl; lia.
Qed.

Lemma get_edges_init_perm (es : list (Z * Z)) (d : bool) :
  get_edges (init es d) ≡ₚ if d then es else sorted_pair <$> es.
Proof.
  apply occurrences_perm. intros k.
  rewrite get_edges_occurrences by apply wf_init.
  rewrite directed_init. unfold init. rewrite count_foldl_insert.
  cbn [directed edges]. unfold count at 1. rewrite lookup_empty. cbn [default].
  destruct d; cbn [negb andb orb].
  - induction es as [|e es IH]; [done|].
    rewrite sumZ_fmap_cons, occurrences_cons. lia.
  - induction es as [|e es IH].
    + simpl. by destruct (k.1 <=? k.2).
    + rewrite sumZ_fmap_cons, fmap_cons, occurrences_cons, <- IH.
      rewrite kind_sorted_pair. destruct (k.1 <=? k.2); lia.
Qed.

Lemma get_edges_Sorted (g : t) : Sorted pair_le (get_edges g).
Proof. apply (Sorted_merge_sort pair_le). Qed.

Lemma get_edges_init (es : list (Z * Z)) (d : bool) :
  get_edges (init es d) = sorted (if d then es else sorted_pair <$> es).
Proof.
  apply (Sorted_unique pair_le).
  - apply get_edges_Sorted.
  - apply (Sorted_merge_sort pair_le).
  - rewrite get_edges_init_perm. symmetry. apply merge_sort_Permutation.
Qed.

(** *** [switch] succeeds on a stored edge *)

Lemma last_accumulate_from (acc : Z) (l : list Z) :
  l ≠ [] → last (accumulate_from acc l) = Some (acc + sumZ l).
Proof.
  revert acc. induction l as [|w l IH]; intros acc Hne; [done|].
  destruct l as [|w' l].
  - simpl. f_equal. lia.
  - cbn [accumulate_from] in *. rewrite last_cons.
    rewrite (IH (acc + w)) by done. f_equal. simpl. lia.
Qed.

Lemma bisect_le (a : list Z) (x : Z) (hi : nat) : (bisect a x hi ≤ hi)%nat.
Proof.
  revert a. induction hi as [|hi IH]; intros [|c a]; simpl; try lia.
  destruct (x <? c); [lia|]. specialize (IH a). lia.
Qed.

Lemma sumZ_positive (l : list Z) : l ≠ [] → Forall (λ x, 0 < x) l → 0 < sumZ l.
Proof.
  intros Hne Hall. destruct Hall as [|x l Hx Hl]; [done|].
  simpl. assert (0 ≤ sumZ l); [|lia].
  apply sumZ_nonneg. eapply Forall_impl; [exact Hl|]. simpl; lia.
Qed.

Lemma choices2_total {A} (pop : list A) (ws : list Z) (s : RNG) :
  pop ≠ [] → ws ≠ [] → Forall (λ x, 0 < x) ws →
  ∃ a b, choices2 pop ws s = Ok (a, b, λ n, s (S (S n))).
Proof.
  intros Hpop Hws Hall. unfold choices2, accumulate.
  rewrite last_accumulate_from by done.
  pose proof (sumZ_positive ws Hws Hall) as Hpos.
  destruct (Z.leb_spec (0 + sumZ ws) 0); [lia|].
  unfold bind, draw, ret.
  assert (∀ x, is_Some (pop !! bisect (accumulate_from 0 ws) x
                                 (length pop - 1))) as Hlook.
  { intros x. apply lookup_lt_is_Some.
    pose proof (bisect_le (accumulate_from 0 ws) x (length pop - 1)).
    destruct pop; [done|]. simpl in *. lia. }
  destruct (Hlook (s 0%nat mod (0 + sumZ ws))) as [a ->].
  destruct (Hlook (s 1%nat mod (0 + sumZ ws))) as [b ->].
  by exists a, b.
Qed.

Lemma switch_empty (g : t) (sl re : bool) (s : RNG) :
  edges g = ∅ → switch g sl re s = Raise IndexError.
Proof. intros E. unfold switch. rewrite E, map_to_list_empty. reflexivity. Qed.

Lemma switch_total (g : t) (sl re : bool) (s : RNG) :
  wf g → edges g ≠ ∅ →
  ∃ first second,
    switch g sl re s
    = Ok (switch_on g sl re first second, λ n, s (S (S n)))
    ∧ is_Some (edges g !! first) ∧ is_Some (edges g !! second).
Proof.
  intros Hwf Hne. unfold switch.
  assert (map_to_list (edges g) ≠ []) as Hitems.
  { intros E. by apply map_to_list_empty_iff in E. }
  destruct (choices2_total (map_to_list (edges g)).*1
              (map_to_list (edges g)).*2 s) as (a & b & Hrun).
  - intros E. by apply fmap_nil_inv in E.
  - intros E. by apply fmap_nil_inv in E.
  - apply Forall_fmap, Forall_forall. intros [k c] Hin.
    apply elem_of_map_to_list in Hin. by destruct (Hwf k c Hin).
  - exists a, b. unfold bind. rewrite Hrun. split; [done|].
    apply choices2_elem in Hrun as [Ha Hb].
    split.
    + apply list_elem_of_fmap in Ha as [[k c] [-> Hin]].
      apply elem_of_map_to_list in Hin. eauto.
    + apply list_elem_of_fmap in Hb as [[k c] [-> Hin]].
      apply elem_of_map_to_list in Hin. eauto.
Qed.

(** *** The vertices of a realization *)

Lemma vertices_in_spec (n : Z) (g : t) :
  vertices_in n g
  ↔ ∀ k, is_Some (edges g !! k) → 1 ≤ k.1 ≤ n ∧ 1 ≤ k.2 ≤ n.
Proof.
  unfold vertices_in, map_Forall. split.
  - intros H k [c Hk]. by apply (H k c).
  - intros H k c Hk. apply H. by exists c.
Qed.

Lemma lookup_insert_graph (g : t) (u v : Z) (k : Z * Z) :
  is_Some (edges (insert g u v) !! k) →
  is_Some (edges g !! k) ∨ k = (u, v) ∨ k = (v, u).
Proof.
  unfold insert. cbn [edges].
  destruct (negb (directed g) && negb (u =? v));
    rewrite ?lookup___insert; repeat case_decide; auto.
Qed.

Lemma lookup_remove_graph (g : t) (u v : Z) (k : Z * Z) :
  is_Some (edges (remove g u v) !! k) →
  is_Some (edges g !! k) ∨ k = (u, v) ∨ k = (v, u).
Proof.
  unfold remove. cbn [edges].
  destruct (negb (directed g) && negb (u =? v));
    rewrite ?lookup___remove; repeat case_decide; auto.
Qed.

Lemma vertices_in_insert (n : Z) (g : t) (u v : Z) :
  vertices_in n g → 1 ≤ u ≤ n → 1 ≤ v ≤ n → vertices_in n (insert g u v).
Proof.
  rewrite !vertices_in_spec. intros Hg Hu Hv k Hk.
  apply lookup_insert_graph in Hk as [Hk|[->| ->]]; simpl; auto.
Qed.

Lemma vertices_in_remove (n : Z) (g : t) (u v : Z) :
  vertices_in n g → 1 ≤ u ≤ n → 1 ≤ v ≤ n → vertices_in n (remove g u v).
Proof.
  rewrite !vertices_in_spec. intros Hg Hu Hv k Hk.
  apply lookup_remove_graph in Hk as [Hk|[->| ->]]; simpl; auto.
Qed.

Lemma vertices_in_switch_on (n : Z) (g : t) (sl re : bool)
    (first second : Z * Z) :
  vertices_in n g →
  is_Some (edges g !! first) → is_Some (edges g !! second) →
  vertices_in n (switch_on g sl re first second).1.
Proof.
  intros Hg H1 H2.
  assert (∀ k, is_Some (edges g !! k) →
               1 ≤ (oriented g k).1 ≤ n ∧ 1 ≤ (oriented g k).2 ≤ n) as Ho.
  { intros k Hk.
    pose proof (proj1 (vertices_in_spec n g) Hg k Hk) as Hk'. clear Hg.
    unfold oriented, sorted_pair. destruct (directed g); [done|].
    destruct (k.1 <=? k.2); simpl; lia. }
  destruct (switch_on_cases g sl re first second) as [-> | ->]; [done|].
  cbn [fst]. destruct (Ho first H1), (Ho second H2).
  by repeat first [apply vertices_in_insert | apply vertices_in_remove].
Qed.

Lemma vertices_in_switches (n : Z) (calls : list (bool * bool)) (g g' : t)
    (s s' : RNG) :
  switches calls g s = Ok (g', s') → vertices_in n g → vertices_in n g'.
Proof.
  revert g s. induction calls as [|c calls IH]; intros g s; cbn [switches].
  - by intros [= <- <-].
  - unfold bind at 1.
    destruct (switch g c.1 c.2 s) as [[[g1 b] s1]| |] eqn:Hsw; [|done..].
    intros Hrun Hg. eapply IH; [exact Hrun|].
    apply switch_inv in Hsw as (first & second & H1 & H2 & Hon).
    pose proof (vertices_in_switch_on n g c.1 c.2 first second Hg H1 H2) as H.
    by rewrite Hon in H.
Qed.

Lemma vertices_in_foldl_insert (n : Z) (es : list (Z * Z)) (g : t) :
  vertices_in n g → Forall (λ e, 1 ≤ e.1 ≤ n ∧ 1 ≤ e.2 ≤ n) es →
  vertices_in n (foldl (λ g e, insert g e.1 e.2) g es).
Proof.
  intros Hg Hes. revert g Hg.
  induction Hes as [|e es [He1 He2] _ IH]; intros g Hg; cbn [foldl]; [done|].
  apply IH. by apply vertices_in_insert.
Qed.

(** A weight on the vertices that vanishes on [a .. a + len - 1]. *)
Lemma enumerate_sum_outside {A} (h : A → Z) (φ : Z → Z) (l : list A) (a : Z) :
  (∀ i, a ≤ i < a + Z.of_nat (length l) → φ i = 0) →
  sumZ ((λ e, h e.2 * φ e.1) <$> enumerate_from a l) = 0.
Proof.
  revert a. induction l as [|x l IH]; intros a Hφ; cbn [enumerate_from];
    [done|].
  rewrite sumZ_fmap_cons. simpl in *. rewrite IH by (intros; apply Hφ; lia).
  rewrite Hφ by lia. lia.
Qed.

Lemma outside_0 (n v : Z) : outside n v = 0 ↔ 1 ≤ v ≤ n.
Proof.
  unfold outside.
  destruct (Z.leb_spec 1 v), (Z.leb_spec v n); simpl; lia.
Qed.

Lemma outside_nonneg (n v : Z) : 0 ≤ outside n v.
Proof. unfold outside. destruct (_ && _); lia. Qed.

Lemma from_undirected_degree_sequence_ends (D : list Z) (sl re : bool) :
  match from_undirected_degree_sequence D sl re with
  | Ok g =>
      ∃ es, g = init es false
            ∧ ∀ φ, ends φ es
                   = sumZ ((λ e, e.2 * φ e.1) <$> enumerate_from 1 D)
  | Raise e => e = not_graphical
  | Diverge => False
  end.
Proof.
  unfold from_undirected_degree_sequence.
  destruct (existsb _ D) eqn:Hneg; [done|].
  destruct (negb _); [done|].
  destruct (Nat.eqb_spec (length D) 0) as [Hlen|Hlen].
  { destruct D; [|done]. by exists []. }
  set (l0 := (λ e : Z * Z, (e.2, e.1)) <$> enumerate_from 1 D).
  pose proof (sort_reverse2_perm l0) as Hperm.
  assert (nonneg2 l0) as Hl0.
  { unfold nonneg2, l0. apply existsb_false_Forall in Hneg.
    apply Forall_fmap. clear -Hneg. generalize 1.
    induction Hneg as [|x l Hx Hl IH]; intros a; simpl; constructor; auto.
    simpl. lia. }
  assert (sort_reverse2 l0 ≠ []) as Hne.
  { intros E. rewrite E in Hperm. apply Permutation_nil_l in Hperm.
    unfold l0 in Hperm. destruct D; simpl in *; done. }
  assert (∀ φ, rem_deg φ (sort_reverse2 l0)
               = sumZ ((λ e, e.2 * φ e.1) <$> enumerate_from 1 D)) as Hr.
  { intros φ. unfold rem_deg. rewrite (sumZ_fmap_perm _ _ _ Hperm).
    unfold l0. by rewrite <- list_fmap_compose. }
  assert (rem_deg (λ _, 1) (sort_reverse2 l0) = sumZ D) as Hr1.
  { rewrite Hr, (enumerate_sum_all (λ x : Z, x)). by rewrite list_fmap_id. }
  assert (0 ≤ sumZ D) as Hsum.
  { apply sumZ_nonneg. apply existsb_false_Forall in Hneg.
    eapply Forall_impl; [exact Hneg|]. simpl; intros; lia. }
  pose proof (undirected_loop_spec (Z.to_nat (sumZ D)) sl re (sumZ D)
                (sort_reverse2 l0) []
                ltac:(unfold nonneg2; by rewrite Hperm)
                (sort_reverse2_top_max l0) Hne
                ltac:(rewrite Hr1; unfold ends; simpl; lia)
                ltac:(simpl; lia)) as Hloop.
  destruct (undirected_loop _ sl re (sumZ D) (sort_reverse2 l0) [])
    as [es|e|]; cbn [except_IndexError obind]; [|by subst e|done].
  exists es. split; [done|]. intros φ. rewrite Hloop, Hr.
  unfold ends. simpl. lia.
Qed.

Lemma ends_outside (n : Z) (es : list (Z * Z)) :
  ends (outside n) es = 0 → Forall (λ e, 1 ≤ e.1 ≤ n ∧ 1 ≤ e.2 ≤ n) es.
Proof.
  unfold ends. intros Hsum.
  assert (Forall (λ x, x = 0)
            ((λ e : Z * Z, outside n e.1 + outside n e.2) <$> es)) as Hz.
  { apply sumZ_zero; [|lia]. apply Forall_fmap, Forall_forall.
    intros e _. simpl.
    pose proof (outside_nonneg n e.1). pose proof (outside_nonneg n e.2). lia. }
  apply Forall_fmap in Hz. eapply Forall_impl; [exact Hz|].
  intros e He. simpl in He.
  pose proof (outside_nonneg n e.1). pose proof (outside_nonneg n e.2).
  split; apply outside_0; lia.
Qed.

Lemma from_undirected_degree_sequence_vertices (D : list Z) (sl re : bool)
    (g : t) :
  from_undirected_degree_sequence D sl re = Ok g →
  vertices_in (Z.of_nat (length D)) g
  ∧ 2 * Z.of_nat (length (get_edges g)) = sumZ D.
Proof.
  intros Hrun.
  pose proof (from_undirected_degree_sequence_ends D sl re) as Hs.
  rewrite Hrun in Hs. destruct Hs as (es & -> & Hends). split.
  - apply vertices_in_foldl_insert; [by intros k c|].
    apply ends_outside. rewrite Hends.
    apply (enumerate_sum_outside (λ x : Z, x)).
    intros i Hi. apply outside_0. lia.
  - rewrite get_edges_init_perm, length_fmap, <- ends_length, Hends.
    rewrite (enumerate_sum_all (λ x : Z, x)). by rewrite list_fmap_id.
Qed.

Lemma msum_zero_terms (f : Z * Z → Z) (g : t) :
  wf g → (∀ k, 0 ≤ f k) → msum f (edges g) = 0 →
  ∀ k, is_Some (edges g !! k) → f k = 0.
Proof.
  intros Hwf Hf Hsum k [c Hk]. unfold msum in Hsum.
  assert (Forall (λ x, x = 0)
            ((λ kc : Z * Z * Z, f kc.1 * kc.2) <$> map_to_list (edges g)))
    as Hz.
  { apply sumZ_zero; [|lia]. apply Forall_fmap, Forall_forall.
    intros [k' c'] Hin. apply elem_of_map_to_list in Hin.
    destruct (Hwf k' c' Hin) as [Hc _]. simpl. specialize (Hf k'). nia. }
  apply Forall_fmap in Hz. rewrite Forall_forall in Hz.
  specialize (Hz (k, c)). simpl in Hz.
  destruct (Hwf k c Hk) as [Hc _].
  specialize (Hz ltac:(by apply elem_of_map_to_list)). nia.
Qed.

Lemma from_directed_degree_sequence_potential (D : list (Z * Z))
    (sl re : bool) (g : t) :
  from_directed_degree_sequence D sl re = Ok g →
  ∀ φ, msum (λ k, φ k.2) (edges g)
       = sumZ ((λ e, e.2.1 * φ e.1) <$> enumerate_from 1 D)
       ∧ msum (λ k, φ k.1) (edges g)
         = sumZ ((λ e, e.2.2 * φ e.1) <$> enumerate_from 1 D).
Proof.
  unfold from_directed_degree_sequence.
  destruct (existsb _ D) eqn:Hneg; [done|].
  destruct D as [|d D]; [done|].
  set (D' := d :: D) in *.
  destruct (Z.eqb_spec (sumZ D'.*1) (sumZ D'.*2)) as [Hsum|Hsum];
    cbn [negb]; [|done].
  destruct (Nat.eqb_spec (length D') 0) as [Hlen|_]; [done|].
  set (l0 := (λ e : Z * (Z * Z), (e.2.2, e.2.1, e.1)) <$> enumerate_from 1 D').
  pose proof (sort_reverse3_perm l0) as Hperm.
  assert (nonneg3 l0) as Hl0.
  { unfold nonneg3, l0. apply existsb_false_Forall in Hneg.
    apply Forall_fmap. clear -Hneg. generalize 1.
    induction Hneg as [|x l Hx Hl IH]; intros a; simpl; constructor; auto.
    simpl. apply orb_false_elim in Hx as [H1 H2]. lia. }
  assert (sort_reverse3 l0 ≠ []) as Hne.
  { intros E. rewrite E in Hperm. by apply Permutation_nil_l in Hperm. }
  pose proof (directed_loop_spec (length (sort_reverse3 l0)) sl re
                (sort_reverse3 l0) (Build true ∅) Hne
                ltac:(unfold nonneg3; by rewrite Hperm) eq_refl
                (pending_le _)) as Hloop.
  destruct (directed_loop _ sl re (sort_reverse3 l0) (Build true ∅))
    as [g'| e|]; cbn [except_IndexError]; [|by destruct e|done].
  intros [= ->].
  destruct Hloop as (Hd & Hin & l' & Hl' & Hout).
  assert (∀ φ, rem_in φ (sort_reverse3 l0)
               = sumZ ((λ e, e.2.1 * φ e.1) <$> enumerate_from 1 D')) as Hri.
  { intros φ. rewrite (rem_in_perm φ _ _ Hperm). unfold rem_in, l0.
    by rewrite <- list_fmap_compose. }
  assert (∀ φ, rem_out φ (sort_reverse3 l0)
               = sumZ ((λ e, e.2.2 * φ e.1) <$> enumerate_from 1 D')) as Hro.
  { intros φ. rewrite (rem_out_perm φ _ _ Hperm). unfold rem_out, l0.
    by rewrite <- list_fmap_compose. }
  assert (Forall (λ s : Z * Z * Z, s.1.1 = 0) l') as Hzero.
  { pose proof (Hin (λ _, 1)) as H1. pose proof (Hout (λ _, 1)) as H2.
    simpl in H1, H2. rewrite Hri in H1. rewrite Hro in H2.
    rewrite (enumerate_sum_all (λ x : Z * Z, x.1)) in H1.
    rewrite (enumerate_sum_all (λ x : Z * Z, x.2)) in H2.
    rewrite msum_empty in H1, H2.
    pose proof (Hsum : sumZ ((λ x : Z * Z, x.1) <$> D')
                       = sumZ ((λ x : Z * Z, x.2) <$> D')) as Hsum'.
    assert (rem_out (λ _, 1) l' = 0) as H3 by lia.
    clear -H3 Hl'. unfold rem_out in H3.
    assert (Forall (λ x, x = 0) ((λ s : Z * Z * Z, s.1.1 * 1) <$> l')) as H4.
    { apply sumZ_zero; [|lia]. apply Forall_fmap.
      eapply Forall_impl; [exact Hl'|]. simpl. intros; lia. }
    apply Forall_fmap in H4. eapply Forall_impl; [exact H4|].
    simpl. intros; lia. }
  intros φ. split.
  - rewrite (Hin φ). simpl. by rewrite msum_empty, Hri.
  - pose proof (Hout φ) as H. simpl in H.
    rewrite msum_empty, Hro, rem_out_zero in H by done. lia.
Qed.

Lemma from_directed_degree_sequence_vertices (D : list (Z * Z))
    (sl re : bool) (g : t) :
  from_directed_degree_sequence D sl re = Ok g →
  vertices_in (Z.of_nat (length D)) g.
Proof.
  intros Hrun.
  pose proof (from_directed_degree_sequence_wf D sl re g Hrun) as Hwf.
  pose proof (from_directed_degree_sequence_potential D sl re g Hrun
                (outside (Z.of_nat (length D)))) as [Hin Hout].
  rewrite (enumerate_sum_outside (λ x : Z * Z, x.1)) in Hin
    by (intros i Hi; apply outside_0; lia).
  rewrite (enumerate_sum_outside (λ x : Z * Z, x.2)) in Hout
    by (intros i Hi; apply outside_0; lia).
  apply vertices_in_spec. intros k Hk.
  pose proof (msum_zero_terms (λ k, outside (Z.of_nat (length D)) k.2) g Hwf
                ltac:(intros; apply outside_nonneg) Hin k Hk) as H2.
  pose proof (msum_zero_terms (λ k, outside (Z.of_nat (length D)) k.1) g Hwf
                ltac:(intros; apply outside_nonneg) Hout k Hk) as H1.
  simpl in H1, H2. by rewrite <- !outside_0.
Qed.


End SwitchGraphFacts.


(** ** Running the factories *)

(** ** The library calls on the random source *)

Module RandomFacts.

Lemma randint_spec (a b : Z) (s : RNG) :
  a ≤ b →
  ∃ x, randint a b s = Ok (x, λ n, s (S n)) ∧ a ≤ x ≤ b.
Proof.
  intros Hab. unfold randint. destruct (Z.ltb_spec b a); [lia|].
  unfold bind, draw, ret. eexists; split; [done|].
  pose proof (Z.mod_pos_bound (s 0%nat) (b - a + 1) ltac:(lia)). lia.
Qed.

Lemma randrange_spec (a b : Z) (s : RNG) :
  a < b →
  ∃ x, randrange a b s = Ok (x, λ n, s (S n)) ∧ a ≤ x < b.
Proof.
  intros Hab. unfold randrange. destruct (Z.leb_spec b a); [lia|].
  unfold bind, draw, ret. eexists; split; [done|].
  pose proof (Z.mod_pos_bound (s 0%nat) (b - a) ltac:(lia)). lia.
Qed.

(** Taking the element at [j] out of the pool and moving the last one
    into its place leaves the other elements, in some order. *)
Lemma pool_step {A} (pool : list A) (j : nat) (x y : A) :
  pool !! j = Some x → last pool = Some y →
  x :: <[j := y]> (removelast pool) ≡ₚ pool.
Proof.
  intros Hj Hlast.
  destruct (last_Some pool y) as [[init Hinit] _]; [done|]. subst pool.
  rewrite removelast_last.
  destruct (decide (j < length init)%nat) as [Hlt|Hge].
  - rewrite lookup_app_l in Hj by done.
    rewrite insert_take_drop by done.
    rewrite <- (take_drop_middle init j x Hj) at 3.
    rewrite <- Permutation_cons_append.
    rewrite <- !Permutation_middle. apply Permutation_swap.
  - rewrite list_insert_ge by lia.
    rewrite lookup_app_r in Hj by lia.
    assert (j - length init = 0)%nat as Hz.
    { apply lookup_lt_Some in Hj. simpl in Hj. lia. }
    rewrite Hz in Hj. injection Hj as ->.
    apply Permutation_cons_append.
Qed.

Lemma sample_pool_spec {A} (k : nat) (pool : list A) (s : RNG) :
  (k ≤ length pool)%nat →
  ∃ res s', sample_pool pool k s = Ok (res, s')
            ∧ length res = k ∧ ∃ rest, res ++ rest ≡ₚ pool.
Proof.
  revert pool s. induction k as [|k IH]; intros pool s Hk; simpl.
  - exists [], s. split_and!; [done..|]. by exists pool.
  - unfold bind at 1, draw.
    set (j := Z.to_nat (s 0%nat mod Z.of_nat (length pool))).
    assert (j < length pool)%nat as Hj.
    { unfold j.
      pose proof (Z.mod_pos_bound (s 0%nat) (Z.of_nat (length pool))
                    ltac:(lia)). lia. }
    destruct (lookup_lt_is_Some_2 pool j Hj) as [x Hx]. rewrite Hx.
    destruct (last pool) as [y|] eqn:Hlast.
    2: { apply last_None in Hlast. subst pool. simpl in Hk. lia. }
    pose proof (pool_step pool j x y Hx Hlast) as Hperm.
    assert (length (<[j := y]> (removelast pool)) = (length pool - 1)%nat)
      as Hlen.
    { apply Permutation_length in Hperm. simpl in Hperm. lia. }
    destruct (IH (<[j := y]> (removelast pool)) (λ n, s (S n))
                ltac:(lia)) as (res & s' & Hrun & Hres & rest & Hrest).
    unfold bind. rewrite Hrun. exists (x :: res), s'.
    split_and!; [done|simpl; lia|].
    exists rest. simpl. by rewrite Hrest.
Qed.

Lemma sample_spec {A} (population : list A) (k : Z) (s : RNG) :
  0 ≤ k ≤ Z.of_nat (length population) →
  ∃ res s', sample population k s = Ok (res, s')
            ∧ Z.of_nat (length res) = k ∧ ∃ rest, res ++ rest ≡ₚ population.
Proof.
  intros Hk. unfold sample.
  destruct (Z.ltb_spec k 0); [lia|].
  destruct (Z.ltb_spec (Z.of_nat (length population)) k); [lia|]. simpl.
  destruct (sample_pool_spec (Z.to_nat k) population s ltac:(lia))
    as (res & s' & Hrun & Hlen & Hrest).
  exists res, s'. split_and!; [done|lia|done].
Qed.

End RandomFacts.

(** ** One query of [RangeQuery] *)

Module RangeQueryFacts.
Import RangeQuery RandomFacts.

Lemma sample_two (lo hi : Z) (s : RNG) :
  lo < hi →
  ∃ l r s', sample (range lo (hi + 1)) 2 s = Ok ([l; r], s')
            ∧ l ≠ r ∧ lo ≤ l ≤ hi ∧ lo ≤ r ≤ hi.
Proof.
  intros Hlt.
  destruct (sample_spec (range lo (hi + 1)) 2 s) as
    (res & s' & Hrun & Hlen & rest & Hperm).
  { unfold range. rewrite length_seqZ. lia. }
  destruct res as [|l [|r [|? ?]]]; simpl in Hlen; try lia.
  exists l, r, s'. split; [done|].
  assert (NoDup ([l; r] ++ rest)) as Hnd.
  { rewrite Hperm. apply NoDup_seqZ. }
  assert (∀ x, x ∈ [l; r] → lo ≤ x ≤ hi) as Hin.
  { intros x Hx.
    assert (x ∈ range lo (hi + 1)) as Hx'.
    { rewrite <- Hperm. apply elem_of_app. by left. }
    apply elem_of_seqZ in Hx'. lia. }
  split_and!.
  - apply NoDup_app in Hnd as (Hnd & _ & _).
    apply NoDup_cons in Hnd as [Hnot _]. intros ->.
    apply Hnot, list_elem_of_here.
  - apply Hin, list_elem_of_here.
  - apply Hin, list_elem_of_here.
  - apply Hin, list_elem_of_further, list_elem_of_here.
  - apply Hin, list_elem_of_further, list_elem_of_here.
Qed.

(** What the code reads as [cur_range[0]] and [cur_range[1]]. *)
Lemma one_dimension_unfold (mode : RangeQueryRandomMode) (d : dimension)
    (ql qr : list Z) (lo hi : Z) (s : RNG) :
  bounds d = Some (lo, hi) →
  one_dimension mode d (ql, qr) s
  = (if lo >? hi
     then raise (ValueError "upper-bound should be larger than lower-bound")
     else if strict mode && (lo =? hi)
     then raise (ValueError
                   "mode is set to less but upper-bound is equal to lower-bound")
     else
       let* lr :=
         match mode with
         | less =>
             let* picked := sample (range lo (hi + 1)) 2 in
             match picked with
             | [l; r] => ret (l, r)
             | _ => raise (ValueError "not enough values to unpack")
             end
         | allow_equal =>
             let* l := randint lo hi in
             let* r := randint lo hi in
             ret (l, r)
         end in
       let '(l, r) := (if lr.1 >? lr.2 then (lr.2, lr.1) else lr) in
       ret (ql ++ [l], qr ++ [r])) s.
Proof.
  destruct d as [x|[|a [|b xs]]]; simpl; intros [= <- <-]; reflexivity.
Qed.

Lemma one_dimension_valid (mode : RangeQueryRandomMode) (d : dimension)
    (ql qr : list Z) (s : RNG) :
  valid mode d →
  ∃ l r s', one_dimension mode d (ql, qr) s = Ok ((ql ++ [l], qr ++ [r]), s')
            ∧ within mode d l r.
Proof.
  intros (lo & hi & Hb & Hle & Hstrict).
  rewrite (one_dimension_unfold mode d ql qr lo hi s Hb).
  destruct (Z.gtb_spec lo hi); [lia|].
  destruct mode; simpl in *.
  - specialize (Hstrict eq_refl).
    destruct (Z.eqb_spec lo hi); [lia|].
    destruct (sample_two lo hi s Hstrict) as (l & r & s' & Hrun & Hne & Hl & Hr).
    unfold bind. rewrite Hrun. simpl.
    destruct (Z.gtb_spec l r); simpl; eexists _, _, _; (split; [done|]);
      exists lo, hi; split_and!; try done; simpl; lia.
  - destruct (randint_spec lo hi s Hle) as (l & Hl & Hlb).
    destruct (randint_spec lo hi (λ n, s (S n)) Hle) as (r & Hr & Hrb).
    unfold bind. rewrite Hl, Hr. simpl.
    destruct (Z.gtb_spec l r); simpl; eexists _, _, _; (split; [done|]);
      exists lo, hi; split_and!; try done; simpl; lia.
Qed.

Lemma classic_valid (mode : RangeQueryRandomMode) (d : dimension) :
  valid mode d ∨ ¬ valid mode d.
Proof.
  unfold valid. destruct (bounds d) as [[lo hi]|];
    [|right; intros (lo & hi & [=] & _)].
  destruct (decide (lo ≤ hi ∧ (strict mode = true → lo < hi))) as [H|H].
  - left. exists lo, hi. tauto.
  - right. intros (lo' & hi' & [= <- <-] & H1 & H2). tauto.
Qed.

Lemma one_dimension_invalid (mode : RangeQueryRandomMode) (d : dimension)
    (acc : list Z * list Z) (s : RNG) :
  is_Some (bounds d) → ¬ valid mode d →
  ∃ msg, one_dimension mode d acc s = Raise (ValueError msg).
Proof.
  intros [[lo hi] Hb] Hinv. destruct acc as [ql qr].
  rewrite (one_dimension_unfold mode d ql qr lo hi s Hb).
  destruct (Z.gtb_spec lo hi); [by eexists|].
  destruct (strict mode) eqn:Hs; simpl.
  - destruct (Z.eqb_spec lo hi); [by eexists|].
    exfalso. apply Hinv. exists lo, hi. split_and!; [done|lia|intros; lia].
  - exfalso. apply Hinv. exists lo, hi.
    split_and!; [done|lia|intros; congruence].
Qed.

Lemma for_each_valid (mode : RangeQueryRandomMode) (pr : list dimension)
    (ql qr : list Z) (s : RNG) :
  Forall (valid mode) pr →
  ∃ ql' qr' s',
    for_each pr (one_dimension mode) (ql, qr) s
    = Ok ((ql ++ ql', qr ++ qr'), s')
    ∧ Forall3 (within mode) pr ql' qr'.
Proof.
  intros Hall. revert ql qr s.
  induction Hall as [|d pr Hd Hall IH]; intros ql qr s; cbn [for_each].
  - exists [], [], s. rewrite !app_nil_r. split; [done|constructor].
  - destruct (one_dimension_valid mode d ql qr s Hd)
      as (l & r & s1 & Hrun & Hw).
    unfold bind. rewrite Hrun.
    destruct (IH (ql ++ [l]) (qr ++ [r]) s1) as (ql' & qr' & s' & Hrest & H3).
    exists (l :: ql'), (r :: qr'), s'. rewrite Hrest, <- !app_assoc.
    split; [done|by constructor].
Qed.

Lemma for_each_invalid (mode : RangeQueryRandomMode) (pr : list dimension)
    (acc : list Z * list Z) (s : RNG) :
  Forall (λ d, is_Some (bounds d)) pr → Exists (λ d, ¬ valid mode d) pr →
  ∃ msg, for_each pr (one_dimension mode) acc s = Raise (ValueError msg).
Proof.
  intros Hb Hex. revert acc s.
  induction pr as [|d pr IH]; intros acc s; [by apply Exists_nil in Hex|].
  apply Forall_cons in Hb as [Hd Hb]. cbn [for_each]. unfold bind.
  destruct (classic_valid mode d) as [Hv|Hv].
  - destruct acc as [ql qr].
    destruct (one_dimension_valid mode d ql qr s Hv)
      as (l & r & s1 & Hrun & _).
    rewrite Hrun. apply IH; [done|].
    apply Exists_cons in Hex as [Hex|Hex]; done.
  - destruct (one_dimension_invalid mode d acc s Hd Hv) as [msg Hrun].
    rewrite Hrun. by eexists.
Qed.

(** *** A list of queries *)

Lemma queries_valid (mode : RangeQueryRandomMode) (dims : list dimension)
    (l : list Z) (acc : list (list Z * list Z)) (s : RNG) :
  Forall (valid mode) dims →
  ∃ res s',
    for_each l (λ _ result,
                  let* q := get_one_query (Some dims) mode in
                  ret (result ++ [q])) acc s = Ok (acc ++ res, s')
    ∧ length res = length l
    ∧ Forall (λ q, Forall3 (within mode) dims q.1 q.2) res.
Proof.
  intros Hv. revert acc s.
  induction l as [|x l IH]; intros acc s; cbn [for_each].
  - exists [], s. rewrite app_nil_r. by split_and!.
  - destruct (for_each_valid mode dims [] [] s Hv)
      as (ql & qr & s1 & Hrun & H3).
    change (for_each dims (one_dimension mode) ([], []) s)
      with (get_one_query (Some dims) mode s) in Hrun.
    unfold bind at 1. unfold bind at 1. rewrite Hrun. unfold ret at 1.
    destruct (IH (acc ++ [([] ++ ql, [] ++ qr)]) s1)
      as (res & s' & Hrest & Hlen & Hall).
    exists (([] ++ ql, [] ++ qr) :: res), s'.
    rewrite Hrest, <- app_assoc. split; [done|]. split; [simpl; lia|].
    constructor; [exact H3|done].
Qed.

Lemma queries_invalid (mode : RangeQueryRandomMode) (dims : list dimension)
    (l : list Z) (acc : list (list Z * list Z)) (s : RNG) :
  l ≠ [] →
  Forall (λ d, is_Some (bounds d)) dims → Exists (λ d, ¬ valid mode d) dims →
  ∃ msg,
    for_each l (λ _ result,
                  let* q := get_one_query (Some dims) mode in
                  ret (result ++ [q])) acc s = Raise (ValueError msg).
Proof.
  intros Hne Hb Hex. destruct l as [|x l]; [done|]. cbn [for_each].
  destruct (for_each_invalid mode dims ([], []) s Hb Hex) as [msg Hrun].
  change (for_each dims (one_dimension mode) ([], []) s)
    with (get_one_query (Some dims) mode s) in Hrun.
  exists msg. unfold bind at 1. unfold bind at 1. by rewrite Hrun.
Qed.


End RangeQueryFacts.

Module GraphFacts.

Lemma bind_randint_same {B} (a : Z) (k : Z → M B) (s : RNG) :
  bind (randint a a) k s = k a (λ n, s (S n)).
Proof.
  unfold bind, randint. rewrite Z.ltb_irrefl. unfold bind, draw, ret.
  replace (a - a + 1) with 1 by lia. rewrite Z.mod_1_r. by rewrite Z.add_0_r.
Qed.

Lemma bind_lift {A B} (o : outcome A) (k : A → M B) (s : RNG) :
  bind (lift o) k s
  = match o with
    | Ok a => k a s
    | Raise e => Raise e
    | Diverge => Diverge
    end.
Proof. by destruct o. Qed.

Lemma bind_assoc {A B C} (m : M A) (k : A → M B) (k' : B → M C) (s : RNG) :
  bind (bind m k) k' s = bind m (λ a, bind (k a) k') s.
Proof. unfold bind. destruct (m s) as [[a s']| |]; done. Qed.

Lemma bind_ret {A B} (a : A) (k : A → M B) (s : RNG) :
  bind (ret a) k s = k a s.
Proof. done. Qed.

(** Evaluate the list of a loop, and an [add_edge] on closed arguments. *)
Ltac eval_for :=
  match goal with
  | |- context [for_each ?l] =>
      lazymatch l with
      | [] => fail
      | _ :: _ => fail
      | _ => let r := eval vm_compute in l in change l with r
      end
  end.

Ltac eval_add :=
  match goal with
  | |- context [Graph.add_edge ?g ?x ?y ?w] =>
      let r := eval vm_compute in (Graph.add_edge g x y w) in
      change (Graph.add_edge g x y w) with r
  end.

(** *** [add_edge] on an undirected graph *)

Lemma py_index_in_range {A} (l : list A) (i : Z) :
  0 ≤ i < Z.of_nat (length l) → py_index l i = Some (Z.to_nat i).
Proof.
  intros Hi. unfold py_index.
  destruct (Z.leb_spec 0 i); [|lia].
  destruct (Z.ltb_spec i (Z.of_nat (length l))); [done|lia].
Qed.

Lemma concat_filter_alter (P : Edge → Prop) `{!∀ e, Decision (P e)}
    (nodes : list (list Edge)) (i : nat) (e : Edge) :
  (i < length nodes)%nat →
  concat (filter P <$> alter (λ node, node ++ [e]) i nodes)
  ≡ₚ concat (filter P <$> nodes) ++ filter P [e].
Proof.
  revert i. induction nodes as [|node nodes IH]; intros [|i] Hi;
    simpl in Hi; try lia.
  - cbn [alter list_alter fmap list_fmap concat].
    rewrite filter_app, <- !app_assoc.
    apply Permutation_app_head, Permutation_app_comm.
  - cbn [alter list_alter fmap list_fmap concat].
    rewrite <- app_assoc. apply Permutation_app_head.
    apply IH. lia.
Qed.

Lemma __add_edge_spec (g : Graph.t) (x y w : Z) :
  0 ≤ x < Z.of_nat (length (Graph.edges g)) →
  ∃ g', Graph.__add_edge g x y w = Ok g'
        ∧ Graph.directed g' = Graph.directed g
        ∧ length (Graph.edges g') = length (Graph.edges g)
        ∧ Graph.iterate_edges g'
          ≡ₚ Graph.iterate_edges g ++ filter (canonical g) [mkEdge x y w].
Proof.
  intros Hx. unfold Graph.__add_edge. rewrite py_index_in_range by done.
  eexists. split_and!; [done|done|apply length_alter|].
  unfold Graph.iterate_edges. cbn [Graph.edges Graph.directed].
  apply (concat_filter_alter (canonical g)). lia.
Qed.

Lemma add_edge_undirected (g : Graph.t) (x y w : Z) :
  Graph.directed g = false →
  1 ≤ x < y → y < Z.of_nat (length (Graph.edges g)) →
  ∃ g', Graph.add_edge g x y w = Ok g'
        ∧ Graph.directed g' = false
        ∧ length (Graph.edges g') = length (Graph.edges g)
        ∧ Graph.iterate_edges g' ≡ₚ Graph.iterate_edges g ++ [mkEdge x y w].
Proof.
  intros Hd Hxy Hy. unfold Graph.add_edge.
  destruct (__add_edge_spec g x y w ltac:(lia)) as (g1 & -> & Hd1 & Hl1 & Hp1).
  cbn [obind]. rewrite Hd1, Hd. destruct (Z.eqb_spec x y); [lia|]. simpl.
  destruct (__add_edge_spec g1 y x w ltac:(lia)) as (g2 & -> & Hd2 & Hl2 & Hp2).
  exists g2. split_and!; [done|congruence|congruence|].
  rewrite Hp2, Hp1.
  rewrite (filter_cons_True (canonical g)) by (left; simpl; lia).
  rewrite (filter_cons_False (canonical g1)).
  2: { unfold canonical. simpl. rewrite Hd1, Hd. intros [?|?]; [lia|done]. }
  rewrite !filter_nil. by rewrite app_nil_r.
Qed.

(** *** Loops with an invariant *)

Lemma for_each_inv {A S} (I : list A → S → Prop) (P : A → Prop)
    (body : A → S → M S) :
  (∀ done x st s, I done st → P x →
     ∃ st' s', body x st s = Ok (st', s') ∧ I (done ++ [x]) st') →
  ∀ l done st s, I done st → Forall P l →
    ∃ st' s', for_each l body st s = Ok (st', s') ∧ I (done ++ l) st'.
Proof.
  intros Hstep l. induction l as [|x l IH]; intros done st s HI HP;
    cbn [for_each].
  - exists st, s. by rewrite app_nil_r.
  - apply Forall_cons in HP as [Hx HP].
    destruct (Hstep done x st s HI Hx) as (st1 & s1 & Hrun & HI1).
    unfold bind. rewrite Hrun.
    destruct (IH (done ++ [x]) st1 s1 HI1 HP) as (st' & s' & Hrest & HI').
    exists st', s'. split; [done|]. by rewrite <- app_assoc in HI'.
Qed.

(** *** [tree] with its defaults *)

Lemma int_of_Q_mul_0 (a : Z) : int_of_Q (inject_Z a * 0) = 0.
Proof.
  unfold int_of_Q, Qle_bool, Qmult, inject_Z, Qfloor. simpl.
  rewrite Z.mul_0_r. simpl. reflexivity.
Qed.

Lemma init_length (n : Z) (d : bool) :
  0 ≤ n → Z.of_nat (length (Graph.edges (Graph.init n d))) = n + 1.
Proof. intros Hn. simpl. rewrite length_replicate. lia. Qed.

Lemma init_iterate (n : Z) (d : bool) :
  Graph.iterate_edges (Graph.init n d) = [].
Proof.
  unfold Graph.iterate_edges, Graph.init. cbn [Graph.edges Graph.directed].
  induction (Z.to_nat (n + 1)) as [|m IH]; [done|].
  cbn [replicate fmap list_fmap concat]. rewrite filter_nil. exact IH.
Qed.

Lemma tree_default (n : Z) (s : RNG) :
  1 ≤ n →
  ∃ T s', Graph.tree n (Exact 0) (Exact 0) no_kwargs s = Ok (T, s')
          ∧ Graph.directed T = false
          ∧ Z.of_nat (length (Graph.edges T)) = n + 1
          ∧ ∃ es, Graph.iterate_edges T ≡ₚ es ∧ tree_shape n es.
Proof.
  intros Hn. unfold Graph.tree.
  unfold num_le, num_add, num_mul, num_int. cbn [num_value].
  change (negb (Qle_bool 0 0 && Qle_bool 0 1)
          || negb (Qle_bool 0 0 && Qle_bool 0 1)) with false.
  change (negb (Qle_bool (0 + 0) 1)) with false. cbv iota.
  rewrite int_of_Q_mul_0. cbv zeta.
  destruct (Z.gtb_spec 0 (n - 1)); [lia|].
  destruct (Z.gtb_spec (0 + 0) (n - 1)); [lia|].
  change (range 2 (0 + 2)) with (@nil Z).
  change (range (0 + 2) (0 + 0 + 2)) with (@nil Z).
  replace (range (n - (n - 1 - 0 - 0) + 1) (n + 1)) with (seqZ 2 (n - 1))
    by (unfold range; f_equal; lia).
  cbn [for_each]. rewrite !bind_ret.
  cbn [kw_directed no_kwargs default].
  set (body := λ (i : Z) (graph : Graph.t),
                 let* u := Graph.father_gen_of no_kwargs i in
                 let* w := Graph.weight_gen_of no_kwargs in
                 lift (Graph.add_edge graph u i w)).
  pose (I := λ (done : list Z) (g : Graph.t),
               Graph.directed g = false
               ∧ Z.of_nat (length (Graph.edges g)) = n + 1
               ∧ ∃ es, Graph.iterate_edges g ≡ₚ es
                       ∧ Forall2 (λ i e, end_ e = i ∧ 1 ≤ start e < i) done es).
  destruct (for_each_inv I (λ i, 2 ≤ i ≤ n) body) with
    (l := seqZ 2 (n - 1)) (done := @nil Z) (st := Graph.init n false) (s := s)
    as (T & s' & Hrun & HT).
  - intros done i g s0 (Hd & Hlen & es & Hperm & Hes) Hi. unfold body.
    unfold Graph.father_gen_of, Graph.weight_gen_of, Graph.weight_limit_of.
    cbn [kw_father_gen kw_weight_gen kw_weight_limit no_kwargs default
         fst snd].
    destruct (RandomFacts.randrange_spec 1 i s0 ltac:(lia)) as (u & Hu & Hub).
    unfold bind at 1. rewrite Hu. rewrite bind_randint_same.
    destruct (add_edge_undirected g u i 1 Hd ltac:(lia) ltac:(lia))
      as (g' & Hadd & Hd' & Hlen' & Hperm').
    unfold lift. rewrite Hadd. eexists _, _. split; [done|].
    split_and!; [done|lia|].
    exists (es ++ [mkEdge u i 1]). split; [by rewrite Hperm', Hperm|].
    apply Forall2_app; [done|]. constructor; [|constructor]. simpl. lia.
  - split_and!; [done|by apply init_length; lia|].
    exists []. rewrite init_iterate. split; [done|constructor].
  - apply Forall_seqZ. intros; lia.
  - exists T, s'. split; [exact Hrun|]. destruct HT as (Hd & Hlen & es & H1 & H2).
    split_and!; [done..|]. by exists es.
Qed.

(** *** The components of a set of downward edges

    Every edge of [E] goes from a vertex to a larger one, and no vertex
    is the larger end of two edges: every vertex has at most one edge
    to a smaller vertex, its parent. *)

Lemma root_of_S (E : list (Z * Z)) (fuel : nat) (v : Z) :
  root_of E (S fuel) v
  = match list_find (λ e, e.2 = v) E with
    | Some (_, e) => root_of E fuel e.1
    | None => v
    end.
Proof. reflexivity. Qed.

Section Forest.
Variable n : Z.
Variable E : list (Z * Z).
Hypothesis n_nonneg : 0 ≤ n.
Hypothesis E_down : Forall (λ e, 1 ≤ e.1 < e.2 ∧ e.2 ≤ n) E.
Hypothesis E_child : NoDup E.*2.

Lemma E_edge (p c : Z) : (p, c) ∈ E → 1 ≤ p < c ∧ c ≤ n.
Proof.
  intros Hin. rewrite Forall_forall in E_down. by apply (E_down (p, c)).
Qed.

Lemma child_has_parent (c : Z) : c ∈ E.*2 → ∃ p, (p, c) ∈ E.
Proof.
  intros ([p c'] & -> & Hin)%list_elem_of_fmap. by exists p.
Qed.

Lemma parent_unique (p p' c : Z) : (p, c) ∈ E → (p', c) ∈ E → p = p'.
Proof.
  intros H1 H2.
  apply list_elem_of_lookup in H1 as [i Hi].
  apply list_elem_of_lookup in H2 as [j Hj].
  assert (i = j) as ->.
  { eapply NoDup_lookup; [exact E_child|..];
      rewrite list_lookup_fmap; [rewrite Hi|rewrite Hj]; done. }
  congruence.
Qed.

Lemma find_parent (p c : Z) :
  (p, c) ∈ E → ∃ i, list_find (λ e, e.2 = c) E = Some (i, (p, c)).
Proof.
  intros Hin.
  destruct (list_find (λ e, e.2 = c) E) as [[i [p' c']]|] eqn:Hfind.
  - apply list_find_Some in Hfind as (Hi & Hc & _). simpl in Hc. subst c'.
    exists i. do 2 f_equal. f_equal.
    eapply parent_unique; [|exact Hin]. by eapply list_elem_of_lookup_2.
  - apply list_find_None in Hfind. rewrite Forall_forall in Hfind.
    by destruct (Hfind _ Hin).
Qed.

Lemma find_no_parent (v : Z) :
  v ∉ E.*2 → list_find (λ e, e.2 = v) E = None.
Proof.
  intros Hnot. apply list_find_None, Forall_forall. intros [p c] Hin Hc.
  simpl in Hc. subst c. apply Hnot, list_elem_of_fmap. by exists (p, v).
Qed.

Lemma root_of_stable (fuel fuel' : nat) (v : Z) :
  v ≤ Z.of_nat fuel → (fuel ≤ fuel')%nat →
  root_of E fuel' v = root_of E fuel v.
Proof.
  revert fuel' v. induction fuel as [|fuel IH]; intros fuel' v Hv Hf.
  - destruct fuel' as [|fuel']; [done|]. simpl.
    destruct (list_find (λ e, e.2 = v) E) as [[i [p c]]|] eqn:Hfind; [|done].
    apply list_find_Some in Hfind as (Hi & Hc & _). simpl in Hc. subst c.
    apply list_elem_of_lookup_2, E_edge in Hi. lia.
  - destruct fuel' as [|fuel']; [lia|]. simpl.
    destruct (list_find (λ e, e.2 = v) E) as [[i [p c]]|] eqn:Hfind; [|done].
    apply list_find_Some in Hfind as (Hi & Hc & _). simpl in Hc. subst c.
    apply list_elem_of_lookup_2, E_edge in Hi. simpl.
    apply IH; lia.
Qed.

Lemma root_edge (p c : Z) : (p, c) ∈ E → root n E c = root n E p.
Proof.
  intros Hin. pose proof (E_edge p c Hin) as Hpc.
  destruct (find_parent p c Hin) as [i Hfind]. unfold root.
  destruct (Z.to_nat n) as [|m] eqn:Hm; [lia|].
  rewrite (root_of_S E m c), Hfind. cbn [fst].
  symmetry. apply root_of_stable; lia.
Qed.

Lemma root_fixed (v : Z) : v ∉ E.*2 → root n E v = v.
Proof.
  intros Hnot. unfold root. destruct (Z.to_nat n); [done|].
  by rewrite root_of_S, find_no_parent.
Qed.

Lemma connected_root (u v : Z) : connected E u v → root n E u = root n E v.
Proof.
  induction 1 as [v|u v w [Huv|Hvu] _ IH]; [done|..].
  - rewrite <- IH. symmetry. by apply root_edge.
  - rewrite <- IH. by apply root_edge.
Qed.

Lemma connected_to_root (m : nat) (v : Z) :
  1 ≤ v ≤ n → v ≤ Z.of_nat m → ∃ r, r ∈ roots n E ∧ connected E v r.
Proof.
  revert v. induction m as [|m IH]; intros v Hv Hm; [lia|].
  destruct (decide (v ∈ E.*2)) as [Hc|Hr].
  - destruct (child_has_parent v Hc) as [p Hp].
    pose proof (E_edge p v Hp) as Hpv.
    destruct (IH p ltac:(lia) ltac:(lia)) as (r & Hr & Hconn).
    exists r. split; [done|]. eapply connected_step; [|exact Hconn]. by right.
  - exists v. split; [|constructor].
    apply list_elem_of_filter. split; [done|]. apply elem_of_seqZ. lia.
Qed.

Lemma roots_length : Z.of_nat (length (roots n E)) = n - Z.of_nat (length E).
Proof.
  assert (E.*2 ⊆+ seqZ 1 n) as Hsub.
  { apply NoDup_submseteq; [done|]. intros c Hc.
    destruct (child_has_parent c Hc) as [p Hp].
    pose proof (E_edge p c Hp). apply elem_of_seqZ. lia. }
  apply submseteq_Permutation in Hsub as [others Hperm].
  assert (NoDup (E.*2 ++ others)) as Hnd
    by (rewrite <- Hperm; apply NoDup_seqZ).
  apply NoDup_app in Hnd as (_ & Hdisj & _).
  unfold roots. rewrite Hperm, filter_app, length_app.
  rewrite filter_none by
    (apply Forall_forall; intros c Hc Hnot; by apply Hnot).
  rewrite filter_all by
    (apply Forall_forall; intros c Hc Hin; by apply (Hdisj c)).
  apply Permutation_length in Hperm.
  rewrite length_seqZ, length_app, length_fmap in Hperm.
  simpl. lia.
Qed.

Lemma downward_components : components n E (n - Z.of_nat (length E)).
Proof.
  exists (roots n E). split_and!.
  - apply NoDup_filter, NoDup_seqZ.
  - apply roots_length.
  - intros r [_ Hr%elem_of_seqZ]%list_elem_of_filter. lia.
  - intros v Hv. apply (connected_to_root (Z.to_nat v)); lia.
  - intros r r' [Hr _]%list_elem_of_filter [Hr' _]%list_elem_of_filter Hconn.
    apply connected_root in Hconn.
    by rewrite !root_fixed in Hconn.
Qed.

End Forest.

(** *** [forest] with its defaults *)

Lemma tree_shape_ends (n : Z) (es : list Edge) :
  tree_shape n es → end_ <$> es = seqZ 2 (n - 1).
Proof.
  unfold tree_shape. induction 1 as [|i e l es [He _] _ IH]; [done|].
  cbn [fmap list_fmap]. f_equal; [done|exact IH].
Qed.

Lemma tree_shape_down (n : Z) (es : list Edge) :
  tree_shape n es → Forall (λ e, 1 ≤ start e < end_ e ∧ end_ e ≤ n) es.
Proof.
  unfold tree_shape. intros H.
  assert (Forall (λ i, 2 ≤ i ≤ n) (seqZ 2 (n - 1))) as Hrange
    by (apply Forall_seqZ; intros; lia).
  induction H as [|i e l es [He Hs] _ IH]; [done|].
  apply Forall_cons in Hrange as [Hi Hrange].
  constructor; [lia|by apply IH].
Qed.

Lemma forest_default (n k : Z) (s : RNG) :
  1 ≤ k ≤ n →
  ∃ G s', Graph.forest n k no_kwargs s = Ok (G, s')
          ∧ Graph.directed G = false
          ∧ ∃ need_add,
              Graph.iterate_edges G ≡ₚ need_add
              ∧ Z.of_nat (length need_add) = n - k
              ∧ Forall (λ e, 1 ≤ start e < end_ e ∧ end_ e ≤ n) need_add
              ∧ NoDup (end_ <$> need_add).
Proof.
  intros Hk. unfold Graph.forest.
  destruct (Z.leb_spec k 0); [lia|]. destruct (Z.gtb_spec k n); [lia|].
  cbn [orb kw_chain kw_flower no_kwargs default].
  destruct (tree_default n s ltac:(lia))
    as (T & s1 & HT & Hd & Hlen & es & Hperm & Hshape).
  unfold bind at 1. rewrite HT.
  assert (Z.of_nat (length (Graph.iterate_edges T)) = n - 1) as Hcount.
  { rewrite Hperm. pose proof (tree_shape_ends n es Hshape) as Hends.
    apply (f_equal length) in Hends.
    rewrite length_fmap, length_seqZ in Hends. lia. }
  destruct (RandomFacts.sample_spec (Graph.iterate_edges T)
              (Z.of_nat (length (Graph.iterate_edges T)) - k + 1) s1
              ltac:(lia)) as (need_add & s2 & Hsample & Hlen2 & rest & Hrest).
  unfold bind at 1. rewrite Hsample.
  assert (Forall (λ e, 1 ≤ start e < end_ e ∧ end_ e ≤ n) need_add) as Hdown.
  { pose proof (tree_shape_down n es Hshape) as Hall.
    rewrite <- Hperm, <- Hrest in Hall. by apply Forall_app in Hall as [? _]. }
  assert (NoDup (end_ <$> need_add)) as Hnd.
  { pose proof (NoDup_seqZ 2 (n - 1)) as Hall.
    rewrite <- (tree_shape_ends n es Hshape), <- Hperm, <- Hrest in Hall.
    rewrite fmap_app in Hall. by apply NoDup_app in Hall as [? _]. }
  pose (I := λ (done : list Edge) (g : Graph.t),
               Graph.directed g = false
               ∧ Z.of_nat (length (Graph.edges g)) = n + 1
               ∧ Graph.iterate_edges g ≡ₚ done).
  destruct (for_each_inv I (λ e, 1 ≤ start e < end_ e ∧ end_ e ≤ n)
              (λ edge result,
                 lift (Graph.add_edge result (start edge) (end_ edge)
                         (weight edge))))
    with (l := need_add) (done := @nil Edge)
         (st := Graph.init n (Graph.directed T)) (s := s2)
    as (G & s' & Hrun & HG).
  - intros done e g s0 (Hdg & Hlg & Hpg) He.
    destruct (add_edge_undirected g (start e) (end_ e) (weight e) Hdg
                ltac:(lia) ltac:(lia)) as (g' & Hadd & Hd' & Hlen' & Hperm').
    unfold lift. rewrite Hadd. exists g', s0. split; [done|].
    split_and!; [done|lia|]. rewrite Hperm', Hpg. by destruct e.
  - rewrite Hd. split_and!; [done|apply init_length; lia|].
    by rewrite init_iterate.
  - exact Hdown.
  - exists G, s'. split; [exact Hrun|]. destruct HG as (HdG & _ & HpG).
    split; [done|]. exists need_add. split_and!; [done|lia|done|done].
Qed.

(** *** [hack_spfa] on six vertices *)

(** The run of [hack_spfa(6, extra_edge=0)]: seven weights are drawn,
    all equal to 1, and seven edges are added. *)
Lemma hack_spfa_6_run (s : RNG) :
  Graph.hack_spfa 6
    (mkKwargs None None None None None None (Some 0) None None) s
  = Ok (Graph.Build false
          [[];
           [mkEdge 1 2 1; mkEdge 1 4 1];
           [mkEdge 2 1 1; mkEdge 2 3 1; mkEdge 2 5 1];
           [mkEdge 3 2 1; mkEdge 3 6 1];
           [mkEdge 4 5 1; mkEdge 4 1 1];
           [mkEdge 5 4 1; mkEdge 5 6 1; mkEdge 5 2 1];
           [mkEdge 6 5 1; mkEdge 6 3 1]],
        λ n, s (S (S (S (S (S (S (S n)))))))).
Proof.
  unfold Graph.hack_spfa, Graph.weight_gen_of, Graph.weight_limit_of.
  cbn [kw_directed kw_extra_edge kw_weight_gen kw_weight_limit default
       fst snd].
  repeat eval_for. cbn [for_each].
  repeat first [ rewrite bind_assoc | rewrite bind_randint_same
               | rewrite bind_ret
               | rewrite bind_lift; eval_add; cbv beta iota ].
  reflexivity.
Qed.

Lemma py_index_Some {A} (l : list A) (i : Z) :
  - Z.of_nat (length l) ≤ i < Z.of_nat (length l) →
  ∃ j, py_index l i = Some j ∧ (j < length l)%nat.
Proof.
  intros Hi. unfold py_index.
  destruct (Z.leb_spec 0 i), (Z.ltb_spec i (Z.of_nat (length l))); simpl;
    try lia.
  - exists (Z.to_nat i). split; [done|lia].
  - destruct (Z.leb_spec (- Z.of_nat (length l)) i), (Z.ltb_spec i 0); simpl;
      try lia.
    exists (Z.to_nat (i + Z.of_nat (length l))). split; [done|lia].
Qed.

Lemma py_index_None {A} (l : list A) (i : Z) :
  ¬ (- Z.of_nat (length l) ≤ i < Z.of_nat (length l)) → py_index l i = None.
Proof.
  intros Hi. unfold py_index.
  destruct (Z.leb_spec 0 i), (Z.ltb_spec i (Z.of_nat (length l))); simpl;
    try lia;
    destruct (Z.leb_spec (- Z.of_nat (length l)) i), (Z.ltb_spec i 0); simpl;
    try lia; done.
Qed.

Lemma __add_edge_index (g : Graph.t) (x y w : Z) :
  in_bounds g x →
  ∃ g', Graph.__add_edge g x y w = Ok g'
        ∧ Graph.directed g' = Graph.directed g
        ∧ length (Graph.edges g') = length (Graph.edges g)
        ∧ Graph.iterate_edges g'
          ≡ₚ Graph.iterate_edges g ++ filter (canonical g) [mkEdge x y w].
Proof.
  intros Hx. unfold Graph.__add_edge.
  destruct (py_index_Some (Graph.edges g) x Hx) as (j & -> & Hj).
  eexists. split_and!; [done|done|apply length_alter|].
  unfold Graph.iterate_edges. cbn [Graph.edges Graph.directed].
  by apply (concat_filter_alter (canonical g)).
Qed.

Lemma add_edge_any (g : Graph.t) (x y w : Z) :
  in_bounds g x → Graph.directed g = true ∨ in_bounds g y →
  ∃ g', Graph.add_edge g x y w = Ok g'
        ∧ Graph.directed g' = Graph.directed g
        ∧ length (Graph.edges g') = length (Graph.edges g)
        ∧ Graph.iterate_edges g'
          ≡ₚ Graph.iterate_edges g ++ [stored g x y w].
Proof.
  intros Hx Hy. unfold Graph.add_edge.
  destruct (__add_edge_index g x y w Hx) as (g1 & -> & Hd1 & Hl1 & Hp1).
  cbn [obind]. rewrite Hd1. unfold stored.
  destruct (bool_dec (Graph.directed g) true) as [Hd|Hd%not_true_is_false];
    rewrite Hd; cbn [negb andb orb].
  - exists g1. split_and!; [done|congruence|done|].
    rewrite Hp1, filter_cons_True by (by right). by rewrite filter_nil.
  - destruct Hy as [?|Hy]; [congruence|].
    destruct (Z.eqb_spec x y) as [->|Hne]; cbn [negb].
    + exists g1. split_and!; [done|congruence|done|].
      rewrite Z.leb_refl.
      rewrite Hp1, filter_cons_True by (left; simpl; lia).
      by rewrite filter_nil.
    + assert (in_bounds g1 y) as Hy1 by (unfold in_bounds; by rewrite Hl1).
      destruct (__add_edge_index g1 y x w Hy1) as (g2 & -> & Hd2 & Hl2 & Hp2).
      exists g2. split_and!; [done|congruence|congruence|].
      rewrite Hp2, Hp1.
      destruct (Z.leb_spec x y).
      * rewrite filter_cons_True by (left; simpl; lia).
        rewrite (filter_cons_False _ (mkEdge y x w))
          by (unfold canonical; simpl; rewrite Hd1, Hd;
              intros [?|?]; [lia|done]).
        rewrite !filter_nil. by rewrite app_nil_r.
      * rewrite filter_cons_False
          by (unfold canonical; simpl; rewrite Hd;
              intros [?|?]; [lia|done]).
        rewrite (filter_cons_True _ (mkEdge y x w)) by (left; simpl; lia).
        rewrite !filter_nil. by rewrite app_nil_r.
Qed.

Lemma add_edge_start_error (g : Graph.t) (x y w : Z) :
  ¬ in_bounds g x → Graph.add_edge g x y w = Raise IndexError.
Proof.
  intros Hx. unfold Graph.add_edge, Graph.__add_edge.
  by rewrite py_index_None.
Qed.

Lemma add_edge_end_error (g : Graph.t) (x y w : Z) :
  in_bounds g x → Graph.directed g = false → x ≠ y → ¬ in_bounds g y →
  Graph.add_edge g x y w = Raise IndexError.
Proof.
  intros Hx Hd Hne Hy. unfold Graph.add_edge.
  destruct (__add_edge_index g x y w Hx) as (g1 & -> & Hd1 & Hl1 & _).
  cbn [obind]. rewrite Hd1, Hd.
  destruct (Z.eqb_spec x y); [done|]. cbn [negb andb].
  unfold Graph.__add_edge. rewrite py_index_None; [done|].
  by rewrite Hl1.
Qed.

Lemma iterate_edges_canonical (g : Graph.t) :
  Forall (canonical g) (Graph.iterate_edges g).
Proof.
  unfold Graph.iterate_edges. apply Forall_concat, Forall_fmap, Forall_forall.
  intros node _. simpl. apply Forall_forall. intros e He.
  by apply list_elem_of_filter in He as [He _].
Qed.

(** *** Trees *)

Lemma randint_total (lo hi : Z) :
  lo ≤ hi → total_gen (λ w, lo ≤ w ≤ hi) (randint lo hi).
Proof.
  intros Hle s. destruct (RandomFacts.randint_spec lo hi s Hle) as (w & Hw & Hb).
  by exists w, (λ n, s (S n)).
Qed.

Lemma weight_gen_total (kw : kwargs) :
  kw_weight_gen kw = None →
  (Graph.weight_limit_of kw).1 ≤ (Graph.weight_limit_of kw).2 →
  total_gen (λ w, (Graph.weight_limit_of kw).1 ≤ w
                  ≤ (Graph.weight_limit_of kw).2)
            (Graph.weight_gen_of kw).
Proof.
  intros Hg Hle. unfold Graph.weight_gen_of. rewrite Hg. cbn [default].
  by apply randint_total.
Qed.

Lemma grow (n : Z) (P : Z → Prop) (R : Z → Z → Prop) (parent : Z → M Z)
    (wg : M Z) (l : list Z) (g : Graph.t) (s : RNG) :
  total_gen P wg →
  Forall (λ i, 2 ≤ i ≤ n
               ∧ ∀ s, ∃ u s', parent i s = Ok (u, s') ∧ 1 ≤ u < i ∧ R i u) l →
  Z.of_nat (length (Graph.edges g)) = n + 1 →
  ∃ g' s' es,
    for_each l (λ i graph,
                  let* u := parent i in
                  let* w := wg in
                  lift (Graph.add_edge graph u i w)) g s = Ok (g', s')
    ∧ Graph.directed g' = Graph.directed g
    ∧ Z.of_nat (length (Graph.edges g')) = n + 1
    ∧ Graph.iterate_edges g' ≡ₚ Graph.iterate_edges g ++ es
    ∧ Forall2 (child_edge P R) l es.
Proof.
  intros Hwg Hl. revert g s.
  induction Hl as [|i l [Hi Hp] _ IH]; intros g s Hlen; cbn [for_each].
  - exists g, s, []. rewrite app_nil_r. split_and!; done.
  - destruct (Hp s) as (u & s1 & Hu & Hub & HR).
    destruct (Hwg s1) as (w & s2 & Hw & HP).
    destruct (add_edge_any g u i w) as (g1 & Hadd & Hd1 & Hl1 & Hp1).
    { unfold in_bounds. lia. }
    { right. unfold in_bounds. lia. }
    unfold bind at 1. unfold bind at 1. rewrite Hu.
    unfold bind at 1. rewrite Hw. unfold lift. rewrite Hadd.
    destruct (IH g1 s2 ltac:(lia)) as (g' & s' & es & Hrun & Hd & Hlen' & Hperm & H2).
    exists g', s', (stored g u i w :: es). split; [exact Hrun|].
    split_and!; [congruence|done| |].
    + rewrite Hperm, Hp1, <- app_assoc. done.
    + constructor; [|done]. unfold stored.
      destruct (Z.leb_spec u i); [|lia]. rewrite orb_true_r.
      unfold child_edge. simpl. done.
Qed.

Lemma int_of_Q_inject (a : Z) : int_of_Q (inject_Z a) = a.
Proof.
  unfold int_of_Q. destruct (Qle_bool 0 (inject_Z a)).
  - apply Qfloor_Z.
  - apply Qceiling_Z.
Qed.

Lemma int_of_Q_comp (p q : Q) : (p == q)%Q → int_of_Q p = int_of_Q q.
Proof.
  intros E. unfold int_of_Q.
  assert (Qle_bool 0 p = Qle_bool 0 q) as ->.
  { apply eq_true_iff_eq. rewrite !Qle_bool_iff. by rewrite E. }
  destruct (Qle_bool 0 q).
  - by apply Qfloor_comp.
  - by apply Qceiling_comp.
Qed.

Lemma int_of_Q_mul_1 (a : Z) : int_of_Q (inject_Z a * 1) = a.
Proof.
  rewrite (int_of_Q_comp _ (inject_Z a)); [apply int_of_Q_inject|].
  apply Qmult_1_r.
Qed.

Lemma int_of_Q_nonneg (q : Q) : (0 <= q)%Q → 0 ≤ int_of_Q q.
Proof.
  intros Hq. unfold int_of_Q.
  apply Qle_bool_iff in Hq as Hb. rewrite Hb.
  change 0 with (Qfloor 0). by apply Qfloor_resp_le.
Qed.

(** Rounding keeps the sign, so that the numbers of edges that [tree]
    computes from fractions of [[0, 1]] are not negative, with floats
    as without. *)
Lemma round_half_even_nonneg (q : Q) : (0 <= q)%Q → 0 ≤ round_half_even q.
Proof.
  intros Hq. unfold round_half_even.
  assert (0 ≤ Qfloor q) as Hf
    by (change 0 with (Qfloor 0); by apply Qfloor_resp_le).
  destruct (_ ?= _)%Q; [destruct (Z.even _)|..]; lia.
Qed.

Lemma round_double_nonneg (q : Q) : (0 <= q)%Q → (0 <= round_double q)%Q.
Proof.
  intros Hq. unfold round_double.
  set (e := Z.max (binade q - 52) (-1074)).
  assert (0 < 2 ^ e)%Q as He by (by apply Qpower_0_lt).
  apply Qmult_le_0_compat; [|by apply Qlt_le_weak].
  change 0%Q with (inject_Z 0). rewrite <- Zle_Qle.
  apply round_half_even_nonneg.
  apply Qle_shift_div_l; [done|]. by rewrite Qmult_0_l.
Qed.

Lemma num_mul_nonneg (a b : number) :
  (0 <= num_value a)%Q → (0 <= num_value b)%Q →
  (0 <= num_value (num_mul a b))%Q.
Proof.
  intros Ha Hb.
  destruct a as [p|x], b as [q|y]; simpl in *;
    try apply round_double_nonneg; apply Qmult_le_0_compat;
    try done; try (by apply round_double_nonneg).
Qed.

(** Where the sum of two floats falls against 1. *)
Lemma round_half_even_le (m : Q) (N : Z) :
  (m <= inject_Z N)%Q → round_half_even m ≤ N.
Proof.
  intros Hm. unfold round_half_even.
  assert (Qfloor m ≤ N) as Hf
    by (rewrite <- (Qfloor_Z N); by apply Qfloor_resp_le).
  assert ((1 # 2 <= m - inject_Z (Qfloor m))%Q → Qfloor m + 1 ≤ N) as Hup.
  { intros Hh. apply Z.lt_succ_r. unfold Z.succ. 
    assert (Qfloor m < N); [|lia].
    rewrite Zlt_Qlt. apply Qlt_le_trans with m; [|done].
    apply Qlt_minus_iff. eapply Qlt_le_trans; [|exact Hh]. done. }
  destruct (_ ?= _)%Q eqn:E; [destruct (Z.even _)|..]; try lia.
  - apply Hup. apply Qeq_alt in E. rewrite E. apply Qle_refl.
  - apply Hup. apply Qgt_alt in E. by apply Qlt_le_weak.
Qed.

Lemma round_half_even_ge (m : Q) (N : Z) :
  (inject_Z N <= m)%Q → N ≤ round_half_even m.
Proof.
  intros Hm. unfold round_half_even.
  assert (N ≤ Qfloor m) as Hf
    by (rewrite <- (Qfloor_Z N); by apply Qfloor_resp_le).
  destruct (_ ?= _)%Q; [destruct (Z.even _)|..]; lia.
Qed.

Lemma pow2_pos (e : Z) : (0 < 2 ^ e)%Q.
Proof. by apply Qpower_0_lt. Qed.

Lemma pow2_neg (e : Z) : e ≤ 0 → (2 ^ e * inject_Z (2 ^ (- e)) == 1)%Q.
Proof.
  intros He. rewrite Zpower_Qpower by lia.
  change (inject_Z 2) with 2%Q.
  rewrite <- Qpower_plus by done.
  replace (e + - e) with 0 by lia. done.
Qed.

(** A sum of at most 1 is not rounded beyond 1. *)
Lemma round_double_le_1 (q : Q) : (q <= 1)%Q → (round_double q <= 1)%Q.
Proof.
  intros Hq. unfold round_double.
  set (e := Z.max (binade q - 52) (-1074)).
  pose proof (pow2_pos e) as He.
  destruct (Qlt_le_dec 0 q) as [Hpos|Hneg].
  - assert (e ≤ 0) as He0.
    { unfold e, binade.
      assert (Z.log2 (Z.abs (Qnum q)) ≤ Z.log2 (Z.pos (Qden q))).
      { apply Z.log2_le_mono. unfold Qle in Hq. unfold Qlt in Hpos.
        simpl in *. lia. }
      destruct (Qle_bool _ _); lia. }
    assert (round_half_even (q / 2 ^ e) ≤ 2 ^ (- e)) as Hr.
    { apply round_half_even_le. apply Qle_shift_div_r; [done|].
      rewrite Qmult_comm, pow2_neg by done. done. }
    apply Qle_trans with (inject_Z (2 ^ (- e)) * 2 ^ e)%Q.
    + apply Qmult_le_compat_r; [|by apply Qlt_le_weak].
      by rewrite <- Zle_Qle.
    + rewrite Qmult_comm, pow2_neg by done. apply Qle_refl.
  - apply Qle_trans with 0%Q; [|done].
    assert (round_half_even (q / 2 ^ e) ≤ 0) as Hr.
    { apply round_half_even_le. apply Qle_shift_div_r; [done|].
      by rewrite Qmult_0_l. }
    rewrite <- (Qmult_0_l (2 ^ e)).
    apply Qmult_le_compat_r; [|by apply Qlt_le_weak].
    change 0%Q with (inject_Z 0). by rewrite <- Zle_Qle.
Qed.

Lemma pow2_Z (z : Z) : 0 ≤ z → (2 ^ z == inject_Z (2 ^ z))%Q.
Proof. intros Hz. by rewrite Zpower_Qpower. Qed.

Lemma pow2_ge_1 (z : Z) : 0 ≤ z → (1 <= 2 ^ z)%Q.
Proof.
  intros Hz. rewrite pow2_Z by done. change 1%Q with (inject_Z 1).
  rewrite <- Zle_Qle. pose proof (Z.pow_pos_nonneg 2 z). lia.
Qed.

Lemma pow2_add (a b : Z) : (2 ^ (a + b) == 2 ^ a * 2 ^ b)%Q.
Proof. by apply Qpower_plus. Qed.

(** [binade q] is not above the binary logarithm of [q]. *)
Lemma binade_le (q : Q) : (0 < q)%Q → (2 ^ binade q <= q)%Q.
Proof.
  intros Hq. unfold binade.
  rewrite (Qabs_pos q) by (by apply Qlt_le_weak).
  destruct (Qle_bool _ q) eqn:E; [by apply Qle_bool_iff|]. clear E.
  destruct q as [n d]. unfold Qlt in Hq. simpl in Hq. cbn [Qnum Qden].
  rewrite Z.abs_eq by lia.
  set (a := Z.log2 n). set (b := Z.log2 (Z.pos d)).
  assert (2 ^ a ≤ n) as Ha by (apply Z.log2_spec; lia).
  assert (Z.pos d < 2 ^ (b + 1)) as Hb.
  { pose proof (Z.log2_spec (Z.pos d) ltac:(lia)). unfold b.
    replace (Z.log2 (Z.pos d) + 1) with (Z.succ (Z.log2 (Z.pos d))) by lia.
    lia. }
  assert (0 ≤ a) as Ha0 by apply Z.log2_nonneg.
  assert (0 ≤ b) as Hb0 by apply Z.log2_nonneg.
  replace (a - b - 1) with (a + - (b + 1)) by lia.
  rewrite pow2_add, Qpower_opp, !pow2_Z by lia.
  assert (0 < 2 ^ (b + 1)) as HB by (apply Z.pow_pos_nonneg; lia).
  assert (0 < 2 ^ a) as HA by (apply Z.pow_pos_nonneg; lia).
  apply Qle_shift_div_r.
  { change 0%Q with (inject_Z 0). by rewrite <- Zlt_Qlt. }
  unfold Qle. simpl. nia.
Qed.

Lemma binade_gt (q : Q) : (0 < q)%Q → (q < 2 ^ (binade q + 1))%Q.
Proof.
  intros Hq. unfold binade.
  rewrite (Qabs_pos q) by (by apply Qlt_le_weak).
  set (e := Z.log2 (Z.abs (Qnum q)) - Z.log2 (Z.pos (Qden q))).
  destruct (Qle_bool (2 ^ e) q) eqn:E.
  - clear E. subst e. destruct q as [n d]. unfold Qlt in Hq. simpl in Hq.
    cbn [Qnum Qden]. rewrite Z.abs_eq by lia.
    set (a := Z.log2 n). set (b := Z.log2 (Z.pos d)).
    assert (n < 2 ^ (a + 1)) as Ha.
    { pose proof (Z.log2_spec n ltac:(lia)). unfold a.
      replace (Z.log2 n + 1) with (Z.succ (Z.log2 n)) by lia. lia. }
    assert (2 ^ b ≤ Z.pos d) as Hb by (apply Z.log2_spec; lia).
    assert (0 ≤ a) as Ha0 by apply Z.log2_nonneg.
    assert (0 ≤ b) as Hb0 by apply Z.log2_nonneg.
    replace (a - b + 1) with (a + 1 + - b) by lia.
    rewrite pow2_add, Qpower_opp, !pow2_Z by lia.
    assert (0 < 2 ^ b) as HB by (apply Z.pow_pos_nonneg; lia).
    assert (0 < 2 ^ (a + 1)) as HA by (apply Z.pow_pos_nonneg; lia).
    apply Qlt_shift_div_l.
    { change 0%Q with (inject_Z 0). by rewrite <- Zlt_Qlt. }
    unfold Qlt. simpl. nia.
  - replace (e - 1 + 1) with e by lia.
    apply Qnot_le_lt. intros H%Qle_bool_iff. congruence.
Qed.

(** Python has [0.5 + 0.5000000000000001 == 1.0],
    [0.5 + 0.5000000000000002 > 1], [int(10 * 0.7) == 7],
    [int(100 * 0.57) == 56] and [float(2**53 + 1) == 2.0**53]. *)
Lemma round_double_examples :
  (round_double ((1 # 2)
                 + round_double (5000000000000001 # 10000000000000000))
   == 1)%Q
  ∧ (1 < round_double ((1 # 2)
                       + round_double
                           (5000000000000002 # 10000000000000000)))%Q
  ∧ num_int (num_mul (Exact 10) (Float (round_double (7 # 10)))) = 7
  ∧ num_int (num_mul (Exact 10) (Exact (7 # 10))) = 7
  ∧ num_int (num_mul (Exact 100) (Float (round_double (57 # 100)))) = 56
  ∧ (to_float (Exact (inject_Z (2 ^ 53 + 1))) == inject_Z (2 ^ 53))%Q.
Proof. split_and!; by vm_compute. Qed.

(** A sum that exceeds 1 by the gap to the next double is rounded
    above 1. *)
Lemma round_double_gt_1 (q : Q) :
  (1 + 2 ^ (-52) <= q)%Q → (1 < round_double q)%Q.
Proof.
  intros Hq. unfold round_double.
  assert (0 < q)%Q as Hpos.
  { eapply Qlt_le_trans; [|exact Hq]. done. }
  pose proof (binade_le q Hpos) as Hb.
  set (e := Z.max (binade q - 52) (-1074)).
  pose proof (pow2_pos e) as He.
  destruct (Z.le_gt_cases e (-52)) as [Hle|Hgt].
  - (* the doubles about [q] are multiples of [2^e], which 1 is *)
    assert ((2 ^ e <= 2 ^ (-52))%Q) as Hee.
    { replace (-52) with (e + (-52 - e)) by lia. rewrite pow2_add.
      rewrite <- (Qmult_1_r (2 ^ e)) at 1.
      apply Qmult_le_l; [done|]. apply pow2_ge_1. lia. }
    assert (2 ^ (- e) + 1 ≤ round_half_even (q / 2 ^ e)) as Hr.
    { apply round_half_even_ge. apply Qle_shift_div_l; [done|].
      rewrite inject_Z_plus, Qmult_plus_distr_l.
      rewrite (Qmult_comm (inject_Z (2 ^ (- e)))), pow2_neg by lia.
      change (inject_Z 1) with 1%Q. rewrite Qmult_1_l.
      eapply Qle_trans; [|exact Hq]. by apply Qplus_le_r. }
    apply Qlt_le_trans with (inject_Z (2 ^ (- e) + 1) * 2 ^ e)%Q.
    + rewrite inject_Z_plus, Qmult_plus_distr_l.
      rewrite (Qmult_comm (inject_Z (2 ^ (- e)))), pow2_neg by lia.
      change (inject_Z 1) with 1%Q. rewrite Qmult_1_l.
      rewrite <- (Qplus_0_r 1) at 1. by apply Qplus_lt_r.
    + apply Qmult_le_compat_r; [|by apply Qlt_le_weak].
      by rewrite <- Zle_Qle.
  - (* [q] is 2 at least *)
    assert (e = binade q - 52) as Ee by lia.
    assert (2 ^ 52 ≤ round_half_even (q / 2 ^ e)) as Hr.
    { apply round_half_even_ge. apply Qle_shift_div_l; [done|].
      rewrite <- pow2_Z, <- pow2_add by lia.
      replace (52 + e) with (binade q) by lia. done. }
    apply Qlt_le_trans with (inject_Z (2 ^ 52) * 2 ^ e)%Q.
    + rewrite <- pow2_Z, <- pow2_add by lia.
      apply Qlt_le_trans with 2%Q; [done|].
      replace (52 + e) with (1 + (51 + e)) by lia. rewrite pow2_add.
      rewrite <- (Qmult_1_r 2) at 1. change (2 ^ 1)%Q with 2%Q.
      apply Qmult_le_l; [done|]. apply pow2_ge_1. lia.
    + apply Qmult_le_compat_r; [|by apply Qlt_le_weak].
      by rewrite <- Zle_Qle.
Qed.

Lemma tree_run (n : Z) (chain flower : number) (kw : kwargs) (P : Z → Prop)
    (s : RNG) :
  1 ≤ n → (0 <= num_value chain)%Q → (num_value chain <= 1)%Q →
  (0 <= num_value flower)%Q → (num_value flower <= 1)%Q →
  (num_value (num_add chain flower) <= 1)%Q →
  total_gen P (Graph.weight_gen_of kw) →
  (chain = Exact 1 ∨ (chain = Exact 0 ∧ flower = Exact 1)
   ∨ ∀ i s, 2 ≤ i ≤ n →
       ∃ u s', Graph.father_gen_of kw i s = Ok (u, s') ∧ 1 ≤ u < i) →
  ∃ T s' (cc fc : Z) es1 es2 es3,
    Graph.tree n chain flower kw s = Ok (T, s')
    ∧ Graph.directed T = default false (kw_directed kw)
    ∧ Z.of_nat (length (Graph.edges T)) = n + 1
    ∧ 0 ≤ cc ∧ 0 ≤ fc ∧ cc + fc ≤ n - 1
    ∧ (chain = Exact 1 → cc = n - 1)
    ∧ (chain = Exact 0 → flower = Exact 1 → cc = 0 ∧ fc = n - 1)
    ∧ Graph.iterate_edges T ≡ₚ es1 ++ es2 ++ es3
    ∧ Forall2 (child_edge P (λ i u, u = i - 1)) (seqZ 2 cc) es1
    ∧ Forall2 (child_edge P (λ i u, u = 1)) (seqZ (cc + 2) fc) es2
    ∧ Forall2 (child_edge P (λ i u, True))
              (seqZ (cc + fc + 2) (n - 1 - cc - fc)) es3.
Proof.
  intros Hn Hc0 Hc1 Hf0 Hf1 Hcf Hwg Hfg. unfold Graph.tree, num_le.
  cbn [num_value].
  rewrite (proj2 (Qle_bool_iff 0 (num_value chain)) Hc0),
    (proj2 (Qle_bool_iff (num_value chain) 1) Hc1),
    (proj2 (Qle_bool_iff 0 (num_value flower)) Hf0),
    (proj2 (Qle_bool_iff (num_value flower) 1) Hf1),
    (proj2 (Qle_bool_iff (num_value (num_add chain flower)) 1) Hcf).
  cbn [negb andb orb]. cbv zeta.
  set (cc0 := num_int (num_mul (Exact (inject_Z (n - 1))) chain)).
  set (fc0 := num_int (num_mul (Exact (inject_Z (n - 1))) flower)).
  assert ((0 <= num_value (Exact (inject_Z (n - 1))))%Q) as Hn0.
  { cbn [num_value]. change 0%Q with (inject_Z 0). rewrite <- Zle_Qle. lia. }
  assert (0 ≤ cc0) as Hcc0 by (by apply int_of_Q_nonneg, num_mul_nonneg).
  assert (0 ≤ fc0) as Hfc0 by (by apply int_of_Q_nonneg, num_mul_nonneg).
  assert (chain = Exact 1 → cc0 = n - 1) as Hchain
    by (intros ->; apply int_of_Q_mul_1).
  assert (chain = Exact 0 → flower = Exact 1 → cc0 = 0 ∧ fc0 = n - 1)
    as Hflower.
  { intros -> ->. split; [apply int_of_Q_mul_0|apply int_of_Q_mul_1]. }
  clear Hn0.
  clearbody cc0 fc0.
  set (cc := if cc0 >? n - 1 then n - 1 else cc0).
  set (fc := if cc + fc0 >? n - 1 then n - 1 - cc else fc0).
  assert (0 ≤ cc ≤ n - 1 ∧ (cc0 ≤ n - 1 → cc = cc0)) as [Hcc Hcceq]
    by (unfold cc; destruct (Z.gtb_spec cc0 (n - 1)); lia).
  assert (0 ≤ fc ∧ cc + fc ≤ n - 1 ∧ (cc + fc0 ≤ n - 1 → fc = fc0))
    as (Hfc & Hsum & Hfceq)
    by (unfold fc; destruct (Z.gtb_spec (cc + fc0) (n - 1)); lia).
  clearbody cc fc.
  replace (range 2 (cc + 2)) with (seqZ 2 cc) by (unfold range; f_equal; lia).
  replace (range (cc + 2) (cc + fc + 2)) with (seqZ (cc + 2) fc)
    by (unfold range; f_equal; lia).
  replace (range (n - (n - 1 - cc - fc) + 1) (n + 1))
    with (seqZ (cc + fc + 2) (n - 1 - cc - fc))
    by (unfold range; f_equal; lia).
  set (d := default false (kw_directed kw)).
  destruct (grow n P (λ i u, u = i - 1) (λ i, ret (i - 1))
              (Graph.weight_gen_of kw) (seqZ 2 cc) (Graph.init n d) s Hwg)
    as (g1 & s1 & es1 & Hrun1 & Hd1 & Hl1 & Hp1 & H1).
  { apply Forall_seqZ. intros i Hi. split; [lia|]. intros s0.
    exists (i - 1), s0. split; [done|lia]. }
  { apply init_length. lia. }
  destruct (grow n P (λ i u, u = 1) (λ i, ret 1)
              (Graph.weight_gen_of kw) (seqZ (cc + 2) fc) g1 s1 Hwg)
    as (g2 & s2 & es2 & Hrun2 & Hd2 & Hl2 & Hp2 & H2).
  { apply Forall_seqZ. intros i Hi. split; [lia|]. intros s0.
    exists 1, s0. split; [done|lia]. }
  { done. }
  destruct (grow n P (λ i u, True) (Graph.father_gen_of kw)
              (Graph.weight_gen_of kw) (seqZ (cc + fc + 2) (n - 1 - cc - fc))
              g2 s2 Hwg)
    as (g3 & s3 & es3 & Hrun3 & Hd3 & Hl3 & Hp3 & H3).
  { destruct Hfg as [E|[[E1 E2]|Hfg]].
    - specialize (Hchain E).
      replace (n - 1 - cc - fc) with 0 by lia. constructor.
    - destruct (Hflower E1 E2).
      replace (n - 1 - cc - fc) with 0 by lia. constructor.
    - apply Forall_seqZ. intros i Hi. split; [lia|]. intros s0.
      destruct (Hfg i s0 ltac:(lia)) as (u & s' & Hu & Hub). by exists u, s'. }
  { done. }
  exists g3, s3, cc, fc, es1, es2, es3.
  split.
  { unfold bind at 1.
    change (for_each (seqZ 2 cc) _ (Graph.init n d) s)
      with (for_each (seqZ 2 cc)
              (λ i graph, let* u := ret (i - 1) in
                          let* w := Graph.weight_gen_of kw in
                          lift (Graph.add_edge graph u i w))
              (Graph.init n d) s).
    rewrite Hrun1. unfold bind at 1.
    change (for_each (seqZ (cc + 2) fc) _ g1 s1)
      with (for_each (seqZ (cc + 2) fc)
              (λ i graph, let* u := ret 1 in
                          let* w := Graph.weight_gen_of kw in
                          lift (Graph.add_edge graph u i w))
              g1 s1).
    rewrite Hrun2. exact Hrun3. }
  split_and!; try done; try lia.
  - rewrite Hd3, Hd2, Hd1. done.
  - intros E. specialize (Hchain E). lia.
  - intros E1 E2. destruct (Hflower E1 E2). lia.
  - rewrite Hp3, Hp2, Hp1, init_iterate. by rewrite <- app_assoc.
Qed.

Lemma child_edge_impl (P : Z → Prop) (R R' : Z → Z → Prop) (l : list Z)
    (es : list Edge) :
  (∀ i u, R i u → R' i u) →
  Forall2 (child_edge P R) l es → Forall2 (child_edge P R') l es.
Proof.
  intros HR H. eapply Forall2_impl; [exact H|].
  intros i e (? & ? & ? & ?).
  split; [done|split; [done|split; [auto|done]]].
Qed.

Lemma father_gen_default (kw : kwargs) (n : Z) :
  kw_father_gen kw = None →
  ∀ i s, 2 ≤ i ≤ n →
    ∃ u s', Graph.father_gen_of kw i s = Ok (u, s') ∧ 1 ≤ u < i.
Proof.
  intros E i s Hi. unfold Graph.father_gen_of. rewrite E. cbn [default].
  destruct (RandomFacts.randrange_spec 1 i s ltac:(lia)) as (u & Hu & Hub).
  by exists u, (λ n, s (S n)).
Qed.

(** The three loops of [tree] together give every vertex from 2 on one
    edge from an earlier vertex. *)
Lemma tree_spec (n : Z) (chain flower : number) (kw : kwargs)
    (P : Z → Prop) (s : RNG) :
  1 ≤ n → (0 <= num_value chain)%Q → (num_value chain <= 1)%Q →
  (0 <= num_value flower)%Q → (num_value flower <= 1)%Q →
  (num_value (num_add chain flower) <= 1)%Q →
  total_gen P (Graph.weight_gen_of kw) →
  (chain = Exact 1 ∨ (chain = Exact 0 ∧ flower = Exact 1)
   ∨ ∀ i s, 2 ≤ i ≤ n →
       ∃ u s', Graph.father_gen_of kw i s = Ok (u, s') ∧ 1 ≤ u < i) →
  ∃ T s' es,
    Graph.tree n chain flower kw s = Ok (T, s')
    ∧ Graph.directed T = default false (kw_directed kw)
    ∧ Z.of_nat (length (Graph.edges T)) = n + 1
    ∧ Graph.iterate_edges T ≡ₚ es
    ∧ Forall2 (child_edge P (λ _ _, True)) (seqZ 2 (n - 1)) es
    ∧ (chain = Exact 1 →
       Forall2 (child_edge P (λ i u, u = i - 1)) (seqZ 2 (n - 1)) es)
    ∧ (chain = Exact 0 → flower = Exact 1 →
       Forall2 (child_edge P (λ i u, u = 1)) (seqZ 2 (n - 1)) es).
Proof.
  intros Hn Hc0 Hc1 Hf0 Hf1 Hcf Hwg Hfg.
  destruct (tree_run n chain flower kw P s Hn Hc0 Hc1 Hf0 Hf1 Hcf Hwg Hfg)
    as (T & s' & cc & fc & es1 & es2 & es3 & Hrun & Hd & Hlen & Hcc & Hfc
        & Hsum & Hchain & Hflower & Hperm & H1 & H2 & H3).
  exists T, s', (es1 ++ es2 ++ es3). split_and!; try done.
  - replace (n - 1) with (cc + (fc + (n - 1 - cc - fc))) by lia.
    rewrite seqZ_app by lia. rewrite seqZ_app by lia.
    replace (2 + cc + fc) with (cc + fc + 2) by lia.
    replace (2 + cc) with (cc + 2) by lia.
    repeat apply Forall2_app; eapply child_edge_impl; eauto.
  - intros E. specialize (Hchain E).
    assert (fc = 0) as -> by lia. subst cc.
    replace (n - 1 - (n - 1) - 0) with 0 in H3 by lia.
    apply Forall2_nil_inv_l in H2, H3. subst es2 es3.
    by rewrite !app_nil_r.
  - intros E1 E2. destruct (Hflower E1 E2) as [-> ->].
    replace (n - 1 - 0 - (n - 1)) with 0 in H3 by lia.
    apply Forall2_nil_inv_l in H1, H3. subst es1 es3.
    by rewrite app_nil_r.
Qed.

(** *** Connected graphs *)

Lemma connected_mono (E E' : list (Z * Z)) (u v : Z) :
  (∀ a b, (a, b) ∈ E → (a, b) ∈ E' ∨ (b, a) ∈ E') →
  connected E u v → connected E' u v.
Proof.
  intros Hsub. induction 1 as [v|u v w [Huv|Hvu] _ IH]; [constructor|..].
  - eapply connected_step; [|exact IH]. destruct (Hsub _ _ Huv); auto.
  - eapply connected_step; [|exact IH]. destruct (Hsub _ _ Hvu); auto.
Qed.

Lemma components_one_mono (n : Z) (E E' : list (Z * Z)) :
  (∀ a b, (a, b) ∈ E → (a, b) ∈ E' ∨ (b, a) ∈ E') →
  components n E 1 → components n E' 1.
Proof.
  intros Hsub (reps & Hnd & Hlen & Hin & Hconn & Hsep).
  exists reps. split_and!; try done.
  - intros v Hv. destruct (Hconn v Hv) as (r & Hr & Hc).
    exists r. split; [done|]. by eapply connected_mono.
  - intros r r' Hr Hr' _.
    destruct reps as [|r0 [|r1 reps]]; simpl in Hlen; try lia.
    apply list_elem_of_singleton in Hr, Hr'. congruence.
Qed.

Lemma child_edges_shape (P : Z → Prop) (R : Z → Z → Prop) (n : Z)
    (es : list Edge) :
  Forall2 (child_edge P R) (seqZ 2 (n - 1)) es →
  tree_shape n es ∧ Forall (λ e, P (weight e)) es.
Proof.
  unfold tree_shape. generalize (seqZ 2 (n - 1)).
  induction 1 as [|i e l es (He & Hs & _ & HP) _ [IH1 IH2]];
    [split; constructor|].
  split; constructor; done.
Qed.

Lemma tree_shape_components (n : Z) (es : list Edge) :
  1 ≤ n → tree_shape n es → components n (endpoints <$> es) 1.
Proof.
  intros Hn Hshape.
  pose proof (downward_components n (endpoints <$> es) ltac:(lia)) as Hcomp.
  pose proof (tree_shape_ends n es Hshape) as Hends.
  assert (Z.of_nat (length es) = n - 1) as Hlen.
  { apply (f_equal length) in Hends.
    rewrite length_fmap, length_seqZ in Hends. lia. }
  rewrite length_fmap, Hlen in Hcomp.
  replace (n - (n - 1)) with 1 in Hcomp by lia.
  apply Hcomp.
  - apply Forall_fmap. eapply Forall_impl; [apply tree_shape_down, Hshape|].
    by intros e.
  - rewrite <- list_fmap_compose. change (snd ∘ endpoints) with end_.
    rewrite Hends. apply NoDup_seqZ.
Qed.

Lemma tree_shape_length (n : Z) (es : list Edge) :
  1 ≤ n → tree_shape n es → Z.of_nat (length es) = n - 1.
Proof.
  intros Hn Hshape. pose proof (tree_shape_ends n es Hshape) as Hends.
  apply (f_equal length) in Hends.
  rewrite length_fmap, length_seqZ in Hends. lia.
Qed.

Lemma child_edges_endpoints (P : Z → Prop) (f : Z → Z) (l : list Z)
    (es : list Edge) :
  Forall2 (child_edge P (λ i u, u = f i)) l es →
  endpoints <$> es = (λ i, (f i, i)) <$> l.
Proof.
  induction 1 as [|i e l es (He & _ & Hs & _) _ IH]; [done|].
  rewrite !fmap_cons, IH. f_equal. unfold endpoints. by rewrite He, Hs.
Qed.

(** *** Binary trees *)

Lemma take_parent_spec (can : list Z) (s : RNG) :
  can ≠ [] →
  ∃ node can',
    Graph.take_parent can s = Ok ((node, can'), λ n, s (S n))
    ∧ node :: can' ≡ₚ can.
Proof.
  intros Hne. unfold Graph.take_parent.
  assert (0 < length can)%nat as Hlen by (destruct can; simpl; [done|lia]).
  destruct (RandomFacts.randint_spec 0 (Z.of_nat (length can) - 1) s
              ltac:(lia)) as (x & Hx & Hxb).
  unfold bind. rewrite Hx.
  destruct (lookup_lt_is_Some_2 can (Z.to_nat x) ltac:(lia)) as [node Hnode].
  rewrite Hnode.
  destruct (last can) as [y|] eqn:Hlast.
  2: { apply last_None in Hlast. done. }
  pose proof (RandomFacts.pool_step can (Z.to_nat x) node y Hnode Hlast)
    as Hperm.
  eexists node, _. split; [reflexivity|].
  destruct (Z.ltb_spec x (Z.of_nat (length (removelast can)))); [done|].
  by rewrite list_insert_ge in Hperm by lia.
Qed.

Lemma occ_cons (x v : Z) (l : list Z) :
  occ (x :: l) v = (if decide (x = v) then 1 else 0) + occ l v.
Proof.
  unfold occ. rewrite filter_cons. destruct (decide (x = v)); simpl length; lia.
Qed.

Lemma occ_snoc (x v : Z) (l : list Z) :
  occ (l ++ [x]) v = occ l v + (if decide (x = v) then 1 else 0).
Proof.
  unfold occ. rewrite filter_app, length_app, filter_cons, filter_nil.
  destruct (decide (x = v)); simpl length; lia.
Qed.

Lemma occ_perm (l l' : list Z) (v : Z) : l ≡ₚ l' → occ l v = occ l' v.
Proof. intros H. unfold occ. by rewrite H. Qed.

Lemma occ_nonneg (l : list Z) (v : Z) : 0 ≤ occ l v.
Proof. unfold occ. lia. Qed.

Lemma children_snoc (e : Edge) (v : Z) (es : list Edge) :
  children (es ++ [e]) v
  = children es v + (if decide (start e = v) then 1 else 0).
Proof.
  unfold children. rewrite filter_app, length_app, filter_cons, filter_nil.
  destruct (decide (start e = v)); simpl length; lia.
Qed.

Lemma children_perm (es es' : list Edge) (v : Z) :
  es ≡ₚ es' → children es v = children es' v.
Proof. intros H. unfold children. by rewrite H. Qed.

Lemma children_nonneg (es : list Edge) (v : Z) : 0 ≤ children es v.
Proof. unfold children. lia. Qed.

Lemma random_spec (s : RNG) : ∃ q, random s = Ok (q, λ n, s (S n)).
Proof. by eexists. Qed.

Section BinaryTree.
Variable n : Z.
Variable d : bool.
Variable P : Z → Prop.
Variable wg : M Z.
Variable choose_left : Q → bool.
Hypothesis wg_total : total_gen P wg.

Lemma binary_step (a : Z) (st : list Z * list Z * Graph.t) (es : list Edge)
    (s : RNG) :
  2 ≤ a ≤ n → binary_state n d P a st es →
  ∃ st' es' s',
    (let* edge_pos := random in
     if choose_left edge_pos
     then
       let* nc := Graph.take_parent st.1.1 in
       let* w := wg in
       let* graph := lift (Graph.add_edge st.2 nc.1 a w) in
       ret (nc.2 ++ [a], st.1.2 ++ [a], graph)
     else
       let* nc := Graph.take_parent st.1.2 in
       let* w := wg in
       let* graph := lift (Graph.add_edge st.2 nc.1 a w) in
       ret (st.1.1 ++ [a], nc.2 ++ [a], graph)) s = Ok (st', s')
    ∧ binary_state n d P (a + 1) st' es'.
Proof.
  intros Ha (Hd & Hlen & Hl & Hr & Hperm & Hshape & Hocc).
  destruct st as [[cl cr] g]. cbn [fst snd] in *.
  destruct (random_spec s) as [q Hq]. unfold bind at 1. rewrite Hq.
  assert (∀ node, 1 ≤ occ cl node ∨ 1 ≤ occ cr node → 1 ≤ node < a) as Hin.
  { intros node Hnode. specialize (Hocc node).
    pose proof (children_nonneg es node).
    pose proof (occ_nonneg cl node). pose proof (occ_nonneg cr node).
    destruct (Z.leb_spec 1 node), (Z.ltb_spec node a); simpl in Hocc; lia. }
  assert (∀ node w, 1 ≤ node < a →
            ∃ g', Graph.add_edge g node a w = Ok g'
                  ∧ Graph.directed g' = d
                  ∧ Z.of_nat (length (Graph.edges g')) = n + 1
                  ∧ Graph.iterate_edges g' ≡ₚ es ++ [mkEdge node a w]) as Hadd.
  { intros node w Hnode.
    destruct (add_edge_any g node a w) as (g' & Hg' & Hd' & Hl' & Hp').
    { unfold in_bounds. lia. }
    { right. unfold in_bounds. lia. }
    exists g'. split_and!; [done|congruence|lia|].
    rewrite Hp', Hperm. unfold stored.
    destruct (Z.leb_spec node a); [|lia]. by rewrite orb_true_r. }
  assert (∀ node w, 1 ≤ node < a → P w →
            Forall2 (child_edge P (λ _ _, True)) (seqZ 2 (a + 1 - 2))
              (es ++ [mkEdge node a w])) as Hshape'.
  { intros node w Hnode Hw.
    replace (a + 1 - 2) with (a - 2 + 1) by lia.
    rewrite seqZ_app by lia. apply Forall2_app; [done|].
    replace (2 + (a - 2)) with a by lia.
    change (seqZ a 1) with [a]. constructor; [|constructor].
    unfold child_edge. simpl. done. }
  destruct (choose_left q).
  - destruct (take_parent_spec cl (λ n, s (S n)) Hl)
      as (node & cl' & Htake & Hpool).
    unfold bind at 1. rewrite Htake. cbn [fst snd].
    destruct (wg_total (λ n0, s (S (S n0)))) as (w & s2 & Hw & HP).
    unfold bind at 1. rewrite Hw.
    assert (1 ≤ node < a) as Hnode.
    { apply Hin. left. rewrite <- (occ_perm _ _ node Hpool), occ_cons.
      rewrite decide_True by done. pose proof (occ_nonneg cl' node). lia. }
    destruct (Hadd node w Hnode) as (g' & Hg' & Hd' & Hl' & Hp').
    unfold bind at 1, lift. rewrite Hg'.
    eexists _, _, _. split; [reflexivity|].
    split_and!; cbn [fst snd]; try done.
    + by destruct cl'.
    + by destruct cr.
    + by apply Hshape'.
    + intros v. rewrite children_snoc, !occ_snoc. cbn [start].
      specialize (Hocc v). rewrite <- (occ_perm _ _ v Hpool), occ_cons in Hocc.
      destruct (Z.leb_spec 1 v), (Z.ltb_spec v a), (Z.ltb_spec v (a + 1));
        simpl in *; repeat case_decide; try lia.
  - destruct (take_parent_spec cr (λ n, s (S n)) Hr)
      as (node & cr' & Htake & Hpool).
    unfold bind at 1. rewrite Htake. cbn [fst snd].
    destruct (wg_total (λ n0, s (S (S n0)))) as (w & s2 & Hw & HP).
    unfold bind at 1. rewrite Hw.
    assert (1 ≤ node < a) as Hnode.
    { apply Hin. right. rewrite <- (occ_perm _ _ node Hpool), occ_cons.
      rewrite decide_True by done. pose proof (occ_nonneg cr' node). lia. }
    destruct (Hadd node w Hnode) as (g' & Hg' & Hd' & Hl' & Hp').
    unfold bind at 1, lift. rewrite Hg'.
    eexists _, _, _. split; [reflexivity|].
    split_and!; cbn [fst snd]; try done.
    + by destruct cl.
    + by destruct cr'.
    + by apply Hshape'.
    + intros v. rewrite children_snoc, !occ_snoc. cbn [start].
      specialize (Hocc v). rewrite <- (occ_perm _ _ v Hpool), occ_cons in Hocc.
      destruct (Z.leb_spec 1 v), (Z.ltb_spec v a), (Z.ltb_spec v (a + 1));
        simpl in *; repeat case_decide; try lia.
Qed.

Lemma binary_loop (k : nat) (a : Z) (st : list Z * list Z * Graph.t)
    (es : list Edge) (s : RNG) :
  2 ≤ a → a + Z.of_nat k ≤ n + 1 → binary_state n d P a st es →
  ∃ st' es' s',
    for_each (seqZ a (Z.of_nat k))
      (λ i (st : list Z * list Z * Graph.t),
         let* edge_pos := random in
         if choose_left edge_pos
         then
           let* nc := Graph.take_parent st.1.1 in
           let* w := wg in
           let* graph := lift (Graph.add_edge st.2 nc.1 i w) in
           ret (nc.2 ++ [i], st.1.2 ++ [i], graph)
         else
           let* nc := Graph.take_parent st.1.2 in
           let* w := wg in
           let* graph := lift (Graph.add_edge st.2 nc.1 i w) in
           ret (st.1.1 ++ [i], nc.2 ++ [i], graph))
      st s = Ok (st', s')
    ∧ binary_state n d P (a + Z.of_nat k) st' es'.
Proof.
  revert a st es s. induction k as [|k IH]; intros a st es s Ha Hk Hinv.
  - exists st, es, s. split; [done|]. by rewrite Z.add_0_r.
  - rewrite seqZ_cons by lia. cbn [for_each].
    destruct (binary_step a st es s ltac:(lia) Hinv)
      as (st1 & es1 & s1 & Hrun1 & Hinv1).
    unfold bind at 1. rewrite Hrun1.
    replace (Z.pred (Z.of_nat (S k))) with (Z.of_nat k) by lia.
    destruct (IH (Z.succ a) st1 es1 s1 ltac:(lia) ltac:(lia))
      as (st' & es' & s' & Hrun & Hinv').
    { by replace (Z.succ a) with (a + 1) by lia. }
    exists st', es', s'. split; [done|].
    by replace (a + Z.of_nat (S k)) with (Z.succ a + Z.of_nat k) by lia.
Qed.

End BinaryTree.

Lemma binary_tree_spec (n : Z) (left right : Q) (kw : kwargs) (P : Z → Prop)
    (s : RNG) :
  1 ≤ n → (0 <= left)%Q → (0 <= right)%Q → (left + right <= 1)%Q →
  total_gen P (Graph.weight_gen_of kw) →
  ∃ T s' es,
    Graph.binary_tree n left right kw s = Ok (T, s')
    ∧ Graph.directed T = default false (kw_directed kw)
    ∧ Z.of_nat (length (Graph.edges T)) = n + 1
    ∧ Graph.iterate_edges T ≡ₚ es
    ∧ Forall2 (child_edge P (λ _ _, True)) (seqZ 2 (n - 1)) es
    ∧ ∀ v, children es v ≤ 2.
Proof.
  intros Hn Hl0 Hr0 Hlr Hwg. unfold Graph.binary_tree.
  assert ((left <= 1)%Q) as Hl1.
  { apply Qle_trans with (left + right)%Q; [|done].
    rewrite <- (Qplus_0_r left) at 1. by apply Qplus_le_r. }
  assert ((right <= 1)%Q) as Hr1.
  { apply Qle_trans with (left + right)%Q; [|done].
    rewrite <- (Qplus_0_l right) at 1. by apply Qplus_le_l. }
  rewrite (proj2 (Qle_bool_iff 0 left) Hl0), (proj2 (Qle_bool_iff left 1) Hl1),
    (proj2 (Qle_bool_iff 0 right) Hr0), (proj2 (Qle_bool_iff right 1) Hr1),
    (proj2 (Qle_bool_iff (left + right) 1) Hlr).
  cbn [negb andb orb]. cbv zeta.
  set (d := default false (kw_directed kw)).
  replace (range 2 (n + 1)) with (seqZ 2 (Z.of_nat (Z.to_nat (n - 1))))
    by (unfold range; f_equal; lia).
  destruct (binary_loop n d P (Graph.weight_gen_of kw)
              (λ edge_pos,
                 Qlt_bool edge_pos left
                 || (Qlt_bool (left + right) edge_pos
                     && Qle_bool edge_pos ((1 - left - right) / 2)))
              Hwg (Z.to_nat (n - 1)) 2 ([1], [1], Graph.init n d) [] s
              ltac:(lia) ltac:(lia))
    as ([[cl cr] T] & es & s' & Hrun & Hinv).
  { split_and!; cbn [fst snd]; try done.
    - apply init_length. lia.
    - by rewrite init_iterate.
    - intros v. unfold children, occ. rewrite filter_nil.
      rewrite !filter_cons, !filter_nil.
      destruct (Z.leb_spec 1 v), (Z.ltb_spec v 2); simpl;
        case_decide; simpl; lia. }
  exists T, s', es. unfold bind at 1. rewrite Hrun. split; [done|].
  destruct Hinv as (Hd & Hlen & _ & _ & Hperm & Hshape & Hocc).
  cbn [fst snd] in *.
  replace (2 + Z.of_nat (Z.to_nat (n - 1)) - 2) with (n - 1) in Hshape by lia.
  split_and!; try done.
  intros v. specialize (Hocc v).
  pose proof (occ_nonneg cl v). pose proof (occ_nonneg cr v).
  destruct ((1 <=? v) && _); lia.
Qed.

(** *** Accepted draws *)

Lemma endpoints_stored (g : Graph.t) (u v w : Z) :
  endpoints (stored g u v w)
  = if Graph.directed g || (u <=? v) then (u, v) else (v, u).
Proof. unfold stored. by destruct (_ || _). Qed.

Lemma accept_step (n : Z) (d sl re : bool) (i : Z) (used : gset (Z * Z))
    (g : Graph.t) (u v w : Z) :
  simple_state n d sl re i used g →
  1 ≤ u ≤ n → 1 ≤ v ≤ n → (sl = false → u ≠ v) →
  (re = false → (u, v) ∉ used) →
  ∃ g', Graph.add_edge g u v w = Ok g'
        ∧ Graph.iterate_edges g' ≡ₚ Graph.iterate_edges g ++ [stored g u v w]
        ∧ simple_state n d sl re (i + 1)
            (if negb re
             then (if negb d then {[(v, u)]} ∪ ({[(u, v)]} ∪ used)
                   else {[(u, v)]} ∪ used)
             else used) g'.
Proof.
  intros (Hd & Hlen & Hcount & Hrange & Hsl & Hre) Hu Hv Hne Hnew.
  destruct (add_edge_any g u v w) as (g' & Hadd & Hd' & Hl' & Hp').
  { unfold in_bounds. lia. }
  { right. unfold in_bounds. lia. }
  exists g'. split; [done|]. split; [done|].
  assert (1 ≤ start (stored g u v w) ≤ n ∧ 1 ≤ end_ (stored g u v w) ≤ n)
    as Hst by (unfold stored; destruct (_ || _); simpl; lia).
  split_and!.
  - congruence.
  - lia.
  - unfold Graph.edge_count in *. rewrite Hp', length_app. simpl. lia.
  - rewrite Hp'. apply Forall_app. split; [done|]. by constructor.
  - intros E. rewrite Hp'. apply Forall_app. split; [by apply Hsl|].
    constructor; [|done]. specialize (Hne E).
    unfold stored; destruct (_ || _); simpl; lia.
  - intros E. destruct (Hre E) as [Hnd Hused]. specialize (Hnew E).
    rewrite E. cbn [negb].
    assert ((u, v) ∉ endpoints <$> Graph.iterate_edges g) as Hn1
      by (intros H; apply Hnew, Hused; by left).
    assert (d = false → (v, u) ∉ endpoints <$> Graph.iterate_edges g) as Hn2
      by (intros Ed H; apply Hnew, Hused; by right).
    assert (endpoints <$> Graph.iterate_edges g'
            ≡ₚ (endpoints <$> Graph.iterate_edges g)
               ++ [if d || (u <=? v) then (u, v) else (v, u)]) as HE.
    { rewrite Hp', fmap_app. by rewrite <- Hd, <- (endpoints_stored g u v w). }
    split.
    + rewrite HE.
      apply NoDup_app. split_and!; [done| |apply NoDup_singleton].
      intros x Hx ->%list_elem_of_singleton.
      destruct d; cbn [orb] in Hx; [done|].
      destruct (u <=? v); [done|]. by apply Hn2.
    + intros a b. rewrite !HE, !elem_of_app, !list_elem_of_singleton.
      destruct d; cbn [negb orb].
      * rewrite elem_of_union, elem_of_singleton, Hused.
        split; [intros [->|[H|[? _]]]|intros [[H|[= -> ->]]|[? _]]];
          try done; auto.
      * rewrite !elem_of_union, !elem_of_singleton, Hused.
        destruct (u <=? v); split;
          [intros [[= -> ->]|[[= -> ->]|[H|[_ H]]]]
          |intros [[H|[= -> ->]]|[_ [H|[= -> ->]]]]
          |intros [[= -> ->]|[[= -> ->]|[H|[_ H]]]]
          |intros [[H|[= -> ->]]|[_ [H|[= -> ->]]]]]; auto 6.
Qed.

Lemma total_gen_sound (P : Z → Prop) (wg : M Z) :
  total_gen P wg → sound_gen P wg.
Proof.
  intros Ht s w s' Hw. destruct (Ht s) as (w' & s'' & Hw' & HP). congruence.
Qed.

Lemma randint_Ok (a b x : Z) (s s' : RNG) :
  randint a b s = Ok (x, s') → a ≤ x ≤ b.
Proof.
  unfold randint. destruct (Z.ltb_spec b a); [done|].
  unfold bind, draw, ret. intros [= <- <-].
  pose proof (Z.mod_pos_bound (s 0%nat) (b - a + 1) ltac:(lia)). lia.
Qed.

Section Loops.
Variable n m : Z.
Variable sl re : bool.
Variable P : Z → Prop.
Variable wg : M Z.
Hypothesis wg_sound : sound_gen P wg.

(** *** The loop of [graph] and [UDAG] *)

Lemma graph_loop_sound (d : bool) (fuel : nat) (i : Z) (used : gset (Z * Z))
    (g G : Graph.t) (s s' : RNG) :
  Graph.graph_loop fuel n m d sl re wg i used g s = Ok (G, s') →
  simple_state n d sl re i used g →
  ∃ used' added,
    simple_state n d sl re (Z.max i m) used' G
    ∧ Graph.iterate_edges G ≡ₚ Graph.iterate_edges g ++ added
    ∧ Forall (λ e, P (weight e)) added.
Proof.
  revert i used g s.
  induction fuel as [|fuel IH]; intros i used g s; cbn [Graph.graph_loop];
    destruct (Z.leb_spec m i) as [Hdone|Hmore]; try done;
    try (intros [= <- <-] Hst; exists used, [];
         rewrite app_nil_r, Z.max_l by lia; by split_and!).
  unfold bind at 1.
  destruct (randint 1 n s) as [[u s1]| |] eqn:Hu; [|done..].
  unfold bind at 1.
  destruct (randint 1 n s1) as [[v s2]| |] eqn:Hv; [|done..].
  apply randint_Ok in Hu, Hv.
  destruct ((negb sl && (u =? v))
            || (negb re && bool_decide ((u, v) ∈ used))) eqn:Hrej.
  - intros Hrun Hst. by apply (IH i used g s2).
  - apply orb_false_elim in Hrej as [Hr1 Hr2].
    unfold bind at 1.
    destruct (wg s2) as [[w s3]| |] eqn:Hw; [|done..].
    pose proof (wg_sound _ _ _ Hw) as HP.
    intros Hrun Hst.
    destruct (accept_step n d sl re i used g u v w Hst Hu Hv)
      as (g' & Hadd & Hp' & Hst').
    { intros ->. simpl in Hr1. by destruct (Z.eqb_spec u v). }
    { intros ->. simpl in Hr2. by apply bool_decide_eq_false in Hr2. }
    unfold bind at 1, lift in Hrun. rewrite Hadd in Hrun.
    destruct (IH _ _ _ _ Hrun Hst') as (used' & added & HG & Hperm & Hall).
    exists used', (stored g u v w :: added).
    rewrite Z.max_r in * by lia. split_and!; [done| |].
    + rewrite Hperm, Hp', <- app_assoc. done.
    + constructor; [|done]. unfold stored. by destruct (_ || _).
Qed.

Lemma graph_loop_total (d : bool) (fuel : nat) (i : Z) (used : gset (Z * Z))
    (g : Graph.t) (s : RNG) :
  (∀ s, ∃ w s', wg s = Ok (w, s')) →
  1 ≤ n → sl = true → re = true → m - i ≤ Z.of_nat fuel →
  simple_state n d sl re i used g →
  ∃ G s', Graph.graph_loop fuel n m d sl re wg i used g s = Ok (G, s').
Proof.
  intros wg_total Hn -> ->. revert i used g s.
  induction fuel as [|fuel IH]; intros i used g s Hf Hst;
    cbn [Graph.graph_loop];
    destruct (Z.leb_spec m i) as [Hdone|Hmore]; try lia;
    try (by exists g, s).
  destruct (RandomFacts.randint_spec 1 n s Hn) as (u & Hu & Hub).
  destruct (RandomFacts.randint_spec 1 n (λ k, s (S k)) Hn) as (v & Hv & Hvb).
  unfold bind at 1. rewrite Hu. unfold bind at 1. rewrite Hv.
  cbn [negb andb orb].
  destruct (wg_total (λ k, s (S (S k)))) as (w & s3 & Hw).
  unfold bind at 1. rewrite Hw.
  destruct (accept_step n d true true i used g u v w Hst Hub Hvb)
    as (g' & Hadd & Hp' & Hst'); [done..|].
  unfold bind at 1, lift. rewrite Hadd.
  apply IH; [lia|done].
Qed.

(** *** The loop of [DAG] *)

Lemma DAG_loop_sound (lp : bool) (fuel : nat) (i : Z) (used : gset (Z * Z))
    (g G : Graph.t) (s s' : RNG) :
  Graph.DAG_loop fuel n m sl re lp wg i used g s = Ok (G, s') →
  simple_state n true sl re i used g →
  (lp = false → Forall (λ e, start e ≤ end_ e) (Graph.iterate_edges g)) →
  ∃ used' added,
    simple_state n true sl re (Z.max i m) used' G
    ∧ (lp = false → Forall (λ e, start e ≤ end_ e) (Graph.iterate_edges G))
    ∧ Graph.iterate_edges G ≡ₚ Graph.iterate_edges g ++ added
    ∧ Forall (λ e, P (weight e)) added.
Proof.
  revert i used g s.
  induction fuel as [|fuel IH]; intros i used g s; cbn [Graph.DAG_loop];
    destruct (Z.leb_spec m i) as [Hdone|Hmore]; try done;
    try (intros [= <- <-] Hst Hup; exists used, [];
         rewrite app_nil_r, Z.max_l by lia; by split_and!).
  unfold bind at 1.
  destruct (randint 1 n s) as [[u s1]| |] eqn:Hu; [|done..].
  unfold bind at 1.
  destruct (randint 1 n s1) as [[v s2]| |] eqn:Hv; [|done..].
  apply randint_Ok in Hu, Hv.
  set (uv := if negb lp && (u >? v) then (v, u) else (u, v)).
  assert (1 ≤ uv.1 ≤ n ∧ 1 ≤ uv.2 ≤ n ∧ (lp = false → uv.1 ≤ uv.2))
    as (Hu' & Hv' & Hasc).
  { unfold uv. destruct lp, (Z.gtb_spec u v); simpl; split_and!; try lia;
      try done; intros _; lia. }
  destruct uv as [u' v']. cbn [fst snd] in *. clear Hu Hv.
  destruct ((negb sl && (u' =? v'))
            || (negb re && bool_decide ((u', v') ∈ used))) eqn:Hrej.
  - intros Hrun Hst Hup. by apply (IH i used g s2).
  - apply orb_false_elim in Hrej as [Hr1 Hr2].
    unfold bind at 1.
    destruct (wg s2) as [[w s3]| |] eqn:Hw; [|done..].
    pose proof (wg_sound _ _ _ Hw) as HP.
    intros Hrun Hst Hup.
    destruct (accept_step n true sl re i used g u' v' w Hst Hu' Hv')
      as (g' & Hadd & Hp' & Hst').
    { intros ->. simpl in Hr1. by destruct (Z.eqb_spec u' v'). }
    { intros ->. simpl in Hr2. by apply bool_decide_eq_false in Hr2. }
    unfold bind at 1, lift in Hrun. rewrite Hadd in Hrun.
    cbn [negb] in Hst'.
    assert (stored g u' v' w = mkEdge u' v' w) as Hstored.
    { unfold stored. destruct Hst as [-> _]. done. }
    rewrite Hstored in Hp'.
    destruct (IH _ _ _ _ Hrun Hst') as (used' & added & HG & Hup' & Hperm & Hall).
    { intros E. rewrite Hp'. apply Forall_app. split; [by apply Hup|].
      constructor; [|done]. simpl. by apply Hasc. }
    exists used', (mkEdge u' v' w :: added).
    rewrite Z.max_r in * by lia. split_and!; [done|done| |].
    + rewrite Hperm, Hp', <- app_assoc. done.
    + by constructor.
Qed.

End Loops.


(** *** [graph] *)

Lemma weight_gen_sound (kw : kwargs) :
  sound_gen (weight_ok kw) (Graph.weight_gen_of kw).
Proof.
  intros s w s' Hw E. unfold Graph.weight_gen_of in Hw. rewrite E in Hw.
  by apply randint_Ok in Hw.
Qed.

Lemma simple_state_init (n : Z) (d sl re : bool) :
  0 ≤ n → simple_state n d sl re 0 ∅ (Graph.init n d).
Proof.
  intros Hn. unfold simple_state, Graph.edge_count.
  rewrite init_iterate. split_and!; try done.
  - by apply init_length.
  - intros _. split; [constructor|]. intros u v. split.
    + intros H. by apply elem_of_empty in H.
    + intros [H|[_ H]]; by apply elem_of_nil in H.
Qed.

Lemma graph_sound (fuel : nat) (n m : Z) (kw : kwargs) (s s' : RNG)
    (G : Graph.t) :
  Graph.graph fuel n m kw s = Ok (G, s') →
  Graph.directed G = default false (kw_directed kw)
  ∧ Graph.edge_count G = Z.max 0 m
  ∧ Forall (λ e, 1 ≤ start e ≤ n ∧ 1 ≤ end_ e ≤ n ∧ weight_ok kw (weight e))
           (Graph.iterate_edges G)
  ∧ (default true (kw_self_loop kw) = false →
     Forall (λ e, start e ≠ end_ e) (Graph.iterate_edges G))
  ∧ (default true (kw_repeated_edges kw) = false →
     NoDup (endpoints <$> Graph.iterate_edges G)).
Proof.
  unfold Graph.graph.
  set (d := default false (kw_directed kw)).
  set (sl := default true (kw_self_loop kw)).
  set (re := default true (kw_repeated_edges kw)).
  destruct (negb re && _); [done|].
  destruct (Z.leb_spec m 0) as [Hm|Hm].
  { assert (Graph.graph_loop fuel n m d sl re (Graph.weight_gen_of kw) 0 ∅
              (Graph.init n d) s = Ok (Graph.init n d, s)) as ->.
    { destruct fuel; cbn [Graph.graph_loop];
        destruct (Z.leb_spec m 0); try lia; done. }
    intros [= <- <-]. unfold Graph.edge_count. rewrite init_iterate.
    split_and!; try done; try (intros; constructor). simpl. lia. }
  destruct (Z.le_gt_cases 1 n) as [Hn|Hn].
  2: { destruct fuel; cbn [Graph.graph_loop];
         destruct (Z.leb_spec m 0); try lia; try done.
       unfold bind, randint. destruct (Z.ltb_spec n 1); [done|lia]. }
  intros Hrun.
  destruct (graph_loop_sound n m sl re (weight_ok kw) (Graph.weight_gen_of kw)
              (weight_gen_sound kw) d fuel 0 ∅ (Graph.init n d) G s s' Hrun)
    as (used' & added & (Hd & _ & Hcount & Hrange & Hsl & Hre) & Hperm & Hw).
  { apply simple_state_init. lia. }
  rewrite init_iterate in Hperm. simpl in Hperm.
  split_and!; try done.
  - rewrite Forall_forall in Hrange, Hw. apply Forall_forall. intros e He.
    destruct (Hrange e He). split; [done|]. split; [done|].
    apply (Hw e). by rewrite <- Hperm.
  - intros E. by destruct (Hre E).
Qed.

Lemma graph_total (fuel : nat) (n m : Z) (kw : kwargs) (s : RNG) :
  1 ≤ n → m ≤ Z.of_nat fuel →
  default true (kw_self_loop kw) = true →
  default true (kw_repeated_edges kw) = true →
  (∀ s, ∃ w s', Graph.weight_gen_of kw s = Ok (w, s')) →
  ∃ G s', Graph.graph fuel n m kw s = Ok (G, s').
Proof.
  intros Hn Hf Hsl Hre Hwg. unfold Graph.graph. rewrite Hsl, Hre.
  cbn [negb andb].
  apply (graph_loop_total n m true true (Graph.weight_gen_of kw)); try done.
  - lia.
  - apply simple_state_init. lia.
Qed.

(** *** [UDAG] and [DAG] *)

Lemma child_edges_facts (P : Z → Prop) (R : Z → Z → Prop) (n : Z)
    (es : list Edge) :
  1 ≤ n → Forall2 (child_edge P R) (seqZ 2 (n - 1)) es →
  Forall (λ e, 1 ≤ start e < end_ e ∧ end_ e ≤ n ∧ P (weight e)) es
  ∧ NoDup (endpoints <$> es)
  ∧ Z.of_nat (length es) = n - 1
  ∧ components n (endpoints <$> es) 1.
Proof.
  intros Hn H2. destruct (child_edges_shape P R n es H2) as [Hshape HP].
  split_and!.
  - pose proof (tree_shape_down n es Hshape) as Hdown.
    rewrite Forall_forall in Hdown, HP. apply Forall_forall. intros e He.
    destruct (Hdown e He) as [? ?]. split; [done|]. split; [done|].
    by apply (HP e).
  - apply (NoDup_fmap_1 snd). rewrite <- list_fmap_compose.
    change (snd ∘ endpoints) with end_. rewrite (tree_shape_ends n es Hshape).
    apply NoDup_seqZ.
  - by apply tree_shape_length.
  - by apply tree_shape_components.
Qed.

Lemma used_of_tree (l : list Edge) (U : gset (Z * Z)) (u v : Z) :
  (u, v) ∈ foldl (λ (used_edges : gset (Z * Z)) edge,
                    {[(end_ edge, start edge)]}
                    ∪ ({[(start edge, end_ edge)]} ∪ used_edges)) U l
  ↔ (u, v) ∈ U ∨ (u, v) ∈ endpoints <$> l ∨ (v, u) ∈ endpoints <$> l.
Proof.
  revert U. induction l as [|e l IH]; intros U; cbn [foldl].
  - rewrite fmap_nil, !elem_of_nil. tauto.
  - rewrite IH, fmap_cons, !elem_of_cons, !elem_of_union, !elem_of_singleton.
    change (endpoints e) with (start e, end_ e).
    split; [intros [[E|[E|H]]|[H|H]]|intros [H|[[E|H]|[E|H]]]];
      simplify_eq; auto 6.
Qed.

Lemma UDAG_sound (fuel : nat) (n m : Z) (kw : kwargs) (P : Z → Prop)
    (s s' : RNG) (G : Graph.t) :
  1 ≤ n → total_gen P (Graph.weight_gen_of kw) →
  Graph.UDAG fuel n m kw s = Ok (G, s') →
  n - 1 ≤ m
  ∧ Graph.directed G = false
  ∧ Graph.edge_count G = m
  ∧ Forall (λ e, 1 ≤ start e ≤ n ∧ 1 ≤ end_ e ≤ n ∧ P (weight e))
           (Graph.iterate_edges G)
  ∧ (default true (kw_self_loop kw) = false →
     Forall (λ e, start e ≠ end_ e) (Graph.iterate_edges G))
  ∧ (default true (kw_repeated_edges kw) = false →
     NoDup (endpoints <$> Graph.iterate_edges G))
  ∧ components n (endpoints <$> Graph.iterate_edges G) 1.
Proof.
  intros Hn Hwg. unfold Graph.UDAG.
  destruct (Z.ltb_spec m (n - 1)) as [|Hm]; [done|].
  set (sl := default true (kw_self_loop kw)).
  set (re := default true (kw_repeated_edges kw)).
  destruct (negb re && _); [done|].
  set (kw' := mkKwargs (Some false) None None None
                (Some (Graph.weight_gen_of kw)) None None None None).
  destruct (tree_spec n (Exact 0) (Exact 0) kw' P s Hn ltac:(done) ltac:(done)
              ltac:(done) ltac:(done) ltac:(done)
              Hwg) as (T & s1 & es & HT & HdT & HlT & HpT & HesT & _).
  { right. right. by apply father_gen_default. }
  unfold bind at 1. rewrite HT.
  destruct (child_edges_facts P _ n es Hn HesT) as (Hes & Hnd & Hlen & Hcomp).
  set (used0 := foldl _ ∅ (Graph.iterate_edges T)).
  intros Hrun.
  assert (simple_state n false sl re (n - 1) used0 T) as Hst.
  { split; [exact HdT|]. split; [exact HlT|].
    split; [unfold Graph.edge_count; by rewrite HpT|].
    split; [|split].
    - rewrite HpT. eapply Forall_impl; [exact Hes|]. simpl. intros; lia.
    - intros _. rewrite HpT. eapply Forall_impl; [exact Hes|].
      simpl. intros; lia.
    - intros E. split; [by rewrite HpT|]. intros u v. unfold used0.
      rewrite E. cbn [negb]. rewrite used_of_tree, elem_of_empty. tauto. }
  destruct (graph_loop_sound n m sl re P (Graph.weight_gen_of kw)
              (total_gen_sound _ _ Hwg) false fuel (n - 1) used0 T G s1 s'
              Hrun Hst)
    as (used' & added & (Hd & _ & Hcount & Hrange & Hsl & Hre) & Hperm & Hw).
  rewrite Z.max_r in Hcount by lia.
  split_and!; try done.
  - rewrite Hperm, HpT. rewrite Hperm, HpT in Hrange.
    apply Forall_app in Hrange as [_ Hr2].
    apply Forall_app. split.
    + eapply Forall_impl; [exact Hes|]. simpl. intros e (? & ? & ?).
      split_and!; try done; lia.
    + rewrite Forall_forall in Hr2, Hw. apply Forall_forall. intros e He.
      destruct (Hr2 e He). split; [done|]. split; [done|]. by apply (Hw e).
  - intros E. by destruct (Hre E).
  - eapply components_one_mono; [|exact Hcomp].
    intros a b Hab. left. rewrite Hperm, HpT, fmap_app.
    apply elem_of_app. by left.
Qed.

Lemma UDAG_total (fuel : nat) (n m : Z) (kw : kwargs) (P : Z → Prop)
    (s : RNG) :
  1 ≤ n → n - 1 ≤ m → m - (n - 1) ≤ Z.of_nat fuel →
  default true (kw_self_loop kw) = true →
  default true (kw_repeated_edges kw) = true →
  total_gen P (Graph.weight_gen_of kw) →
  ∃ G s', Graph.UDAG fuel n m kw s = Ok (G, s').
Proof.
  intros Hn Hm Hf Hsl Hre Hwg. unfold Graph.UDAG.
  destruct (Z.ltb_spec m (n - 1)); [lia|].
  rewrite Hsl, Hre. cbn [negb andb].
  set (kw' := mkKwargs (Some false) None None None
                (Some (Graph.weight_gen_of kw)) None None None None).
  destruct (tree_spec n (Exact 0) (Exact 0) kw' P s Hn ltac:(done) ltac:(done)
              ltac:(done) ltac:(done) ltac:(done)
              Hwg) as (T & s1 & es & HT & HdT & HlT & HpT & HesT & _).
  { right. right. by apply father_gen_default. }
  unfold bind at 1. rewrite HT.
  destruct (child_edges_facts P _ n es Hn HesT) as (Hes & Hnd & Hlen & Hcomp).
  apply (graph_loop_total n m true true (Graph.weight_gen_of kw)); try done.
  - intros s0. destruct (Hwg s0) as (w & s2 & Hw & _). by exists w, s2.
  - split; [exact HdT|]. split; [exact HlT|].
    split; [unfold Graph.edge_count; by rewrite HpT|].
    split; [|split; [done|done]].
    rewrite HpT. eapply Forall_impl; [exact Hes|]. simpl. intros; lia.
Qed.


Lemma Edge_eta (e : Edge) : mkEdge (start e) (end_ e) (weight e) = e.
Proof. by destruct e. Qed.

(** The tree of [DAG] is copied edge by edge when [loop] is not set. *)
Lemma DAG_copy (n : Z) (sl re : bool) (l : list Edge) (i : Z)
    (used : gset (Z * Z)) (g : Graph.t) (s : RNG) :
  simple_state n true sl re i used g →
  Forall (λ e, 1 ≤ start e < end_ e ∧ end_ e ≤ n) l →
  NoDup (endpoints <$> l) →
  Forall (λ e, endpoints e ∉ endpoints <$> Graph.iterate_edges g) l →
  ∃ used' g',
    for_each l
      (λ edge (st : gset (Z * Z) * Graph.t),
         let* turn :=
           if false then let* r := randint 1 2 in ret (r =? 1)
           else ret false in
         let edge :=
           if turn then mkEdge (end_ edge) (start edge) (weight edge)
           else edge in
         let* graph :=
           lift (Graph.add_edge st.2 (start edge) (end_ edge) (weight edge)) in
         ret (if negb re
              then {[(start edge, end_ edge)]} ∪ st.1 else st.1,
              graph))
      (used, g) s = Ok ((used', g'), s)
    ∧ simple_state n true sl re (i + Z.of_nat (length l)) used' g'
    ∧ Graph.iterate_edges g' ≡ₚ Graph.iterate_edges g ++ l.
Proof.
  revert i used g.
  induction l as [|e l IH]; intros i used g Hst Hl Hnd Hnew; cbn [for_each].
  - exists used, g. rewrite app_nil_r, Z.add_0_r. by split_and!.
  - apply Forall_cons in Hl as [He Hl]. apply Forall_cons in Hnew as [Hne Hnew].
    rewrite fmap_cons in Hnd. apply NoDup_cons in Hnd as [Hnotin Hnd].
    destruct (accept_step n true sl re i used g (start e) (end_ e) (weight e)
                Hst ltac:(lia) ltac:(lia))
      as (g1 & Hadd & Hp1 & Hst1).
    { intros _. lia. }
    { intros E. destruct Hst as (_ & _ & _ & _ & _ & Hre).
      destruct (Hre E) as [_ Hused]. rewrite Hused.
      intros [H|[? _]]; [|done]. by apply Hne. }
    assert (stored g (start e) (end_ e) (weight e) = e) as Hstored.
    { unfold stored. destruct Hst as [-> _]. cbn [orb]. apply Edge_eta. }
    rewrite Hstored in Hp1. cbn [negb] in Hst1.
    unfold bind at 1. unfold bind at 1. unfold ret at 1. cbv zeta. cbv iota.
    unfold bind at 1. cbn [snd fst]. unfold lift. rewrite Hadd.
    unfold ret at 1.
    destruct (IH (i + 1) _ g1 Hst1 Hl Hnd) as (used' & g' & Hrun & Hst' & Hp').
    { rewrite Forall_forall in Hnew. apply Forall_forall. intros e' He'.
      rewrite Hp1, fmap_app, elem_of_app. intros [H|H].
      - by apply (Hnew e' He').
      - apply list_elem_of_singleton in H. apply Hnotin. rewrite <- H.
        by apply list_elem_of_fmap_2. }
    exists used', g'. split; [exact Hrun|]. split.
    + replace (i + Z.of_nat (length (e :: l)))
        with (i + 1 + Z.of_nat (length l)) by (simpl length; lia). done.
    + rewrite Hp', Hp1, <- app_assoc. done.
Qed.

Lemma DAG_sound (fuel : nat) (n m : Z) (lp : option bool) (kw : kwargs)
    (P : Z → Prop) (s s' : RNG) (G : Graph.t) :
  1 ≤ n → default false lp = false →
  total_gen P (Graph.weight_gen_of kw) →
  Graph.DAG fuel n m lp kw s = Ok (G, s') →
  n - 1 ≤ m
  ∧ Graph.directed G = true
  ∧ Graph.edge_count G = m
  ∧ Forall (λ e, 1 ≤ start e ≤ end_ e ∧ end_ e ≤ n ∧ P (weight e))
           (Graph.iterate_edges G)
  ∧ (default false (kw_self_loop kw) = false →
     Forall (λ e, start e < end_ e) (Graph.iterate_edges G))
  ∧ (default true (kw_repeated_edges kw) = false →
     NoDup (endpoints <$> Graph.iterate_edges G))
  ∧ components n (endpoints <$> Graph.iterate_edges G) 1.
Proof.
  intros Hn Hlp Hwg. unfold Graph.DAG.
  destruct (Z.ltb_spec m (n - 1)) as [|Hm]; [done|].
  rewrite Hlp. cbv zeta.
  set (sl := default false (kw_self_loop kw)).
  set (re := default true (kw_repeated_edges kw)).
  destruct (negb re && _); [done|].
  set (kw' := mkKwargs None None None None
                (Some (Graph.weight_gen_of kw)) None None None None).
  destruct (tree_spec n (Exact 0) (Exact 0) kw' P s Hn ltac:(done) ltac:(done)
              ltac:(done) ltac:(done) ltac:(done)
              Hwg) as (T & s1 & es & HT & HdT & HlT & HpT & HesT & _).
  { right. right. by apply father_gen_default. }
  unfold bind at 1. rewrite HT.
  destruct (child_edges_facts P _ n es Hn HesT) as (Hes & Hnd & Hlen & Hcomp).
  rewrite <- HpT in Hes, Hnd.
  assert (Z.of_nat (length (Graph.iterate_edges T)) = n - 1) as HlenT
    by (by rewrite HpT).
  destruct (DAG_copy n sl re (Graph.iterate_edges T) 0 ∅ (Graph.init n true) s1)
    as (used1 & g1 & Hcopy & Hst1 & Hp1).
  { apply simple_state_init. lia. }
  { eapply Forall_impl; [exact Hes|]. simpl. intros e (? & ? & ?). lia. }
  { done. }
  { rewrite init_iterate. apply Forall_forall. intros e _ Hnil.
    by apply elem_of_nil in Hnil. }
  unfold bind at 1.
  match goal with
  | |- context [for_each (Graph.iterate_edges T) ?body ?st s1] =>
      assert (for_each (Graph.iterate_edges T) body st s1
              = Ok ((used1, g1), s1)) as -> by exact Hcopy
  end.
  cbn [fst snd].
  rewrite init_iterate in Hp1. simpl in Hp1.
  rewrite HlenT, Z.add_0_l in Hst1.
  intros Hrun.
  destruct (DAG_loop_sound n m sl re P (Graph.weight_gen_of kw)
              (total_gen_sound _ _ Hwg) false fuel _ used1 g1 G s1 s'
              Hrun Hst1)
    as (used' & added & (Hd & _ & Hcount & Hrange & Hsl & Hre) & Hup & Hperm
        & Hw).
  { intros _. rewrite Hp1. eapply Forall_impl; [exact Hes|].
    simpl. intros e (? & ? & ?). lia. }
  rewrite Z.max_r in Hcount by lia.
  specialize (Hup eq_refl).
  split; [done|]. split; [done|]. split; [lia|]. split; [|split; [|split]].
  - rewrite Forall_forall in Hrange, Hup, Hw, Hes. apply Forall_forall.
    intros e He. destruct (Hrange e He). specialize (Hup e He).
    split; [lia|]. split; [lia|].
    rewrite Hperm, Hp1 in He. apply elem_of_app in He as [He|He].
    + by destruct (Hes e He) as (_ & _ & ?).
    + by apply (Hw e).
  - intros E. specialize (Hsl E).
    rewrite Forall_forall in Hsl, Hup. apply Forall_forall. intros e He.
    specialize (Hsl e He). specialize (Hup e He). lia.
  - intros E. by destruct (Hre E).
  - eapply components_one_mono; [|exact Hcomp].
    intros a b Hab. left. rewrite Hperm, Hp1, HpT, fmap_app.
    apply elem_of_app. by left.
Qed.

(** *** The pairs an acyclic orientation can use *)

Lemma ascending_pairs_length (k : nat) :
  2 * Z.of_nat (length (ascending_pairs k)) = Z.of_nat k * (Z.of_nat k - 1).
Proof.
  induction k as [|k IH]; [done|].
  cbn [ascending_pairs]. rewrite length_app, length_fmap, length_seqZ. nia.
Qed.

Lemma ascending_pairs_elem (k : nat) (u v : Z) :
  1 ≤ u < v → v ≤ Z.of_nat k → (u, v) ∈ ascending_pairs k.
Proof.
  induction k as [|k IH]; intros Hu Hv; [lia|].
  cbn [ascending_pairs]. apply elem_of_app.
  destruct (decide (v = Z.of_nat (S k))) as [->|Hne].
  - right. apply list_elem_of_fmap. exists u. split; [done|].
    apply elem_of_seqZ. lia.
  - left. apply IH; lia.
Qed.

Lemma ascending_bound (n : Z) (E : list (Z * Z)) :
  0 ≤ n → NoDup E → Forall (λ p, 1 ≤ p.1 < p.2 ∧ p.2 ≤ n) E →
  2 * Z.of_nat (length E) ≤ n * (n - 1).
Proof.
  intros Hn Hnd Hall.
  assert (E ⊆+ ascending_pairs (Z.to_nat n)) as Hsub.
  { apply NoDup_submseteq; [done|]. intros [u v] Hin.
    rewrite Forall_forall in Hall. specialize (Hall _ Hin). simpl in Hall.
    apply ascending_pairs_elem; lia. }
  apply submseteq_length in Hsub.
  pose proof (ascending_pairs_length (Z.to_nat n)) as Hlen.
  rewrite Z2Nat.id in Hlen by lia. lia.
Qed.

Lemma DAG_loop_starved (n m : Z) (P : Z → Prop) (wg : M Z) (fuel : nat)
    (i : Z) (used : gset (Z * Z)) (g : Graph.t) (s : RNG) :
  1 ≤ n → total_gen P wg → n * (n - 1) < 2 * m →
  simple_state n true false false i used g →
  Forall (λ e, start e ≤ end_ e) (Graph.iterate_edges g) →
  Graph.DAG_loop fuel n m false false false wg i used g s = Diverge.
Proof.
  intros Hn Hwg Hm. revert i used g s.
  induction fuel as [|fuel IH]; intros i used g s Hst Hup;
    cbn [Graph.DAG_loop];
    assert (i < m) as Hi.
  1, 3: destruct Hst as (_ & _ & Hcount & Hrange & Hsl & Hre);
    destruct (Hre eq_refl) as [Hnd _]; specialize (Hsl eq_refl);
    pose proof (ascending_bound n (endpoints <$> Graph.iterate_edges g)
                  ltac:(lia) Hnd) as Hb;
    unfold Graph.edge_count in Hcount; rewrite length_fmap in Hb;
    assert (2 * i ≤ n * (n - 1)); [|lia];
    rewrite <- Hcount; apply Hb;
    apply Forall_fmap, Forall_forall; intros e He;
    rewrite Forall_forall in Hrange, Hsl, Hup;
    destruct (Hrange e He); specialize (Hsl e He); specialize (Hup e He);
    unfold endpoints; simpl; lia.
  - destruct (Z.leb_spec m i); [lia|done].
  - destruct (Z.leb_spec m i); [lia|].
    destruct (RandomFacts.randint_spec 1 n s Hn) as (u & Hu & Hub).
    destruct (RandomFacts.randint_spec 1 n (λ k, s (S k)) Hn)
      as (v & Hv & Hvb).
    unfold bind at 1. rewrite Hu. unfold bind at 1. rewrite Hv.
    cbn [negb andb].
    set (uv := if u >? v then (v, u) else (u, v)).
    assert (1 ≤ uv.1 ≤ n ∧ 1 ≤ uv.2 ≤ n ∧ uv.1 ≤ uv.2) as (Hu' & Hv' & Hasc)
      by (unfold uv; destruct (Z.gtb_spec u v); simpl; lia).
    destruct uv as [u' v']. cbn [fst snd] in *.
    destruct ((u' =? v') || bool_decide ((u', v') ∈ used)) eqn:Hrej.
    + by apply IH.
    + apply orb_false_elim in Hrej as [Hr1 Hr2].
      destruct (Hwg (λ k, s (S (S k)))) as (w & s3 & Hw & _).
      unfold bind at 1. rewrite Hw.
      destruct (accept_step n true false false i used g u' v' w Hst Hu' Hv')
        as (g' & Hadd & Hp' & Hst').
      { intros _. by destruct (Z.eqb_spec u' v'). }
      { intros _. by apply bool_decide_eq_false in Hr2. }
      unfold bind at 1, lift. rewrite Hadd. cbn [negb] in Hst'.
      apply IH; [done|].
      rewrite Hp'. apply Forall_app. split; [done|].
      constructor; [|done]. unfold stored. destruct Hst as [-> _]. done.
Qed.

Lemma DAG_starved (fuel : nat) (n m : Z) (lp : option bool) (kw : kwargs)
    (P : Z → Prop) (s : RNG) :
  1 ≤ n → default false lp = false →
  default false (kw_self_loop kw) = false →
  default true (kw_repeated_edges kw) = false →
  total_gen P (Graph.weight_gen_of kw) →
  n * (n - 1) < 2 * m → m ≤ n * (n - 1) →
  Graph.DAG fuel n m lp kw s = Diverge.
Proof.
  intros Hn Hlp Hsl Hre Hwg Hm1 Hm2. unfold Graph.DAG.
  destruct (Z.ltb_spec m (n - 1)) as [|Hm]; [nia|].
  rewrite Hlp, Hsl, Hre. cbv zeta. cbn [negb andb].
  unfold Graph._calc_max_edge. cbn [negb].
  destruct (Z.gtb_spec m (n * (n - 1))); [lia|].
  set (kw' := mkKwargs None None None None
                (Some (Graph.weight_gen_of kw)) None None None None).
  destruct (tree_spec n (Exact 0) (Exact 0) kw' P s Hn ltac:(done) ltac:(done)
              ltac:(done) ltac:(done) ltac:(done)
              Hwg) as (T & s1 & es & HT & HdT & HlT & HpT & HesT & _).
  { right. right. by apply father_gen_default. }
  unfold bind at 1. rewrite HT.
  destruct (child_edges_facts P _ n es Hn HesT) as (Hes & Hnd & Hlen & Hcomp).
  rewrite <- HpT in Hes, Hnd.
  destruct (DAG_copy n false false (Graph.iterate_edges T) 0 ∅
              (Graph.init n true) s1)
    as (used1 & g1 & Hcopy & Hst1 & Hp1).
  { apply simple_state_init. lia. }
  { eapply Forall_impl; [exact Hes|]. simpl. intros e (? & ? & ?). lia. }
  { done. }
  { rewrite init_iterate. apply Forall_forall. intros e _ Hnil.
    by apply elem_of_nil in Hnil. }
  unfold bind at 1.
  match goal with
  | |- context [for_each (Graph.iterate_edges T) ?body ?st s1] =>
      assert (for_each (Graph.iterate_edges T) body st s1
              = Ok ((used1, g1), s1)) as -> by exact Hcopy
  end.
  cbn [fst snd].
  rewrite init_iterate in Hp1. simpl in Hp1.
  assert (Z.of_nat (length (Graph.iterate_edges T)) = n - 1) as HlenT
    by (by rewrite HpT).
  rewrite HlenT, Z.add_0_l in Hst1.
  apply (DAG_loop_starved n m P); try done.
  rewrite Hp1. eapply Forall_impl; [exact Hes|]. simpl. intros e (? & ? & ?). lia.
Qed.


(** *** [hack_spfa] on any number of vertices *)

Lemma int_of_Q_half (n : Z) : 0 ≤ n → int_of_Q (inject_Z n / 2) = n / 2.
Proof.
  intros Hn. unfold int_of_Q.
  assert (Qle_bool 0 (inject_Z n / 2) = true) as ->.
  { apply Qle_bool_iff. unfold Qle, Qdiv, Qmult, Qinv, inject_Z. simpl. lia. }
  unfold Qfloor, Qdiv, Qmult, Qinv, inject_Z. simpl.
  by rewrite Z.mul_1_r.
Qed.

Lemma skip_even (n x : Z) : x ≤ n → Graph.skip (inject_Z (n + 3)) x = x.
Proof.
  intros Hx. unfold Graph.skip.
  assert (Qle_bool (inject_Z (n + 3)) (inject_Z x) = false) as ->.
  { apply not_true_iff_false. rewrite Qle_bool_iff, <- Zle_Qle. lia. }
  lia.
Qed.

Lemma skip_odd (n x : Z) :
  Graph.skip (inject_Z n / 2 + 1) x = if n + 2 <=? 2 * x then x + 1 else x.
Proof.
  unfold Graph.skip.
  assert (Qle_bool (inject_Z n / 2 + 1) (inject_Z x) = (n + 2 <=? 2 * x))
    as ->.
  { apply eq_true_iff_eq. rewrite Qle_bool_iff, Z.leb_le.
    unfold Qle, Qdiv, Qmult, Qinv, Qplus, inject_Z. simpl. lia. }
  destruct (n + 2 <=? 2 * x); lia.
Qed.

Lemma skip_range (n x : Z) :
  1 ≤ n → 1 ≤ x ≤ 2 * (n / 2) →
  1 ≤ Graph.skip (if n mod 2 =? 1 then (inject_Z n / 2 + 1)%Q
                   else inject_Z (n + 3)) x ≤ n.
Proof.
  intros Hn Hx. pose proof (Z.div_mod n 2 ltac:(lia)) as Hdm.
  pose proof (Z.mod_pos_bound n 2 ltac:(lia)) as Hm.
  destruct (Z.eqb_spec (n mod 2) 1) as [Hodd|Heven].
  - rewrite skip_odd. destruct (Z.leb_spec (n + 2) (2 * x)); lia.
  - rewrite skip_even by lia. lia.
Qed.

Lemma simple_state_plain (n : Z) (d : bool) (i : Z) (g : Graph.t) :
  Graph.directed g = d → Z.of_nat (length (Graph.edges g)) = n + 1 →
  Graph.edge_count g = i →
  Forall (λ e, 1 ≤ start e ≤ n ∧ 1 ≤ end_ e ≤ n) (Graph.iterate_edges g) →
  simple_state n d true true i ∅ g.
Proof. intros. by split_and!. Qed.

Lemma add_counted (n : Z) (d : bool) (i : Z) (g : Graph.t) (u v w : Z) :
  simple_state n d true true i ∅ g → 1 ≤ u ≤ n → 1 ≤ v ≤ n →
  ∃ g', Graph.add_edge g u v w = Ok g'
        ∧ simple_state n d true true (i + 1) ∅ g'.
Proof.
  intros Hst Hu Hv.
  destruct (accept_step n d true true i ∅ g u v w Hst Hu Hv)
    as (g' & Hadd & _ & Hst'); [done..|].
  by exists g'.
Qed.

Lemma hack_spfa_spec (n : Z) (kw : kwargs) (P : Z → Prop) (s : RNG) :
  2 ≤ n → 0 ≤ default 2 (kw_extra_edge kw) →
  total_gen P (Graph.weight_gen_of kw) →
  ∃ G s', Graph.hack_spfa n kw s = Ok (G, s')
          ∧ simple_state n (default false (kw_directed kw)) true true
              (3 * (n / 2) - 2 + default 2 (kw_extra_edge kw)) ∅ G.
Proof.
  intros Hn He Hwg. unfold Graph.hack_spfa. cbv zeta.
  rewrite int_of_Q_half by lia.
  set (d := default false (kw_directed kw)).
  set (e := default 2 (kw_extra_edge kw)) in *.
  set (pts := if n mod 2 =? 1 then (inject_Z n / 2 + 1)%Q
              else inject_Z (n + 3)).
  set (half := n / 2).
  assert (1 ≤ half ∧ 2 * half ≤ n) as [Hh1 Hh2].
  { unfold half. pose proof (Z.div_mod n 2 ltac:(lia)).
    pose proof (Z.mod_pos_bound n 2 ltac:(lia)). lia. }
  assert (∀ x, 1 ≤ x ≤ 2 * half → 1 ≤ Graph.skip pts x ≤ n) as Hskip
    by (intros x Hx; apply skip_range; [lia|done]).
  clearbody pts half.
  (* the two paths *)
  destruct (for_each_inv
              (λ (done : list Z) g,
                 simple_state n d true true (2 * Z.of_nat (length done)) ∅ g)
              (λ i, 1 ≤ i < half)
              (λ i graph,
                 let* w := Graph.weight_gen_of kw in
                 let* graph :=
                   lift (Graph.add_edge graph (Graph.skip pts i)
                           (Graph.skip pts (i + 1)) w) in
                 let* w := Graph.weight_gen_of kw in
                 lift (Graph.add_edge graph (Graph.skip pts (i + half))
                         (Graph.skip pts (i + half + 1)) w)))
    with (l := range 1 half) (done := @nil Z) (st := Graph.init n d) (s := s)
    as (g1 & s1 & Hrun1 & Hst1).
  { intros done i g s0 Hst Hi.
    destruct (Hwg s0) as (w1 & s01 & Hw1 & _).
    destruct (add_counted n d _ g (Graph.skip pts i) (Graph.skip pts (i + 1))
                w1 Hst) as (ga & Ha & Hsta); [apply Hskip; lia..|].
    destruct (Hwg s01) as (w2 & s02 & Hw2 & _).
    destruct (add_counted n d _ ga (Graph.skip pts (i + half))
                (Graph.skip pts (i + half + 1)) w2 Hsta)
      as (gb & Hb & Hstb); [apply Hskip; lia..|].
    exists gb, s02. split.
    - unfold bind at 1. rewrite Hw1. unfold bind at 1, lift at 1. rewrite Ha.
      unfold bind at 1. rewrite Hw2. unfold lift. by rewrite Hb.
    - rewrite length_app. simpl length.
      replace (2 * Z.of_nat (length done + 1))
        with (2 * Z.of_nat (length done) + 1 + 1) by lia. done. }
  { apply simple_state_init. lia. }
  { unfold range. apply Forall_seqZ. intros; lia. }
  unfold bind at 1. rewrite Hrun1.
  rewrite app_nil_l in Hst1. unfold range in Hst1 at 1.
  rewrite length_seqZ in Hst1.
  (* the matching *)
  destruct (for_each_inv
              (λ (done : list Z) g,
                 simple_state n d true true
                   (2 * Z.of_nat (Z.to_nat (half - 1))
                    + Z.of_nat (length done)) ∅ g)
              (λ i, 1 ≤ i ≤ half)
              (λ i graph,
                 let* w := Graph.weight_gen_of kw in
                 lift (Graph.add_edge graph (Graph.skip pts i)
                         (Graph.skip pts (i + half)) w)))
    with (l := range 1 (half + 1)) (done := @nil Z) (st := g1) (s := s1)
    as (g2 & s2 & Hrun2 & Hst2).
  { intros done i g s0 Hst Hi.
    destruct (Hwg s0) as (w1 & s01 & Hw1 & _).
    destruct (add_counted n d _ g (Graph.skip pts i)
                (Graph.skip pts (i + half)) w1 Hst)
      as (ga & Ha & Hsta); [apply Hskip; lia..|].
    exists ga, s01. split.
    - unfold bind at 1. rewrite Hw1. unfold lift. by rewrite Ha.
    - rewrite length_app. simpl length.
      replace (2 * Z.of_nat (Z.to_nat (half - 1))
               + Z.of_nat (length done + 1))
        with (2 * Z.of_nat (Z.to_nat (half - 1))
              + Z.of_nat (length done) + 1) by lia. done. }
  { simpl length. by rewrite Z.add_0_r. }
  { unfold range. apply Forall_seqZ. intros; lia. }
  unfold bind at 1. rewrite Hrun2.
  rewrite app_nil_l in Hst2. unfold range in Hst2 at 1.
  rewrite length_seqZ in Hst2.
  (* the extra edges *)
  destruct (for_each_inv
              (λ (done : list Z) g,
                 simple_state n d true true
                   (3 * half - 2 + Z.of_nat (length done)) ∅ g)
              (λ i, True)
              (λ (_ : Z) graph,
                 let* u := randint 1 n in
                 let* v := randint 1 n in
                 let* w := Graph.weight_gen_of kw in
                 lift (Graph.add_edge graph u v w)))
    with (l := range 0 e) (done := @nil Z) (st := g2) (s := s2)
    as (g3 & s3 & Hrun3 & Hst3).
  { intros done i g s0 Hst _.
    destruct (RandomFacts.randint_spec 1 n s0 ltac:(lia)) as (u & Hu & Hub).
    destruct (RandomFacts.randint_spec 1 n (λ k, s0 (S k)) ltac:(lia))
      as (v & Hv & Hvb).
    destruct (Hwg (λ k, s0 (S (S k)))) as (w1 & s01 & Hw1 & _).
    destruct (add_counted n d _ g u v w1 Hst Hub Hvb) as (ga & Ha & Hsta).
    exists ga, s01. split.
    - unfold bind at 1. rewrite Hu. unfold bind at 1. rewrite Hv.
      unfold bind at 1. rewrite Hw1. unfold lift. by rewrite Ha.
    - rewrite length_app. simpl length.
      replace (3 * half - 2 + Z.of_nat (length done + 1))
        with (3 * half - 2 + Z.of_nat (length done) + 1) by lia. done. }
  { simpl length. rewrite Z.add_0_r.
    replace (3 * half - 2)
      with (2 * Z.of_nat (Z.to_nat (half - 1))
            + Z.of_nat (Z.to_nat (half + 1 - 1))) by lia. done. }
  { apply Forall_forall. done. }
  exists g3, s3. split; [exact Hrun3|].
  rewrite app_nil_l in Hst3. unfold range in Hst3 at 1.
  rewrite length_seqZ in Hst3.
  by replace (Z.of_nat (Z.to_nat (e - 0))) with e in Hst3 by lia.
Qed.


(** *** [forest] with any keyword arguments *)

Lemma forest_spec (n k : Z) (kw : kwargs) (P : Z → Prop) (s : RNG) :
  1 ≤ k ≤ n →
  (0 <= default 0 (kw_chain kw))%Q → (0 <= default 0 (kw_flower kw))%Q →
  (default 0 (kw_chain kw) + default 0 (kw_flower kw) <= 1)%Q →
  total_gen P (Graph.weight_gen_of kw) → kw_father_gen kw = None →
  ∃ G s' need_add,
    Graph.forest n k kw s = Ok (G, s')
    ∧ Graph.directed G = default false (kw_directed kw)
    ∧ Graph.iterate_edges G ≡ₚ need_add
    ∧ Z.of_nat (length need_add) = n - k
    ∧ Forall (λ e, 1 ≤ start e < end_ e ∧ end_ e ≤ n ∧ P (weight e)) need_add
    ∧ NoDup (end_ <$> need_add).
Proof.
  intros Hk Hc Hf Hcf Hwg Hfg. unfold Graph.forest.
  destruct (Z.leb_spec k 0); [lia|]. destruct (Z.gtb_spec k n); [lia|].
  cbn [orb].
  assert ((default 0 (kw_chain kw) <= 1)%Q) as Hc1.
  { apply Qle_trans
      with (default 0 (kw_chain kw) + default 0 (kw_flower kw))%Q; [|done].
    rewrite <- (Qplus_0_r (default 0%Q (kw_chain kw))) at 1.
    by apply Qplus_le_r. }
  assert ((default 0 (kw_flower kw) <= 1)%Q) as Hf1.
  { apply Qle_trans
      with (default 0 (kw_chain kw) + default 0 (kw_flower kw))%Q; [|done].
    rewrite <- (Qplus_0_l (default 0%Q (kw_flower kw))) at 1.
    by apply Qplus_le_l. }
  destruct (tree_spec n (Exact (default 0%Q (kw_chain kw)))
              (Exact (default 0%Q (kw_flower kw))) kw P s ltac:(lia)
              Hc Hc1 Hf Hf1 Hcf Hwg)
    as (T & s1 & es & HT & Hd & Hlen & Hperm & Hshape & _).
  { right. right. by apply father_gen_default. }
  unfold bind at 1. rewrite HT.
  destruct (child_edges_shape P _ n es Hshape) as [Hts HP].
  assert (Z.of_nat (length (Graph.iterate_edges T)) = n - 1) as Hcount.
  { rewrite Hperm. apply tree_shape_length; [lia|done]. }
  destruct (RandomFacts.sample_spec (Graph.iterate_edges T)
              (Z.of_nat (length (Graph.iterate_edges T)) - k + 1) s1
              ltac:(lia)) as (need_add & s2 & Hsample & Hlen2 & rest & Hrest).
  unfold bind at 1. rewrite Hsample.
  assert (Forall (λ e, 1 ≤ start e < end_ e ∧ end_ e ≤ n ∧ P (weight e))
            need_add) as Hdown.
  { pose proof (tree_shape_down n es Hts) as Hall.
    assert (Forall (λ e, 1 ≤ start e < end_ e ∧ end_ e ≤ n ∧ P (weight e))
              es) as Hall'.
    { rewrite Forall_forall in Hall, HP. apply Forall_forall. intros e He.
      destruct (Hall e He). split; [done|]. split; [done|]. by apply (HP e). }
    rewrite <- Hperm, <- Hrest in Hall'.
    by apply Forall_app in Hall' as [? _]. }
  assert (NoDup (end_ <$> need_add)) as Hnd.
  { pose proof (NoDup_seqZ 2 (n - 1)) as Hall.
    rewrite <- (tree_shape_ends n es Hts), <- Hperm, <- Hrest in Hall.
    rewrite fmap_app in Hall. by apply NoDup_app in Hall as [? _]. }
  set (d := default false (kw_directed kw)) in *.
  pose (I := λ (done : list Edge) (g : Graph.t),
               Graph.directed g = d
               ∧ Z.of_nat (length (Graph.edges g)) = n + 1
               ∧ Graph.iterate_edges g ≡ₚ done).
  destruct (for_each_inv I (λ e, 1 ≤ start e < end_ e ∧ end_ e ≤ n)
              (λ edge result,
                 lift (Graph.add_edge result (start edge) (end_ edge)
                         (weight edge))))
    with (l := need_add) (done := @nil Edge)
         (st := Graph.init n (Graph.directed T)) (s := s2)
    as (G & s' & Hrun & HG).
  - intros done e g s0 (Hdg & Hlg & Hpg) He.
    destruct (add_edge_any g (start e) (end_ e) (weight e))
      as (g' & Hadd & Hd' & Hlen' & Hperm').
    { unfold in_bounds. lia. }
    { right. unfold in_bounds. lia. }
    unfold lift. rewrite Hadd. exists g', s0. split; [done|].
    split_and!; [congruence|lia|]. rewrite Hperm', Hpg.
    unfold stored. destruct (Z.leb_spec (start e) (end_ e)); [|lia].
    rewrite orb_true_r. by destruct e.
  - rewrite Hd. split_and!; [done|apply init_length; lia|].
    by rewrite init_iterate.
  - eapply Forall_impl; [exact Hdown|]. simpl. intros e (? & ? & ?). done.
  - exists G, s', need_add. split; [exact Hrun|].
    destruct HG as (HdG & _ & HpG).
    split_and!; [done|done|lia|done|done].
Qed.

End GraphFacts.

Module DegreeSequenceFacts.
Import SwitchGraphFacts GraphFacts.

(** *** [from_degree_sequence] *)

Lemma occurrences_pos (l : list (Z * Z)) (e : Z * Z) :
  e ∈ l → 0 < SwitchGraph.occurrences l e.
Proof.
  intros Hin. unfold SwitchGraph.occurrences.
  assert (e ∈ filter (λ e', e' = e) l) as H
    by (by apply list_elem_of_filter).
  destruct (filter _ l); [by apply elem_of_nil in H|]. simpl. lia.
Qed.

Lemma get_edges_elem (g : SwitchGraph.t) (e : Z * Z) :
  SwitchGraph.wf g → e ∈ SwitchGraph.get_edges g →
  is_Some (SwitchGraph.edges g !! e)
  ∧ (SwitchGraph.directed g = false → e.1 ≤ e.2).
Proof.
  intros Hwf Hin. apply occurrences_pos in Hin.
  rewrite get_edges_occurrences in Hin by done.
  destruct (SwitchGraph.directed g) eqn:Hd; cbn [orb] in Hin.
  - split; [|done]. unfold SwitchGraph.count in Hin.
    destruct (SwitchGraph.edges g !! e); [eauto|simpl in Hin; lia].
  - destruct (Z.leb_spec e.1 e.2); [|lia]. split; [|done].
    unfold SwitchGraph.count in Hin.
    destruct (SwitchGraph.edges g !! e); [eauto|simpl in Hin; lia].
Qed.

(** The loop that copies [get_edges] into the graph. *)
Lemma build_sound (n : Z) (wg : M Z) (l : list (Z * Z)) (g G : Graph.t)
    (s s' : RNG) :
  Z.of_nat (length (Graph.edges g)) = n + 1 →
  Forall (λ e, 1 ≤ e.1 ≤ n ∧ 1 ≤ e.2 ≤ n
               ∧ (Graph.directed g = false → e.1 ≤ e.2)) l →
  for_each l (λ edge g, let* w := wg in
                        lift (Graph.add_edge g edge.1 edge.2 w)) g s
  = Ok (G, s') →
  Graph.directed G = Graph.directed g
  ∧ endpoints <$> Graph.iterate_edges G
    ≡ₚ (endpoints <$> Graph.iterate_edges g) ++ l.
Proof.
  intros Hlen Hl. revert g s Hlen Hl.
  induction l as [|e l IH]; intros g s Hlen Hl; cbn [for_each].
  - intros [= <- <-]. by rewrite app_nil_r.
  - apply Forall_cons in Hl as [(He1 & He2 & Hcan) Hl].
    unfold bind at 1. unfold bind at 1.
    destruct (wg s) as [[w s1]| |]; [|done..].
    destruct (add_edge_any g e.1 e.2 w) as (g1 & Hadd & Hd1 & Hl1 & Hp1).
    { unfold in_bounds. lia. }
    { right. unfold in_bounds. lia. }
    unfold lift. rewrite Hadd. intros Hrun.
    destruct (IH g1 s1 ltac:(lia)) as [Hd Hp]; [|exact Hrun|].
    { eapply Forall_impl; [exact Hl|]. simpl. intros e' (? & ? & Hc).
      split; [done|]. split; [done|]. intros E. apply Hc. congruence. }
    split; [congruence|]. rewrite Hp, Hp1, fmap_app, <- app_assoc.
    f_equiv. simpl. f_equiv.
    rewrite endpoints_stored.
    destruct (Graph.directed g); cbn [orb]; [by destruct e|].
    destruct (Z.leb_spec e.1 e.2); [by destruct e|]. specialize (Hcan eq_refl).
    lia.
Qed.

Lemma starts_at_perm (l l' : list (Z * Z)) (v : Z) :
  l ≡ₚ l' → SwitchGraph.starts_at l v = SwitchGraph.starts_at l' v.
Proof. intros H. unfold SwitchGraph.starts_at. by rewrite H. Qed.

Lemma ends_at_perm (l l' : list (Z * Z)) (v : Z) :
  l ≡ₚ l' → SwitchGraph.ends_at l v = SwitchGraph.ends_at l' v.
Proof. intros H. unfold SwitchGraph.ends_at. by rewrite H. Qed.

Lemma from_degree_sequence_run (D : list Z + list (Z * Z)) (n_iter : Z)
    (sl re : bool) (wl : Z + Z * Z) (wg : option (M Z)) (il : Z)
    (s s' : RNG) (G : Graph.t) :
  match D with inl D => D ≠ [] | inr D => D ≠ [] end →
  Graph.from_degree_sequence D n_iter sl re wl wg il s = Ok (G, s') →
  ∃ sg sg' s1,
    match D with
    | inl D => SwitchGraph.from_undirected_degree_sequence D sl re
    | inr D => SwitchGraph.from_directed_degree_sequence D sl re
    end = Ok sg
    ∧ SwitchGraph.switches
        (replicate (Z.to_nat (Z.min n_iter il)) (sl, re)) sg s = Ok (sg', s1)
    ∧ Graph.directed G = SwitchGraph.directed sg'
    ∧ endpoints <$> Graph.iterate_edges G ≡ₚ SwitchGraph.get_edges sg'.
Proof.
  intros Hne. unfold Graph.from_degree_sequence.
  set (len := match D with inl D0 => length D0 | inr D0 => length D0 end).
  assert (len ≠ 0%nat) as Hlen.
  { unfold len. destruct D as [[|]|[|]]; simpl; done. }
  destruct (Nat.eqb_spec len 0); [done|]. cbv zeta.
  set (real := match D with
               | inl D0 => SwitchGraph.from_undirected_degree_sequence D0 sl re
               | inr D0 => SwitchGraph.from_directed_degree_sequence D0 sl re
               end).
  unfold bind at 1.
  destruct real as [sg| |] eqn:Hreal; cbn [lift]; [|done..].
  unfold bind at 1.
  destruct (SwitchGraph.switches _ sg s) as [[sg' s1]| |] eqn:Hsw; [|done..].
  intros Hrun. exists sg, sg', s1. split; [done|]. split; [done|].
  assert (SwitchGraph.wf sg ∧ SwitchGraph.vertices_in (Z.of_nat len) sg
          ∧ SwitchGraph.directed sg
            = match D with inl _ => false | inr _ => true end)
    as (Hwf & Hin & Hd).
  { unfold real, len in *. destruct D as [D|D].
    - pose proof (from_undirected_degree_sequence_spec D sl re)
        as Hs.
      rewrite Hreal in Hs. destruct Hs as (Hd & Hwf & _).
      split_and!; [done| |done].
      by apply (from_undirected_degree_sequence_vertices D sl re).
    - pose proof (from_directed_degree_sequence_spec D sl re)
        as Hs.
      rewrite Hreal in Hs. destruct Hs as (_ & Hd & _).
      split_and!; [| |done].
      + by apply (from_directed_degree_sequence_wf D sl re).
      + by apply (from_directed_degree_sequence_vertices D sl re). }
  pose proof (switches_wf _ _ _ _ _ Hsw Hwf) as Hwf'.
  pose proof (vertices_in_switches _ _ _ _ _ _ Hsw Hin) as Hin'.
  pose proof (switches_degrees _ _ _ _ _ Hsw) as [Hd' _].
  assert (Forall (λ e, 1 ≤ e.1 ≤ Z.of_nat len ∧ 1 ≤ e.2 ≤ Z.of_nat len
                       ∧ (match D with inl _ => false | inr _ => true end
                          = false → e.1 ≤ e.2))
            (SwitchGraph.get_edges sg')) as Hall.
  { apply Forall_forall. intros e He.
    destruct (get_edges_elem sg' e Hwf' He) as [Hsome Hcan].
    rewrite vertices_in_spec in Hin'. destruct (Hin' e Hsome).
    split; [done|]. split; [done|]. intros E. apply Hcan.
    rewrite Hd', Hd. exact E. }
  destruct (build_sound (Z.of_nat len) _ (SwitchGraph.get_edges sg')
              (Graph.init (Z.of_nat len)
                 (match D with inl _ => false | inr _ => true end))
              G s1 s' ltac:(apply init_length; lia) Hall Hrun)
    as [HdG HpG].
  split.
  - rewrite HdG. simpl. by rewrite Hd', Hd.
  - by rewrite HpG, init_iterate.
Qed.

Lemma from_degree_sequence_degrees (D : list Z + list (Z * Z)) (n_iter : Z)
    (sl re : bool) (wl : Z + Z * Z) (wg : option (M Z)) (il : Z)
    (s s' : RNG) (G : Graph.t) :
  Graph.from_degree_sequence D n_iter sl re wl wg il s = Ok (G, s') →
  match D with
  | inl D =>
      Graph.directed G = false
      ∧ ∀ (i : nat) (d : Z), D !! i = Some d →
          SwitchGraph.starts_at (endpoints <$> Graph.iterate_edges G)
            (1 + Z.of_nat i)
          + SwitchGraph.ends_at (endpoints <$> Graph.iterate_edges G)
              (1 + Z.of_nat i) = d
  | inr D =>
      (D ≠ [] → Graph.directed G = true)
      ∧ ∀ (i : nat) (a b : Z), D !! i = Some (a, b) →
          SwitchGraph.ends_at (endpoints <$> Graph.iterate_edges G)
            (1 + Z.of_nat i) = a
          ∧ SwitchGraph.starts_at (endpoints <$> Graph.iterate_edges G)
              (1 + Z.of_nat i) = b
  end.
Proof.
  intros Hrun.
  destruct D as [[|d0 D]|[|d0 D]];
    try (unfold Graph.from_degree_sequence in Hrun; simpl in Hrun;
         injection Hrun as <- _; split; done).
  - destruct (from_degree_sequence_run (inl (d0 :: D)) n_iter sl re wl wg il
                s s' G ltac:(done) Hrun)
      as (sg & sg' & s1 & Hreal & Hsw & HdG & HpG).
    pose proof (from_undirected_degree_sequence_spec (d0 :: D) sl re) as Hs.
    rewrite Hreal in Hs. destruct Hs as (Hd & Hwf & Hdeg).
    pose proof (switches_wf _ _ _ _ _ Hsw Hwf) as Hwf'.
    pose proof (switches_degrees _ _ _ _ _ Hsw) as (Hd' & _ & Hkeep).
    split; [congruence|]. intros i d Hi.
    rewrite (starts_at_perm _ _ _ HpG), (ends_at_perm _ _ _ HpG).
    rewrite <- (undirected_degree_get_edges sg') by (done || congruence).
    rewrite (Hkeep Hd). by apply Hdeg.
  - destruct (from_degree_sequence_run (inr (d0 :: D)) n_iter sl re wl wg il
                s s' G ltac:(done) Hrun)
      as (sg & sg' & s1 & Hreal & Hsw & HdG & HpG).
    pose proof (from_directed_degree_sequence_spec (d0 :: D) sl re) as Hs.
    rewrite Hreal in Hs. destruct Hs as (_ & Hd & Hdeg).
    pose proof (from_directed_degree_sequence_wf _ _ _ _ Hreal) as Hwf.
    pose proof (switches_wf _ _ _ _ _ Hsw Hwf) as Hwf'.
    pose proof (switches_degrees _ _ _ _ _ Hsw) as (Hd' & Hkeep & _).
    split; [intros _; congruence|]. intros i a b Hi.
    rewrite (starts_at_perm _ _ _ HpG), (ends_at_perm _ _ _ HpG).
    destruct (directed_degrees_get_edges sg' (1 + Z.of_nat i) Hwf'
                ltac:(congruence)) as [<- <-].
    destruct (Hkeep Hd (1 + Z.of_nat i)) as [-> ->].
    destruct (Hdeg i a b Hi). done.
Qed.

Lemma sumZ_zeros (l : list Z) : Forall (λ d, d = 0) l → sumZ l = 0.
Proof. induction 1 as [|x l -> _ IH]; simpl; lia. Qed.

Lemma from_undirected_zeros (D : list Z) (sl re : bool) :
  D ≠ [] → Forall (λ d, d = 0) D →
  SwitchGraph.from_undirected_degree_sequence D sl re
  = Ok (SwitchGraph.init [] false).
Proof.
  intros Hne Hz. unfold SwitchGraph.from_undirected_degree_sequence.
  assert (existsb (λ x, x <? 0) D = false) as ->.
  { clear Hne. induction Hz as [|x l -> _ IH]; [done|]. simpl. exact IH. }
  rewrite (sumZ_zeros D Hz). cbn [negb Z.modulo Z.eqb].
  destruct (Nat.eqb_spec (length D) 0) as [E|_].
  { by destruct D. }
  reflexivity.
Qed.

Lemma from_directed_zeros (D : list (Z * Z)) (sl re : bool) :
  D ≠ [] → Forall (λ d, d = (0, 0)) D →
  SwitchGraph.from_directed_degree_sequence D sl re
  = Ok (SwitchGraph.Build true ∅).
Proof.
  intros Hne Hz. unfold SwitchGraph.from_directed_degree_sequence.
  assert (existsb (λ xy : Z * Z, (xy.1 <? 0) || (xy.2 <? 0)) D = false) as ->.
  { clear Hne. induction Hz as [|x l -> _ IH]; [done|]. simpl. exact IH. }
  assert (sumZ D.*1 = 0 ∧ sumZ D.*2 = 0) as [-> ->].
  { split; apply sumZ_zeros, Forall_fmap;
      (eapply Forall_impl; [exact Hz|]); by intros ? ->. }
  destruct D as [|d D]; [done|]. cbn [negb Z.eqb].
  destruct (Nat.eqb_spec (length (d :: D)) 0) as [E|_]; [done|].
  set (l0 := (λ e : Z * (Z * Z), (e.2.2, e.2.1, e.1))
               <$> enumerate_from 1 (d :: D)).
  assert (Forall (λ x, x = 0)
            ((λ s : Z * Z * Z, s.1.2) <$> sort_reverse3 l0))
    as Hin.
  { apply Forall_fmap. rewrite sort_reverse3_perm. unfold l0.
    apply Forall_fmap. clear -Hz. generalize 1.
    induction Hz as [|x l -> _ IH]; intros a; cbn [enumerate_from];
      constructor; auto. }
  assert (sort_reverse3 l0 ≠ []) as Hne0.
  { intros E. pose proof (sort_reverse3_perm l0) as Hp. rewrite E in Hp.
    by apply Permutation_nil_l in Hp. }
  destruct (py_max_spec ((λ s : Z * Z * Z, s.1.2)
                           <$> sort_reverse3 l0))
    as (m & Hm & _ & Hmem).
  { intros E. by apply fmap_nil_inv in E. }
  rewrite Forall_forall in Hin. specialize (Hin m Hmem). subst m.
  destruct (length (sort_reverse3 l0));
    cbn [SwitchGraph.directed_loop]; rewrite Hm; reflexivity.
Qed.

Lemma from_degree_sequence_no_edges (D : list Z + list (Z * Z)) (n_iter : Z)
    (sl re : bool) (wl : Z + Z * Z) (wg : option (M Z)) (il : Z) (s : RNG) :
  match D with
  | inl D => D ≠ [] ∧ Forall (λ d, d = 0) D
  | inr D => D ≠ [] ∧ Forall (λ d, d = (0, 0)) D
  end →
  1 ≤ n_iter → 1 ≤ il →
  Graph.from_degree_sequence D n_iter sl re wl wg il s = Raise IndexError.
Proof.
  intros HD Hn Hil. unfold Graph.from_degree_sequence.
  set (len := match D with inl D0 => length D0 | inr D0 => length D0 end).
  assert (len ≠ 0%nat) as Hlen.
  { unfold len. destruct D as [[|]|[|]]; simpl; destruct HD; done. }
  destruct (Nat.eqb_spec len 0); [done|]. cbv zeta.
  assert (∃ sg, match D with
                | inl D0 => SwitchGraph.from_undirected_degree_sequence D0 sl re
                | inr D0 => SwitchGraph.from_directed_degree_sequence D0 sl re
                end = Ok sg ∧ SwitchGraph.edges sg = ∅) as (sg & -> & Hsg).
  { destruct D as [D|D]; destruct HD as [Hne Hz].
    - rewrite from_undirected_zeros by done. by eexists.
    - rewrite from_directed_zeros by done. by eexists. }
  unfold bind at 1. cbn [lift]. unfold bind at 1.
  destruct (Z.to_nat (Z.min n_iter il)) as [|k] eqn:Hk; [lia|].
  cbn [replicate SwitchGraph.switches]. unfold bind at 1.
  by rewrite switch_empty.
Qed.


End DegreeSequenceFacts.

Module GraphMatrixFacts.
Import GraphFacts.

(** *** The adjacency matrix *)

Section Matrix.
Context {T : Type}.
Variable n : nat.
Variable merge : T → Edge → T.

Lemma cell_entry (M : list (list T)) (u v : Z) :
  length M = n → Forall (λ row, length row = n) M →
  0 ≤ u < Z.of_nat n → 0 ≤ v < Z.of_nat n →
  ∃ x, GraphMatrix.cell M u v = Ok x
       ∧ entry M (Z.to_nat u) (Z.to_nat v) = Some x.
Proof.
  intros Hlen Hrows Hu Hv. unfold GraphMatrix.cell, entry.
  rewrite py_index_in_range by lia.
  destruct (lookup_lt_is_Some_2 M (Z.to_nat u) ltac:(lia)) as [row Hrow].
  rewrite Hrow. cbn [mbind option_bind].
  assert (length row = n) as Hr.
  { rewrite Forall_forall in Hrows. apply Hrows.
    by eapply list_elem_of_lookup_2. }
  rewrite py_index_in_range by lia.
  destruct (lookup_lt_is_Some_2 row (Z.to_nat v) ltac:(lia)) as [x Hx].
  rewrite Hx. by exists x.
Qed.

Lemma set_cell_entry (M : list (list T)) (u v : Z) (x : T) :
  length M = n → Forall (λ row, length row = n) M →
  0 ≤ u < Z.of_nat n → 0 ≤ v < Z.of_nat n →
  ∃ M', GraphMatrix.set_cell M u v x = Ok M'
        ∧ length M' = n ∧ Forall (λ row, length row = n) M'
        ∧ ∀ a b, entry M' a b
                 = if decide (a = Z.to_nat u ∧ b = Z.to_nat v)
                   then Some x else entry M a b.
Proof.
  intros Hlen Hrows Hu Hv. unfold GraphMatrix.set_cell.
  rewrite py_index_in_range by lia.
  destruct (lookup_lt_is_Some_2 M (Z.to_nat u) ltac:(lia)) as [row Hrow].
  rewrite Hrow.
  assert (length row = n) as Hr.
  { rewrite Forall_forall in Hrows. apply Hrows.
    by eapply list_elem_of_lookup_2. }
  rewrite py_index_in_range by lia.
  eexists. split; [done|]. split; [by rewrite length_insert|]. split.
  - apply Forall_insert; [done|]. by rewrite length_insert.
  - intros a b. unfold entry.
    destruct (decide (a = Z.to_nat u)) as [->|Ha].
    + rewrite list_lookup_insert_eq by lia. cbn [mbind option_bind].
      rewrite Hrow. cbn [mbind option_bind].
      destruct (decide (b = Z.to_nat v)) as [->|Hb].
      * rewrite list_lookup_insert_eq by lia.
        by rewrite decide_True by done.
      * rewrite list_lookup_insert_ne by done.
        by rewrite decide_False by (intros [_ ?]; done).
    + rewrite list_lookup_insert_ne by done.
      by rewrite decide_False by (intros [? _]; done).
Qed.

Lemma matrix_fold (l : list Edge) (M : list (list T)) :
  length M = n → Forall (λ row, length row = n) M →
  Forall (λ e, 0 ≤ start e < Z.of_nat n ∧ 0 ≤ end_ e < Z.of_nat n) l →
  ∃ M',
    foldl (λ acc edge,
             obind acc (λ matrix,
               obind (GraphMatrix.cell matrix (start edge) (end_ edge))
                 (λ old, GraphMatrix.set_cell matrix (start edge) (end_ edge)
                           (merge old edge))))
          (Ok M) l = Ok M'
    ∧ length M' = n ∧ Forall (λ row, length row = n) M'
    ∧ ∀ (a b : nat) (x : T), entry M a b = Some x →
        entry M' a b
        = Some (foldl merge x
                  (filter (λ e, start e = Z.of_nat a ∧ end_ e = Z.of_nat b) l)).
Proof.
  intros Hlen Hrows Hl. revert M Hlen Hrows.
  induction Hl as [|e l [Hs He] _ IH]; intros M Hlen Hrows; cbn [foldl].
  - exists M. split_and!; try done.
  - cbn [obind].
    destruct (cell_entry M (start e) (end_ e) Hlen Hrows Hs He)
      as (old & -> & Hold). cbn [obind].
    destruct (set_cell_entry M (start e) (end_ e) (merge old e) Hlen Hrows
                Hs He) as (M1 & -> & Hlen1 & Hrows1 & Hent).
    destruct (IH M1 Hlen1 Hrows1) as (M' & Hrun & Hlen' & Hrows' & Hent').
    exists M'. split; [exact Hrun|]. split; [done|]. split; [done|].
    intros a b x Hx. rewrite filter_cons.
    destruct (decide (start e = Z.of_nat a ∧ end_ e = Z.of_nat b))
      as [[Ha Hb]|Hne].
    + cbn [foldl]. apply Hent'. rewrite Hent.
      rewrite decide_True by (split; lia).
      replace (Z.to_nat (start e)) with a in Hold by lia.
      replace (Z.to_nat (end_ e)) with b in Hold by lia.
      congruence.
    + apply Hent'. rewrite Hent. rewrite decide_False; [done|].
      intros [-> ->]. apply Hne. lia.
Qed.

End Matrix.

Lemma entry_replicate {T} (n : nat) (x : T) (a b : nat) :
  (a < n)%nat → (b < n)%nat → entry (replicate n (replicate n x)) a b = Some x.
Proof.
  intros Ha Hb. unfold entry. rewrite lookup_replicate_2 by done.
  cbn [mbind option_bind]. by rewrite lookup_replicate_2.
Qed.

Lemma matrix_init {T} (g : Graph.t) (default : T) (merge : T → Edge → T) :
  let n := length (Graph.edges g) in
  Forall (λ e, 0 ≤ start e < Z.of_nat n ∧ 0 ≤ end_ e < Z.of_nat n)
         (Graph.iterate_edges g) →
  ∃ M, GraphMatrix.init g default merge = Ok M
       ∧ length M = n ∧ Forall (λ row, length row = n) M
       ∧ ∀ u v, 0 ≤ u < Z.of_nat n → 0 ≤ v < Z.of_nat n →
           GraphMatrix.call M u v
           = Ok (foldl merge default
                   (filter (λ e, start e = u ∧ end_ e = v)
                           (Graph.iterate_edges g))).
Proof.
  intros n Hl. unfold GraphMatrix.init. fold n.
  destruct (matrix_fold n merge (Graph.iterate_edges g)
              (replicate n (replicate n default)))
    as (M & Hrun & Hlen & Hrows & Hent).
  { apply length_replicate. }
  { apply Forall_replicate. apply length_replicate. }
  { done. }
  exists M. split; [exact Hrun|]. split; [done|]. split; [done|].
  intros u v Hu Hv. unfold GraphMatrix.call.
  destruct (cell_entry n M u v Hlen Hrows Hu Hv) as (x & -> & Hx).
  rewrite (Hent (Z.to_nat u) (Z.to_nat v) default) in Hx
    by (apply entry_replicate; lia).
  injection Hx as <-. f_equal. f_equal.
  apply list_filter_iff. intros e. lia.
Qed.

Lemma py_index_lt {A} (l : list A) (i : Z) (j : nat) :
  py_index l i = Some j → (j < length l)%nat.
Proof.
  unfold py_index.
  destruct (Z.leb_spec 0 i), (Z.ltb_spec i (Z.of_nat (length l))); simpl;
    try (intros [= <-]; lia);
    destruct (Z.leb_spec (- Z.of_nat (length l)) i), (Z.ltb_spec i 0); simpl;
    try done; intros [= <-]; lia.
Qed.

Lemma matrix_fold_raise {T} (merge : T → Edge → T) (e : exn) (l : list Edge) :
  foldl (λ acc edge,
           obind acc (λ matrix,
             obind (GraphMatrix.cell matrix (start edge) (end_ edge))
               (λ old, GraphMatrix.set_cell matrix (start edge) (end_ edge)
                         (merge old edge))))
        (Raise e) l = Raise e.
Proof. induction l as [|x l IH]; [done|]. cbn [foldl obind]. exact IH. Qed.

Lemma matrix_fold_error {T} (n : nat) (merge : T → Edge → T) (l : list Edge)
    (M : list (list T)) :
  length M = n → Forall (λ row, length row = n) M →
  Exists (λ e, ¬ (- Z.of_nat n ≤ start e < Z.of_nat n)
               ∨ ¬ (- Z.of_nat n ≤ end_ e < Z.of_nat n)) l →
  foldl (λ acc edge,
           obind acc (λ matrix,
             obind (GraphMatrix.cell matrix (start edge) (end_ edge))
               (λ old, GraphMatrix.set_cell matrix (start edge) (end_ edge)
                         (merge old edge))))
        (Ok M) l = Raise IndexError.
Proof.
  intros Hlen Hrows Hex. revert M Hlen Hrows.
  induction l as [|e l IH]; intros M Hlen Hrows; [by apply Exists_nil in Hex|].
  cbn [foldl obind]. unfold GraphMatrix.cell, GraphMatrix.set_cell.
  destruct (py_index M (start e)) as [i|] eqn:Hi.
  2: { cbn [obind]. apply matrix_fold_raise. }
  pose proof (py_index_lt _ _ _ Hi) as Hilt.
  destruct (lookup_lt_is_Some_2 M i Hilt) as [row Hrow]. rewrite Hrow.
  assert (length row = n) as Hr.
  { rewrite Forall_forall in Hrows. apply Hrows.
    by eapply list_elem_of_lookup_2. }
  destruct (py_index row (end_ e)) as [j|] eqn:Hj.
  2: { cbn [obind]. apply matrix_fold_raise. }
  pose proof (py_index_lt _ _ _ Hj) as Hjlt.
  destruct (lookup_lt_is_Some_2 row j Hjlt) as [x Hx]. rewrite Hx.
  cbn [obind].
  apply Exists_cons in Hex as [[Hbad|Hbad]|Hex].
  - rewrite py_index_None in Hi by (by rewrite Hlen). done.
  - rewrite py_index_None in Hj by (by rewrite Hr). done.
  - apply IH; [done|by rewrite length_insert|].
    apply Forall_insert; [done|]. by rewrite length_insert.
Qed.


End GraphMatrixFacts.

(** * Properties of the specification *)

Section SwitchGraphClaims.
Import SwitchGraph SwitchGraphFacts.

(** C1. A multiset that realizes a degree sequence still realizes it
    after any run of calls to [switch], whatever each call returns and
    whatever [self_loop] and [repeated_edges] it is given: a directed
    vertex keeps the (in-degree, out-degree) pair of its entry, an
    undirected vertex its degree, on the counter and in the sequence
    that [get_edges] returns.  An accepted call is the four mutations
    remove (x1, y1), insert (x1, y2), remove (x2, y2), insert (x2, y1)
    on two stored, oriented keys. *)
Theorem switch_keeps_degree_sequence (g : t) :
  (∀ (calls : list (bool * bool)) (s : RNG) (g' : t),
     value (switches calls g s) = Ok g' →
     (∀ D sl re, from_directed_degree_sequence D sl re = Ok g →
        ∀ (i : nat) (entry : Z * Z), D !! i = Some entry →
          (in_degree g' (1 + Z.of_nat i), out_degree g' (1 + Z.of_nat i))
          = entry
          ∧ (ends_at (get_edges g') (1 + Z.of_nat i),
             starts_at (get_edges g') (1 + Z.of_nat i)) = entry)
     ∧ (∀ D sl re, from_undirected_degree_sequence D sl re = Ok g →
          ∀ (i : nat) (d : Z), D !! i = Some d →
            degree g' (1 + Z.of_nat i) = d
            ∧ starts_at (get_edges g') (1 + Z.of_nat i)
              + ends_at (get_edges g') (1 + Z.of_nat i) = d))
  ∧ (∀ (sl re : bool) (s : RNG) (g' : t),
       value (switch g sl re s) = Ok (g', true) →
       ∃ first second,
         is_Some (edges g !! first) ∧ is_Some (edges g !! second)
         ∧ let '(x1, y1) := oriented g first in
           let '(x2, y2) := oriented g second in
           g' = insert (remove (insert (remove g x1 y1) x1 y2) x2 y2) x2 y1).
Proof.
  split.
  - intros calls s g' (s' & Hrun)%value_Ok.
    pose proof (switches_wf _ _ _ _ _ Hrun) as Hwf.
    apply switches_degrees in Hrun as (Hd & Ht & Hf). split.
    + intros D sl re HD i [a b] Hi.
      pose proof (from_directed_degree_sequence_spec D sl re) as Hspec.
      rewrite HD in Hspec. destruct Hspec as (_ & Hdir & Hdeg).
      apply from_directed_degree_sequence_wf in HD.
      destruct (directed_degrees_get_edges g' (1 + Z.of_nat i) (Hwf HD)
                  ltac:(congruence)) as [<- <-].
      destruct (Ht Hdir (1 + Z.of_nat i)) as [-> ->].
      destruct (Hdeg i a b Hi) as [-> ->]. done.
    + intros D sl re HD i d Hi.
      pose proof (from_undirected_degree_sequence_spec D sl re) as Hspec.
      rewrite HD in Hspec. destruct Hspec as (Hdir & Hwf0 & Hdeg).
      rewrite <- (undirected_degree_get_edges g' _ (Hwf Hwf0))
        by congruence.
      rewrite (Hf Hdir). split; by apply Hdeg.
  - intros sl re s g' (s' & Hsw)%value_Ok.
    apply switch_inv in Hsw as (first & second & H1 & H2 & Hsw).
    exists first, second. split_and!; [done..|].
    destruct (switch_on_cases g sl re first second) as [E|E];
      rewrite E in Hsw; [done|].
    destruct (oriented g first) as [x1 y1], (oriented g second) as [x2 y2].
    simpl in Hsw. congruence.
Qed.

Lemma switch_keeps_degree_sequence_witness :
  value (switches [(false, false)] (init [(4, 3); (2, 1)] false)
           (λ n, Z.of_nat n))
  = Ok (init [(1, 4); (2, 3)] false)
  ∧ from_undirected_degree_sequence [1; 1; 1; 1] false false
    = Ok (init [(4, 3); (2, 1)] false)
  ∧ degree (init [(1, 4); (2, 3)] false) (1 + Z.of_nat 2) = 1.
Proof.
  assert (value (switches [(false, false)] (init [(4, 3); (2, 1)] false)
                   (λ n, Z.of_nat n))
          = Ok (init [(1, 4); (2, 3)] false)) as H1
    by (vm_compute; reflexivity).
  assert (from_undirected_degree_sequence [1; 1; 1; 1] false false
          = Ok (init [(4, 3); (2, 1)] false)) as H2
    by (vm_compute; reflexivity).
  split_and!; [exact H1 | exact H2 |].
  exact (proj1 (proj2 (proj1 (switch_keeps_degree_sequence _) _ _ _ H1)
                  [1; 1; 1; 1] false false H2 2%nat 1 eq_refl)).
Defined.

(** C2. A call to [switch] that returns false has drawn two stored keys
    that fail the test of the code, and leaves the multiset as it was:
    [get_edges] returns the same sequence. *)
Theorem switch_false_unchanged (g g' : t) (sl re : bool) (s : RNG) :
  value (switch g sl re s) = Ok (g', false) →
  g' = g ∧ get_edges g' = get_edges g
  ∧ ∃ first second,
      is_Some (edges g !! first) ∧ is_Some (edges g !! second)
      ∧ rejected g sl re first second.
Proof.
  intros (s' & Hsw)%value_Ok.
  apply switch_inv in Hsw as (first & second & H1 & H2 & Hsw).
  assert (g' = g) as -> by (by eapply switch_on_false).
  split_and!; [done..|]. exists first, second. split_and!; [done..|].
  destruct (switch_on_spec g sl re first second) as [[Hr _]|[_ E]]; [done|].
  rewrite E in Hsw. done.
Qed.

Lemma switch_false_unchanged_witness :
  value (switch (init [(4, 3); (2, 1)] false) false false
           (λ n, 2 * Z.of_nat n))
  = Ok (init [(4, 3); (2, 1)] false, false)
  ∧ get_edges (init [(4, 3); (2, 1)] false)
    = get_edges (init [(4, 3); (2, 1)] false).
Proof.
  assert (value (switch (init [(4, 3); (2, 1)] false) false false
                   (λ n, 2 * Z.of_nat n))
          = Ok (init [(4, 3); (2, 1)] false, false)) as H1
    by (vm_compute; reflexivity).
  split; [exact H1|].
  exact (proj1 (proj2 (switch_false_unchanged _ _ _ _ _ H1))).
Defined.




(** C4 at a directed multiset with the one arc (2, 1): [edge_count]
    skips the arc, [get_edges] returns it.  The same multiset is what
    [from_directed_degree_sequence] returns on (1, 0), (0, 1). *)
Theorem edge_count_skips_descending_arcs :
  edge_count (init [(2, 1)] true) = 0
  ∧ get_edges (init [(2, 1)] true) = [(2, 1)]
  ∧ from_directed_degree_sequence [(1, 0); (0, 1)] false false
    = Ok (init [(2, 1)] true).
Proof. split_and!; vm_compute; reflexivity. Qed.

(** C5. [insert], [remove] of a pair that is stored, and [switch] keep
    the invariant of the counter: every stored count is positive, and an
    undirected multiset stores (u, v) and (v, u) with one count. *)
Theorem mutations_keep_wf (g : t) :
  wf g →
  (∀ u v, wf (insert g u v))
  ∧ (∀ u v, 0 < count (edges g) (u, v) → wf (remove g u v))
  ∧ (∀ sl re s g' b, value (switch g sl re s) = Ok (g', b) → wf g').
Proof.
  intros Hwf. split_and!.
  - intros u v. by apply wf_insert.
  - intros u v Hc. by apply wf_remove.
  - intros sl re s g' b (s' & Hsw)%value_Ok.
    apply switch_inv in Hsw as (first & second & H1 & H2 & Hsw).
    assert (g' = (switch_on g sl re first second).1) as -> by by rewrite Hsw.
    by apply wf_switch_on.
Qed.

Lemma mutations_keep_wf_witness :
  wf (init [(4, 3); (2, 1)] false)
  ∧ wf (insert (init [(4, 3); (2, 1)] false) 1 1)
  ∧ wf (remove (init [(4, 3); (2, 1)] false) 1 2).
Proof.
  assert (wf (init [(4, 3); (2, 1)] false)) as H1
    by (apply (bool_decide_unpack _); vm_compute; reflexivity).
  split_and!; [exact H1 | |].
  - exact (proj1 (mutations_keep_wf _ H1) 1 1).
  - apply (proj1 (proj2 (mutations_keep_wf _ H1)) 1 2).
    vm_compute; reflexivity.
Defined.

(** C7. [from_undirected_degree_sequence] on 3, 3, 3, 3 without
    self-loops and repeated edges returns the complete graph on four
    vertices: six edges, one between any two distinct vertices, and
    degree 3 everywhere. *)
Theorem from_undirected_3333_is_K4 :
  ∃ g, from_undirected_degree_sequence [3; 3; 3; 3] false false = Ok g
       ∧ directed g = false
       ∧ get_edges g = [(1, 2); (1, 3); (1, 4); (2, 3); (2, 4); (3, 4)]
       ∧ edge_count g = 6
       ∧ (∀ u v, u ∈ [1; 2; 3; 4] → v ∈ [1; 2; 3; 4] →
            count (edges g) (u, v) = if decide (u = v) then 0 else 1)
       ∧ (∀ v, v ∈ [1; 2; 3; 4] → degree g v = 3).
Proof.
  exists (init [(4, 3); (4, 2); (4, 1); (3, 2); (3, 1); (2, 1)] false).
  split; [vm_compute; reflexivity|].
  split; [reflexivity|]. split; [vm_compute; reflexivity|].
  split; [vm_compute; reflexivity|]. split.
  - assert (Forall (λ u, Forall (λ v,
              count (edges (init [(4, 3); (4, 2); (4, 1); (3, 2); (3, 1);
                                  (2, 1)] false)) (u, v)
              = if decide (u = v) then 0 else 1) [1; 2; 3; 4]) [1; 2; 3; 4])
      as Hall by (apply (bool_decide_unpack _); vm_compute; reflexivity).
    intros u v Hu Hv. rewrite Forall_forall in Hall.
    specialize (Hall u Hu). rewrite Forall_forall in Hall. by apply Hall.
  - assert (Forall (λ v,
              degree (init [(4, 3); (4, 2); (4, 1); (3, 2); (3, 1); (2, 1)]
                        false) v = 3) [1; 2; 3; 4])
      as Hall by (apply (bool_decide_unpack _); vm_compute; reflexivity).
    intros v Hv. rewrite Forall_forall in Hall. by apply Hall.
Qed.

End SwitchGraphClaims.

Section GraphClaims.
Import GraphFacts.

(** C6 (as the code has it).  [hack_spfa(6, extra_edge=0)] returns, for
    every state of the random source, the undirected graph with the
    seven edges 1-2, 2-3 and 4-5, 5-6 (the two paths over the halves)
    and 1-4, 2-5, 3-6 (the matching between the halves), all of weight
    1, and no other edge. *)
Theorem hack_spfa_6_pattern (s : RNG) :
  ∃ g, value (Graph.hack_spfa 6
                (mkKwargs None None None None None None (Some 0) None None) s)
       = Ok g
       ∧ Graph.directed g = false
       ∧ Graph.iterate_edges g
         = [mkEdge 1 2 1; mkEdge 1 4 1; mkEdge 2 3 1; mkEdge 2 5 1;
            mkEdge 3 6 1; mkEdge 4 5 1; mkEdge 5 6 1]
       ∧ Graph.edge_count g = 7.
Proof.
  rewrite hack_spfa_6_run. eexists. split; [reflexivity|].
  split; [reflexivity|]. split; vm_compute; reflexivity.
Qed.

(** C6 as it is written asks for six edges; the code builds seven. *)
Lemma hack_spfa_6_counterexample :
  ∃ g, value (Graph.hack_spfa 6
                (mkKwargs None None None None None None (Some 0) None None)
                (λ _, 0))
       = Ok g
       ∧ Graph.edge_count g = 7 ∧ Graph.edge_count g ≠ 6.
Proof.
  rewrite hack_spfa_6_run. eexists. split; [reflexivity|].
  split; [vm_compute; reflexivity|]. vm_compute. discriminate.
Qed.

(** C8. With three vertices, no repeated edges, no self-loops and an
    undirected graph the largest edge count is 3, and [graph(3, 4, ...)]
    raises before it draws anything and before any edge exists, whatever
    the weights asked for and however long the loop would be allowed to
    run. *)
Theorem graph_3_4_simple_undirected_fails :
  Graph._calc_max_edge 3 false false = 3
  ∧ ∀ (fuel : nat) wl wg fg ee ch fl (s : RNG),
      Graph.graph fuel 3 4
        (mkKwargs (Some false) (Some false) (Some false) wl wg fg ee ch fl) s
      = Raise (Exception Graph.too_many_edges [3; 3]).
Proof. split; [reflexivity|]. intros. reflexivity. Qed.

(** C9. For 1 <= k <= n, [forest(n, k)] returns, for every state of
    the random source, a graph with exactly n - k canonical edges and
    exactly k connected components on the vertices 1 .. n; for k outside
    [1, n] it raises [ValueError] before anything else, whatever the
    keyword arguments. *)
Theorem forest_edges_and_components (n k : Z) (s : RNG) :
  (1 ≤ k ≤ n →
   ∃ g, value (Graph.forest n k no_kwargs s) = Ok g
        ∧ Graph.edge_count g = n - k
        ∧ components n (endpoints <$> Graph.iterate_edges g) k)
  ∧ (¬ (1 ≤ k ≤ n) →
     ∀ kw, Graph.forest n k kw s
           = Raise (ValueError "tree_count must be between 1 and point_count")).
Proof.
  split.
  - intros Hk.
    destruct (forest_default n k s Hk)
      as (G & s' & Hrun & Hd & need_add & Hperm & Hlen & Hdown & Hnd).
    exists G. rewrite Hrun. split; [done|].
    assert (Z.of_nat (length (Graph.iterate_edges G)) = n - k) as Hcount
      by (by rewrite Hperm).
    split; [exact Hcount|].
    pose proof (downward_components n
                  (endpoints <$> Graph.iterate_edges G)) as Hcomp.
    rewrite length_fmap, Hcount in Hcomp.
    replace (n - (n - k)) with k in Hcomp by lia.
    apply Hcomp; [lia| |].
    + apply Forall_fmap. rewrite Hperm.
      eapply Forall_impl; [exact Hdown|]. by intros e.
    + rewrite <- list_fmap_compose.
      change (snd ∘ endpoints) with end_. by rewrite Hperm.
  - intros Hk kw. unfold Graph.forest.
    destruct (Z.leb_spec k 0); [done|].
    destruct (Z.gtb_spec k n); [done|lia].
Qed.

Lemma forest_edges_and_components_witness :
  1 ≤ 2 ≤ 5
  ∧ ∃ g, value (Graph.forest 5 2 no_kwargs (λ n, Z.of_nat (n * 7 + 3))) = Ok g
         ∧ Graph.edge_count g = 5 - 2
         ∧ components 5 (endpoints <$> Graph.iterate_edges g) 2.
Proof.
  assert (1 ≤ 2 ≤ 5) as H by lia.
  split; [exact H|].
  exact (proj1 (forest_edges_and_components 5 2 _) H).
Defined.

End GraphClaims.

Section RangeQueryClaims.
Import RangeQuery RangeQueryFacts.

(** C10. When every dimension of [position_range] (the one dimension
    10 when it is not given) is a valid range, lower bound at most the
    upper bound and below it in mode [less], [get_one_query] returns two
    lists as long as [position_range], and in every dimension
    [lower <= query_l[i] <= query_r[i] <= upper], with
    [query_l[i] < query_r[i]] in mode [less].  When every dimension is a
    range and one of them is not valid, it raises [ValueError]. *)
Theorem get_one_query_in_range (position_range : option (list dimension))
    (mode : RangeQueryRandomMode) (s : RNG) :
  let dims := default [DInt 10] position_range in
  (Forall (valid mode) dims →
   ∃ query_l query_r,
     value (get_one_query position_range mode s) = Ok (query_l, query_r)
     ∧ length query_l = length dims
     ∧ length query_r = length dims
     ∧ ∀ (i : nat) (d : dimension), dims !! i = Some d →
         ∃ l r lo hi,
           query_l !! i = Some l ∧ query_r !! i = Some r
           ∧ bounds d = Some (lo, hi)
           ∧ lo ≤ l ∧ l ≤ r ∧ r ≤ hi ∧ (mode = less → l < r))
  ∧ (Forall (λ d, is_Some (bounds d)) dims →
     Exists (λ d, ¬ valid mode d) dims →
     ∃ msg, get_one_query position_range mode s = Raise (ValueError msg)).
Proof.
  intros dims.
  change (get_one_query position_range mode s)
    with (for_each dims (one_dimension mode) ([], []) s).
  split.
  - intros Hall.
    destruct (for_each_valid mode dims [] [] s Hall)
      as (ql & qr & s' & Hrun & H3).
    exists ql, qr. rewrite Hrun. split; [done|].
    split; [symmetry; by eapply Forall3_length_lm|].
    split; [symmetry; by eapply Forall3_length_lr|].
    intros i d Hi.
    destruct (Forall3_lookup_l _ _ _ _ _ _ H3 Hi)
      as (l & r & Hl & Hr & lo & hi & Hb & H1 & H2 & H4 & H5).
    exists l, r, lo, hi. split_and!; try done.
    intros ->. by apply H5.
  - intros Hb Hex. by apply for_each_invalid.
Qed.

Lemma get_one_query_in_range_witness :
  Forall (valid less) [DInt 5; DSeq [3; 9]; DSeq [4]]
  ∧ ∃ query_l query_r,
      value (get_one_query (Some [DInt 5; DSeq [3; 9]; DSeq [4]]) less
               (λ n, Z.of_nat n))
      = Ok (query_l, query_r)
      ∧ length query_l = 3%nat ∧ length query_r = 3%nat.
Proof.
  assert (Forall (valid less) [DInt 5; DSeq [3; 9]; DSeq [4]]) as H.
  { repeat constructor; eexists _, _; (split; [reflexivity|]); simpl; lia. }
  split; [exact H|].
  destruct (proj1 (get_one_query_in_range
                     (Some [DInt 5; DSeq [3; 9]; DSeq [4]]) less
                     (λ n, Z.of_nat n)) H)
    as (ql & qr & Hrun & Hl & Hr & _).
  by exists ql, qr.
Defined.

End RangeQueryClaims.

(** * Further properties of the code *)

Section SwitchGraphCoverage.
Import SwitchGraph SwitchGraphFacts.

(** X1. On a well-formed multiset [remove] undoes [insert], and [insert]
    undoes the [remove] of a stored pair: the counter is back to what it
    was, and no key is left behind with the count 0. *)
Theorem remove_undoes_insert (g : t) (u v : Z) :
  wf g →
  remove (insert g u v) u v = g
  ∧ (0 < count (edges g) (u, v) → insert (remove g u v) u v = g).
Proof.
  intros Hwf. split; [by apply remove_insert|]. intros Hc.
  by apply insert_remove.
Qed.

Lemma remove_undoes_insert_witness :
  wf (init [(4, 3); (2, 1)] false)
  ∧ remove (insert (init [(4, 3); (2, 1)] false) 5 6) 5 6
    = init [(4, 3); (2, 1)] false
  ∧ insert (remove (init [(4, 3); (2, 1)] false) 1 2) 1 2
    = init [(4, 3); (2, 1)] false.
Proof.
  assert (wf (init [(4, 3); (2, 1)] false)) as H1
    by (apply (bool_decide_unpack _); vm_compute; reflexivity).
  split_and!; [exact H1| |].
  - exact (proj1 (remove_undoes_insert _ 5 6 H1)).
  - apply (proj2 (remove_undoes_insert _ 1 2 H1)). vm_compute; reflexivity.
Defined.

(** X2. [SwitchGraph(edges, directed).get_edges()] is the sorted input:
    the edges themselves when the multiset is directed, and every edge
    with its smaller end first when it is not. *)
Theorem get_edges_of_init (es : list (Z * Z)) :
  get_edges (init es true) = sorted es
  ∧ get_edges (init es false) = sorted (sorted_pair <$> es).
Proof. split; apply get_edges_init. Qed.

(** X3. [get_edges] is sorted, and on a well-formed multiset it lists a
    pair as often as the counter says: every stored pair of a directed
    multiset, and of an undirected one the pairs with the smaller end
    first. *)
Theorem get_edges_lists_the_counter (g : t) :
  wf g →
  Sorted pair_le (get_edges g)
  ∧ ∀ k, occurrences (get_edges g) k
         = if directed g || (k.1 <=? k.2) then count (edges g) k else 0.
Proof.
  intros Hwf. split; [apply get_edges_Sorted|].
  intros k. by apply get_edges_occurrences.
Qed.

Lemma get_edges_lists_the_counter_witness :
  wf (init [(4, 3); (2, 1); (3, 4)] false)
  ∧ occurrences (get_edges (init [(4, 3); (2, 1); (3, 4)] false)) (3, 4) = 2
  ∧ occurrences (get_edges (init [(4, 3); (2, 1); (3, 4)] false)) (4, 3) = 0.
Proof.
  assert (wf (init [(4, 3); (2, 1); (3, 4)] false)) as H1
    by (apply (bool_decide_unpack _); vm_compute; reflexivity).
  split_and!; [exact H1| |].
  - rewrite (proj2 (get_edges_lists_the_counter _ H1) (3, 4)).
    vm_compute; reflexivity.
  - rewrite (proj2 (get_edges_lists_the_counter _ H1) (4, 3)).
    vm_compute; reflexivity.
Defined.



(** X5. [from_undirected_degree_sequence] raises the non-graphical error
    on a negative entry and on an odd sum.  On every sequence it either
    raises that error or returns a well-formed undirected multiset on
    the vertices 1 .. len(degree_sequence) in which vertex [i] has the
    degree of its entry (a self-loop counts twice), on the counter and
    in [get_edges], and whose number of edges is half the sum; it never
    runs forever. *)
Theorem from_undirected_degree_sequence_realizes (D : list Z)
    (sl re : bool) :
  (Exists (λ d, d < 0) D ∨ sumZ D mod 2 ≠ 0 →
   from_undirected_degree_sequence D sl re = Raise not_graphical)
  ∧ (from_undirected_degree_sequence D sl re = Raise not_graphical
     ∨ ∃ g, from_undirected_degree_sequence D sl re = Ok g
            ∧ directed g = false ∧ wf g
            ∧ vertices_in (Z.of_nat (length D)) g
            ∧ 2 * edge_count g = sumZ D
            ∧ ∀ (i : nat) (d : Z), D !! i = Some d →
                degree g (1 + Z.of_nat i) = d
                ∧ starts_at (get_edges g) (1 + Z.of_nat i)
                  + ends_at (get_edges g) (1 + Z.of_nat i) = d).
Proof.
  split.
  - intros Hbad. unfold from_undirected_degree_sequence.
    destruct (existsb (λ x, x <? 0) D) eqn:Hneg; [done|].
    destruct Hbad as [Hex|Hodd].
    + apply existsb_false_Forall in Hneg. apply Exists_exists in Hex
        as (d & Hd & Hlt). rewrite Forall_forall in Hneg.
      specialize (Hneg d Hd). simpl in Hneg.
      destruct (Z.ltb_spec d 0); [done|lia].
    + by destruct (Z.eqb_spec (sumZ D mod 2) 0).
  - pose proof (from_undirected_degree_sequence_spec D sl re) as Hs.
    destruct (from_undirected_degree_sequence D sl re) as [g|e|] eqn:Hrun;
      [|left; by rewrite Hs|done].
    right. exists g. destruct Hs as (Hd & Hwf & Hdeg).
    destruct (from_undirected_degree_sequence_vertices D sl re g Hrun)
      as [Hin Hlen].
    split_and!; try done.
    + by rewrite edge_count_undirected.
    + intros i d Hi. split; [by apply Hdeg|].
      rewrite <- undirected_degree_get_edges by done. by apply Hdeg.
Qed.

(** X6. [switch] on a multiset without edges raises [IndexError] (the
    draw of [random.choices] from an empty population); on a
    well-formed multiset with an edge it always returns, after two
    draws. *)
Theorem switch_needs_an_edge (g : t) (sl re : bool) (s : RNG) :
  (edges g = ∅ → switch g sl re s = Raise IndexError)
  ∧ (wf g → edges g ≠ ∅ →
     ∃ g' b, switch g sl re s = Ok (g', b, λ n, s (S (S n)))).
Proof.
  split; [apply switch_empty|]. intros Hwf Hne.
  destruct (switch_total g sl re s Hwf Hne) as (first & second & Hrun & _).
  destruct (switch_on g sl re first second) as [g' b]. by exists g', b.
Qed.

Lemma switch_needs_an_edge_witness :
  wf (init [(4, 3); (2, 1)] false)
  ∧ edges (init [(4, 3); (2, 1)] false) ≠ ∅
  ∧ ∃ g' b, switch (init [(4, 3); (2, 1)] false) true false (λ n, Z.of_nat n)
            = Ok (g', b, λ n, Z.of_nat (S (S n))).
Proof.
  assert (wf (init [(4, 3); (2, 1)] false)) as H1
    by (apply (bool_decide_unpack _); vm_compute; reflexivity).
  assert (edges (init [(4, 3); (2, 1)] false) ≠ ∅) as H2
    by (apply (bool_decide_unpack _); vm_compute; reflexivity).
  split_and!; [exact H1|exact H2|].
  exact (proj2 (switch_needs_an_edge _ true false (λ n, Z.of_nat n)) H1 H2).
Defined.

(** X7. A realization of a degree sequence of length [n], and what any
    run of [switch] makes of it, joins vertices of 1 .. n only: every
    stored pair and every pair of [get_edges] has both ends there. *)
Theorem switches_stay_on_the_vertices (n : Z) (g g' : t)
    (calls : list (bool * bool)) (s : RNG) :
  (∃ D sl re, from_directed_degree_sequence D sl re = Ok g
              ∧ Z.of_nat (length D) = n)
  ∨ (∃ D sl re, from_undirected_degree_sequence D sl re = Ok g
                ∧ Z.of_nat (length D) = n) →
  value (switches calls g s) = Ok g' →
  vertices_in n g'
  ∧ Forall (λ e, 1 ≤ e.1 ≤ n ∧ 1 ≤ e.2 ≤ n) (get_edges g').
Proof.
  intros Hreal Hrun. apply value_Ok in Hrun as [s' Hrun].
  assert (wf g ∧ vertices_in n g) as [Hwf Hin].
  { destruct Hreal as [(D & sl & re & Hr & <-)|(D & sl & re & Hr & <-)].
    - split; [by eapply from_directed_degree_sequence_wf|].
      by eapply from_directed_degree_sequence_vertices.
    - pose proof (from_undirected_degree_sequence_spec D sl re) as Hs.
      rewrite Hr in Hs. destruct Hs as (_ & Hwf & _). split; [done|].
      by apply (from_undirected_degree_sequence_vertices D sl re). }
  pose proof (switches_wf _ _ _ _ _ Hrun Hwf) as Hwf'.
  pose proof (vertices_in_switches _ _ _ _ _ _ Hrun Hin) as Hin'.
  split; [done|]. apply Forall_forall. intros e He.
  apply (proj1 (vertices_in_spec n g') Hin').
  assert (0 < occurrences (get_edges g') e) as Hocc.
  { unfold occurrences.
    assert (e ∈ filter (λ e', e' = e) (get_edges g')) as H
      by (by apply list_elem_of_filter).
    destruct (filter _ (get_edges g')); [by apply elem_of_nil in H|].
    simpl. lia. }
  rewrite get_edges_occurrences in Hocc by done.
  unfold count in Hocc. destruct (edges g' !! e); [eauto|].
  simpl in Hocc. destruct (_ || _); lia.
Qed.

Lemma switches_stay_on_the_vertices_witness :
  vertices_in 4 (init [(1, 4); (2, 3)] false)
  ∧ Forall (λ e, 1 ≤ e.1 ≤ 4 ∧ 1 ≤ e.2 ≤ 4)
           (get_edges (init [(1, 4); (2, 3)] false)).
Proof.
  assert (from_undirected_degree_sequence [1; 1; 1; 1] false false
          = Ok (init [(4, 3); (2, 1)] false)) as H1
    by (vm_compute; reflexivity).
  assert (value (switches [(false, false)] (init [(4, 3); (2, 1)] false)
                   (λ n, Z.of_nat n))
          = Ok (init [(1, 4); (2, 3)] false)) as H2
    by (vm_compute; reflexivity).
  exact (switches_stay_on_the_vertices 4 _ _ _ _
           (or_intror (ex_intro _ [1; 1; 1; 1]
              (ex_intro _ false (ex_intro _ false (conj H1 eq_refl))))) H2).
Defined.

End SwitchGraphCoverage.

Section GraphCoverage.
Import GraphFacts.

(** X8. [add_edge(x, y)] with [x] an index of the vertex list, and [y]
    one too unless the graph is directed, adds exactly one edge to
    those that [iterate_edges] yields: the edge from [x] to [y], or
    from [y] to [x] on an undirected graph with [y < x].  A directed
    graph accepts any [y].  An [x] that is no index raises
    [IndexError], and so does such a [y] on an undirected graph. *)
Theorem add_edge_adds_one_edge (g : Graph.t) (x y w : Z) :
  (in_bounds g x → Graph.directed g = true ∨ in_bounds g y →
   ∃ g', Graph.add_edge g x y w = Ok g'
         ∧ Graph.directed g' = Graph.directed g
         ∧ length (Graph.edges g') = length (Graph.edges g)
         ∧ Graph.iterate_edges g' ≡ₚ Graph.iterate_edges g ++ [stored g x y w]
         ∧ Graph.edge_count g' = Graph.edge_count g + 1)
  ∧ (¬ in_bounds g x → Graph.add_edge g x y w = Raise IndexError)
  ∧ (in_bounds g x → Graph.directed g = false → x ≠ y → ¬ in_bounds g y →
     Graph.add_edge g x y w = Raise IndexError).
Proof.
  split_and!.
  - intros Hx Hy.
    destruct (add_edge_any g x y w Hx Hy) as (g' & Hadd & Hd & Hl & Hp).
    exists g'. split_and!; try done.
    unfold Graph.edge_count. rewrite Hp, length_app. simpl. lia.
  - apply add_edge_start_error.
  - apply add_edge_end_error.
Qed.

Lemma add_edge_adds_one_edge_witness :
  in_bounds (Graph.init 3 true) 2
  ∧ ∃ g', Graph.add_edge (Graph.init 3 true) 2 100 7 = Ok g'
          ∧ Graph.edge_count g' = Graph.edge_count (Graph.init 3 true) + 1.
Proof.
  assert (in_bounds (Graph.init 3 true) 2) as H1
    by (unfold in_bounds; simpl; lia).
  split; [exact H1|].
  destruct (proj1 (add_edge_adds_one_edge (Graph.init 3 true) 2 100 7) H1
              (or_introl eq_refl)) as (g' & Hadd & _ & _ & _ & Hc).
  exists g'. split; [exact Hadd|exact Hc].
Defined.

(** X9. [tree] on fractions [chain] and [flower] of [[0, 1]] whose sum,
    as Python computes it, is at most 1: with the default generators
    and [n >= 1] vertices it returns for every state of the random
    source a graph with exactly [n - 1] edges, one into each vertex
    2 .. n from a vertex before it, all on one connected component and
    with weights in the limits.  A fraction outside [[0, 1]] raises the
    first [Exception], a sum above 1 the second, before anything is
    built.  The sum of two ints or Fractions is exact.  The sum of two
    floats is the nearest double: it is at most 1 when the exact sum
    is, and above 1 when the exact sum is 1 + 2^-52 at least, the next
    double; in between it is rounded to one of the two, so that 0.5 and
    0.5000000000000001 have the sum 1.0 and build a tree. *)
Theorem tree_is_a_spanning_tree (n : Z) (chain flower : number)
    (kw : kwargs) (s : RNG) :
  (1 ≤ n →
   (0 <= num_value chain)%Q → (num_value chain <= 1)%Q →
   (0 <= num_value flower)%Q → (num_value flower <= 1)%Q →
   (num_value (num_add chain flower) <= 1)%Q →
   kw_weight_gen kw = None → kw_father_gen kw = None →
   (Graph.weight_limit_of kw).1 ≤ (Graph.weight_limit_of kw).2 →
   ∃ T, value (Graph.tree n chain flower kw s) = Ok T
        ∧ Graph.directed T = default false (kw_directed kw)
        ∧ Graph.edge_count T = n - 1
        ∧ Forall (λ e, 1 ≤ start e < end_ e ∧ end_ e ≤ n
                       ∧ (Graph.weight_limit_of kw).1 ≤ weight e
                         ≤ (Graph.weight_limit_of kw).2)
                 (Graph.iterate_edges T)
        ∧ end_ <$> Graph.iterate_edges T ≡ₚ seqZ 2 (n - 1)
        ∧ components n (endpoints <$> Graph.iterate_edges T) 1)
  ∧ (¬ ((0 <= num_value chain)%Q ∧ (num_value chain <= 1)%Q
        ∧ (0 <= num_value flower)%Q ∧ (num_value flower <= 1)%Q) →
     Graph.tree n chain flower kw s
     = Raise (Exception "chain and flower must be between 0 and 1" []))
  ∧ ((0 <= num_value chain)%Q → (num_value chain <= 1)%Q →
     (0 <= num_value flower)%Q → (num_value flower <= 1)%Q →
     (1 < num_value (num_add chain flower))%Q →
     Graph.tree n chain flower kw s
     = Raise (Exception "chain plus flower must be smaller than 1" []))
  ∧ (∀ p q : Q, num_value (num_add (Exact p) (Exact q)) = (p + q)%Q)
  ∧ (∀ x y : Q, (x + y <= 1)%Q →
       (num_value (num_add (Float x) (Float y)) <= 1)%Q)
  ∧ (∀ x y : Q, (1 + 2 ^ (-52) <= x + y)%Q →
       (1 < num_value (num_add (Float x) (Float y)))%Q).
Proof.
  split_and!.
  - intros Hn Hc0 Hc1 Hf0 Hf1 Hcf Hwg Hfg Hwl.
    destruct (tree_spec n chain flower kw _ s Hn Hc0 Hc1 Hf0 Hf1 Hcf
                (weight_gen_total kw Hwg Hwl))
      as (T & s' & es & Hrun & Hd & Hlen & Hperm & Hshape & _).
    { right. right. by apply father_gen_default. }
    destruct (child_edges_facts _ _ n es Hn Hshape)
      as (Hes & Hnd & Hl & Hcomp).
    destruct (child_edges_shape _ _ n es Hshape) as [Hts _].
    exists T. rewrite Hrun. split; [done|]. split; [done|].
    split; [unfold Graph.edge_count; by rewrite Hperm|].
    split; [by rewrite Hperm|].
    split; [by rewrite Hperm, (tree_shape_ends n es Hts)|].
    eapply components_one_mono; [|exact Hcomp].
    intros a b Hab. left. by rewrite Hperm.
  - intros Hbad. unfold Graph.tree, num_le. cbn [num_value].
    destruct (Qle_bool 0 (num_value chain)) eqn:E1,
      (Qle_bool (num_value chain) 1) eqn:E2,
      (Qle_bool 0 (num_value flower)) eqn:E3,
      (Qle_bool (num_value flower) 1) eqn:E4; cbn [negb andb orb];
      try done.
    exfalso. apply Hbad. by rewrite <- !Qle_bool_iff.
  - intros Hc0 Hc1 Hf0 Hf1 Hcf. unfold Graph.tree, num_le. cbn [num_value].
    rewrite (proj2 (Qle_bool_iff 0 (num_value chain)) Hc0),
      (proj2 (Qle_bool_iff (num_value chain) 1) Hc1),
      (proj2 (Qle_bool_iff 0 (num_value flower)) Hf0),
      (proj2 (Qle_bool_iff (num_value flower) 1) Hf1).
    cbn [negb andb orb].
    destruct (Qle_bool (num_value (num_add chain flower)) 1) eqn:E; [|done].
    apply Qle_bool_iff in E. by apply Qlt_not_le in Hcf.
  - done.
  - intros x y Hxy. by apply round_double_le_1.
  - intros x y Hxy. by apply round_double_gt_1.
Qed.

Lemma tree_is_a_spanning_tree_witness :
  ∃ T, value (Graph.tree 5 (Float (1 # 2))
                (Float (round_double (5000000000000001 # 10000000000000000)))
                (mkKwargs (Some true) None None (Some (inl 9)) None None None
                   None None) (λ n, Z.of_nat (3 * n + 1))) = Ok T
       ∧ Graph.edge_count T = 5 - 1
       ∧ components 5 (endpoints <$> Graph.iterate_edges T) 1.
Proof.
  destruct (proj1 (tree_is_a_spanning_tree 5 (Float (1 # 2))
                     (Float (round_double
                               (5000000000000001 # 10000000000000000)))
                     (mkKwargs (Some true) None None (Some (inl 9)) None None
                        None None None) (λ n, Z.of_nat (3 * n + 1))))
    as (T & Hrun & _ & Hc & _ & _ & Hcomp);
    [lia|by vm_compute|by vm_compute|by vm_compute|by vm_compute
    |by vm_compute|reflexivity|reflexivity|simpl; lia|].
  exists T. split; [exact Hrun|]. split; [exact Hc|exact Hcomp].
Defined.

(** X10. [chain(n)] is the path 1 - 2 - ... - n: its edges are the
    [n - 1] pairs (i - 1, i), whatever the random source gives, and it
    is undirected unless [directed] is passed.  A key [chain] or
    [flower] among the keyword arguments raises [TypeError]. *)
Theorem chain_is_a_path (n : Z) (kw : kwargs) (s : RNG) :
  (kw_chain kw = None → kw_flower kw = None →
   1 ≤ n → kw_weight_gen kw = None →
   (Graph.weight_limit_of kw).1 ≤ (Graph.weight_limit_of kw).2 →
   ∃ T, value (Graph.chain n kw s) = Ok T
        ∧ Graph.directed T = default false (kw_directed kw)
        ∧ endpoints <$> Graph.iterate_edges T
          ≡ₚ (λ i, (i - 1, i)) <$> seqZ 2 (n - 1)
        ∧ Forall (λ e, (Graph.weight_limit_of kw).1 ≤ weight e
                       ≤ (Graph.weight_limit_of kw).2)
                 (Graph.iterate_edges T))
  ∧ (is_Some (kw_chain kw) ∨ is_Some (kw_flower kw) →
     Graph.chain n kw s = Raise TypeError).
Proof.
  split.
  - intros Hkc Hkf Hn Hwg Hwl. unfold Graph.chain. rewrite Hkc, Hkf.
    destruct (tree_spec n (Exact 1) (Exact 0) kw _ s Hn ltac:(done)
                ltac:(done) ltac:(done) ltac:(done) ltac:(done)
                (weight_gen_total kw Hwg Hwl))
      as (T & s' & es & Hrun & Hd & Hlen & Hperm & Hshape & Hchain & _).
    { by left. }
    specialize (Hchain eq_refl).
    exists T. rewrite Hrun. split; [done|]. split; [done|]. split.
    + rewrite Hperm.
      by rewrite (child_edges_endpoints _ (λ i, i - 1) _ _ Hchain).
    + rewrite Hperm. by destruct (child_edges_shape _ _ n es Hshape).
  - unfold Graph.chain. intros [[c ->]|[f ->]]; [done|].
    by destruct (kw_chain kw).
Qed.

Lemma chain_is_a_path_witness :
  ∃ T, value (Graph.chain 4 no_kwargs (λ n, Z.of_nat n)) = Ok T
       ∧ endpoints <$> Graph.iterate_edges T ≡ₚ [(1, 2); (2, 3); (3, 4)].
Proof.
  destruct (proj1 (chain_is_a_path 4 no_kwargs (λ n, Z.of_nat n)))
    as (T & Hrun & _ & Hp & _);
    [reflexivity|reflexivity|lia|reflexivity|simpl; lia|].
  exists T. split; [exact Hrun|exact Hp].
Defined.

(** X11. [flower(n)] is the star with centre 1: its edges are the
    [n - 1] pairs (1, i).  A key [chain] or [flower] among the keyword
    arguments raises [TypeError]. *)
Theorem flower_is_a_star (n : Z) (kw : kwargs) (s : RNG) :
  (kw_chain kw = None → kw_flower kw = None →
   1 ≤ n → kw_weight_gen kw = None →
   (Graph.weight_limit_of kw).1 ≤ (Graph.weight_limit_of kw).2 →
   ∃ T, value (Graph.flower n kw s) = Ok T
        ∧ Graph.directed T = default false (kw_directed kw)
        ∧ endpoints <$> Graph.iterate_edges T
          ≡ₚ (λ i, (1, i)) <$> seqZ 2 (n - 1)
        ∧ Forall (λ e, (Graph.weight_limit_of kw).1 ≤ weight e
                       ≤ (Graph.weight_limit_of kw).2)
                 (Graph.iterate_edges T))
  ∧ (is_Some (kw_chain kw) ∨ is_Some (kw_flower kw) →
     Graph.flower n kw s = Raise TypeError).
Proof.
  split.
  - intros Hkc Hkf Hn Hwg Hwl. unfold Graph.flower. rewrite Hkc, Hkf.
    destruct (tree_spec n (Exact 0) (Exact 1) kw _ s Hn ltac:(done)
                ltac:(done) ltac:(done) ltac:(done) ltac:(done)
                (weight_gen_total kw Hwg Hwl))
      as (T & s' & es & Hrun & Hd & Hlen & Hperm & Hshape & _ & Hflower).
    { right. by left. }
    specialize (Hflower eq_refl eq_refl).
    exists T. rewrite Hrun. split; [done|]. split; [done|]. split.
    + rewrite Hperm.
      by rewrite (child_edges_endpoints _ (λ _, 1) _ _ Hflower).
    + rewrite Hperm. by destruct (child_edges_shape _ _ n es Hshape).
  - unfold Graph.flower. intros [[c ->]|[f ->]]; [done|].
    by destruct (kw_chain kw).
Qed.

Lemma flower_is_a_star_witness :
  ∃ T, value (Graph.flower 4 no_kwargs (λ n, Z.of_nat n)) = Ok T
       ∧ endpoints <$> Graph.iterate_edges T ≡ₚ [(1, 2); (1, 3); (1, 4)].
Proof.
  destruct (proj1 (flower_is_a_star 4 no_kwargs (λ n, Z.of_nat n)))
    as (T & Hrun & _ & Hp & _);
    [reflexivity|reflexivity|lia|reflexivity|simpl; lia|].
  exists T. split; [exact Hrun|exact Hp].
Defined.

(** X12. With [left] and [right] not negative and of sum at most 1,
    [binary_tree] on [n >= 1] vertices returns for every state of the
    random source a tree on 1 .. n, one edge into each vertex from 2 on
    from a vertex before it, in which no vertex is the parent of more
    than two: a pool never runs empty, and a vertex leaves each pool
    once. *)
Theorem binary_tree_is_binary (n : Z) (left right : Q) (kw : kwargs)
    (s : RNG) :
  1 ≤ n → (0 <= left)%Q → (0 <= right)%Q → (left + right <= 1)%Q →
  kw_weight_gen kw = None →
  (Graph.weight_limit_of kw).1 ≤ (Graph.weight_limit_of kw).2 →
  ∃ T, value (Graph.binary_tree n left right kw s) = Ok T
       ∧ Graph.directed T = default false (kw_directed kw)
       ∧ Graph.edge_count T = n - 1
       ∧ Forall (λ e, 1 ≤ start e < end_ e ∧ end_ e ≤ n)
                (Graph.iterate_edges T)
       ∧ end_ <$> Graph.iterate_edges T ≡ₚ seqZ 2 (n - 1)
       ∧ (∀ v, children (Graph.iterate_edges T) v ≤ 2)
       ∧ components n (endpoints <$> Graph.iterate_edges T) 1.
Proof.
  intros Hn Hl Hr Hlr Hwg Hwl.
  destruct (binary_tree_spec n left right kw _ s Hn Hl Hr Hlr
              (weight_gen_total kw Hwg Hwl))
    as (T & s' & es & Hrun & Hd & Hlen & Hperm & Hshape & Hch).
  destruct (child_edges_facts _ _ n es Hn Hshape) as (Hes & Hnd & Hl' & Hcomp).
  destruct (child_edges_shape _ _ n es Hshape) as [Hts _].
  exists T. rewrite Hrun. split; [done|]. split; [done|].
  split; [unfold Graph.edge_count; by rewrite Hperm|].
  split.
  { rewrite Hperm. eapply Forall_impl; [exact Hes|]. simpl.
    intros e (? & ? & ?). done. }
  split; [by rewrite Hperm, (tree_shape_ends n es Hts)|].
  split; [intros v; by rewrite (children_perm _ _ v Hperm)|].
  eapply components_one_mono; [|exact Hcomp].
  intros a b Hab. left. by rewrite Hperm.
Qed.

Lemma binary_tree_is_binary_witness :
  ∃ T, value (Graph.binary_tree 6 (1 # 3) (1 # 3) no_kwargs
                (λ n, Z.of_nat (5 * n + 2))) = Ok T
       ∧ Graph.edge_count T = 6 - 1
       ∧ ∀ v, children (Graph.iterate_edges T) v ≤ 2.
Proof.
  destruct (binary_tree_is_binary 6 (1 # 3) (1 # 3) no_kwargs
              (λ n, Z.of_nat (5 * n + 2)))
    as (T & Hrun & _ & Hc & _ & _ & Hch & _);
    [lia|done|done|done|reflexivity|simpl; lia|].
  exists T. split; [exact Hrun|]. split; [exact Hc|exact Hch].
Defined.

(** X13. Whenever [graph(point_count, edge_count, ...)] returns, the
    graph has exactly [edge_count] edges (none when [edge_count] is
    negative), every edge joins two vertices of 1 .. point_count, the
    default weights are in the limits, there is no self-loop when
    [self_loop] is false and no two edges join the same pair of
    vertices when [repeated_edges] is false. *)
Theorem graph_returns_what_was_asked (fuel : nat) (n m : Z) (kw : kwargs)
    (s : RNG) (G : Graph.t) :
  value (Graph.graph fuel n m kw s) = Ok G →
  Graph.directed G = default false (kw_directed kw)
  ∧ Graph.edge_count G = Z.max 0 m
  ∧ Forall (λ e, 1 ≤ start e ≤ n ∧ 1 ≤ end_ e ≤ n ∧ weight_ok kw (weight e))
           (Graph.iterate_edges G)
  ∧ (default true (kw_self_loop kw) = false →
     Forall (λ e, start e ≠ end_ e) (Graph.iterate_edges G))
  ∧ (default true (kw_repeated_edges kw) = false →
     NoDup (endpoints <$> Graph.iterate_edges G)).
Proof.
  intros Hrun. apply value_Ok in Hrun as [s' Hrun].
  by apply (graph_sound fuel n m kw s s').
Qed.

Lemma graph_returns_what_was_asked_witness :
  ∃ G, value (Graph.graph 20 4 5
                (mkKwargs None (Some false) (Some false) None None None None
                   None None)
                (λ n, nth n [0; 1; 0; 1; 2; 0; 2; 3; 0; 3; 0; 0; 0; 2; 0] 0))
       = Ok G
       ∧ Graph.edge_count G = 5
       ∧ NoDup (endpoints <$> Graph.iterate_edges G).
Proof.
  eexists.
  assert (value (Graph.graph 20 4 5
                   (mkKwargs None (Some false) (Some false) None None None
                      None None None)
                   (λ n, nth n [0; 1; 0; 1; 2; 0; 2; 3; 0; 3; 0; 0; 0; 2; 0]
                           0)) = Ok _)
    as H by (vm_compute; reflexivity).
  split; [exact H|].
  destruct (graph_returns_what_was_asked _ _ _ _ _ _ H)
    as (_ & Hc & _ & _ & Hnd).
  split; [exact Hc|exact (Hnd eq_refl)].
Defined.

(** X14. With self-loops and repeated edges allowed, as they are by
    default, no draw of [graph] is rejected: on [point_count >= 1]
    vertices the loop ends after [edge_count] rounds, for every state
    of the random source. *)
Theorem graph_ends_when_nothing_is_refused (fuel : nat) (n m : Z)
    (kw : kwargs) (s : RNG) :
  1 ≤ n → m ≤ Z.of_nat fuel →
  default true (kw_self_loop kw) = true →
  default true (kw_repeated_edges kw) = true →
  kw_weight_gen kw = None →
  (Graph.weight_limit_of kw).1 ≤ (Graph.weight_limit_of kw).2 →
  ∃ G, value (Graph.graph fuel n m kw s) = Ok G
       ∧ Graph.edge_count G = Z.max 0 m.
Proof.
  intros Hn Hf Hsl Hre Hwg Hwl.
  destruct (graph_total fuel n m kw s Hn Hf Hsl Hre) as (G & s' & Hrun).
  { intros s0. destruct (weight_gen_total kw Hwg Hwl s0) as (w & s1 & Hw & _).
    by exists w, s1. }
  exists G. rewrite Hrun. split; [done|].
  by destruct (graph_sound fuel n m kw s s' G Hrun) as (_ & ? & _).
Qed.

Lemma graph_ends_when_nothing_is_refused_witness :
  ∃ G, value (Graph.graph 6 3 6 no_kwargs (λ n, Z.of_nat n)) = Ok G
       ∧ Graph.edge_count G = Z.max 0 6.
Proof.
  apply graph_ends_when_nothing_is_refused;
    [lia|simpl; lia|reflexivity|reflexivity|reflexivity|simpl; lia].
Defined.

(** X15. [DAG] raises when [edge_count < point_count - 1].  Whenever it
    returns with [loop] not set, on [point_count >= 1] vertices and
    with the default weights, the graph is directed, has exactly
    [edge_count] edges, every edge goes from a vertex to one that is
    not smaller, to a larger one when [self_loop] is false (so that the
    graph has no cycle), no two edges are the same pair when
    [repeated_edges] is false, and all vertices are on one component. *)
Theorem DAG_is_acyclic_and_connected (fuel : nat) (n m : Z)
    (loop : option bool) (kw : kwargs) (s : RNG) :
  (m < n - 1 →
   Graph.DAG fuel n m loop kw s = Raise (Exception Graph.too_few_edges []))
  ∧ (1 ≤ n → default false loop = false → kw_weight_gen kw = None →
     (Graph.weight_limit_of kw).1 ≤ (Graph.weight_limit_of kw).2 →
     ∀ G, value (Graph.DAG fuel n m loop kw s) = Ok G →
       Graph.directed G = true
       ∧ Graph.edge_count G = m
       ∧ Forall (λ e, 1 ≤ start e ≤ end_ e ∧ end_ e ≤ n
                      ∧ (Graph.weight_limit_of kw).1 ≤ weight e
                        ≤ (Graph.weight_limit_of kw).2)
                (Graph.iterate_edges G)
       ∧ (default false (kw_self_loop kw) = false →
          Forall (λ e, start e < end_ e) (Graph.iterate_edges G))
       ∧ (default true (kw_repeated_edges kw) = false →
          NoDup (endpoints <$> Graph.iterate_edges G))
       ∧ components n (endpoints <$> Graph.iterate_edges G) 1).
Proof.
  split.
  - intros Hm. unfold Graph.DAG. by destruct (Z.ltb_spec m (n - 1)); [|lia].
  - intros Hn Hlp Hwg Hwl G Hrun. apply value_Ok in Hrun as [s' Hrun].
    by destruct (DAG_sound fuel n m loop kw _ s s' G Hn Hlp
                   (weight_gen_total kw Hwg Hwl) Hrun) as (_ & ?).
Qed.

Lemma DAG_is_acyclic_and_connected_witness :
  ∃ G, value (Graph.DAG 20 4 5 None no_kwargs
                (λ n, nth n [0; 0; 0; 0; 0; 0; 1; 2; 0; 3; 1; 0] 0))
       = Ok G
       ∧ Graph.edge_count G = 5
       ∧ Forall (λ e, start e < end_ e) (Graph.iterate_edges G).
Proof.
  eexists.
  assert (value (Graph.DAG 20 4 5 None no_kwargs
                   (λ n, nth n [0; 0; 0; 0; 0; 0; 1; 2; 0; 3; 1; 0] 0))
          = Ok _) as H by (vm_compute; reflexivity).
  split; [exact H|].
  destruct (proj2 (DAG_is_acyclic_and_connected 20 4 5 None no_kwargs
                     (λ n, nth n [0; 0; 0; 0; 0; 0; 1; 2; 0; 3; 1; 0] 0))
              ltac:(lia) eq_refl eq_refl ltac:(simpl; lia) _ H)
    as (_ & Hc & _ & Hasc & _).
  split; [exact Hc|exact (Hasc eq_refl)].
Defined.

(** X16. [DAG] with [repeated_edges=False], no self-loops and [loop] not
    set checks [edge_count] against [point_count * (point_count - 1)],
    the number of ordered pairs, but only draws pairs with the smaller
    vertex first, of which there are half as many.  An [edge_count]
    above that half passes the check and the loop then rejects every
    draw once the pairs are used up: the call does not return, however
    long it runs. *)
Theorem DAG_without_repeats_starves (fuel : nat) (n m : Z)
    (loop : option bool) (kw : kwargs) (s : RNG) :
  1 ≤ n → default false loop = false →
  default false (kw_self_loop kw) = false →
  kw_repeated_edges kw = Some false →
  kw_weight_gen kw = None →
  (Graph.weight_limit_of kw).1 ≤ (Graph.weight_limit_of kw).2 →
  n * (n - 1) < 2 * m → m ≤ Graph._calc_max_edge n true false →
  Graph.DAG fuel n m loop kw s = Diverge.
Proof.
  intros Hn Hlp Hsl Hre Hwg Hwl Hm1 Hm2.
  apply (DAG_starved fuel n m loop kw _ s Hn Hlp Hsl
           ltac:(by rewrite Hre) (weight_gen_total kw Hwg Hwl) Hm1).
  exact Hm2.
Qed.

Lemma DAG_without_repeats_starves_witness :
  Graph._calc_max_edge 3 true false = 6
  ∧ ∀ fuel, Graph.DAG fuel 3 4 None
              (mkKwargs None None (Some false) None None None None None None)
              (λ n, Z.of_nat n) = Diverge.
Proof.
  split; [reflexivity|]. intros fuel.
  apply DAG_without_repeats_starves;
    [lia|reflexivity|reflexivity|reflexivity|reflexivity|simpl; lia|lia
    |vm_compute; discriminate].
Defined.

(** X17. [connected(point_count, edge_count)], which is [UDAG] unless
    [directed] is set, raises when [edge_count < point_count - 1].
    Whenever it returns, on [point_count >= 1] vertices and with the
    default weights, the graph is undirected, has exactly [edge_count]
    edges on the vertices 1 .. point_count, all of them on one
    component, without self-loops or repeated pairs when these are
    refused.  With nothing refused it returns after
    [edge_count - (point_count - 1)] rounds. *)
Theorem connected_is_connected (fuel : nat) (n m : Z) (loop : option bool)
    (kw : kwargs) (s : RNG) :
  (m < n - 1 →
   Graph.connected fuel n m false loop kw s
   = Raise (Exception Graph.too_few_edges []))
  ∧ (1 ≤ n → kw_weight_gen kw = None →
     (Graph.weight_limit_of kw).1 ≤ (Graph.weight_limit_of kw).2 →
     (∀ G, value (Graph.connected fuel n m false loop kw s) = Ok G →
        Graph.directed G = false
        ∧ Graph.edge_count G = m
        ∧ Forall (λ e, 1 ≤ start e ≤ n ∧ 1 ≤ end_ e ≤ n
                       ∧ (Graph.weight_limit_of kw).1 ≤ weight e
                         ≤ (Graph.weight_limit_of kw).2)
                 (Graph.iterate_edges G)
        ∧ (default true (kw_self_loop kw) = false →
           Forall (λ e, start e ≠ end_ e) (Graph.iterate_edges G))
        ∧ (default true (kw_repeated_edges kw) = false →
           NoDup (endpoints <$> Graph.iterate_edges G))
        ∧ components n (endpoints <$> Graph.iterate_edges G) 1)
     ∧ (n - 1 ≤ m → m - (n - 1) ≤ Z.of_nat fuel →
        default true (kw_self_loop kw) = true →
        default true (kw_repeated_edges kw) = true →
        ∃ G, value (Graph.connected fuel n m false loop kw s) = Ok G)).
Proof.
  unfold Graph.connected. split.
  - intros Hm. unfold Graph.UDAG. by destruct (Z.ltb_spec m (n - 1)); [|lia].
  - intros Hn Hwg Hwl. split.
    + intros G Hrun. apply value_Ok in Hrun as [s' Hrun].
      by destruct (UDAG_sound fuel n m kw _ s s' G Hn
                     (weight_gen_total kw Hwg Hwl) Hrun) as (_ & ?).
    + intros Hm Hf Hsl Hre.
      destruct (UDAG_total fuel n m kw _ s Hn Hm Hf Hsl Hre
                  (weight_gen_total kw Hwg Hwl)) as (G & s' & Hrun).
      exists G. by rewrite Hrun.
Qed.

Lemma connected_is_connected_witness :
  ∃ G, value (Graph.connected 3 5 7 false None no_kwargs (λ n, Z.of_nat n))
       = Ok G
       ∧ Graph.edge_count G = 7
       ∧ components 5 (endpoints <$> Graph.iterate_edges G) 1.
Proof.
  destruct (proj2 (connected_is_connected 3 5 7 None no_kwargs
                     (λ n, Z.of_nat n)) ltac:(lia) eq_refl ltac:(simpl; lia))
    as [Hsound Htotal].
  destruct (Htotal ltac:(lia) ltac:(simpl; lia) eq_refl eq_refl) as [G HG].
  exists G. split; [exact HG|].
  destruct (Hsound G HG) as (_ & Hc & _ & _ & _ & Hcomp).
  split; [exact Hc|exact Hcomp].
Defined.

(** X18. [hack_spfa] on [n >= 2] vertices with the default weights
    returns for every state of the random source a graph with
    [3 * (n // 2) - 2 + extra_edge] edges on the vertices 1 .. n: two
    paths of [n // 2 - 1] edges, [n // 2] edges between them and the
    extra edges. *)
Theorem hack_spfa_edge_count (n : Z) (kw : kwargs) (s : RNG) :
  2 ≤ n → 0 ≤ default 2 (kw_extra_edge kw) →
  kw_weight_gen kw = None →
  (Graph.weight_limit_of kw).1 ≤ (Graph.weight_limit_of kw).2 →
  ∃ G, value (Graph.hack_spfa n kw s) = Ok G
       ∧ Graph.directed G = default false (kw_directed kw)
       ∧ Graph.edge_count G = 3 * (n / 2) - 2 + default 2 (kw_extra_edge kw)
       ∧ Forall (λ e, 1 ≤ start e ≤ n ∧ 1 ≤ end_ e ≤ n)
                (Graph.iterate_edges G).
Proof.
  intros Hn He Hwg Hwl.
  destruct (hack_spfa_spec n kw _ s Hn He (weight_gen_total kw Hwg Hwl))
    as (G & s' & Hrun & Hd & _ & Hc & Hr & _).
  exists G. rewrite Hrun. by split_and!.
Qed.

Lemma hack_spfa_edge_count_witness :
  ∃ G, value (Graph.hack_spfa 7 no_kwargs (λ n, Z.of_nat n)) = Ok G
       ∧ Graph.edge_count G = 3 * (7 / 2) - 2 + 2.
Proof.
  destruct (hack_spfa_edge_count 7 no_kwargs (λ n, Z.of_nat n))
    as (G & Hrun & _ & Hc & _); [lia|simpl; lia|reflexivity|simpl; lia|].
  exists G. split; [exact Hrun|exact Hc].
Defined.

(** X19. [forest(n, k)] keeps its promise under keyword arguments: with
    fractions [chain] and [flower] that are not negative and of sum at
    most 1, on a directed or an undirected graph and with any valid
    limits of the weights, it returns exactly [n - k] edges in exactly
    [k] components. *)
Theorem forest_with_kwargs (n k : Z) (kw : kwargs) (s : RNG) :
  1 ≤ k ≤ n →
  (0 <= default 0 (kw_chain kw))%Q → (0 <= default 0 (kw_flower kw))%Q →
  (default 0 (kw_chain kw) + default 0 (kw_flower kw) <= 1)%Q →
  kw_weight_gen kw = None → kw_father_gen kw = None →
  (Graph.weight_limit_of kw).1 ≤ (Graph.weight_limit_of kw).2 →
  ∃ G, value (Graph.forest n k kw s) = Ok G
       ∧ Graph.directed G = default false (kw_directed kw)
       ∧ Graph.edge_count G = n - k
       ∧ components n (endpoints <$> Graph.iterate_edges G) k.
Proof.
  intros Hk Hc Hf Hcf Hwg Hfg Hwl.
  destruct (forest_spec n k kw _ s Hk Hc Hf Hcf (weight_gen_total kw Hwg Hwl)
              Hfg)
    as (G & s' & need_add & Hrun & Hd & Hperm & Hlen & Hdown & Hnd).
  exists G. rewrite Hrun. split; [done|]. split; [done|].
  assert (Z.of_nat (length (Graph.iterate_edges G)) = n - k) as Hcount
    by (by rewrite Hperm).
  split; [exact Hcount|].
  pose proof (downward_components n
                (endpoints <$> Graph.iterate_edges G)) as Hcomp.
  rewrite length_fmap, Hcount in Hcomp.
  replace (n - (n - k)) with k in Hcomp by lia.
  apply Hcomp; [lia| |].
  - apply Forall_fmap. rewrite Hperm.
    eapply Forall_impl; [exact Hdown|]. simpl. intros e (? & ? & ?). done.
  - rewrite <- list_fmap_compose.
    change (snd ∘ endpoints) with end_. by rewrite Hperm.
Qed.

Lemma forest_with_kwargs_witness :
  ∃ G, value (Graph.forest 6 2
                (mkKwargs (Some true) None None (Some (inr (2, 5))) None None
                   None (Some (1 # 2)) (Some (1 # 4)))
                (λ n, Z.of_nat (3 * n + 1))) = Ok G
       ∧ Graph.edge_count G = 6 - 2
       ∧ components 6 (endpoints <$> Graph.iterate_edges G) 2.
Proof.
  destruct (forest_with_kwargs 6 2
              (mkKwargs (Some true) None None (Some (inr (2, 5))) None None
                 None (Some (1 # 2)) (Some (1 # 4)))
              (λ n, Z.of_nat (3 * n + 1)))
    as (G & Hrun & _ & Hc & Hcomp);
    [lia|done|done|done|reflexivity|reflexivity|simpl; lia|].
  exists G. split; [exact Hrun|]. split; [exact Hc|exact Hcomp].
Defined.

End GraphCoverage.

Section DegreeSequenceCoverage.
Import SwitchGraphFacts GraphFacts DegreeSequenceFacts.

(** X20. Whenever [Graph.from_degree_sequence] returns, called with
    [n_iter], the graph realizes the sequence: for a sequence of
    integers it is undirected and vertex [i] is an end of as many edges
    as its entry says (a self-loop counts twice); for a sequence of
    pairs, read as (in-degree, out-degree), it is directed and vertex
    [i] has that many edges coming in and going out.  The switches in
    between change neither. *)
Theorem from_degree_sequence_realizes (D : list Z + list (Z * Z))
    (n_iter : Z) (sl re : bool) (wl : Z + Z * Z) (wg : option (M Z))
    (il : Z) (s : RNG) (G : Graph.t) :
  value (Graph.from_degree_sequence D n_iter sl re wl wg il s) = Ok G →
  match D with
  | inl D =>
      Graph.directed G = false
      ∧ ∀ (i : nat) (d : Z), D !! i = Some d →
          SwitchGraph.starts_at (endpoints <$> Graph.iterate_edges G)
            (1 + Z.of_nat i)
          + SwitchGraph.ends_at (endpoints <$> Graph.iterate_edges G)
              (1 + Z.of_nat i) = d
  | inr D =>
      (D ≠ [] → Graph.directed G = true)
      ∧ ∀ (i : nat) (a b : Z), D !! i = Some (a, b) →
          SwitchGraph.ends_at (endpoints <$> Graph.iterate_edges G)
            (1 + Z.of_nat i) = a
          ∧ SwitchGraph.starts_at (endpoints <$> Graph.iterate_edges G)
              (1 + Z.of_nat i) = b
  end.
Proof.
  intros Hrun. apply value_Ok in Hrun as [s' Hrun].
  by apply (from_degree_sequence_degrees D n_iter sl re wl wg il s s').
Qed.

Lemma from_degree_sequence_realizes_witness :
  ∃ G, value (Graph.from_degree_sequence (inl [2; 2; 1; 1]) 3 false false
                (inr (1, 1)) None 1000000 (λ n, Z.of_nat (5 * n + 1))) = Ok G
       ∧ Graph.directed G = false
       ∧ SwitchGraph.starts_at (endpoints <$> Graph.iterate_edges G) 1
         + SwitchGraph.ends_at (endpoints <$> Graph.iterate_edges G) 1 = 2.
Proof.
  eexists.
  assert (value (Graph.from_degree_sequence (inl [2; 2; 1; 1]) 3 false false
                   (inr (1, 1)) None 1000000 (λ n, Z.of_nat (5 * n + 1)))
          = Ok _) as H by (vm_compute; reflexivity).
  split; [exact H|].
  destruct (from_degree_sequence_realizes _ _ _ _ _ _ _ _ _ H) as [Hd Hdeg].
  split; [exact Hd|]. exact (Hdeg 0%nat 2 eq_refl).
Defined.

(** X21. A degree sequence of zeros is realized by the multiset without
    edges, on which the first [switch] raises [IndexError]:
    [Graph.from_degree_sequence] cannot return the graph without edges
    as soon as one switch is asked for. *)
Theorem from_degree_sequence_without_edges_fails
    (D : list Z + list (Z * Z)) (n_iter : Z) (sl re : bool)
    (wl : Z + Z * Z) (wg : option (M Z)) (il : Z) (s : RNG) :
  match D with
  | inl D => D ≠ [] ∧ Forall (λ d, d = 0) D
  | inr D => D ≠ [] ∧ Forall (λ d, d = (0, 0)) D
  end →
  1 ≤ n_iter → 1 ≤ il →
  Graph.from_degree_sequence D n_iter sl re wl wg il s = Raise IndexError.
Proof. apply from_degree_sequence_no_edges. Qed.

Lemma from_degree_sequence_without_edges_fails_witness :
  Graph.from_degree_sequence (inl [0; 0; 0]) 1 false false (inr (1, 1)) None
    1000000 (λ n, Z.of_nat n) = Raise IndexError.
Proof.
  apply from_degree_sequence_without_edges_fails; [|lia|lia].
  split; [done|]. repeat constructor.
Defined.

End DegreeSequenceCoverage.

Section GraphMatrixCoverage.
Import GraphFacts GraphMatrixFacts.

(** X22. For a graph all of whose edges join indices of the vertex
    list, [GraphMatrix(graph, default, merge)] is a square matrix with
    one row per entry of the vertex list, and its cell [(u, v)] is
    [default] merged with the edges from [u] to [v], in the order of
    [iterate_edges]: with the default [merge], the weight of the last
    such edge, or [default].  On an undirected graph only the cells
    with [u <= v] are ever written: a cell below the diagonal keeps
    [default]. *)
Theorem to_matrix_cells {T} (g : Graph.t) (default : T)
    (merge : T → Edge → T) :
  let n := Z.of_nat (length (Graph.edges g)) in
  Forall (λ e, 0 ≤ start e < n ∧ 0 ≤ end_ e < n) (Graph.iterate_edges g) →
  ∃ M, GraphMatrix.init g default merge = Ok M
       ∧ Z.of_nat (length M) = n
       ∧ Forall (λ row, Z.of_nat (length row) = n) M
       ∧ (∀ u v, 0 ≤ u < n → 0 ≤ v < n →
            GraphMatrix.call M u v
            = Ok (foldl merge default
                    (filter (λ e, start e = u ∧ end_ e = v)
                            (Graph.iterate_edges g))))
       ∧ (Graph.directed g = false →
          ∀ u v, 0 ≤ v < u → u < n → GraphMatrix.call M u v = Ok default).
Proof.
  intros n Hl.
  destruct (matrix_init g default merge Hl) as (M & Hrun & Hlen & Hrows & Hc).
  exists M. split; [exact Hrun|]. split; [unfold n; by rewrite Hlen|].
  split.
  { eapply Forall_impl; [exact Hrows|]. simpl. intros row ->. done. }
  split; [exact Hc|].
  intros Hd u v Hv Hu. rewrite Hc by (fold n; lia).
  rewrite filter_none; [done|].
  pose proof (iterate_edges_canonical g) as Hcan.
  rewrite Forall_forall in Hcan. apply Forall_forall.
  intros e He [Hs Ht]. destruct (Hcan e He) as [?|?]; [lia|congruence].
Qed.

Lemma to_matrix_cells_witness :
  ∃ M, GraphMatrix.to_matrix
         (Graph.Build false [[]; [mkEdge 1 2 5]; [mkEdge 2 1 5]]) = Ok M
       ∧ GraphMatrix.call M 1 2 = Ok 5
       ∧ GraphMatrix.call M 2 1 = Ok (-1).
Proof.
  destruct (to_matrix_cells
              (Graph.Build false [[]; [mkEdge 1 2 5]; [mkEdge 2 1 5]])
              (-1) (λ _ edge, weight edge))
    as (M & Hrun & _ & _ & Hc & Hlow).
  { apply (bool_decide_unpack _). vm_compute. reflexivity. }
  exists M. split; [exact Hrun|]. split.
  - rewrite (Hc 1 2) by (simpl; lia). vm_compute. reflexivity.
  - apply (Hlow eq_refl); simpl; lia.
Defined.

(** X23. An edge with an end that is no index of the vertex list, such
    as [add_edge] accepts as the end of an arc on a directed graph,
    makes [GraphMatrix] raise [IndexError]. *)
Theorem to_matrix_index_error {T} (g : Graph.t) (default : T)
    (merge : T → Edge → T) :
  Exists (λ e, ¬ in_bounds g (start e) ∨ ¬ in_bounds g (end_ e))
         (Graph.iterate_edges g) →
  GraphMatrix.init g default merge = Raise IndexError.
Proof.
  intros Hex. unfold GraphMatrix.init.
  apply (matrix_fold_error (length (Graph.edges g))).
  - apply length_replicate.
  - apply Forall_replicate. apply length_replicate.
  - exact Hex.
Qed.

Lemma to_matrix_index_error_witness :
  ∃ g, Graph.add_edge (Graph.init 2 true) 1 7 1 = Ok g
       ∧ GraphMatrix.to_matrix g = Raise IndexError.
Proof.
  eexists. split; [vm_compute; reflexivity|].
  apply to_matrix_index_error.
  apply Exists_exists. exists (mkEdge 1 7 1). split.
  - vm_compute. apply list_elem_of_here.
  - right. unfold in_bounds. simpl. lia.
Defined.

End GraphMatrixCoverage.

Section RangeQueryCoverage.
Import RangeQuery RangeQueryFacts.

(** X24. [RangeQuery.random(num, position_range, mode)]: when every
    dimension is a valid range the result holds [num] queries (none
    for a negative [num]), each with one pair of bounds per dimension
    inside that dimension, a strict pair in mode [less]; [len()] and
    indexing read that list.  When a dimension is not valid and
    [num >= 1], the first query raises [ValueError]. *)
Theorem random_queries_in_range (num : Z)
    (position_range : option (list dimension))
    (mode : RangeQueryRandomMode) (s : RNG) :
  let dims := default [DInt 10] position_range in
  (Forall (valid mode) dims →
   ∃ result,
     value (random num position_range mode s) = Ok result
     ∧ __len__ result = Z.max 0 num
     ∧ (∀ item, 0 ≤ item < Z.max 0 num →
          ∃ query_l query_r,
            __getitem__ result item = Ok (query_l, query_r)
            ∧ Forall3 (within mode) dims query_l query_r))
  ∧ (1 ≤ num → Forall (λ d, is_Some (bounds d)) dims →
     Exists (λ d, ¬ valid mode d) dims →
     ∃ msg, random num position_range mode s = Raise (ValueError msg)).
Proof.
  intros dims. unfold random. fold dims. split.
  - intros Hv.
    destruct (queries_valid mode dims (range 0 num) [] s Hv)
      as (res & s' & Hrun & Hlen & Hall).
    exists res. rewrite Hrun. split; [done|].
    unfold range in Hlen. rewrite length_seqZ in Hlen.
    split; [unfold __len__; lia|].
    intros item Hitem. unfold __getitem__.
    rewrite GraphFacts.py_index_in_range by lia.
    destruct (lookup_lt_is_Some_2 res (Z.to_nat item) ltac:(lia))
      as [[ql qr] Hq].
    rewrite Hq. exists ql, qr. split; [done|].
    rewrite Forall_forall in Hall.
    apply (Hall (ql, qr)). by eapply list_elem_of_lookup_2.
  - intros Hnum Hb Hex.
    apply queries_invalid; [|done|done].
    unfold range. intros E. apply (f_equal length) in E.
    rewrite length_seqZ in E. simpl in E. lia.
Qed.

Lemma random_queries_in_range_witness :
  Forall (valid less) [DInt 5; DSeq [3; 9]]
  ∧ ∃ result,
      value (random 3 (Some [DInt 5; DSeq [3; 9]]) less (λ n, Z.of_nat n))
      = Ok result
      ∧ __len__ result = Z.max 0 3.
Proof.
  assert (Forall (valid less) [DInt 5; DSeq [3; 9]]) as H.
  { repeat constructor; eexists _, _; (split; [reflexivity|]); simpl; lia. }
  split; [exact H|].
  destruct (proj1 (random_queries_in_range 3 (Some [DInt 5; DSeq [3; 9]]) less
                     (λ n, Z.of_nat n)) H) as (result & Hrun & Hlen & _).
  exists result. split; [exact Hrun|exact Hlen].
Defined.

End RangeQueryCoverage.
